(** * Huffman encoders of the embedded-huffman repository

    A shallow embedding of the three C variants of the encoder

      - [src/huffman.c]          (module [Huffman]),
      - [src/huffman_t2_clock.c] (module [T2Clock]),
      - [src/huffman_vlad.c]     (module [Vlad]),

    and the properties of the encoding pipeline: frequency counting, the
    binary min-heap, tree building, code extraction and bit packing.

    Conventions of the embedding.

      - A C [char] and a C [int] are integers of [Z].  A [char] used as a
        table index ([freq[(int)c]], [codes[(int)c]]) is in bounds when
        [0 <= c < MAX_CHAR]; any other index is undefined behaviour.
      - [unsigned] arithmetic wraps modulo [2^32]; signed overflow is
        undefined behaviour.
      - A call either returns, or has undefined behaviour (an access outside
        an array, a read of an indeterminate object, signed overflow): type
        [outcome].  The C code has no error-reporting path of its own.
      - Loops whose trip count the syntax does not bound take fuel. A loop
        stopped for lack of fuel is [OutOfFuel], never a result; the two
        loops of the heap carry no outcome. The sections on fuel show that
        the fuel of the heap loops and of the loop of [printCodes] is
        enough; the theorems on the other loops show that they return. *)

From Stdlib Require Import Ascii String.
From Stdlib Require Import ZArith List Bool Lia Permutation Sorted.
Import ListNotations.

Local Open Scope Z_scope.

(** ** C integers *)

Definition char := Z.

Definition INT_MAX : Z := 2147483647.
Definition UINT_MODULUS : Z := 4294967296.

(** Conversion of an integer to [unsigned]. *)
Definition to_unsigned (z : Z) : Z := z mod UINT_MODULUS.

(** Conversion of an [unsigned] to [int] (two's complement). *)
Definition to_int (z : Z) : Z :=
  if z mod UINT_MODULUS <=? INT_MAX then z mod UINT_MODULUS
  else z mod UINT_MODULUS - UINT_MODULUS.

(** The characters the code stores in bit strings, and the terminator. *)
Definition NUL : char := 0.
Definition chr0 : char := 48.   (* '0' *)
Definition chr1 : char := 49.   (* '1' *)
Definition dollar : char := 36. (* '$' *)

(** The characters of a string literal. *)
Definition chars (s : string) : list char :=
  map (fun a => Z.of_nat (nat_of_ascii a)) (list_ascii_of_string s).

(** ** Outcome of a call *)

Inductive outcome (A : Type) : Type :=
| Returns (a : A)   (* the call returns [a] *)
| Undefined         (* the execution has undefined behaviour *)
| OutOfFuel.        (* the model stopped a loop that had not finished *)

Arguments Returns {A} a.
Arguments Undefined {A}.
Arguments OutOfFuel {A}.

Definition bind {A B : Type} (m : outcome A) (k : A -> outcome B) : outcome B :=
  match m with
  | Returns a => k a
  | Undefined => Undefined
  | OutOfFuel => OutOfFuel
  end.

Declare Scope outcome_scope.
Delimit Scope outcome_scope with outcome.
Notation "x <- m ;; k" := (bind m (fun x => k))
  (at level 61, m at next level, right associativity) : outcome_scope.
Notation "' pat <- m ;; k" := (bind m (fun x => match x with pat => k end))
  (at level 61, pat pattern, m at next level, right associativity) : outcome_scope.
Local Open Scope outcome_scope.

(** [for (i = lo; i < hi; ++i) body], the body leaving [i] alone. *)
Fixpoint for_loop {St : Type} (n : nat) (i : Z) (body : Z -> St -> outcome St) (s : St)
  : outcome St :=
  match n with
  | O => Returns s
  | S n' => s' <- body i s ;; for_loop n' (i + 1) body s'
  end.

Definition for_range {St : Type} (lo hi : Z) (body : Z -> St -> outcome St) (s : St)
  : outcome St :=
  for_loop (Z.to_nat (hi - lo)) lo body s.

(** ** Arrays *)

(** [a[i]] for reading: outside the array the read is undefined. *)
Definition read {A : Type} (a : list A) (i : Z) : outcome A :=
  if i <? 0 then Undefined
  else match nth_error a (Z.to_nat i) with
       | Some x => Returns x
       | None => Undefined
       end.

(** [a[i] = x] at a position of the list (no effect outside it: callers
    check the bound first). *)
Fixpoint upd {A : Type} (i : nat) (x : A) (a : list A) : list A :=
  match a, i with
  | [], _ => []
  | _ :: t, O => x :: t
  | h :: t, S i' => h :: upd i' x t
  end.

Definition write {A : Type} (a : list A) (i : Z) (x : A) : outcome (list A) :=
  if (0 <=? i) && (i <? Z.of_nat (length a)) then Returns (upd (Z.to_nat i) x a)
  else Undefined.

(** ** Tree nodes

    [struct MinHeapNode { char data; unsigned freq; struct MinHeapNode *left, *right; }].
    A child pointer is [None] when it is [NULL].  Nodes are taken from the
    static array [nodes] one after the other and a slot is never handed out
    twice, so no two trees share a node and a tree is a value. *)

Scheme All for option.

Inductive MinHeapNode : Type :=
| Node (data : char) (freq : Z) (left right : option MinHeapNode).

Definition data (n : MinHeapNode) : char := let (d, _, _, _) := n in d.
Definition freq (n : MinHeapNode) : Z := let (_, f, _, _) := n in f.
Definition left (n : MinHeapNode) : option MinHeapNode := let (_, _, l, _) := n in l.
Definition right (n : MinHeapNode) : option MinHeapNode := let (_, _, _, r) := n in r.

Definition isLeaf (root : MinHeapNode) : bool :=
  match left root, right root with
  | None, None => true
  | _, _ => false
  end.

(** The node the model puts in an array slot whose content is never read. *)
Definition unread : MinHeapNode := Node 0 0 None None.

(** ** The node arena and the min-heap, common to the three files

    The files differ in [MAX_CHAR] (the capacity of [nodes] and of the heap's
    [array]) and in the comparison [minHeapify] makes. *)

Section MinHeap.

Variable MAX_CHAR : Z.

(** [less a b]: [minHeapify] takes child [a] for smaller than [b]. *)
Variable less : MinHeapNode -> MinHeapNode -> bool.

(** [newNode]: [temp = &nodes[nodeIndex++]]; the state is [nodeIndex]. *)
Definition newNode (nodeIndex : Z) (d : char) (f : Z) : outcome (MinHeapNode * Z) :=
  if (0 <=? nodeIndex) && (nodeIndex <? MAX_CHAR)
  then Returns (Node d (to_unsigned f) None None, nodeIndex + 1)
  else Undefined.

(** A heap is the live part [array[0 .. size-1]] of [struct MinHeap]: the
    cells from [size] on are not read, except by [extractMin] on an empty
    heap. Heap indices are C ints that are never negative. *)
Definition swapMinHeapNode (arr : list MinHeapNode) (i j : nat) : list MinHeapNode :=
  let t := nth i arr unread in
  upd j t (upd i (nth j arr unread) arr).

Fixpoint minHeapify_fuel (fuel : nat) (arr : list MinHeapNode) (idx : nat)
  : list MinHeapNode :=
  match fuel with
  | O => arr
  | S fuel' =>
      let size := length arr in
      let smallest := idx in
      let left := (2 * idx + 1)%nat in
      let right := (2 * idx + 2)%nat in
      let smallest :=
        if (left <? size)%nat && less (nth left arr unread) (nth smallest arr unread)
        then left else smallest in
      let smallest :=
        if (right <? size)%nat && less (nth right arr unread) (nth smallest arr unread)
        then right else smallest in
      if (smallest =? idx)%nat then arr
      else minHeapify_fuel fuel' (swapMinHeapNode arr smallest idx) smallest
  end.

Definition minHeapify (arr : list MinHeapNode) (idx : nat) : list MinHeapNode :=
  minHeapify_fuel (length arr) arr idx.

(** [extractMin]: on an empty heap [array[0]] was never written and
    [array[size - 1]] is [array[UINT_MAX]]. *)
Definition extractMin (arr : list MinHeapNode) : outcome (MinHeapNode * list MinHeapNode) :=
  match arr with
  | [] => Undefined
  | temp :: _ =>
      let arr := upd 0 (last arr unread) arr in
      let arr := removelast arr in
      Returns (temp, minHeapify arr 0)
  end.

(** [insertMinHeap]: the loop moves parents down from the new last cell.
    That cell holds whatever an earlier use left there; the loop reads
    parents only, and the model puts [unread] in it. *)
Fixpoint insertMinHeap_loop (fuel : nat) (arr : list MinHeapNode) (i : nat)
  (minHeapNode : MinHeapNode) : list MinHeapNode * nat :=
  match fuel with
  | O => (arr, i)
  | S fuel' =>
      let parent := ((i - 1) / 2)%nat in
      if negb (i =? 0)%nat && (freq minHeapNode <? freq (nth parent arr unread))
      then insertMinHeap_loop fuel' (upd i (nth parent arr unread) arr) parent minHeapNode
      else (arr, i)
  end.

Definition insertMinHeap (arr : list MinHeapNode) (minHeapNode : MinHeapNode)
  : outcome (list MinHeapNode) :=
  if Z.of_nat (length arr) <? MAX_CHAR then
    let arr := arr ++ [unread] in            (* ++minHeap->size *)
    let i := (length arr - 1)%nat in
    let '(arr, i) := insertMinHeap_loop (length arr) arr i minHeapNode in
    Returns (upd i minHeapNode arr)
  else Undefined.

(** [buildMinHeap]: [n = size - 1] is computed in [unsigned] and converted
    to [int]; [(n - 1) / 2] truncates towards zero. *)
Fixpoint buildMinHeap_loop (count : nat) (arr : list MinHeapNode) : list MinHeapNode :=
  match count with
  | O => arr
  | S i => buildMinHeap_loop i (minHeapify arr i)
  end.

Definition buildMinHeap (arr : list MinHeapNode) : list MinHeapNode :=
  let n := to_int (Z.of_nat (length arr) - 1) in
  let i := Z.quot (n - 1) 2 in
  buildMinHeap_loop (Z.to_nat (i + 1)) arr.

(** [createAndBuildMinHeap]: one new leaf per table entry, then the heap
    order. With a negative [size] the heap is given [(unsigned)size] cells
    none of which was written: whatever [buildHuffmanTree] then does with
    it is undefined. *)
Definition createAndBuildMinHeap (nodeIndex : Z) (data : list char) (freq : list Z)
  (size : Z) : outcome (list MinHeapNode * Z) :=
  if size <? 0 then Undefined else
  '(arr, nodeIndex) <-
    for_range 0 size
      (fun i '(arr, nodeIndex) =>
         d <- read data i ;;
         f <- read freq i ;;
         '(node, nodeIndex) <- newNode nodeIndex d f ;;
         if i <? MAX_CHAR then Returns (arr ++ [node], nodeIndex) else Undefined)
      ([], nodeIndex) ;;
  Returns (buildMinHeap arr, nodeIndex).

(** One turn of the merging loop of [buildHuffmanTree]. *)
Definition merge_step (arr : list MinHeapNode) (nodeIndex : Z)
  : outcome (list MinHeapNode * Z) :=
  '(left, arr) <- extractMin arr ;;
  '(right, arr) <- extractMin arr ;;
  '(top, nodeIndex) <- newNode nodeIndex dollar (freq left + freq right) ;;
  let top := Node (data top) (freq top) (Some left) (Some right) in
  arr <- insertMinHeap arr top ;;
  Returns (arr, nodeIndex).

(** [while (cond) { merge }]: [continue arr] is the loop condition. *)
Fixpoint merge_loop (continue : list MinHeapNode -> bool) (fuel : nat)
  (arr : list MinHeapNode) (nodeIndex : Z) : outcome (list MinHeapNode * Z) :=
  if continue arr then
    match fuel with
    | O => OutOfFuel
    | S fuel' =>
        '(arr, nodeIndex) <- merge_step arr nodeIndex ;;
        merge_loop continue fuel' arr nodeIndex
    end
  else Returns (arr, nodeIndex).

Definition buildHuffmanTree_with (continue : list MinHeapNode -> bool)
  (nodeIndex : Z) (data : list char) (freq : list Z) (size : Z)
  : outcome (MinHeapNode * Z) :=
  '(minHeap, nodeIndex) <- createAndBuildMinHeap nodeIndex data freq size ;;
  '(minHeap, nodeIndex) <- merge_loop continue (S (length minHeap)) minHeap nodeIndex ;;
  '(root, _) <- extractMin minHeap ;;
  Returns (root, nodeIndex).

End MinHeap.

(** ** Tables and C strings, common to the three files *)

(** A C string is modelled by its characters before the terminator. A row
    [codes[c]] of the code table is such a string: the cells after its
    terminator are never read. *)
Definition cstring := list char.

(** [freq[(int)c]++]: signed overflow of the counter is undefined. *)
Definition increment (freq : list Z) (c : char) : outcome (list Z) :=
  v <- read freq c ;;
  if v <? INT_MAX then write freq c (v + 1) else Undefined.

(** The scan [for (i = 0; i < MAX_CHAR; ++i) if (freq[i] > 0) ...] that
    fills [uniqueData] and [uniqueFreq]. [(char)i] is [i]: on a platform
    whose [char] is signed no count with [i >= 128] is ever positive. *)
Definition collectUnique (MAX_CHAR : Z) (freq : list Z)
  : outcome (list char * list Z) :=
  for_range 0 MAX_CHAR
    (fun i '(uniqueData, uniqueFreq) =>
       f <- read freq i ;;
       if 0 <? f then Returns (uniqueData ++ [i], uniqueFreq ++ [f])
       else Returns (uniqueData, uniqueFreq))
    ([], []).

(** [strcat(dest, src)] into an array of [cap] characters. *)
Definition strcat (cap : Z) (dest src : cstring) : outcome cstring :=
  if Z.of_nat (length dest) + Z.of_nat (length src) + 1 <=? cap
  then Returns (dest ++ src) else Undefined.

(** [binary_to_char]: eight characters read as binary digits. The result
    is the byte [putchar] writes, the value modulo 256. *)
Fixpoint binary_value (n : nat) (binary : list char) (value : Z) : outcome Z :=
  match n with
  | O => Returns value
  | S n' =>
      match binary with
      | [] => Undefined
      | b :: rest => binary_value n' rest (value * 2 + (b - chr0))
      end
  end.

Definition binary_to_char (binary : list char) : outcome Z :=
  value <- binary_value 8 binary 0 ;;
  Returns (value mod 256).

(** The loop [for (i = 0; i < padded_length; i += 8)] of [convertToAscii]. *)
Fixpoint convert_loop (fuel : nat) (padded_data : list char) (padded_length i : Z)
  (output : list Z) : outcome (list Z) :=
  if i <? padded_length then
    match fuel with
    | O => OutOfFuel
    | S fuel' =>
        b <- binary_to_char (skipn (Z.to_nat i) padded_data) ;;
        convert_loop fuel' padded_data padded_length (i + 8) (output ++ [b])
    end
  else Returns output.

(** [convertToAscii]: [memset(padded_data, '0', padding)], then
    [strcpy(padded_data + padding, compressed)], then one byte for every
    eight characters. [cap] is the capacity of [padded_data]. The result is
    the list of bytes written by [putchar]. *)
Definition convertToAscii_with (cap : Z) (compressed : cstring) : outcome (list Z) :=
  let length := Z.of_nat (length compressed) in
  let padded_length := ((length + 7) / 8) * 8 in
  let padding := padded_length - length in
  if padded_length + 1 <=? cap then
    let padded_data := repeat chr0 (Z.to_nat padding) ++ compressed in
    convert_loop (Z.to_nat padded_length) padded_data padded_length 0 []
  else Undefined.

(** ** The iterative code extraction of [huffman.c] and [huffman_t2_clock.c]

    [printCodes] of [huffman.c] and [generateCodes] of [huffman_t2_clock.c]
    are the same loop over three arrays of [MAX_TREE_HT] cells: [stack],
    [arr] (the bits of the path) and [visited]. [stackTop] and [top] are
    always equal; the model keeps the cells [stack[0 .. stackTop-1]] and
    [arr[0 .. top-1]], every cell above being written before it is read.
    [visited] is kept whole: its cells are set and never cleared. *)

Section Traversal.

Variable MAX_TREE_HT : Z.

(** [while (current != NULL) { stack[stackTop++] = current; arr[top++] = 0;
    current = current->left; }] from a node that is not [NULL]. *)
Fixpoint push_left (current : MinHeapNode) (stack : list MinHeapNode) (arr : list Z)
  : outcome (list MinHeapNode * list Z) :=
  if Z.of_nat (length stack) <? MAX_TREE_HT then
    let stack := stack ++ [current] in
    let arr := arr ++ [0] in
    match left current with
    | Some l => push_left l stack arr
    | None => Returns (stack, arr)
    end
  else Undefined.

(** The row written for a leaf: [arr[i] + '0'] for [i < top]. *)
Definition row_of (arr : list Z) : cstring := map (fun b => b + chr0) arr.

Fixpoint traverse (fuel : nat) (stack : list MinHeapNode) (arr : list Z)
  (visited : list Z) (current : option MinHeapNode) (codes : list cstring)
  : outcome (list cstring * list Z) :=
  if (0 <? length stack)%nat || (match current with Some _ => true | None => false end) then
    match fuel with
    | O => OutOfFuel
    | S fuel' =>
        '(stack, arr) <-
          match current with
          | Some c => push_left c stack arr
          | None => Returns (stack, arr)
          end ;;
        let stackTop := Z.of_nat (length stack) in
        current <- read stack (stackTop - 1) ;;
        v <- read visited (stackTop - 1) ;;
        match right current with
        | Some r =>
            if v =? 0 then
              visited <- write visited (stackTop - 1) 1 ;;
              arr <- write arr (stackTop - 1) 1 ;;
              traverse fuel' stack arr visited (Some r) codes
            else
              let stack := removelast stack in
              let arr := removelast arr in
              codes <- (if isLeaf current then write codes (data current) (row_of arr)
                        else Returns codes) ;;
              traverse fuel' stack arr visited None codes
        | None =>
            let stack := removelast stack in
            let arr := removelast arr in
            codes <- (if isLeaf current then write codes (data current) (row_of arr)
                      else Returns codes) ;;
            traverse fuel' stack arr visited None codes
        end
    end
  else Returns (codes, visited).

(** The number of nodes of a tree. Every turn of the loop pops a node or
    goes right from one, and a node is pushed once: twice the number of
    nodes, and one, is fuel for the whole loop. *)
Fixpoint nodes_of (root : MinHeapNode) : nat :=
  S ((match left root with Some l => nodes_of l | None => 0 end)
     + (match right root with Some r => nodes_of r | None => 0 end)).

Definition traverse_from (root : MinHeapNode) (visited : list Z) (codes : list cstring)
  : outcome (list cstring * list Z) :=
  traverse (2 * nodes_of root + 1) [] [] visited (Some root) codes.

End Traversal.

(** ** [src/huffman_vlad.c] *)

Module Vlad.

Definition MAX_TREE_HT : Z := 8000.
Definition MAX_CHAR : Z := 256.

(** [minHeapify] compares frequencies only. *)
Definition less (a b : MinHeapNode) : bool := freq a <? freq b.

Definition minHeapify := minHeapify less.
Definition extractMin := extractMin less.
Definition insertMinHeap := insertMinHeap MAX_CHAR.
Definition buildMinHeap := buildMinHeap less.
Definition createAndBuildMinHeap := createAndBuildMinHeap MAX_CHAR less.

(** [while (minHeap.size > 1)]. *)
Definition buildHuffmanTree :=
  buildHuffmanTree_with MAX_CHAR less (fun arr => (1 <? length arr)%nat).

(** [generateCodes(root, code, top, codes)]. [code] holds the cells
    [code[0 .. top-1]] of the buffer, so [top] is its length: a call writes
    [code[top]] before it reads it and never writes below [top]. *)
Fixpoint generateCodes (root : MinHeapNode) (code : cstring) (codes : list cstring)
  : outcome (list cstring) :=
  let top := Z.of_nat (length code) in
  codes <-
    match left root with
    | Some l =>
        if top <? MAX_TREE_HT then generateCodes l (code ++ [chr0]) codes
        else Undefined
    | None => Returns codes
    end ;;
  codes <-
    match right root with
    | Some r =>
        if top <? MAX_TREE_HT then generateCodes r (code ++ [chr1]) codes
        else Undefined
    | None => Returns codes
    end ;;
  match left root, right root with
  | None, None =>
      if top <? MAX_TREE_HT then write codes (data root) code else Undefined
  | _, _ => Returns codes
  end.

(** [compressInput]: the loop runs to the first [NUL] of [input], whatever
    the declared length; [input] is the whole array the pointer points
    into, and reading past it is undefined. *)
Fixpoint compressInput (input : list char) (codes : list cstring) (compressed : cstring)
  : outcome cstring :=
  match input with
  | [] => Undefined
  | c :: rest =>
      if c =? NUL then Returns compressed
      else
        row <- read codes c ;;
        compressed <- strcat (MAX_TREE_HT * MAX_CHAR) compressed row ;;
        compressInput rest codes compressed
  end.

(** [padded_data] is a variable-length array of [padded_length + 1]
    characters: it always fits. [output] is a variable-length array of
    [padded_length / 8] bytes: for the empty string its bound is 0, and the
    declaration of a variable-length array whose bound is not positive has
    undefined behaviour. *)
Definition convertToAscii (compressed : cstring) : outcome (list Z) :=
  let length := Z.of_nat (length compressed) in
  let padded_length := ((length + 7) / 8) * 8 in
  if 0 <? padded_length / 8
  then convertToAscii_with (padded_length + 1) compressed
  else Undefined.

(** What a run of [HuffmanCodes] computes. *)
Record result : Type := {
  codes : list cstring;      (* the code table *)
  compressed : cstring;      (* the bit string, as characters *)
  output : list Z            (* the bytes written after "Compressed (ASCII):" *)
}.

(** [HuffmanCodes(data, size)]; the state is the global [nodeIndex]. *)
Definition HuffmanCodes (nodeIndex : Z) (data : list char) (size : Z)
  : outcome (result * Z) :=
  freq <- for_range 0 size
            (fun i freq => c <- read data i ;; increment freq c)
            (repeat 0 (Z.to_nat MAX_CHAR)) ;;
  '(uniqueData, uniqueFreq) <- collectUnique MAX_CHAR freq ;;
  let uniqueSize := Z.of_nat (length uniqueData) in
  '(root, nodeIndex) <- buildHuffmanTree nodeIndex uniqueData uniqueFreq uniqueSize ;;
  codes <- generateCodes root [] (repeat [] (Z.to_nat MAX_CHAR)) ;;
  compressed <- compressInput data codes [] ;;
  output <- convertToAscii compressed ;;
  Returns ({| codes := codes; compressed := compressed; output := output |}, nodeIndex).

(** [main]: [arr[i] = 'a' + (i % 26)] for the 8000 cells of [arr], then
    [HuffmanCodes(arr, size)] with [size = 8000]. *)
Definition arr : list char := map (fun i => 97 + Z.of_nat i mod 26) (seq 0 (Z.to_nat 8000)).

Definition main : outcome (result * Z) := HuffmanCodes 0 arr 8000.

End Vlad.

(** ** [src/huffman.c] *)

Module Huffman.

Definition MAX_TREE_HT : Z := 100.
Definition MAX_CHAR : Z := 256.

(** [minHeapify] compares frequencies, then the characters of nodes of
    equal frequency. *)
Definition less (a b : MinHeapNode) : bool :=
  (freq a <? freq b) || ((freq a =? freq b) && (data a <? data b)).

Definition minHeapify := minHeapify less.
Definition extractMin := extractMin less.
Definition insertMinHeap := insertMinHeap MAX_CHAR.
Definition buildMinHeap := buildMinHeap less.
Definition createAndBuildMinHeap := createAndBuildMinHeap MAX_CHAR less.

Definition isSizeOne (arr : list MinHeapNode) : bool := (length arr =? 1)%nat.

(** [while (!isSizeOne(minHeap))]. *)
Definition buildHuffmanTree :=
  buildHuffmanTree_with MAX_CHAR less (fun arr => negb (isSizeOne arr)).

Definition calculateFrequency (data : list char) (freq : list Z) (size : Z)
  : outcome (list Z) :=
  for_range 0 size (fun i freq => c <- read data i ;; increment freq c) freq.

(** [printCodes]: [visited] is a local array, all zero at the start. *)
Definition printCodes (root : MinHeapNode) (codes : list cstring) : outcome (list cstring) :=
  '(codes, _) <- traverse_from MAX_TREE_HT root (repeat 0 (Z.to_nat MAX_TREE_HT)) codes ;;
  Returns codes.

(** [printHuffmanCodesAndFrequencies]: a line of the table for every
    character of [data] that has not been printed yet, [printed] being a
    local array that is all zero at the start. The result is the lines in
    the order they are printed: the character, its row of [codes] and its
    cell of [freq]. *)
Definition printHuffmanCodesAndFrequencies (data : list char) (codes : list cstring)
  (freq : list Z) (size : Z) : outcome (list (char * cstring * Z)) :=
  '(_, lines) <-
    for_range 0 size
      (fun i '(printed, lines) =>
         c <- read data i ;;
         p <- read printed c ;;
         if p =? 0 then
           row <- read codes c ;;
           f <- read freq c ;;
           printed <- write printed c 1 ;;
           Returns (printed, lines ++ [(c, row, f)])
         else Returns (printed, lines))
      (repeat 0 (Z.to_nat MAX_CHAR), []) ;;
  Returns lines.

Record result : Type := {
  codes : list cstring;   (* the code table *)
  encoded : cstring       (* the bit string printed on the last line *)
}.

(** [HuffmanCodes(data, size)]; the state is the static [nodeIndex] of
    [newNode]. *)
Definition HuffmanCodes (nodeIndex : Z) (data : list char) (size : Z)
  : outcome (result * Z) :=
  freq <- calculateFrequency data (repeat 0 (Z.to_nat MAX_CHAR)) size ;;
  '(uniqueData, uniqueFreq) <- collectUnique MAX_CHAR freq ;;
  let uniqueSize := Z.of_nat (length uniqueData) in
  '(root, nodeIndex) <- buildHuffmanTree nodeIndex uniqueData uniqueFreq uniqueSize ;;
  codes <- printCodes root (repeat [] (Z.to_nat MAX_CHAR)) ;;
  encoded <- for_range 0 size
               (fun i encoded =>
                  c <- read data i ;; row <- read codes c ;; Returns (encoded ++ row))
               [] ;;
  Returns ({| codes := codes; encoded := encoded |}, nodeIndex).

End Huffman.

(** ** [src/huffman_t2_clock.c] *)

Module T2Clock.

Definition MAX_TREE_HT : Z := 100.
Definition MAX_CHAR : Z := 128.
Definition EOF_CHAR : char := 0.

Definition less (a b : MinHeapNode) : bool := freq a <? freq b.

Definition minHeapify := minHeapify less.
Definition extractMin := extractMin less.
Definition insertMinHeap := insertMinHeap MAX_CHAR.
Definition buildMinHeap := buildMinHeap less.
Definition createAndBuildMinHeap := createAndBuildMinHeap MAX_CHAR less.

Definition buildHuffmanTree :=
  buildHuffmanTree_with MAX_CHAR less (fun arr => (1 <? length arr)%nat).

(** The static objects that one call of [HuffmanCodes] leaves to the next.
    [freq] is cleared at the start of a call; [uniqueData], [uniqueFreq],
    [stack], [arr], [padded_data] and [output] are written before they are
    read. *)
Record globals : Type := {
  nodeIndex : Z;
  codes : list cstring;        (* MAX_CHAR rows *)
  compressed : list char;      (* MAX_TREE_HT * MAX_CHAR cells *)
  visited : list Z             (* MAX_TREE_HT cells *)
}.

(** The static objects when the program starts. *)
Definition initial : globals := {|
  nodeIndex := 0;
  codes := repeat [] (Z.to_nat MAX_CHAR);
  compressed := repeat NUL (Z.to_nat (MAX_TREE_HT * MAX_CHAR));
  visited := repeat 0 (Z.to_nat MAX_TREE_HT)
|}.

Definition in_int (z : Z) : bool := (- INT_MAX - 1 <=? z) && (z <=? INT_MAX).

(** [calculateFrequencyInChunks]: the loop over [start]. *)
Fixpoint chunks_loop (fuel : nat) (data : list char) (freq : list Z)
  (size chunkSize start : Z) : outcome (list Z) :=
  if start <? size then
    match fuel with
    | O => OutOfFuel
    | S fuel' =>
        if in_int (start + chunkSize) then
          let end_ := if start + chunkSize <? size then start + chunkSize else size in
          freq <- for_range start end_
                    (fun i freq => c <- read data i ;; increment freq c) freq ;;
          chunks_loop fuel' data freq size chunkSize (start + chunkSize)
        else Undefined
    end
  else Returns freq.

Definition calculateFrequencyInChunks (data : list char) (freq : list Z)
  (size chunkSize : Z) : outcome (list Z) :=
  chunks_loop (Z.to_nat size) data freq size chunkSize 0.

(** [generateCodes]: the loop of [printCodes] on the static [visited]. *)
Definition generateCodes (root : MinHeapNode) (codes : list cstring) (visited : list Z)
  : outcome (list cstring * list Z) :=
  traverse_from MAX_TREE_HT root visited codes.

(** [compressed[bitIndex++] = codes[(int)input[i]][j]] for every character of
    the row. *)
Fixpoint copy_row (row : cstring) (compressed : list char) (bitIndex : Z)
  : outcome (list char * Z) :=
  match row with
  | [] => Returns (compressed, bitIndex)
  | c :: row' =>
      compressed <- write compressed bitIndex c ;;
      copy_row row' compressed (bitIndex + 1)
  end.

Definition compressInput (input : list char) (size : Z) (codes : list cstring)
  (compressed : list char) : outcome (list char) :=
  '(compressed, _) <-
    for_range 0 size
      (fun i '(compressed, bitIndex) =>
         c <- read input i ;;
         row <- read codes c ;;
         copy_row row compressed bitIndex)
      (compressed, 0) ;;
  Returns compressed.

(** [strlen] on an array: the characters before the first [NUL]; without a
    [NUL] the scan leaves the array. *)
Fixpoint strlen (s : list char) : outcome Z :=
  match s with
  | [] => Undefined
  | c :: rest => if c =? NUL then Returns 0 else n <- strlen rest ;; Returns (n + 1)
  end.

(** The string held by an array. *)
Definition string_in (s : list char) : outcome cstring :=
  n <- strlen s ;; Returns (firstn (Z.to_nat n) s).

(** [compressed[strlen(compressed)] = codes[(int)EOF_CHAR][j]] for every
    character of the row of [EOF_CHAR]. *)
Fixpoint append_eof (row : cstring) (compressed : list char) : outcome (list char) :=
  match row with
  | [] => Returns compressed
  | c :: row' =>
      n <- strlen compressed ;;
      compressed <- write compressed n c ;;
      append_eof row' compressed
  end.

Definition convertToAscii (compressed : list char) : outcome (list Z) :=
  s <- string_in compressed ;;
  convertToAscii_with (MAX_TREE_HT * MAX_CHAR) s.

(** [printHuffmanCodes]: a line for every row of [codes] whose first
    character is not the terminator. The result is the lines in the order
    they are printed: the index of the row (printed as "EOF" when it is
    [EOF_CHAR], as a character otherwise) and the row. *)
Definition printHuffmanCodes (codes : list cstring) : outcome (list (Z * cstring)) :=
  for_range 0 MAX_CHAR
    (fun i lines =>
       row <- read codes i ;;
       match row with
       | [] => Returns lines
       | _ :: _ => Returns (lines ++ [(i, row)])
       end)
    [].

(** [HuffmanCodes(data, size)]: the bytes written after
    "Compressed (ASCII):" and the static objects it leaves. *)
Definition HuffmanCodes (g : globals) (data : list char) (size : Z)
  : outcome (list Z * globals) :=
  freq <- calculateFrequencyInChunks data (repeat 0 (Z.to_nat MAX_CHAR)) size 1000 ;;
  freq <- write freq EOF_CHAR 1 ;;
  '(uniqueData, uniqueFreq) <- collectUnique MAX_CHAR freq ;;
  let uniqueSize := Z.of_nat (length uniqueData) in
  '(root, nodeIndex) <- buildHuffmanTree (nodeIndex g) uniqueData uniqueFreq uniqueSize ;;
  '(codes, visited) <- generateCodes root (codes g) (visited g) ;;
  compressed <- compressInput data size codes (compressed g) ;;
  eof <- read codes EOF_CHAR ;;
  compressed <- append_eof eof compressed ;;
  output <- convertToAscii compressed ;;
  Returns (output, {| nodeIndex := nodeIndex; codes := codes;
                      compressed := compressed; visited := visited |}).

End T2Clock.

(** ** Notions the properties are stated with *)

(** [p] is a prefix of [s]. *)
Fixpoint is_prefix (p s : cstring) : bool :=
  match p, s with
  | [], _ => true
  | _ :: _, [] => false
  | a :: p', b :: s' => (a =? b) && is_prefix p' s'
  end.

(** The row of a symbol in a code table. *)
Definition code_of (codes : list cstring) (c : char) : cstring :=
  nth (Z.to_nat c) codes [].

(** No symbol of [symbols] has a code that is a prefix of the code of a
    later symbol of the list, or the other way round. *)
Fixpoint prefix_free (codes : list cstring) (symbols : list char) : bool :=
  match symbols with
  | [] => true
  | c :: rest =>
      forallb (fun d => negb (is_prefix (code_of codes c) (code_of codes d))
                        && negb (is_prefix (code_of codes d) (code_of codes c))) rest
      && prefix_free codes rest
  end.

(** The byte of eight binary digits, the first one the most significant. *)
Definition byte_of (b7 b6 b5 b4 b3 b2 b1 b0 : char) : Z :=
  ((b7 - chr0) * 128 + (b6 - chr0) * 64 + (b5 - chr0) * 32 + (b4 - chr0) * 16
   + (b3 - chr0) * 8 + (b2 - chr0) * 4 + (b1 - chr0) * 2 + (b0 - chr0)) mod 256.

(** A bit string cut into bytes, eight characters at a time from the front. *)
Fixpoint bytes_of (bits : cstring) : list Z :=
  match bits with
  | b7 :: b6 :: b5 :: b4 :: b3 :: b2 :: b1 :: b0 :: rest =>
      byte_of b7 b6 b5 b4 b3 b2 b1 b0 :: bytes_of rest
  | _ => []
  end.

(** The number of ['0'] characters that bring a length to a multiple of 8. *)
Definition padding_of (length : Z) : Z := (8 - length mod 8) mod 8.

(** The leaves of a tree from left to right, each with its weight. *)
Fixpoint leaves (root : MinHeapNode) : list (char * Z) :=
  match left root, right root with
  | None, None => [(data root, freq root)]
  | l, r =>
      (match l with Some l' => leaves l' | None => [] end)
      ++ (match r with Some r' => leaves r' | None => [] end)
  end.

(** Every node of the tree is a leaf or has two children whose weights add
    up to its own. *)
Fixpoint weights_add_up (root : MinHeapNode) : Prop :=
  match left root, right root with
  | None, None => True
  | Some l, Some r =>
      freq root = freq l + freq r /\ weights_add_up l /\ weights_add_up r
  | _, _ => False
  end.

(** The sum of the weights of a list of leaves. *)
Definition weight (entries : list (char * Z)) : Z :=
  fold_right (fun entry acc => snd entry + acc) 0 entries.

(** The leaf [newNode] makes for an entry of the frequency table. *)
Definition leaf_of (entry : char * Z) : MinHeapNode :=
  Node (fst entry) (to_unsigned (snd entry)) None None.

(** The node [buildHuffmanTree] makes of the two nodes it takes out of the
    heap. *)
Definition parent_of (l r : MinHeapNode) : MinHeapNode :=
  Node dollar (to_unsigned (freq l + freq r)) (Some l) (Some r).

(** A tree is summed up correctly: every internal weight is the sum of the
    weights of the leaves below. *)
Definition tree_ok (t : MinHeapNode) : Prop :=
  weights_add_up t /\ freq t = weight (leaves t).

(** The trees of a heap are summed up correctly and their leaves are the
    entries of the table. *)
Definition forest_ok (table : list (char * Z)) (arr : list MinHeapNode) : Prop :=
  Forall tree_ok arr /\ Permutation (flat_map leaves arr) table.

(** The rows of a code table that are not empty, each with its index, the
    first row having index [i]. *)
Fixpoint filled_rows (codes : list cstring) (i : Z) : list (Z * cstring) :=
  match codes with
  | [] => []
  | row :: rest =>
      (match row with [] => [] | _ :: _ => [(i, row)] end) ++ filled_rows rest (i + 1)
  end.

(** The sum of the counts of a table. *)
Definition total (freq : list Z) : Z := fold_right Z.add 0 freq.

(** The entries of a table of counts that are positive, each with its
    index, the first cell having index [i]. *)
Fixpoint positive_entries (freq : list Z) (i : Z) : list (char * Z) :=
  match freq with
  | [] => []
  | f :: rest => (if 0 <? f then [(i, f)] else []) ++ positive_entries rest (i + 1)
  end.

(** The index [minHeapify] finds smallest among [idx] and its children. *)
Definition smallest_of (less : MinHeapNode -> MinHeapNode -> bool)
  (arr : list MinHeapNode) (idx : nat) : nat :=
  let l := (2 * idx + 1)%nat in
  let r := (2 * idx + 2)%nat in
  let s := if (l <? length arr)%nat && less (nth l arr unread) (nth idx arr unread)
           then l else idx in
  if (r <? length arr)%nat && less (nth r arr unread) (nth s arr unread) then r else s.

(** [c] is the index of a child of the cell [i]. *)
Definition child_of (i c : nat) : Prop := c = (2 * i + 1)%nat \/ c = (2 * i + 2)%nat.

(** The cell [i] is in order: no child of it in the heap is taken for
    smaller than it. *)
Definition cell_ordered (less : MinHeapNode -> MinHeapNode -> bool)
  (arr : list MinHeapNode) (i : nat) : Prop :=
  forall c, child_of i c -> (c < length arr)%nat ->
            less (nth c arr unread) (nth i arr unread) = false.

(** The heap order from the cell [k] on, and of the whole heap. *)
Definition heap_ordered_from (less : MinHeapNode -> MinHeapNode -> bool)
  (k : nat) (arr : list MinHeapNode) : Prop :=
  forall i, (k <= i)%nat -> cell_ordered less arr i.

Definition heap_ordered (less : MinHeapNode -> MinHeapNode -> bool)
  (arr : list MinHeapNode) : Prop :=
  heap_ordered_from less 0 arr.

(** The heap order by weight alone, from the cell [k] on and of the whole
    heap: no cell is heavier than a child of it. *)
Definition weight_ordered_from (k : nat) (arr : list MinHeapNode) : Prop :=
  forall i c, (k <= i)%nat -> child_of i c -> (c < length arr)%nat ->
              freq (nth i arr unread) <= freq (nth c arr unread).

Definition weight_ordered (arr : list MinHeapNode) : Prop := weight_ordered_from 0 arr.

(** The capacity [MAX_CHAR] and the comparison of [minHeapify] of each of
    the three files. *)
Definition variants : list (Z * (MinHeapNode -> MinHeapNode -> bool)) :=
  [(Vlad.MAX_CHAR, Vlad.less); (Huffman.MAX_CHAR, Huffman.less);
   (T2Clock.MAX_CHAR, T2Clock.less)].

(** The order of [minHeapify] in [huffman.c]: by weight, then by symbol. *)
Definition precedes (a b : MinHeapNode) : Prop :=
  freq a < freq b \/ (freq a = freq b /\ data a < data b).

(** The leaves of a tree from left to right, each with the path that leads
    to it from the root: ['0'] for a step to the left, ['1'] for a step to
    the right, after the characters [code]. *)
Fixpoint paths (root : MinHeapNode) (code : cstring) : list (char * cstring) :=
  match left root, right root with
  | None, None => [(data root, code)]
  | l, r =>
      (match l with Some l' => paths l' (code ++ [chr0]) | None => [] end)
      ++ (match r with Some r' => paths r' (code ++ [chr1]) | None => [] end)
  end.

(** The number of steps from the root to the deepest node. *)
Fixpoint height (root : MinHeapNode) : nat :=
  match left root, right root with
  | None, None => O
  | l, r =>
      S (Nat.max (match l with Some l' => height l' | None => 0 end)
                 (match r with Some r' => height r' | None => 0 end))
  end.

(** The rows of a list of (symbol, code) pairs stored in a table in order. *)
Definition store_rows (rows : list (char * cstring)) (codes : list cstring)
  : list cstring :=
  fold_left (fun codes row => upd (Z.to_nat (fst row)) (snd row) codes) rows codes.

(** The turns the loop of [printCodes] can still take for a node on the
    stack whose cell of [visited] holds [v]: one to pop it and, when it can
    still go right, one to go right and two for every node below on the
    right. *)
Definition turns_of (n : MinHeapNode) (v : Z) : nat :=
  match right n with
  | Some r => if v =? 0 then 2 + 2 * nodes_of r else 1
  | None => 1
  end.

(** The turns the loop can still take for the nodes of the stack, the cell
    of [visited] of the node at depth [d] being the [d]-th one. *)
Fixpoint pending (stack : list MinHeapNode) (visited : list Z) : nat :=
  match stack with
  | [] => 0
  | n :: stack' => turns_of n (hd 0 visited) + pending stack' (tl visited)
  end.

(** The node reached from [root] along the bits of a path: [0] for a step
    to the left, [1] for a step to the right. *)
Fixpoint walk (root : MinHeapNode) (bits : list Z) : option MinHeapNode :=
  match bits with
  | [] => Some root
  | b :: bits' =>
      match (if b =? 0 then left root else if b =? 1 then right root else None) with
      | Some child => walk child bits'
      | None => None
      end
  end.

(** The stack of [printCodes] is a path from the root: the node of the
    cell [i] is reached along the first [i] bits of [arr]. *)
Definition on_path (root : MinHeapNode) (stack : list MinHeapNode) (arr : list Z) : Prop :=
  length arr = length stack
  /\ forall i, (i < length stack)%nat ->
               walk root (firstn i arr) = Some (nth i stack unread).

(** The number of cells of [visited] below [h] that are not set. *)
Fixpoint unset (h : nat) (visited : list Z) : nat :=
  match h, visited with
  | S h', v :: visited' => ((if (v =? 0)%Z then 1 else 0) + unset h' visited')%nat
  | _, _ => O
  end.

(** The leaves of a tree from left to right, each weight with the depth of
    its leaf, the root being at depth [d]. *)
Fixpoint depths (root : MinHeapNode) (d : nat) : list (Z * nat) :=
  match left root, right root with
  | None, None => [(freq root, d)]
  | l, r =>
      (match l with Some l' => depths l' (S d) | None => [] end)
      ++ (match r with Some r' => depths r' (S d) | None => [] end)
  end.

(** The cost of leaves given by weight and depth: the sum of weight times
    depth. For the tree of a code and the counts of an input it is the
    number of bits of the encoded input. *)
Definition cost (leaves : list (Z * nat)) : Z :=
  fold_right (fun leaf acc => fst leaf * Z.of_nat (snd leaf) + acc) 0 leaves.

(** Every node of the tree is a leaf or has two children. *)
Fixpoint full (root : MinHeapNode) : Prop :=
  match left root, right root with
  | None, None => True
  | Some l, Some r => full l /\ full r
  | _, _ => False
  end.

(** The lists of depths of the leaves of the trees whose nodes are leaves
    or have two children, in any order: a single leaf at depth 0, and a
    leaf replaced by two leaves one level down. *)
Inductive kraft : list nat -> Prop :=
| kraft_leaf : kraft [O]
| kraft_split (d : nat) (l : list nat) : kraft (d :: l) -> kraft (S d :: S d :: l)
| kraft_perm (l l' : list nat) : Permutation l l' -> kraft l -> kraft l'.

(** The cost of the trees of a heap. *)
Definition forest_cost (arr : list MinHeapNode) : Z :=
  fold_right (fun t acc => cost (depths t 0) + acc) 0 arr.

(** The trees of a heap cost no more than the tree [other]: there are
    leaves, with the depths of the leaves of a tree and the weights of the
    trees of the heap, that cost together with the trees of the heap no
    more than [other]. *)
Definition no_worse_than (other : MinHeapNode) (arr : list MinHeapNode) : Prop :=
  exists above,
    kraft (map snd above)
    /\ Permutation (map fst above) (map freq arr)
    /\ forest_cost arr + cost above <= cost (depths other 0).

(** The number of bits of an input in which the symbols have the counts
    [entries], when the code of the symbol [c] has [len c] characters. *)
Definition bits (len : char -> nat) (entries : list (char * Z)) : Z :=
  fold_right (fun entry acc => snd entry * Z.of_nat (len (fst entry)) + acc) 0 entries.

(** The symbols of a list consumed in order by a step that may fail: what
    a counting loop over an array does with the cells it reads. *)
Fixpoint fold_symbols {St : Type} (step : char -> St -> outcome St) (symbols : list char)
  (s : St) : outcome St :=
  match symbols with
  | [] => Returns s
  | c :: rest => s' <- step c s ;; fold_symbols step rest s'
  end.

(** * Properties *)

(** ** Outcomes and counting loops *)

Lemma bind_returns {A : Type} (m : outcome A) : bind m Returns = m.
Proof. destruct m; reflexivity. Qed.

Lemma bind_returns_inv {A B : Type} (m : outcome A) (k : A -> outcome B) (b : B) :
  bind m k = Returns b -> exists a, m = Returns a /\ k a = Returns b.
Proof. destruct m; cbn; intros H; try discriminate. exists a. auto. Qed.

Lemma bind_assoc {A B C : Type} (m : outcome A) (f : A -> outcome B) (g : B -> outcome C) :
  bind (bind m f) g = bind m (fun a => bind (f a) g).
Proof. destruct m; reflexivity. Qed.

Lemma bind_ext {A B : Type} (m : outcome A) (f g : A -> outcome B) :
  (forall a, f a = g a) -> bind m f = bind m g.
Proof. intros H. destruct m; simpl; auto. Qed.

Lemma for_loop_ext {St : Type} (body body' : Z -> St -> outcome St) (n : nat) :
  (forall i s, body i s = body' i s) ->
  forall (i : Z) (s : St), for_loop n i body s = for_loop n i body' s.
Proof.
  intros H. induction n as [|n IH]; intros i s; [reflexivity|].
  cbn [for_loop]. rewrite H. apply bind_ext. intros s'. apply IH.
Qed.

Lemma for_loop_app {St : Type} (body : Z -> St -> outcome St) (n m : nat) :
  forall (i : Z) (s : St),
    for_loop (n + m) i body s
    = bind (for_loop n i body s) (for_loop m (i + Z.of_nat n) body).
Proof.
  induction n as [|n IH]; intros i s.
  - simpl. rewrite Z.add_0_r. reflexivity.
  - cbn [Nat.add for_loop]. rewrite bind_assoc. apply bind_ext. intros s'.
    rewrite IH. replace (i + 1 + Z.of_nat n) with (i + Z.of_nat (S n)) by lia.
    reflexivity.
Qed.

Lemma for_range_split {St : Type} (body : Z -> St -> outcome St) (a b c : Z) (s : St) :
  a <= b <= c ->
  for_range a c body s = bind (for_range a b body s) (for_range b c body).
Proof.
  intros H. unfold for_range.
  replace (Z.to_nat (c - a)) with (Z.to_nat (b - a) + Z.to_nat (c - b))%nat by lia.
  rewrite for_loop_app. replace (a + Z.of_nat (Z.to_nat (b - a))) with b by lia.
  reflexivity.
Qed.

Lemma for_range_empty {St : Type} (body : Z -> St -> outcome St) (a b : Z) (s : St) :
  b <= a -> for_range a b body s = Returns s.
Proof.
  intros H. unfold for_range. replace (Z.to_nat (b - a)) with O by lia. reflexivity.
Qed.

(** ** Arrays *)

Lemma read_nth_error {A : Type} (a : list A) (i : nat) :
  read a (Z.of_nat i)
  = match nth_error a i with Some x => Returns x | None => Undefined end.
Proof.
  unfold read. replace (Z.of_nat i <? 0) with false by (symmetry; apply Z.ltb_ge; lia).
  rewrite Nat2Z.id. reflexivity.
Qed.

Lemma read_in_bounds {A : Type} (a : list A) (i : Z) (d : A) :
  0 <= i < Z.of_nat (length a) -> read a i = Returns (nth (Z.to_nat i) a d).
Proof.
  intros H. unfold read. replace (i <? 0) with false by (symmetry; apply Z.ltb_ge; lia).
  destruct (nth_error a (Z.to_nat i)) eqn:E.
  - f_equal. symmetry. apply nth_error_nth. exact E.
  - apply nth_error_None in E. lia.
Qed.

Lemma read_returns_inv {A : Type} (a : list A) (i : Z) (x d : A) :
  read a i = Returns x -> x = nth (Z.to_nat i) a d.
Proof.
  unfold read. destruct (i <? 0); [discriminate|].
  destruct (nth_error a (Z.to_nat i)) eqn:E; [|discriminate].
  intros H. injection H as <-. symmetry. apply nth_error_nth. exact E.
Qed.

Lemma read_code_of (codes : list cstring) (c : char) :
  0 <= c < Z.of_nat (length codes) -> read codes c = Returns (code_of codes c).
Proof. intros H. apply read_in_bounds. exact H. Qed.

Lemma upd_length {A : Type} (i : nat) (x : A) (a : list A) :
  length (upd i x a) = length a.
Proof.
  revert i. induction a as [|h t IH]; intros [|i]; simpl; auto.
Qed.

Lemma upd_split {A : Type} (i : nat) (x : A) (a : list A) :
  (i < length a)%nat -> upd i x a = firstn i a ++ x :: skipn (S i) a.
Proof.
  revert i. induction a as [|h t IH]; intros [|i] H; simpl in *; try lia; auto.
  f_equal. apply IH. lia.
Qed.

Lemma write_in_bounds {A : Type} (a : list A) (i : Z) (x : A) :
  0 <= i < Z.of_nat (length a) -> write a i x = Returns (upd (Z.to_nat i) x a).
Proof.
  intros H. unfold write.
  replace ((0 <=? i) && (i <? Z.of_nat (length a))) with true; [reflexivity|].
  symmetry. apply andb_true_iff. split; [apply Z.leb_le | apply Z.ltb_lt]; lia.
Qed.

Lemma nth_upd_eq {A : Type} (i : nat) (x d : A) (a : list A) :
  (i < length a)%nat -> nth i (upd i x a) d = x.
Proof.
  revert i. induction a as [|h t IH]; intros [|i] H; simpl in *; try lia; auto.
  apply IH. lia.
Qed.

Lemma nth_upd_neq {A : Type} (i j : nat) (x d : A) (a : list A) :
  i <> j -> nth j (upd i x a) d = nth j a d.
Proof.
  revert i j. induction a as [|h t IH]; intros [|i] [|j] H; simpl; auto; try lia.
Qed.

Lemma upd_same {A : Type} (i : nat) (x d : A) (a : list A) :
  nth i a d = x -> upd i x a = a.
Proof.
  revert i. induction a as [|h t IH]; intros [|i] H; simpl in *; auto.
  - congruence.
  - f_equal. apply IH. exact H.
Qed.

Lemma Forall_upd {A : Type} (P : A -> Prop) (i : nat) (x : A) (a : list A) :
  Forall P a -> P x -> Forall P (upd i x a).
Proof.
  intros H Hx. revert i. induction H as [|h t Hh Ht IH]; intros [|i]; simpl;
    constructor; auto.
Qed.

Lemma upd_Permutation {A : Type} (i : nat) (x d : A) (a : list A) :
  (i < length a)%nat -> Permutation (nth i a d :: upd i x a) (x :: a).
Proof.
  revert i. induction a as [|h t IH]; intros [|i] H; simpl in *; try lia.
  - apply perm_swap.
  - etransitivity; [apply perm_swap|]. etransitivity; [|apply perm_swap].
    apply perm_skip. apply IH. lia.
Qed.

(** Moving the hole of an insertion from [i] to [p]. *)
Lemma upd_move_hole {A : Type} (i p : nat) (x d : A) (a : list A) :
  (i < length a)%nat -> (p < length a)%nat -> p <> i ->
  Permutation (upd p x (upd i (nth p a d) a)) (upd i x a).
Proof.
  intros Hi Hp Hne.
  pose proof (upd_Permutation p x d (upd i (nth p a d) a)) as H1.
  rewrite upd_length, nth_upd_neq in H1 by auto. specialize (H1 Hp).
  pose proof (upd_Permutation i (nth p a d) d a Hi) as H2.
  pose proof (upd_Permutation i x d a Hi) as H3.
  apply (Permutation_cons_inv (a := nth p a d)).
  apply (Permutation_cons_inv (a := nth i a d)).
  etransitivity; [apply perm_skip; exact H1|].
  etransitivity; [apply perm_swap|]. etransitivity; [apply perm_skip; exact H2|].
  etransitivity; [apply perm_swap|].
  etransitivity; [apply perm_skip; symmetry; exact H3|]. apply perm_swap.
Qed.

Lemma for_loop_read {St : Type} (step : char -> St -> outcome St) (symbols : list char) :
  forall (before after : list char) (s : St),
    for_loop (length symbols) (Z.of_nat (length before))
      (fun i s => c <- read (before ++ symbols ++ after) i ;; step c s) s
    = fold_symbols step symbols s.
Proof.
  induction symbols as [|c symbols IH]; intros before after s; [reflexivity|].
  cbn [length for_loop fold_symbols].
  rewrite read_nth_error, nth_error_app2, Nat.sub_diag by lia. cbn [nth_error app bind].
  apply bind_ext. intros s'.
  specialize (IH (before ++ [c]) after s').
  rewrite <- app_assoc, length_app in IH. cbn [app length] in IH.
  replace (Z.of_nat (length before + 1)) with (Z.of_nat (length before) + 1) in IH by lia.
  exact IH.
Qed.

Lemma for_range_read {St : Type} (step : char -> St -> outcome St) (data : list char)
  (size : Z) (s : St) :
  0 <= size <= Z.of_nat (length data) ->
  for_range 0 size (fun i s => c <- read data i ;; step c s) s
  = fold_symbols step (firstn (Z.to_nat size) data) s.
Proof.
  intros H. unfold for_range. rewrite Z.sub_0_r.
  pose proof (for_loop_read step (firstn (Z.to_nat size) data) []
                (skipn (Z.to_nat size) data) s) as E.
  cbn [app length] in E. rewrite firstn_skipn, length_firstn in E.
  replace (Nat.min (Z.to_nat size) (length data)) with (Z.to_nat size) in E by lia.
  exact E.
Qed.

(** ** C integers *)

Lemma to_unsigned_small (z : Z) : 0 <= z < UINT_MODULUS -> to_unsigned z = z.
Proof. intros H. unfold to_unsigned. apply Z.mod_small. exact H. Qed.

Lemma to_int_size (z : Z) : 0 <= z <= INT_MAX -> to_int (z - 1) = z - 1.
Proof.
  intros H. unfold to_int.
  destruct (Z.eq_dec z 0) as [->|E].
  - vm_compute. reflexivity.
  - assert (Hm : (z - 1) mod UINT_MODULUS = z - 1).
    { apply Z.mod_small. unfold UINT_MODULUS, INT_MAX in *. lia. }
    rewrite Hm. destruct (Z.leb_spec (z - 1) INT_MAX) as [_|Hgt]; [reflexivity|].
    unfold INT_MAX in *. lia.
Qed.

(** ** Frequency counting *)

Lemma increment_in_bounds (freq : list Z) (c : char) :
  0 <= c < Z.of_nat (length freq) ->
  nth (Z.to_nat c) freq 0 < INT_MAX ->
  increment freq c
  = Returns (upd (Z.to_nat c) (nth (Z.to_nat c) freq 0 + 1) freq).
Proof.
  intros Hc Hv. unfold increment. rewrite (read_in_bounds freq c 0) by exact Hc.
  cbn [bind]. replace (nth (Z.to_nat c) freq 0 <? INT_MAX) with true
    by (symmetry; apply Z.ltb_lt; exact Hv).
  apply write_in_bounds. exact Hc.
Qed.

(** Counting the symbols of a list into a table adds, to every cell, the
    number of occurrences of its index. *)
Lemma fold_increment_counts (symbols : list char) :
  forall freq : list Z,
    Forall (fun c => 0 <= c < Z.of_nat (length freq)) symbols ->
    Forall (fun v => v + Z.of_nat (length symbols) <= INT_MAX) freq ->
    exists table,
      fold_symbols (fun c freq => increment freq c) symbols freq = Returns table
      /\ length table = length freq
      /\ forall i, nth i table 0
                   = nth i freq 0 + Z.of_nat (count_occ Z.eq_dec symbols (Z.of_nat i)).
Proof.
  induction symbols as [|c symbols IH]; intros freq Hin Hmax.
  - exists freq. cbn. repeat split. intros i. lia.
  - inversion Hin as [|? ? Hc Hin']; subst. cbn [fold_symbols length] in *.
    assert (Hv : nth (Z.to_nat c) freq 0 + Z.of_nat (S (length symbols)) <= INT_MAX).
    { rewrite Forall_forall in Hmax. apply Hmax. apply nth_In. lia. }
    rewrite increment_in_bounds by lia. cbn [bind].
    destruct (IH (upd (Z.to_nat c) (nth (Z.to_nat c) freq 0 + 1) freq))
      as (table & E & L & N).
    + rewrite upd_length. exact Hin'.
    + apply Forall_upd; [|lia]. eapply Forall_impl; [|exact Hmax]. cbn. intros v Hv'. lia.
    + exists table. split; [exact E|]. split; [rewrite L; apply upd_length|].
      intros i. rewrite N. cbn [count_occ].
      destruct (Nat.eq_dec (Z.to_nat c) i) as [<-|Hne].
      * rewrite nth_upd_eq by lia. rewrite Z2Nat.id by lia.
        destruct (Z.eq_dec c c); [lia|contradiction].
      * rewrite nth_upd_neq by exact Hne.
        destruct (Z.eq_dec c (Z.of_nat i)); [lia|reflexivity].
Qed.

Lemma chunks_loop_done (fuel : nat) (data : list char) (freq : list Z)
  (size chunkSize start : Z) :
  size <= start -> T2Clock.chunks_loop fuel data freq size chunkSize start = Returns freq.
Proof.
  intros H. destruct fuel; cbn [T2Clock.chunks_loop];
    replace (start <? size) with false by (symmetry; apply Z.ltb_ge; lia); reflexivity.
Qed.

Lemma chunks_loop_whole (data : list char) (size chunkSize : Z) :
  1 <= chunkSize <= INT_MAX ->
  size <= 1073741824 ->
  forall (fuel : nat) (start : Z) (freq : list Z),
    start = 0 \/ chunkSize <= start ->
    (Z.to_nat (size - start) <= fuel)%nat ->
    T2Clock.chunks_loop fuel data freq size chunkSize start
    = for_range start size (fun i freq => c <- read data i ;; increment freq c) freq.
Proof.
  intros Hchunk Hsize. induction fuel as [|fuel IH]; intros start freq Hstart Hfuel.
  - rewrite chunks_loop_done by lia. rewrite for_range_empty by lia. reflexivity.
  - destruct (Z.le_gt_cases size start) as [Hge|Hlt].
    + rewrite chunks_loop_done by lia. rewrite for_range_empty by lia. reflexivity.
    + cbn [T2Clock.chunks_loop].
      replace (start <? size) with true by (symmetry; apply Z.ltb_lt; lia).
      replace (T2Clock.in_int (start + chunkSize)) with true.
      2:{ symmetry. unfold T2Clock.in_int. apply andb_true_iff.
          unfold INT_MAX in *. split; [apply Z.leb_le | apply Z.leb_le]; lia. }
      destruct (start + chunkSize <? size) eqn:E.
      * apply Z.ltb_lt in E.
        rewrite (for_range_split _ start (start + chunkSize) size) by lia.
        apply bind_ext. intros freq'. apply IH; lia.
      * apply Z.ltb_ge in E.
        etransitivity; [|apply bind_returns].
        apply bind_ext. intros freq'. apply chunks_loop_done. lia.
Qed.

(** C5: counting in windows of [chunkSize] characters
    ([calculateFrequencyInChunks] of [huffman_t2_clock.c]) does what
    counting in one pass ([calculateFrequency] of [huffman.c]) does, from
    every table [freq] and for every array: the same table when the call
    returns, and undefined behaviour on the same inputs. [chunkSize] is an
    [int] not below 1; [size <= 2^30] keeps the [int] sum
    [start + chunkSize] of the loop from overflowing. When the array holds
    [size] symbols that index the table and no counter overflows, the calls
    return, and the table has gained, in every cell, the number of
    occurrences of its index among the [size] symbols. *)
Theorem calculateFrequencyInChunks_agrees (data : list char) (freq : list Z)
  (size chunkSize : Z) :
  1 <= chunkSize <= INT_MAX ->
  size <= 1073741824 ->
  T2Clock.calculateFrequencyInChunks data freq size chunkSize
  = Huffman.calculateFrequency data freq size
  /\ (0 <= size <= Z.of_nat (length data) ->
      Forall (fun c => 0 <= c < Z.of_nat (length freq)) (firstn (Z.to_nat size) data) ->
      Forall (fun v => v + size <= INT_MAX) freq ->
      exists table,
        Huffman.calculateFrequency data freq size = Returns table
        /\ length table = length freq
        /\ forall i, nth i table 0
                     = nth i freq 0
                       + Z.of_nat (count_occ Z.eq_dec (firstn (Z.to_nat size) data)
                                     (Z.of_nat i))).
Proof.
  intros Hchunk Hsize. split.
  - unfold T2Clock.calculateFrequencyInChunks, Huffman.calculateFrequency.
    apply chunks_loop_whole; auto. lia.
  - intros Hlen Hin Hmax. unfold Huffman.calculateFrequency.
    rewrite (for_range_read (fun c freq => increment freq c)) by exact Hlen.
    apply fold_increment_counts; [exact Hin|].
    rewrite length_firstn.
    replace (Nat.min (Z.to_nat size) (length data)) with (Z.to_nat size) by lia.
    eapply Forall_impl; [|exact Hmax]. cbn. intros v Hv. lia.
Qed.

Lemma calculateFrequencyInChunks_agrees_witness :
  T2Clock.calculateFrequencyInChunks (chars "abracadabra") (repeat 0 128) 11 4
  = Huffman.calculateFrequency (chars "abracadabra") (repeat 0 128) 11.
Proof.
  refine (proj1 (calculateFrequencyInChunks_agrees (chars "abracadabra") (repeat 0 128)
                   11 4 _ _)).
  - cbv [INT_MAX]. lia.
  - lia.
Defined.

(** The second window of an input longer than [chunkSize], when twice
    [chunkSize] is no [int]: the sum [start + chunkSize] overflows. *)
Lemma chunks_loop_second_window (data : list char) (freq : list Z) (size chunkSize : Z) :
  1 <= chunkSize <= INT_MAX ->
  INT_MAX < chunkSize + chunkSize ->
  chunkSize < size ->
  chunkSize <= Z.of_nat (length data) ->
  Forall (fun c => 0 <= c < Z.of_nat (length freq)) (firstn (Z.to_nat chunkSize) data) ->
  Forall (fun v => v + chunkSize <= INT_MAX) freq ->
  T2Clock.calculateFrequencyInChunks data freq size chunkSize = Undefined.
Proof.
  intros Hchunk Htwice Hsize Hlen Hin Hmax. unfold T2Clock.calculateFrequencyInChunks.
  destruct (Z.to_nat size) as [|[|fuel]] eqn:F; try lia.
  cbn [T2Clock.chunks_loop]. rewrite Z.add_0_l.
  replace (0 <? size) with true by (symmetry; apply Z.ltb_lt; lia).
  replace (T2Clock.in_int chunkSize) with true.
  2:{ symmetry. unfold T2Clock.in_int. apply andb_true_iff.
      unfold INT_MAX in *. split; apply Z.leb_le; lia. }
  replace (chunkSize <? size) with true by (symmetry; apply Z.ltb_lt; lia).
  rewrite (for_range_read (fun c freq => increment freq c)) by lia.
  destruct (fold_increment_counts (firstn (Z.to_nat chunkSize) data) freq Hin)
    as (table & E & _).
  { eapply Forall_impl; [|exact Hmax]. cbn. intros v Hv.
    rewrite length_firstn. lia. }
  rewrite E. cbn [bind].
  replace (chunkSize <? size) with true by (symmetry; apply Z.ltb_lt; lia).
  replace (T2Clock.in_int (chunkSize + chunkSize)) with false; [reflexivity|].
  symmetry. unfold T2Clock.in_int. apply andb_false_iff. right. apply Z.leb_gt. lia.
Qed.

(** C5, as the specification states it (every input, every chunk size),
    fails where the [int] arithmetic of the chunk loop ends: on an input of
    [2^30 + 1] characters ['a'] counted in windows of [2^30], counting in
    one pass returns the table, and the chunked counter, after the first
    window, computes [start + chunkSize = 2^31], a signed overflow. *)
Lemma calculateFrequencyInChunks_overflows :
  T2Clock.calculateFrequencyInChunks (repeat 97 (Z.to_nat 1073741825))
    (repeat 0 (Z.to_nat 128)) 1073741825 1073741824
  = Undefined
  /\ exists table,
       Huffman.calculateFrequency (repeat 97 (Z.to_nat 1073741825))
         (repeat 0 (Z.to_nat 128)) 1073741825
       = Returns table
       /\ nth 97 table 0 = 1073741825.
Proof.
  assert (Hn : Z.of_nat (Z.to_nat 1073741825) = 1073741825) by (apply Z2Nat.id; lia).
  assert (Hk : Z.of_nat (Z.to_nat 128) = 128) by (apply Z2Nat.id; lia).
  generalize dependent (Z.to_nat 1073741825). intros n Hn.
  generalize dependent (Z.to_nat 128). intros k Hk.
  assert (Hsym : forall m, Forall (fun c => 0 <= c < Z.of_nat (length (repeat 0 k)))
                             (firstn m (repeat 97 n))).
  { intros m. apply Forall_forall. intros c Hc.
    assert (Hc' : In c (repeat 97 n)).
    { rewrite <- (firstn_skipn m (repeat 97 n)). apply in_or_app. left. exact Hc. }
    apply repeat_spec in Hc'. subst c. rewrite repeat_length. lia. }
  split.
  - apply chunks_loop_second_window.
    + unfold INT_MAX. lia.
    + unfold INT_MAX. lia.
    + lia.
    + rewrite repeat_length. lia.
    + apply Hsym.
    + apply Forall_forall. intros v Hv. apply repeat_spec in Hv. subst v.
      unfold INT_MAX. lia.
  - unfold Huffman.calculateFrequency.
    rewrite (for_range_read (fun c freq => increment freq c))
      by (rewrite repeat_length; lia).
    rewrite <- Hn, Nat2Z.id.
    rewrite firstn_all2 by (rewrite repeat_length; lia).
    destruct (fold_increment_counts (repeat 97 n) (repeat 0 k)) as (table & E & _ & N).
    + specialize (Hsym n). rewrite firstn_all2 in Hsym by (rewrite repeat_length; lia).
      exact Hsym.
    + apply Forall_forall. intros v Hv. apply repeat_spec in Hv. subst v.
      rewrite repeat_length. unfold INT_MAX. lia.
    + exists table. split; [exact E|]. rewrite N, nth_repeat.
      change (Z.of_nat 97) with 97. rewrite count_occ_repeat_eq by reflexivity. lia.
Qed.

Lemma collectUnique_loop (l : list Z) :
  forall (before after : list Z) (uniqueData : list char) (uniqueFreq : list Z),
    for_loop (length l) (Z.of_nat (length before))
      (fun i '(uniqueData, uniqueFreq) =>
         f <- read (before ++ l ++ after) i ;;
         if 0 <? f then Returns (uniqueData ++ [i], uniqueFreq ++ [f])
         else Returns (uniqueData, uniqueFreq))
      (uniqueData, uniqueFreq)
    = Returns (uniqueData ++ map fst (positive_entries l (Z.of_nat (length before))),
               uniqueFreq ++ map snd (positive_entries l (Z.of_nat (length before)))).
Proof.
  induction l as [|f l IH]; intros before after uniqueData uniqueFreq.
  - cbn. rewrite !app_nil_r. reflexivity.
  - cbn [length for_loop positive_entries].
    rewrite read_nth_error, nth_error_app2, Nat.sub_diag by lia. cbn [app nth_error bind].
    specialize (IH (before ++ [f]) after).
    rewrite <- app_assoc, length_app in IH. cbn [app length] in IH.
    replace (Z.of_nat (length before + 1)) with (Z.of_nat (length before) + 1) in IH by lia.
    destruct (0 <? f); cbn [bind]; rewrite IH; cbn [app map fst snd];
      rewrite <- ?app_assoc; reflexivity.
Qed.

Lemma collectUnique_spec (freq : list Z) :
  collectUnique (Z.of_nat (length freq)) freq
  = Returns (map fst (positive_entries freq 0), map snd (positive_entries freq 0)).
Proof.
  unfold collectUnique, for_range. rewrite Z.sub_0_r, Nat2Z.id.
  pose proof (collectUnique_loop freq [] [] [] []) as H.
  cbn [app length] in H. rewrite app_nil_r in H. exact H.
Qed.

Lemma positive_entries_none (freq : list Z) (i : Z) :
  (forall k, nth k freq 0 = 0) -> positive_entries freq i = [].
Proof.
  revert i. induction freq as [|f freq IH]; intros i H; [reflexivity|].
  cbn [positive_entries]. pose proof (H O) as H0. cbn in H0. subst f. cbn.
  apply IH. intros k. exact (H (S k)).
Qed.

Lemma positive_entries_single (freq : list Z) :
  forall (i : Z) (j : nat) (n : Z),
    (j < length freq)%nat ->
    0 < n ->
    (forall k, nth k freq 0 = if (k =? j)%nat then n else 0) ->
    positive_entries freq i = [(i + Z.of_nat j, n)].
Proof.
  induction freq as [|f freq IH]; intros i j n Hj Hn H; [cbn in Hj; lia|].
  cbn [positive_entries]. destruct j as [|j].
  - pose proof (H O) as H0. cbn in H0. subst f.
    replace (0 <? n) with true by (symmetry; apply Z.ltb_lt; lia).
    rewrite positive_entries_none; [cbn; do 2 f_equal; lia|].
    intros k. exact (H (S k)).
  - pose proof (H O) as H0. cbn in H0. subst f. cbn [Z.ltb Z.compare app].
    rewrite (IH (i + 1) j n); [do 2 f_equal; lia|cbn in Hj; lia|exact Hn|].
    intros k. exact (H (S k)).
Qed.

(** ** The heap operations keep the nodes of the heap *)

Section MinHeapFacts.

Variable MAX_CHAR : Z.
Variable less : MinHeapNode -> MinHeapNode -> bool.

Lemma swapMinHeapNode_length (arr : list MinHeapNode) (i j : nat) :
  length (swapMinHeapNode arr i j) = length arr.
Proof. unfold swapMinHeapNode. rewrite !upd_length. reflexivity. Qed.

Lemma swapMinHeapNode_Permutation (arr : list MinHeapNode) (i j : nat) :
  (i < length arr)%nat -> (j < length arr)%nat ->
  Permutation (swapMinHeapNode arr i j) arr.
Proof.
  intros Hi Hj. unfold swapMinHeapNode.
  set (arr1 := upd i (nth j arr unread) arr).
  assert (Hn : nth j arr1 unread = nth j arr unread).
  { unfold arr1. destruct (Nat.eq_dec i j) as [->|Hne].
    - apply nth_upd_eq. exact Hj.
    - apply nth_upd_neq. exact Hne. }
  pose proof (upd_Permutation j (nth i arr unread) unread arr1) as H1.
  unfold arr1 in H1 at 1. rewrite upd_length in H1. specialize (H1 Hj). rewrite Hn in H1.
  pose proof (upd_Permutation i (nth j arr unread) unread arr Hi) as H2. fold arr1 in H2.
  apply (Permutation_cons_inv (a := nth j arr unread)).
  etransitivity; [exact H1|]. exact H2.
Qed.

Lemma minHeapify_fuel_Permutation (fuel : nat) :
  forall (arr : list MinHeapNode) (idx : nat),
    Permutation (minHeapify_fuel less fuel arr idx) arr.
Proof.
  induction fuel as [|fuel IH]; intros arr idx; [reflexivity|].
  cbn [minHeapify_fuel].
  set (l := (2 * idx + 1)%nat). set (r := (2 * idx + 2)%nat).
  set (s1 := if (l <? length arr)%nat && less (nth l arr unread) (nth idx arr unread)
             then l else idx).
  set (s2 := if (r <? length arr)%nat && less (nth r arr unread) (nth s1 arr unread)
             then r else s1).
  destruct (s2 =? idx)%nat eqn:E; [reflexivity|].
  apply Nat.eqb_neq in E.
  assert (Hs : (s2 < length arr)%nat /\ (idx < length arr)%nat).
  { unfold s2, s1 in *.
    destruct ((r <? length arr)%nat && _) eqn:Er.
    - apply andb_true_iff in Er. destruct Er as [Er _]. apply Nat.ltb_lt in Er.
      unfold r in *. lia.
    - destruct ((l <? length arr)%nat && _) eqn:El; [|lia].
      apply andb_true_iff in El. destruct El as [El _]. apply Nat.ltb_lt in El.
      unfold l in *. lia. }
  etransitivity; [apply IH|]. apply swapMinHeapNode_Permutation; tauto.
Qed.

Lemma minHeapify_Permutation (arr : list MinHeapNode) (idx : nat) :
  Permutation (minHeapify less arr idx) arr.
Proof. apply minHeapify_fuel_Permutation. Qed.

Lemma extractMin_Permutation (temp : MinHeapNode) (rest : list MinHeapNode) :
  exists arr', extractMin less (temp :: rest) = Returns (temp, arr')
               /\ Permutation arr' rest.
Proof.
  unfold extractMin. eexists. split; [reflexivity|].
  etransitivity; [apply minHeapify_Permutation|].
  cbn [upd]. destruct rest as [|h t]; [reflexivity|].
  change (removelast (last (temp :: h :: t) unread :: h :: t))
    with (last (h :: t) unread :: removelast (h :: t)).
  rewrite (app_removelast_last (l := h :: t) unread) at 3 by discriminate.
  apply Permutation_cons_append.
Qed.

Lemma insertMinHeap_loop_Permutation (minHeapNode : MinHeapNode) (fuel : nat) :
  forall (arr : list MinHeapNode) (i : nat),
    (i < length arr)%nat ->
    let '(arr', i') := insertMinHeap_loop fuel arr i minHeapNode in
    (i' < length arr')%nat
    /\ Permutation (upd i' minHeapNode arr') (upd i minHeapNode arr).
Proof.
  induction fuel as [|fuel IH]; intros arr i Hi; [cbn; auto|].
  cbn [insertMinHeap_loop].
  destruct (negb (i =? 0)%nat && _) eqn:E; [|auto].
  apply andb_true_iff in E. destruct E as [E _].
  apply negb_true_iff, Nat.eqb_neq in E.
  assert (Hp : ((i - 1) / 2 < i)%nat).
  { apply Nat.Div0.div_lt_upper_bound. lia. }
  specialize (IH (upd i (nth ((i - 1) / 2) arr unread) arr) ((i - 1) / 2)%nat).
  rewrite upd_length in IH. specialize (IH ltac:(lia)).
  destruct (insertMinHeap_loop fuel _ _ _) as [arr' i'].
  destruct IH as [IH1 IH2]. split; [exact IH1|].
  etransitivity; [exact IH2|]. apply upd_move_hole; lia.
Qed.

Lemma insertMinHeap_Permutation (arr : list MinHeapNode) (minHeapNode : MinHeapNode) :
  Z.of_nat (length arr) < MAX_CHAR ->
  exists arr', insertMinHeap MAX_CHAR arr minHeapNode = Returns arr'
               /\ Permutation arr' (minHeapNode :: arr).
Proof.
  intros Hcap. unfold insertMinHeap.
  replace (Z.of_nat (length arr) <? MAX_CHAR) with true by (symmetry; apply Z.ltb_lt; lia).
  pose proof (insertMinHeap_loop_Permutation minHeapNode (length (arr ++ [unread]))
                (arr ++ [unread]) (length (arr ++ [unread]) - 1)) as H.
  rewrite length_app in H. cbn [length] in H. specialize (H ltac:(lia)).
  rewrite length_app. cbn [length].
  destruct (insertMinHeap_loop _ _ _ _) as [arr' i'].
  destruct H as [_ H]. eexists. split; [reflexivity|].
  etransitivity; [exact H|].
  replace (length arr + 1 - 1)%nat with (length arr) by lia.
  rewrite upd_split by (rewrite length_app; cbn [length]; lia).
  rewrite firstn_app, firstn_all, Nat.sub_diag. cbn [firstn].
  rewrite app_nil_r, skipn_all2 by (rewrite length_app; cbn [length]; lia).
  symmetry. apply Permutation_cons_append.
Qed.

Lemma buildMinHeap_loop_Permutation (count : nat) :
  forall arr, Permutation (buildMinHeap_loop less count arr) arr.
Proof.
  induction count as [|i IH]; intros arr; [reflexivity|].
  cbn [buildMinHeap_loop]. etransitivity; [apply IH|]. apply minHeapify_Permutation.
Qed.

Lemma buildMinHeap_Permutation (arr : list MinHeapNode) :
  Permutation (buildMinHeap less arr) arr.
Proof. apply buildMinHeap_loop_Permutation. Qed.

End MinHeapFacts.

(** ** The fuel of the heap loops is enough *)

Section HeapFuel.

Variable less : MinHeapNode -> MinHeapNode -> bool.

Lemma minHeapify_fuel_step (fuel : nat) (arr : list MinHeapNode) (idx : nat) :
  minHeapify_fuel less (S fuel) arr idx
  = if (smallest_of less arr idx =? idx)%nat then arr
    else minHeapify_fuel less fuel
           (swapMinHeapNode arr (smallest_of less arr idx) idx)
           (smallest_of less arr idx).
Proof. reflexivity. Qed.

Lemma smallest_of_range (arr : list MinHeapNode) (idx : nat) :
  smallest_of less arr idx = idx
  \/ (idx < smallest_of less arr idx < length arr)%nat.
Proof.
  unfold smallest_of.
  destruct (Nat.ltb_spec (2 * idx + 1) (length arr));
    destruct (Nat.ltb_spec (2 * idx + 2) (length arr)); cbn [andb];
    repeat match goal with |- context [if ?b then _ else _] => destruct b end; lia.
Qed.

Lemma minHeapify_fuel_enough (fuel : nat) :
  forall (arr : list MinHeapNode) (idx : nat),
    (length arr - idx <= fuel)%nat ->
    minHeapify_fuel less (S fuel) arr idx = minHeapify_fuel less fuel arr idx.
Proof.
  induction fuel as [|fuel IH]; intros arr idx H.
  - rewrite minHeapify_fuel_step. cbn [minHeapify_fuel].
    destruct (smallest_of_range arr idx) as [E|E]; [|lia].
    rewrite E, Nat.eqb_refl. reflexivity.
  - rewrite (minHeapify_fuel_step (S fuel) arr idx), (minHeapify_fuel_step fuel arr idx).
    destruct (smallest_of_range arr idx) as [E|E].
    + rewrite E, Nat.eqb_refl. reflexivity.
    + replace (smallest_of less arr idx =? idx)%nat with false
        by (symmetry; apply Nat.eqb_neq; lia).
      apply IH. rewrite swapMinHeapNode_length. lia.
Qed.

(** [minHeapify] is the recursive function of the C code. *)
Lemma minHeapify_unfold (arr : list MinHeapNode) (idx : nat) :
  minHeapify less arr idx
  = if (smallest_of less arr idx =? idx)%nat then arr
    else minHeapify less (swapMinHeapNode arr (smallest_of less arr idx) idx)
           (smallest_of less arr idx).
Proof.
  unfold minHeapify. destruct (smallest_of_range arr idx) as [E|E].
  - rewrite E, Nat.eqb_refl. destruct (length arr); [reflexivity|].
    rewrite minHeapify_fuel_step, E, Nat.eqb_refl. reflexivity.
  - destruct (length arr) as [|n] eqn:L; [lia|].
    rewrite minHeapify_fuel_step.
    replace (smallest_of less arr idx =? idx)%nat with false
      by (symmetry; apply Nat.eqb_neq; lia).
    rewrite swapMinHeapNode_length, L. symmetry. apply minHeapify_fuel_enough.
    rewrite swapMinHeapNode_length. lia.
Qed.

(** The loop of [insertMinHeap] stops at its exit condition. *)
Lemma insertMinHeap_loop_exit (minHeapNode : MinHeapNode) (fuel : nat) :
  forall (arr : list MinHeapNode) (i : nat),
    (i < fuel)%nat ->
    let '(arr', i') := insertMinHeap_loop fuel arr i minHeapNode in
    negb (i' =? 0)%nat && (freq minHeapNode <? freq (nth ((i' - 1) / 2) arr' unread))
    = false.
Proof.
  induction fuel as [|fuel IH]; intros arr i Hi; [lia|].
  cbn [insertMinHeap_loop].
  destruct (negb (i =? 0)%nat && _) eqn:E; [|exact E].
  apply andb_true_iff in E. destruct E as [E _].
  apply negb_true_iff, Nat.eqb_neq in E.
  apply IH. assert (((i - 1) / 2 < i)%nat) by (apply Nat.Div0.div_lt_upper_bound; lia).
  lia.
Qed.

End HeapFuel.

(** ** The heap order *)

Section HeapOrder.

Variable less : MinHeapNode -> MinHeapNode -> bool.
Hypothesis less_irrefl : forall a, less a a = false.
Hypothesis less_trans :
  forall a b c, less a b = true -> less b c = true -> less a c = true.
Hypothesis less_neg_trans :
  forall a b c, less a b = false -> less b c = false -> less a c = false.

Lemma less_asym (a b : MinHeapNode) : less a b = true -> less b a = false.
Proof.
  intros H. destruct (less b a) eqn:E; [|reflexivity].
  rewrite <- (less_irrefl a). symmetry. eapply less_trans; eassumption.
Qed.


(** What [minHeapify] finds: the cell is in order, or a child that is
    smaller than the cell and not larger than the other child. *)
Lemma smallest_of_spec (arr : list MinHeapNode) (idx : nat) :
  (smallest_of less arr idx = idx /\ cell_ordered less arr idx)
  \/ (child_of idx (smallest_of less arr idx)
      /\ (smallest_of less arr idx < length arr)%nat
      /\ less (nth (smallest_of less arr idx) arr unread) (nth idx arr unread) = true
      /\ forall c, child_of idx c -> (c < length arr)%nat ->
                   less (nth c arr unread) (nth (smallest_of less arr idx) arr unread)
                   = false).
Proof.
  unfold smallest_of, cell_ordered, child_of.
  set (l := (2 * idx + 1)%nat). set (r := (2 * idx + 2)%nat).
  destruct (Nat.ltb_spec l (length arr)) as [El|El];
    destruct (Nat.ltb_spec r (length arr)) as [Er|Er]; cbn [andb];
    try (unfold l, r in *; lia).
  - destruct (less (nth l arr unread) (nth idx arr unread)) eqn:Hl;
      [destruct (less (nth r arr unread) (nth l arr unread)) eqn:Hr
      |destruct (less (nth r arr unread) (nth idx arr unread)) eqn:Hr].
    + right. repeat split; auto. { eapply less_trans; eassumption. }
      intros c [->| ->] _; fold l r; [apply less_asym; exact Hr | apply less_irrefl].
    + right. repeat split; auto.
      intros c [->| ->] _; fold l r; [apply less_irrefl | exact Hr].
    + right. repeat split; auto.
      intros c [->| ->] _; fold l r; [|apply less_irrefl].
      destruct (less (nth l arr unread) (nth r arr unread)) eqn:E; [|reflexivity].
      rewrite <- Hl. symmetry. eapply less_trans; eassumption.
    + left. split; [reflexivity|]. intros c [->| ->] _; fold l r; assumption.
  - destruct (less (nth l arr unread) (nth idx arr unread)) eqn:Hl.
    + right. repeat split; auto.
      intros c [->| ->] Hc; fold l r in Hc |- *; [apply less_irrefl | lia].
    + left. split; [reflexivity|]. intros c [->| ->] Hc; fold l r in Hc |- *;
        [assumption | lia].
  - left. split; [reflexivity|]. intros c [->| ->] Hc; fold l r in Hc; lia.
Qed.

Lemma nth_swap_other (arr : list MinHeapNode) (i j k : nat) :
  k <> i -> k <> j -> nth k (swapMinHeapNode arr i j) unread = nth k arr unread.
Proof.
  intros Hi Hj. unfold swapMinHeapNode. rewrite !nth_upd_neq by auto. reflexivity.
Qed.

Lemma nth_swap_right (arr : list MinHeapNode) (i j : nat) :
  (j < length arr)%nat ->
  nth j (swapMinHeapNode arr i j) unread = nth i arr unread.
Proof.
  intros Hj. unfold swapMinHeapNode. apply nth_upd_eq. rewrite upd_length. exact Hj.
Qed.

Lemma nth_swap_left (arr : list MinHeapNode) (i j : nat) :
  (i < length arr)%nat -> i <> j ->
  nth i (swapMinHeapNode arr i j) unread = nth j arr unread.
Proof.
  intros Hi Hne. unfold swapMinHeapNode. rewrite nth_upd_neq by auto.
  apply nth_upd_eq. exact Hi.
Qed.

(** The state of a sift-down that has reached the cell [j]: the cells from
    [k] on are in order except [j], and the parent of [j], when it is among
    them, is not larger than the children of [j]. *)
Lemma minHeapify_fuel_ordered (fuel : nat) :
  forall (arr : list MinHeapNode) (k j : nat),
    (k <= j)%nat ->
    (length arr - j <= fuel)%nat ->
    (forall i, (k <= i)%nat -> i <> j -> cell_ordered less arr i) ->
    (forall p c, (k <= p)%nat -> child_of p j -> child_of j c -> (c < length arr)%nat ->
                 less (nth c arr unread) (nth p arr unread) = false) ->
    heap_ordered_from less k (minHeapify_fuel less fuel arr j).
Proof.
  induction fuel as [|fuel IH]; intros arr k j Hkj Hfuel Hothers Hgrand.
  - cbn [minHeapify_fuel]. intros i Hi. destruct (Nat.eq_dec i j) as [->|Hne].
    + intros c [->| ->] Hc; lia.
    + apply Hothers; assumption.
  - rewrite minHeapify_fuel_step.
    destruct (smallest_of_spec arr j) as [[Es Hord]|(Hchild & Hlen & Hless & Hmin)].
    + rewrite Es, Nat.eqb_refl. intros i Hi. destruct (Nat.eq_dec i j) as [->|Hne].
      * exact Hord.
      * apply Hothers; assumption.
    + set (s := smallest_of less arr j) in *.
      assert (Hsj : (j < s)%nat) by (destruct Hchild; lia).
      replace (s =? j)%nat with false by (symmetry; apply Nat.eqb_neq; lia).
      apply IH.
      * lia.
      * rewrite swapMinHeapNode_length. lia.
      * intros i Hi Hne c Hc Hclen. rewrite swapMinHeapNode_length in Hclen.
        destruct (Nat.eq_dec i j) as [->|Hij].
        -- rewrite nth_swap_right by lia.
           destruct (Nat.eq_dec c s) as [->|Hcs].
           ++ rewrite nth_swap_left by lia. apply less_asym. exact Hless.
           ++ rewrite nth_swap_other by (destruct Hc; lia). apply Hmin; assumption.
        -- rewrite (nth_swap_other arr s j i) by lia.
           assert (Hcs : c <> s) by (destruct Hc, Hchild; lia).
           destruct (Nat.eq_dec c j) as [->|Hcj].
           ++ rewrite nth_swap_right by lia. apply (Hgrand i s); auto.
           ++ rewrite nth_swap_other by lia. apply (Hothers i Hi Hij c Hc Hclen).
      * intros p c Hp Hps Hsc Hclen. rewrite swapMinHeapNode_length in Hclen.
        assert (p = j) by (destruct Hps, Hchild; lia). subst p.
        rewrite nth_swap_right by lia.
        rewrite nth_swap_other by (destruct Hsc; lia).
        apply (Hothers s ltac:(lia) ltac:(lia) c Hsc Hclen).
Qed.

Lemma minHeapify_ordered (arr : list MinHeapNode) (k : nat) :
  heap_ordered_from less (S k) arr -> heap_ordered_from less k (minHeapify less arr k).
Proof.
  intros H. apply minHeapify_fuel_ordered.
  - lia.
  - lia.
  - intros i Hi Hne. apply H. lia.
  - intros p c Hp Hpk. destruct Hpk; lia.
Qed.

Lemma buildMinHeap_loop_ordered (count : nat) :
  forall arr, heap_ordered_from less count arr ->
              heap_ordered less (buildMinHeap_loop less count arr).
Proof.
  induction count as [|i IH]; intros arr H; [exact H|].
  cbn [buildMinHeap_loop]. apply IH. apply minHeapify_ordered. exact H.
Qed.

(** [buildMinHeap] puts a heap that fits an [int] in order. *)
Lemma buildMinHeap_ordered (arr : list MinHeapNode) :
  Z.of_nat (length arr) <= INT_MAX ->
  heap_ordered less (buildMinHeap less arr).
Proof.
  intros Hsize. unfold buildMinHeap. rewrite to_int_size by lia.
  apply buildMinHeap_loop_ordered.
  intros i Hi c Hc Hlen. exfalso.
  destruct (Z.le_gt_cases 2 (Z.of_nat (length arr))) as [H2|H2].
  - rewrite Z.quot_div_nonneg in Hi by lia.
    pose proof (Z.div_mod (Z.of_nat (length arr) - 1 - 1) 2 ltac:(lia)).
    pose proof (Z.mod_pos_bound (Z.of_nat (length arr) - 1 - 1) 2 ltac:(lia)).
    destruct Hc; lia.
  - destruct Hc; lia.
Qed.

(** In a heap in order no cell is taken for smaller than the first one. *)
Lemma heap_ordered_root (arr : list MinHeapNode) :
  heap_ordered less arr ->
  forall i, (i < length arr)%nat -> less (nth i arr unread) (nth 0 arr unread) = false.
Proof.
  intros H i. induction i as [i IH] using lt_wf_ind. intros Hi.
  destruct i as [|i]; [apply less_irrefl|].
  set (p := (i / 2)%nat).
  assert (Hp : (p < S i)%nat) by (apply Nat.Div0.div_lt_upper_bound; lia).
  assert (Hc : child_of p (S i)).
  { unfold child_of, p. pose proof (Nat.div_mod_eq i 2) as E.
    pose proof (Nat.mod_upper_bound i 2 ltac:(lia)). lia. }
  eapply less_neg_trans; [exact (H p ltac:(lia) (S i) Hc Hi)|].
  apply IH; lia.
Qed.

(** [extractMin] on a heap in order returns a node that none of the heap is
    taken for smaller than, and leaves a heap in order. *)
Lemma extractMin_ordered (arr : list MinHeapNode) :
  arr <> [] ->
  heap_ordered less arr ->
  exists m rest,
    extractMin less arr = Returns (m, rest)
    /\ Permutation (m :: rest) arr
    /\ (forall x, In x arr -> less x m = false)
    /\ heap_ordered less rest.
Proof.
  intros Hne Hord. destruct arr as [|temp tl]; [contradiction|].
  destruct (extractMin_Permutation less temp tl) as (rest & E & P).
  exists temp, rest. split; [exact E|]. split; [apply perm_skip; exact P|]. split.
  - intros x Hx. apply (In_nth _ _ unread) in Hx. destruct Hx as (i & Hi & <-).
    exact (heap_ordered_root _ Hord i Hi).
  - assert (Erest : rest = minHeapify less
                            (removelast (upd 0 (last (temp :: tl) unread) (temp :: tl))) 0).
    { unfold extractMin in E. inversion E. reflexivity. }
    rewrite Erest. clear Erest E.
    unfold minHeapify. apply minHeapify_fuel_ordered; [lia|lia| |intros p c _ Hp; destruct Hp; lia].
    intros i _ Hi c Hc Hlen.
    rewrite removelast_firstn_len, upd_length in Hlen |- *.
    rewrite length_firstn, upd_length in Hlen.
    rewrite !nth_firstn.
    replace (c <? pred (length (temp :: tl)))%nat with true
      by (symmetry; apply Nat.ltb_lt; lia).
    replace (i <? pred (length (temp :: tl)))%nat with true
      by (symmetry; apply Nat.ltb_lt; destruct Hc; lia).
    rewrite !nth_upd_neq by (destruct Hc; lia).
    apply (Hord i ltac:(lia) c Hc). lia.
Qed.

End HeapOrder.

(** The comparisons of the three files are strict orders whose complement
    is transitive. *)
Lemma Huffman_less_precedes (a b : MinHeapNode) :
  Huffman.less a b = true <-> precedes a b.
Proof.
  unfold Huffman.less, precedes.
  rewrite orb_true_iff, andb_true_iff, !Z.ltb_lt, Z.eqb_eq. reflexivity.
Qed.

Lemma Huffman_less_not_precedes (a b : MinHeapNode) :
  Huffman.less a b = false <-> ~ precedes a b.
Proof.
  rewrite <- Huffman_less_precedes. destruct (Huffman.less a b); split; congruence.
Qed.

Lemma Huffman_less_irrefl (a : MinHeapNode) : Huffman.less a a = false.
Proof. apply Huffman_less_not_precedes. unfold precedes. lia. Qed.

Lemma Huffman_less_trans (a b c : MinHeapNode) :
  Huffman.less a b = true -> Huffman.less b c = true -> Huffman.less a c = true.
Proof. rewrite !Huffman_less_precedes. unfold precedes. lia. Qed.

Lemma Huffman_less_neg_trans (a b c : MinHeapNode) :
  Huffman.less a b = false -> Huffman.less b c = false -> Huffman.less a c = false.
Proof. rewrite !Huffman_less_not_precedes. unfold precedes. lia. Qed.

Lemma Vlad_less_irrefl (a : MinHeapNode) : Vlad.less a a = false.
Proof. apply Z.ltb_irrefl. Qed.

Lemma Vlad_less_trans (a b c : MinHeapNode) :
  Vlad.less a b = true -> Vlad.less b c = true -> Vlad.less a c = true.
Proof. unfold Vlad.less. rewrite !Z.ltb_lt. lia. Qed.

Lemma Vlad_less_neg_trans (a b c : MinHeapNode) :
  Vlad.less a b = false -> Vlad.less b c = false -> Vlad.less a c = false.
Proof. unfold Vlad.less. rewrite !Z.ltb_ge. lia. Qed.

(** C4, as the code has it. In [huffman.c], where [minHeapify] breaks ties
    of weight by symbol value, a queue that [buildMinHeap] has put in order
    returns from [extractMin] a node that no node of the queue precedes in
    the order by weight, then symbol, and is left in order: the next
    [extractMin] returns the least node of the rest. In [huffman_vlad.c]
    [minHeapify] compares weights only and [extractMin] returns a node of
    least weight. *)
Theorem extractMin_returns_the_least (arr : list MinHeapNode) :
  arr <> [] ->
  Z.of_nat (length arr) <= Huffman.MAX_CHAR ->
  (exists m rest,
     Huffman.extractMin (Huffman.buildMinHeap arr) = Returns (m, rest)
     /\ Permutation (m :: rest) arr
     /\ (forall x, In x arr -> ~ precedes x m)
     /\ (rest <> [] ->
         exists m' rest',
           Huffman.extractMin rest = Returns (m', rest')
           /\ Permutation (m' :: rest') rest
           /\ (forall x, In x rest -> ~ precedes x m')))
  /\ (exists m rest,
        Vlad.extractMin (Vlad.buildMinHeap arr) = Returns (m, rest)
        /\ Permutation (m :: rest) arr
        /\ (forall x, In x arr -> freq m <= freq x)).
Proof.
  intros Hne Hsize.
  assert (Hint : Z.of_nat (length arr) <= INT_MAX)
    by (unfold Huffman.MAX_CHAR, INT_MAX in *; lia).
  split.
  - pose proof (buildMinHeap_ordered Huffman.less Huffman_less_irrefl Huffman_less_trans
                  arr Hint) as Hord.
    pose proof (buildMinHeap_Permutation Huffman.less arr) as Hperm.
    destruct (extractMin_ordered Huffman.less Huffman_less_irrefl Huffman_less_trans
                Huffman_less_neg_trans (buildMinHeap Huffman.less arr))
      as (m & rest & E & P & Hmin & Hrest); [|exact Hord|].
    { intros E. rewrite E in Hperm. apply Permutation_nil in Hperm. contradiction. }
    exists m, rest. split; [exact E|]. split; [etransitivity; eassumption|]. split.
    + intros x Hx. apply Huffman_less_not_precedes. apply Hmin.
      eapply Permutation_in; [symmetry; exact Hperm|exact Hx].
    + intros Hne'.
      destruct (extractMin_ordered Huffman.less Huffman_less_irrefl Huffman_less_trans
                  Huffman_less_neg_trans rest Hne' Hrest)
        as (m' & rest' & E' & P' & Hmin' & _).
      exists m', rest'. split; [exact E'|]. split; [exact P'|].
      intros x Hx. apply Huffman_less_not_precedes. apply Hmin'. exact Hx.
  - pose proof (buildMinHeap_ordered Vlad.less Vlad_less_irrefl Vlad_less_trans
                  arr Hint) as Hord.
    pose proof (buildMinHeap_Permutation Vlad.less arr) as Hperm.
    destruct (extractMin_ordered Vlad.less Vlad_less_irrefl Vlad_less_trans
                Vlad_less_neg_trans (buildMinHeap Vlad.less arr))
      as (m & rest & E & P & Hmin & _); [|exact Hord|].
    { intros E. rewrite E in Hperm. apply Permutation_nil in Hperm. contradiction. }
    exists m, rest. split; [exact E|]. split; [etransitivity; eassumption|].
    intros x Hx. apply Z.ltb_ge. apply Hmin.
    eapply Permutation_in; [symmetry; exact Hperm|exact Hx].
Qed.

Lemma extractMin_returns_the_least_witness :
  exists m rest,
    Huffman.extractMin
      (Huffman.buildMinHeap [Node 100 1 None None; Node 99 1 None None;
                             Node 97 5 None None])
    = Returns (m, rest)
    /\ Permutation (m :: rest)
         [Node 100 1 None None; Node 99 1 None None; Node 97 5 None None]
    /\ (forall x, In x [Node 100 1 None None; Node 99 1 None None; Node 97 5 None None] ->
                  ~ precedes x m).
Proof.
  assert (Hne : [Node 100 1 None None; Node 99 1 None None; Node 97 5 None None] <> [])
    by discriminate.
  assert (Hsize : Z.of_nat (length [Node 100 1 None None; Node 99 1 None None;
                                    Node 97 5 None None]) <= Huffman.MAX_CHAR)
    by (vm_compute; discriminate).
  destruct (extractMin_returns_the_least _ Hne Hsize) as [(m & rest & E & P & H & _) _].
  exists m, rest. split; [exact E|]. split; [exact P|exact H].
Defined.

(** C4, as the specification states it, fails in [huffman_vlad.c]: on the
    table of "abracadabra" the queue [buildMinHeap] leaves holds [c] and [d]
    with weight 1, and [extractMin] returns [d], the larger symbol, first
    and [c] second. *)
Lemma extractMin_ignores_the_symbol :
  exists heap rest rest',
    Vlad.createAndBuildMinHeap 0 (chars "abcdr") [5; 2; 1; 1; 2] 5
    = Returns (heap, 5)
    /\ In (Node 99 1 None None) heap
    /\ Vlad.extractMin heap = Returns (Node 100 1 None None, rest)
    /\ Vlad.extractMin rest = Returns (Node 99 1 None None, rest').
Proof.
  eexists. eexists. eexists. split; [vm_compute; reflexivity|].
  split; [cbn; tauto|]. split; vm_compute; reflexivity.
Qed.

(** ** Tree building *)

Lemma weight_app (a b : list (char * Z)) : weight (a ++ b) = weight a + weight b.
Proof. induction a as [|x a IH]; simpl; [reflexivity|]. rewrite IH. lia. Qed.

Lemma weight_Permutation (a b : list (char * Z)) :
  Permutation a b -> weight a = weight b.
Proof. induction 1; simpl; lia. Qed.

Lemma weight_nonneg (a : list (char * Z)) :
  Forall (fun entry => 0 <= snd entry) a -> 0 <= weight a.
Proof. induction 1; simpl; lia. Qed.

Lemma weight_bounds_entries (a : list (char * Z)) (bound : Z) :
  Forall (fun entry => 0 <= snd entry) a ->
  weight a < bound ->
  Forall (fun entry => 0 <= snd entry < bound) a.
Proof.
  induction 1 as [|x l Hx Hl IH]; intros Hw; [constructor|].
  cbn [weight fold_right] in Hw. fold (weight l) in Hw.
  pose proof (weight_nonneg l Hl). constructor; [lia|]. apply IH. lia.
Qed.

Lemma newNode_in_bounds (MAX_CHAR nodeIndex : Z) (d : char) (f : Z) :
  0 <= nodeIndex < MAX_CHAR ->
  newNode MAX_CHAR nodeIndex d f = Returns (leaf_of (d, f), nodeIndex + 1).
Proof.
  intros H. unfold newNode.
  replace ((0 <=? nodeIndex) && (nodeIndex <? MAX_CHAR)) with true; [reflexivity|].
  symmetry. apply andb_true_iff. split; [apply Z.leb_le | apply Z.ltb_lt]; lia.
Qed.

Section TreeFacts.

Variable MAX_CHAR : Z.
Variable less : MinHeapNode -> MinHeapNode -> bool.

(** The loop condition of [buildHuffmanTree]: on a heap that is not empty
    both [size > 1] and [!isSizeOne] say that two nodes are left. *)
Variable continue : list MinHeapNode -> bool.
Hypothesis continue_spec :
  forall arr, (1 <= length arr)%nat -> continue arr = (1 <? length arr)%nat.

Lemma createAndBuildMinHeap_loop (ds : list char) :
  forall (fs : list Z) (bd ad : list char) (bf af : list Z) (arr : list MinHeapNode)
         (nodeIndex : Z),
    length ds = length fs ->
    length bd = length bf ->
    0 <= nodeIndex ->
    nodeIndex + Z.of_nat (length ds) <= MAX_CHAR ->
    Z.of_nat (length bd) + Z.of_nat (length ds) <= MAX_CHAR ->
    for_loop (length ds) (Z.of_nat (length bd))
      (fun i '(arr, nodeIndex) =>
         d <- read (bd ++ ds ++ ad) i ;;
         f <- read (bf ++ fs ++ af) i ;;
         '(node, nodeIndex) <- newNode MAX_CHAR nodeIndex d f ;;
         if i <? MAX_CHAR then Returns (arr ++ [node], nodeIndex) else Undefined)
      (arr, nodeIndex)
    = Returns (arr ++ map leaf_of (combine ds fs), nodeIndex + Z.of_nat (length ds)).
Proof.
  induction ds as [|d ds IH]; intros fs bd ad bf af arr nodeIndex Hlen Hb Hn Hcap Hi.
  - cbn. rewrite app_nil_r, Z.add_0_r. reflexivity.
  - destruct fs as [|f fs]; [discriminate|]. cbn [length] in *.
    cbn [for_loop].
    rewrite read_nth_error, nth_error_app2, Nat.sub_diag by lia. cbn [app nth_error bind].
    rewrite read_nth_error, nth_error_app2 by lia.
    replace (length bd - length bf)%nat with O by lia. cbn [app nth_error bind].
    rewrite newNode_in_bounds by lia. cbn [bind].
    replace (Z.of_nat (length bd) <? MAX_CHAR) with true
      by (symmetry; apply Z.ltb_lt; lia).
    specialize (IH fs (bd ++ [d]) ad (bf ++ [f]) af (arr ++ [leaf_of (d, f)])
                  (nodeIndex + 1)).
    rewrite <- !app_assoc, !length_app in IH. cbn [app length] in IH.
    replace (Z.of_nat (length bd + 1)) with (Z.of_nat (length bd) + 1) in IH by lia.
    cbn [bind]. rewrite IH by lia. cbn [combine map]. f_equal. f_equal. lia.
Qed.

Lemma createAndBuildMinHeap_spec (nodeIndex : Z) (data : list char) (freq : list Z) :
  length freq = length data ->
  0 <= nodeIndex ->
  nodeIndex + Z.of_nat (length data) <= MAX_CHAR ->
  exists arr,
    createAndBuildMinHeap MAX_CHAR less nodeIndex data freq (Z.of_nat (length data))
    = Returns (arr, nodeIndex + Z.of_nat (length data))
    /\ Permutation arr (map leaf_of (combine data freq)).
Proof.
  intros Hlen Hn Hcap. unfold createAndBuildMinHeap, for_range.
  replace (Z.of_nat (length data) <? 0) with false by (symmetry; apply Z.ltb_ge; lia).
  rewrite Z.sub_0_r, Nat2Z.id.
  pose proof (createAndBuildMinHeap_loop data freq [] [] [] [] [] nodeIndex) as H.
  cbn [app length] in H. rewrite !app_nil_r in H. change (Z.of_nat 0) with 0 in H.
  rewrite H by lia. cbn [bind app].
  eexists. split; [reflexivity|]. apply buildMinHeap_Permutation.
Qed.

(** One turn of the loop takes two nodes out of the heap and puts their
    parent in. *)
Lemma merge_step_nodes (arr : list MinHeapNode) (nodeIndex : Z) :
  (2 <= length arr)%nat ->
  0 <= nodeIndex ->
  nodeIndex + Z.of_nat (length arr) - 1 <= MAX_CHAR ->
  exists l r rest arr',
    merge_step MAX_CHAR less arr nodeIndex = Returns (arr', nodeIndex + 1)
    /\ Permutation arr (l :: r :: rest)
    /\ Permutation arr' (parent_of l r :: rest).
Proof.
  intros Hlen Hn Hcap. unfold merge_step.
  destruct arr as [|l rest0]; [cbn in Hlen; lia|].
  destruct (extractMin_Permutation less l rest0) as (h1 & E1 & P1).
  rewrite E1. cbn [bind].
  pose proof (Permutation_length P1) as L1. cbn [length] in Hlen, Hcap.
  destruct h1 as [|r rest1]; [cbn in L1; lia|].
  destruct (extractMin_Permutation less r rest1) as (h2 & E2 & P2).
  rewrite E2. cbn [bind].
  pose proof (Permutation_length P2) as L2. cbn [length] in L1.
  rewrite newNode_in_bounds by lia. unfold leaf_of. cbn [bind data freq fst snd].
  destruct (insertMinHeap_Permutation MAX_CHAR h2 (parent_of l r) ltac:(lia))
    as (h3 & E3 & P3).
  unfold parent_of in E3. rewrite E3. cbn [bind].
  exists l, r, h2, h3. split; [reflexivity|]. split; [|exact P3].
  apply perm_skip. etransitivity; [symmetry; exact P1|].
  apply perm_skip. symmetry. exact P2.
Qed.

(** A property of the heap that the turns of the loop keep holds of the
    one tree the loop ends with. *)
Section MergeLoop.

Variable keeps : list MinHeapNode -> Prop.
Hypothesis keeps_step :
  forall arr l r rest arr',
    keeps arr ->
    Permutation arr (l :: r :: rest) ->
    Permutation arr' (parent_of l r :: rest) ->
    keeps arr'.

Lemma merge_loop_spec (fuel : nat) :
  forall (arr : list MinHeapNode) (nodeIndex : Z),
    keeps arr ->
    (1 <= length arr <= S fuel)%nat ->
    0 <= nodeIndex ->
    nodeIndex + Z.of_nat (length arr) - 1 <= MAX_CHAR ->
    exists root,
      merge_loop MAX_CHAR less continue fuel arr nodeIndex
      = Returns ([root], nodeIndex + Z.of_nat (length arr) - 1)
      /\ keeps [root].
Proof.
  induction fuel as [|fuel IH]; intros arr nodeIndex Hok Hlen Hn Hcap.
  - destruct arr as [|root [|? ?]]; cbn [length] in Hlen; try lia.
    exists root. cbn [merge_loop]. rewrite continue_spec by (cbn; lia). cbn.
    split; [f_equal; f_equal; lia|exact Hok].
  - cbn [merge_loop]. rewrite continue_spec by lia.
    destruct (1 <? length arr)%nat eqn:E.
    + apply Nat.ltb_lt in E.
      destruct (merge_step_nodes arr nodeIndex ltac:(lia) Hn Hcap)
        as (l & r & rest & arr' & E1 & P1 & P2).
      rewrite E1. cbn [bind].
      pose proof (Permutation_length P1) as L1.
      pose proof (Permutation_length P2) as L2. cbn [length] in L1, L2.
      destruct (IH arr' (nodeIndex + 1) (keeps_step _ _ _ _ _ Hok P1 P2)
                  ltac:(lia) ltac:(lia) ltac:(lia)) as (root & E2 & Hroot).
      exists root. rewrite E2. split; [f_equal; f_equal; lia|exact Hroot].
    + apply Nat.ltb_ge in E.
      destruct arr as [|root [|? ?]]; cbn [length] in Hlen, E; try lia.
      exists root. split; [cbn; f_equal; f_equal; lia|exact Hok].
Qed.

(** [buildHuffmanTree] on a table of [n >= 1] entries, with room for
    [2 n - 1] more nodes in [nodes]: the call returns and has taken
    [2 n - 1] nodes. *)
Lemma buildHuffmanTree_with_keeps (nodeIndex : Z) (data : list char) (freq : list Z) :
  (forall arr, Permutation arr (map leaf_of (combine data freq)) -> keeps arr) ->
  (1 <= length data)%nat ->
  length freq = length data ->
  0 <= nodeIndex ->
  nodeIndex + 2 * Z.of_nat (length data) - 1 <= MAX_CHAR ->
  exists root,
    buildHuffmanTree_with MAX_CHAR less continue nodeIndex data freq
      (Z.of_nat (length data))
    = Returns (root, nodeIndex + 2 * Z.of_nat (length data) - 1)
    /\ keeps [root].
Proof.
  intros Hinit Hn Hlen Hidx Hcap. unfold buildHuffmanTree_with.
  destruct (createAndBuildMinHeap_spec nodeIndex data freq Hlen Hidx ltac:(lia))
    as (arr & E & P).
  rewrite E. cbn [bind].
  assert (La : length arr = length data).
  { rewrite (Permutation_length P), length_map, length_combine. lia. }
  destruct (merge_loop_spec (S (length arr)) arr (nodeIndex + Z.of_nat (length data))
              (Hinit arr P) ltac:(lia) ltac:(lia) ltac:(lia)) as (root & E2 & Hroot).
  rewrite E2. cbn [bind].
  destruct (extractMin_Permutation less root []) as (rest & E3 & _).
  rewrite E3. cbn [bind]. exists root. split; [f_equal; f_equal; lia|exact Hroot].
Qed.

End MergeLoop.

(** The frequency table the tree is built from: counts that are not
    negative and whose sum is an [unsigned]. *)
Variable table : list (char * Z).
Hypothesis table_nonneg : Forall (fun entry => 0 <= snd entry) table.
Hypothesis table_weight : weight table < UINT_MODULUS.

Lemma forest_ok_Permutation (arr arr' : list MinHeapNode) :
  Permutation arr arr' -> forest_ok table arr -> forest_ok table arr'.
Proof.
  intros HP [HF HL]. split.
  - eapply Permutation_Forall; eassumption.
  - etransitivity; [|exact HL]. apply Permutation_flat_map. symmetry. exact HP.
Qed.

Lemma forest_ok_leaves : forest_ok table (map leaf_of table).
Proof.
  assert (H : forall entries,
             Forall (fun entry => 0 <= snd entry < UINT_MODULUS) entries ->
             Forall tree_ok (map leaf_of entries)
             /\ flat_map leaves (map leaf_of entries) = entries).
  { induction 1 as [|[d f] entries Hx Hr [IH1 IH2]]; [split; [constructor|reflexivity]|].
    cbn [snd] in Hx. cbn [map flat_map]. split.
    - constructor; [|exact IH1]. unfold tree_ok, leaf_of. cbn.
      rewrite to_unsigned_small by lia. split; [exact I|lia].
    - rewrite IH2. unfold leaf_of. cbn. rewrite to_unsigned_small by lia. reflexivity. }
  pose proof (weight_bounds_entries table UINT_MODULUS table_nonneg table_weight) as Hb.
  destruct (H table Hb) as [H1 H2]. split; [exact H1|]. rewrite H2. reflexivity.
Qed.

Lemma forest_ok_weights (l r : MinHeapNode) (rest : list MinHeapNode) :
  forest_ok table (l :: r :: rest) -> 0 <= freq l + freq r < UINT_MODULUS.
Proof.
  intros [HF HL]. inversion HF as [|? ? [_ Hl] HF']; subst.
  inversion HF' as [|? ? [_ Hr] _]; subst.
  pose proof (weight_Permutation _ _ HL) as HW.
  assert (HN : Forall (fun entry => 0 <= snd entry) (flat_map leaves (l :: r :: rest))).
  { eapply Permutation_Forall; [symmetry; exact HL|exact table_nonneg]. }
  cbn [flat_map] in HW, HN. rewrite !weight_app in HW.
  apply Forall_app in HN. destruct HN as [HNl HN]. apply Forall_app in HN.
  destruct HN as [HNr HNrest].
  pose proof (weight_nonneg _ HNl). pose proof (weight_nonneg _ HNr).
  pose proof (weight_nonneg _ HNrest). lia.
Qed.

Lemma forest_ok_step (arr : list MinHeapNode) (l r : MinHeapNode)
  (rest arr' : list MinHeapNode) :
  forest_ok table arr ->
  Permutation arr (l :: r :: rest) ->
  Permutation arr' (parent_of l r :: rest) ->
  forest_ok table arr'.
Proof.
  intros Hok P1 P2.
  pose proof (forest_ok_Permutation _ _ P1 Hok) as Hok'.
  pose proof (forest_ok_weights _ _ _ Hok') as Hw.
  eapply forest_ok_Permutation; [symmetry; exact P2|].
  destruct Hok' as [HF HL]. inversion HF as [|? ? [Hl1 Hl2] HF']; subst.
  inversion HF' as [|? ? [Hr1 Hr2] HF'']; subst.
  unfold parent_of. rewrite to_unsigned_small by exact Hw. split.
  - constructor; [|exact HF'']. split; [cbn; auto|].
    cbn. rewrite weight_app. lia.
  - cbn [flat_map] in HL |- *. cbn [leaves left right].
    rewrite <- app_assoc. exact HL.
Qed.

End TreeFacts.

(** [buildHuffmanTree] on a table of [n >= 1] entries whose counts are not
    negative and add up to an [unsigned], with room for [2 n - 1] more
    nodes in [nodes]: the tree is summed up correctly over the entries. *)
Lemma buildHuffmanTree_with_spec (MAX_CHAR : Z) (less : MinHeapNode -> MinHeapNode -> bool)
  (continue : list MinHeapNode -> bool) (nodeIndex : Z) (data : list char) (freq : list Z) :
  (forall arr, (1 <= length arr)%nat -> continue arr = (1 <? length arr)%nat) ->
  (1 <= length data)%nat ->
  length freq = length data ->
  Forall (fun f => 0 <= f) freq ->
  weight (combine data freq) < UINT_MODULUS ->
  0 <= nodeIndex ->
  nodeIndex + 2 * Z.of_nat (length data) - 1 <= MAX_CHAR ->
  exists root,
    buildHuffmanTree_with MAX_CHAR less continue nodeIndex data freq
      (Z.of_nat (length data))
    = Returns (root, nodeIndex + 2 * Z.of_nat (length data) - 1)
    /\ weights_add_up root
    /\ Permutation (leaves root) (combine data freq).
Proof.
  intros Hcont Hn Hlen Hpos Hw Hidx Hcap.
  assert (Hnn : Forall (fun entry => 0 <= snd entry) (combine data freq)).
  { apply Forall_forall. intros [d f] Hin. apply in_combine_r in Hin.
    rewrite Forall_forall in Hpos. apply Hpos. exact Hin. }
  destruct (buildHuffmanTree_with_keeps MAX_CHAR less continue Hcont
              (forest_ok (combine data freq))
              (forest_ok_step (combine data freq) Hnn Hw)
              nodeIndex data freq) as (root & E & [HF HL]); try assumption.
  { intros arr P. eapply forest_ok_Permutation; [symmetry; exact P|].
    apply forest_ok_leaves; assumption. }
  exists root. split; [exact E|].
  inversion HF as [|? ? [Hr _] _]; subst. split; [exact Hr|].
  cbn [flat_map] in HL. rewrite app_nil_r in HL. exact HL.
Qed.

(** The loop conditions of the three files. *)
Lemma continue_size_gt_1 (arr : list MinHeapNode) :
  (1 <= length arr)%nat -> (1 <? length arr)%nat = (1 <? length arr)%nat.
Proof. reflexivity. Qed.

Lemma continue_not_isSizeOne (arr : list MinHeapNode) :
  (1 <= length arr)%nat -> negb (Huffman.isSizeOne arr) = (1 <? length arr)%nat.
Proof.
  intros H. unfold Huffman.isSizeOne.
  destruct (length arr =? 1)%nat eqn:E1; destruct (1 <? length arr)%nat eqn:E2;
    try reflexivity.
  - apply Nat.eqb_eq in E1. apply Nat.ltb_lt in E2. lia.
  - apply Nat.eqb_neq in E1. apply Nat.ltb_ge in E2. lia.
Qed.

(** C6, as the code has it: [buildHuffmanTree] does not look at [size]
    before it builds; for a table of [n >= 1] entries, with room for
    [2 n - 1] more nodes in the array [nodes], it returns one root and has
    taken [2 n - 1] nodes, in [huffman_vlad.c] and in [huffman.c]. *)
Theorem buildHuffmanTree_returns_a_root (nodeIndex : Z) (data : list char) (freq : list Z) :
  (1 <= length data)%nat ->
  length freq = length data ->
  0 <= nodeIndex ->
  nodeIndex + 2 * Z.of_nat (length data) - 1 <= Vlad.MAX_CHAR ->
  (exists root,
     Vlad.buildHuffmanTree nodeIndex data freq (Z.of_nat (length data))
     = Returns (root, nodeIndex + 2 * Z.of_nat (length data) - 1))
  /\ (exists root,
        Huffman.buildHuffmanTree nodeIndex data freq (Z.of_nat (length data))
        = Returns (root, nodeIndex + 2 * Z.of_nat (length data) - 1)).
Proof.
  intros Hn Hlen Hidx Hcap. split.
  - destruct (buildHuffmanTree_with_keeps Vlad.MAX_CHAR Vlad.less _ continue_size_gt_1
                (fun _ => True) (fun _ _ _ _ _ _ _ _ => I) nodeIndex data freq)
      as (root & E & _); auto.
    exists root. exact E.
  - destruct (buildHuffmanTree_with_keeps Huffman.MAX_CHAR Huffman.less _
                continue_not_isSizeOne
                (fun _ => True) (fun _ _ _ _ _ _ _ _ => I) nodeIndex data freq)
      as (root & E & _); auto.
    exists root. exact E.
Qed.

Lemma buildHuffmanTree_returns_a_root_witness :
  (exists root, Vlad.buildHuffmanTree 0 (chars "abcdr") [5; 2; 1; 1; 2] 5
                = Returns (root, 9))
  /\ (exists root, Huffman.buildHuffmanTree 0 (chars "abcdr") [5; 2; 1; 1; 2] 5
                   = Returns (root, 9)).
Proof.
  apply (buildHuffmanTree_returns_a_root 0 (chars "abcdr") [5; 2; 1; 1; 2]).
  - vm_compute. lia.
  - reflexivity.
  - lia.
  - vm_compute. discriminate.
Defined.

(** C6, as the specification states it, fails: on the empty table no error
    is reported. [extractMin] reads [array[0]], which was never written,
    and [array[size - 1]] with [size = 0]: the behaviour is undefined, for
    [buildHuffmanTree] and for [HuffmanCodes] on an input of length 0. *)
Lemma buildHuffmanTree_empty_table_is_undefined :
  Vlad.buildHuffmanTree 0 [] [] 0 = Undefined
  /\ Huffman.buildHuffmanTree 0 [] [] 0 = Undefined
  /\ Vlad.HuffmanCodes 0 [NUL] 0 = Undefined
  /\ Huffman.HuffmanCodes 0 [] 0 = Undefined.
Proof. repeat split. Qed.

(** C8: for a frequency table of [n >= 1] entries (counts that are not
    negative and add up to an [unsigned], as counts of an input do) and
    with room for [2 n - 1] more nodes in the array [nodes],
    [buildHuffmanTree] of each of the three files returns a tree in which every internal node has two
    children whose weights add up to its weight, and whose leaves are the
    entries of the table, each symbol with its frequency, one leaf per
    entry. *)
Theorem buildHuffmanTree_weights_and_leaves (nodeIndex : Z) (data : list char)
  (freq : list Z) :
  (1 <= length data)%nat ->
  length freq = length data ->
  Forall (fun f => 0 <= f) freq ->
  weight (combine data freq) < UINT_MODULUS ->
  0 <= nodeIndex ->
  (nodeIndex + 2 * Z.of_nat (length data) - 1 <= Vlad.MAX_CHAR ->
   exists root,
     Vlad.buildHuffmanTree nodeIndex data freq (Z.of_nat (length data))
     = Returns (root, nodeIndex + 2 * Z.of_nat (length data) - 1)
     /\ weights_add_up root
     /\ Permutation (leaves root) (combine data freq)
     /\ length (leaves root) = length data)
  /\ (nodeIndex + 2 * Z.of_nat (length data) - 1 <= T2Clock.MAX_CHAR ->
      exists root,
        T2Clock.buildHuffmanTree nodeIndex data freq (Z.of_nat (length data))
        = Returns (root, nodeIndex + 2 * Z.of_nat (length data) - 1)
        /\ weights_add_up root
        /\ Permutation (leaves root) (combine data freq)
        /\ length (leaves root) = length data)
  /\ (nodeIndex + 2 * Z.of_nat (length data) - 1 <= Huffman.MAX_CHAR ->
      exists root,
        Huffman.buildHuffmanTree nodeIndex data freq (Z.of_nat (length data))
        = Returns (root, nodeIndex + 2 * Z.of_nat (length data) - 1)
        /\ weights_add_up root
        /\ Permutation (leaves root) (combine data freq)
        /\ length (leaves root) = length data).
Proof.
  intros Hn Hlen Hpos Hw Hidx. split; [|split]; intros Hcap.
  - destruct (buildHuffmanTree_with_spec Vlad.MAX_CHAR Vlad.less _ nodeIndex data freq
                continue_size_gt_1 Hn Hlen Hpos Hw Hidx Hcap) as (root & E & H1 & H2).
    exists root. repeat split; try assumption.
    rewrite (Permutation_length H2), length_combine. lia.
  - destruct (buildHuffmanTree_with_spec T2Clock.MAX_CHAR T2Clock.less _ nodeIndex data
                freq continue_size_gt_1 Hn Hlen Hpos Hw Hidx Hcap) as (root & E & H1 & H2).
    exists root. repeat split; try assumption.
    rewrite (Permutation_length H2), length_combine. lia.
  - destruct (buildHuffmanTree_with_spec Huffman.MAX_CHAR Huffman.less _ nodeIndex data
                freq continue_not_isSizeOne Hn Hlen Hpos Hw Hidx Hcap)
      as (root & E & H1 & H2).
    exists root. repeat split; try assumption.
    rewrite (Permutation_length H2), length_combine. lia.
Qed.

Lemma buildHuffmanTree_weights_and_leaves_witness :
  exists root,
    Vlad.buildHuffmanTree 0 (chars "abcdr") [5; 2; 1; 1; 2] 5 = Returns (root, 9)
    /\ weights_add_up root
    /\ Permutation (leaves root) (combine (chars "abcdr") [5; 2; 1; 1; 2])
    /\ length (leaves root) = 5%nat.
Proof.
  refine (proj1 (buildHuffmanTree_weights_and_leaves 0 (chars "abcdr") [5; 2; 1; 1; 2]
                   _ _ _ _ _) _).
  - vm_compute. lia.
  - reflexivity.
  - repeat constructor; discriminate.
  - vm_compute. reflexivity.
  - lia.
  - vm_compute. discriminate.
Defined.

(** C8, as the specification states it (every table of [n >= 1] symbols),
    fails where the array [nodes] ends: a first call on a table of 65
    symbols in [huffman_t2_clock.c], of 129 symbols in [huffman_vlad.c],
    or a call on two symbols when earlier calls have left fewer than three
    cells, takes [&nodes[nodeIndex++]] past the end of [nodes], and no
    tree is returned. *)
Lemma buildHuffmanTree_table_too_large :
  T2Clock.buildHuffmanTree 0 (map Z.of_nat (seq 32 65)) (repeat 1 65) 65 = Undefined
  /\ Vlad.buildHuffmanTree 0 (map Z.of_nat (seq 1 129)) (repeat 1 129) 129 = Undefined
  /\ T2Clock.buildHuffmanTree 126 (chars "ab") [1; 1] 2 = Undefined.
Proof. repeat split; vm_compute; reflexivity. Qed.

(** ** Code extraction: [generateCodes] of [huffman_vlad.c] *)

Lemma paths_symbols (root : MinHeapNode) :
  forall code, map fst (paths root code) = map fst (leaves root).
Proof.
  induction root as [d f l Hl r Hr]. intros code.
  cbn [paths leaves left right].
  destruct l as [l|]; destruct r as [r|]; try reflexivity;
    try (inversion Hl as [? Hl'|]; subst); try (inversion Hr as [? Hr'|]; subst);
    rewrite !map_app; cbn [map app]; rewrite ?Hl', ?Hr'; reflexivity.
Qed.

Lemma paths_extend (root : MinHeapNode) :
  forall code, Forall (fun row => exists s, snd row = code ++ s) (paths root code).
Proof.
  induction root as [d f l Hl r Hr]. intros code.
  cbn [paths left right].
  assert (Hstep : forall (t : MinHeapNode) (b : char),
             (forall code, Forall (fun row => exists s, snd row = code ++ s)
                             (paths t code)) ->
             Forall (fun row => exists s, snd row = code ++ s) (paths t (code ++ [b]))).
  { intros t b H. eapply Forall_impl; [|apply H]. cbn. intros row [s Hs].
    exists (b :: s). rewrite Hs, <- app_assoc. reflexivity. }
  destruct l as [l|]; destruct r as [r|];
    try (inversion Hl as [? Hl'|]; subst); try (inversion Hr as [? Hr'|]; subst).
  - apply Forall_app. split; apply Hstep; assumption.
  - rewrite app_nil_r. apply Hstep. assumption.
  - apply Hstep. assumption.
  - constructor; [|constructor]. exists []. cbn. rewrite app_nil_r. reflexivity.
Qed.

Lemma is_prefix_app (p s : cstring) : is_prefix p (p ++ s) = true.
Proof. induction p as [|a p IH]; [reflexivity|]. cbn. rewrite Z.eqb_refl. exact IH. Qed.

Lemma is_prefix_inv (p q : cstring) : is_prefix p q = true -> exists s, q = p ++ s.
Proof.
  revert q. induction p as [|a p IH]; intros q H; [exists q; reflexivity|].
  destruct q as [|b q]; [discriminate|]. cbn in H.
  apply andb_true_iff in H. destruct H as [Hab H]. apply Z.eqb_eq in Hab. subst b.
  destruct (IH q H) as [s ->]. exists s. reflexivity.
Qed.

(** Codes that part after a common beginning are not prefixes of each
    other. *)
Lemma is_prefix_diverge (code s t : cstring) (a b : char) :
  a <> b -> is_prefix (code ++ a :: s) (code ++ b :: t) = false.
Proof.
  intros Hab. destruct (is_prefix (code ++ a :: s) (code ++ b :: t)) eqn:E; [|reflexivity].
  apply is_prefix_inv in E. destruct E as [u E].
  rewrite <- app_assoc in E. apply app_inv_head in E. injection E as E _. congruence.
Qed.

Lemma ForallOrdPairs_app {A : Type} (R : A -> A -> Prop) (l1 l2 : list A) :
  ForallOrdPairs R l1 -> ForallOrdPairs R l2 ->
  (forall a b, In a l1 -> In b l2 -> R a b) ->
  ForallOrdPairs R (l1 ++ l2).
Proof.
  induction 1 as [|a l1 Ha H1 IH]; intros H2 H; [exact H2|].
  cbn [app]. constructor.
  - apply Forall_app. split; [exact Ha|].
    apply Forall_forall. intros b Hb. apply H; [left; reflexivity|exact Hb].
  - apply IH; [exact H2|]. intros x y Hx Hy. apply H; [right; exact Hx|exact Hy].
Qed.

(** The paths to two leaves of a tree are not prefixes of each other. *)
Lemma paths_prefix_free (root : MinHeapNode) :
  forall code,
    ForallOrdPairs (fun a b => is_prefix (snd a) (snd b) = false
                               /\ is_prefix (snd b) (snd a) = false)
      (paths root code).
Proof.
  induction root as [d f l Hl r Hr]. intros code.
  cbn [paths left right].
  destruct l as [l|]; destruct r as [r|];
    try (inversion Hl as [? Hl'|]; subst); try (inversion Hr as [? Hr'|]; subst).
  - apply ForallOrdPairs_app; [apply Hl'|apply Hr'|].
    intros a b Ha Hb. cbn beta.
    pose proof (paths_extend l (code ++ [chr0])) as El.
    pose proof (paths_extend r (code ++ [chr1])) as Er.
    rewrite Forall_forall in El, Er.
    destruct (El a Ha) as [s Hs]. destruct (Er b Hb) as [t Ht].
    destruct a as [ca pa]. destruct b as [cb pb]. cbn [snd] in *. subst pa pb.
    rewrite <- !app_assoc. cbn [app].
    split; apply is_prefix_diverge; discriminate.
  - rewrite app_nil_r. apply Hl'.
  - apply Hr'.
  - constructor; constructor.
Qed.

Lemma weights_add_up_leaves_nonempty (root : MinHeapNode) :
  leaves root <> [].
Proof.
  induction root as [d f l Hl r Hr].
  cbn [leaves left right]. destruct l as [l|]; destruct r as [r|].
  - inversion Hl as [? Hl'|]; subst. intros E. apply app_eq_nil in E. tauto.
  - inversion Hl as [? Hl'|]; subst. rewrite app_nil_r. exact Hl'.
  - inversion Hr as [? Hr'|]; subst. exact Hr'.
  - discriminate.
Qed.

Lemma one_leaf_tree (root : MinHeapNode) (entry : char * Z) :
  weights_add_up root -> leaves root = [entry] ->
  root = Node (fst entry) (snd entry) None None.
Proof.
  destruct root as [d f [l|] [r|]]; cbn [weights_add_up leaves left right];
    intros Hw Hl; try contradiction.
  - pose proof (weights_add_up_leaves_nonempty l).
    pose proof (weights_add_up_leaves_nonempty r).
    destruct (leaves l); [contradiction|]. destruct (leaves r); [contradiction|].
    destruct l0; discriminate.
  - injection Hl as <-. reflexivity.
Qed.

Lemma height_lt_leaves (root : MinHeapNode) :
  weights_add_up root -> (height root < length (leaves root))%nat.
Proof.
  induction root as [d f l Hl r Hr].
  cbn [weights_add_up height leaves left right].
  destruct l as [l|]; destruct r as [r|]; try contradiction; [|cbn; lia].
  inversion Hl as [? Hl'|]; subst. inversion Hr as [? Hr'|]; subst.
  intros (_ & Hwl & Hwr). specialize (Hl' Hwl). specialize (Hr' Hwr).
  rewrite length_app. lia.
Qed.

Lemma store_rows_app (a b : list (char * cstring)) (codes : list cstring) :
  store_rows (a ++ b) codes = store_rows b (store_rows a codes).
Proof. apply fold_left_app. Qed.

Lemma store_rows_length (rows : list (char * cstring)) :
  forall codes, length (store_rows rows codes) = length codes.
Proof.
  induction rows as [|row rows IH]; intros codes; [reflexivity|].
  cbn [store_rows fold_left]. fold (store_rows rows). rewrite IH. apply upd_length.
Qed.

(** [generateCodes] stores, for every leaf from left to right, the path to
    the leaf in the row of its symbol. *)
Lemma Vlad_generateCodes_paths (root : MinHeapNode) :
  forall (code : cstring) (codes : list cstring),
    Z.of_nat (length code + height root) < Vlad.MAX_TREE_HT ->
    Forall (fun entry => 0 <= fst entry < Z.of_nat (length codes)) (leaves root) ->
    Vlad.generateCodes root code codes = Returns (store_rows (paths root code) codes).
Proof.
  induction root as [d f l Hl r Hr]. intros code codes Hh Hin.
  cbn [Vlad.generateCodes paths height leaves left right data] in *.
  assert (Htop : (Z.of_nat (length code) <? Vlad.MAX_TREE_HT) = true)
    by (apply Z.ltb_lt; lia).
  rewrite Htop.
  destruct l as [l|]; destruct r as [r|];
    try (inversion Hl as [? Hl'|]; subst); try (inversion Hr as [? Hr'|]; subst).
  - apply Forall_app in Hin. destruct Hin as [Hinl Hinr].
    rewrite Hl'; [|rewrite length_app; cbn [length]; lia|exact Hinl]. cbn [bind].
    rewrite Hr'; [|rewrite length_app; cbn [length]; lia
                  |rewrite store_rows_length; exact Hinr].
    cbn [bind]. rewrite store_rows_app. reflexivity.
  - rewrite app_nil_r in Hin |- *.
    rewrite Hl'; [|rewrite length_app; cbn [length]; lia|exact Hin]. reflexivity.
  - cbn [app] in Hin |- *. cbn [bind].
    rewrite Hr'; [|rewrite length_app; cbn [length]; lia|exact Hin]. reflexivity.
  - cbn [bind]. inversion Hin as [|? ? Hd _]; subst. cbn [fst] in Hd.
    rewrite write_in_bounds by exact Hd. reflexivity.
Qed.

(** A row stored for a symbol stays when rows of other symbols are stored. *)
Lemma store_rows_other (rows : list (char * cstring)) :
  forall (codes : list cstring) (c : char),
    0 <= c ->
    Forall (fun row => 0 <= fst row) rows ->
    ~ In c (map fst rows) ->
    code_of (store_rows rows codes) c = code_of codes c.
Proof.
  induction rows as [|[c' code'] rows IH]; intros codes c Hc Hpos Hn; [reflexivity|].
  cbn [store_rows fold_left fst snd]. fold (store_rows rows).
  inversion Hpos as [|? ? Hc' Hpos']; subst. cbn [fst] in Hc'.
  cbn [map fst In] in Hn. rewrite IH by tauto.
  unfold code_of. apply nth_upd_neq. intros E. apply Hn. left. lia.
Qed.

(** The row of a symbol that has one leaf is the path to that leaf. *)
Lemma store_rows_code_of (rows : list (char * cstring)) :
  forall (codes : list cstring) (c : char) (code : cstring),
    NoDup (map fst rows) ->
    Forall (fun row => 0 <= fst row < Z.of_nat (length codes)) rows ->
    In (c, code) rows ->
    code_of (store_rows rows codes) c = code.
Proof.
  induction rows as [|[c' code'] rows IH]; intros codes c code Hnd Hin H; [contradiction|].
  cbn [store_rows fold_left fst snd]. fold (store_rows rows).
  cbn [map fst] in Hnd. inversion Hnd as [|? ? Hnotin Hnd']; subst.
  inversion Hin as [|? ? Hc' Hin']; subst. cbn [fst] in Hc'.
  destruct H as [H|H].
  - injection H as -> ->.
    rewrite store_rows_other; [|lia| |exact Hnotin].
    + unfold code_of. apply nth_upd_eq. lia.
    + eapply Forall_impl; [|exact Hin']. cbn. intros row Hrow. lia.
  - apply IH; try assumption. rewrite upd_length. exact Hin'.
Qed.

Lemma map_fst_combine_same_length {A B : Type} (a : list A) :
  forall b : list B, length b = length a -> map fst (combine a b) = a.
Proof.
  induction a as [|x a IH]; intros [|y b] H; try discriminate; [reflexivity|].
  cbn. f_equal. apply IH. cbn in H. lia.
Qed.

(** The claim of C2 holds of [huffman_vlad.c]: for a table of distinct
    symbols, the codes [generateCodes] extracts from the tree
    [buildHuffmanTree] returns are prefix-free. *)
Lemma Vlad_codes_prefix_free (nodeIndex : Z) (data : list char) (freq : list Z) :
  (1 <= length data)%nat ->
  length freq = length data ->
  NoDup data ->
  Forall (fun c => 0 <= c < Vlad.MAX_CHAR) data ->
  Forall (fun f => 0 <= f) freq ->
  weight (combine data freq) < UINT_MODULUS ->
  0 <= nodeIndex ->
  nodeIndex + 2 * Z.of_nat (length data) - 1 <= Vlad.MAX_CHAR ->
  exists root codes,
    Vlad.buildHuffmanTree nodeIndex data freq (Z.of_nat (length data))
    = Returns (root, nodeIndex + 2 * Z.of_nat (length data) - 1)
    /\ Vlad.generateCodes root [] (repeat [] (Z.to_nat Vlad.MAX_CHAR)) = Returns codes
    /\ forall c1 c2, In c1 data -> In c2 data -> c1 <> c2 ->
                     is_prefix (code_of codes c1) (code_of codes c2) = false.
Proof.
  intros Hn Hlen Hnd Hrange Hpos Hw Hidx Hcap.
  destruct (buildHuffmanTree_with_spec Vlad.MAX_CHAR Vlad.less _ nodeIndex data freq
              continue_size_gt_1 Hn Hlen Hpos Hw Hidx Hcap) as (root & E & Hadd & Hleaves).
  assert (Hsym : Permutation (map fst (leaves root)) data).
  { rewrite (Permutation_map fst Hleaves).
    rewrite map_fst_combine_same_length by exact Hlen. reflexivity. }
  assert (Hin : Forall (fun entry => 0 <= fst entry < Z.of_nat (length
                          (repeat (@nil char) (Z.to_nat Vlad.MAX_CHAR)))) (leaves root)).
  { rewrite repeat_length. apply Forall_forall. intros entry He.
    rewrite Forall_forall in Hrange.
    assert (In (fst entry) data)
      by (eapply Permutation_in; [exact Hsym|apply in_map; exact He]).
    specialize (Hrange _ H). unfold Vlad.MAX_CHAR in *. lia. }
  pose proof (height_lt_leaves root Hadd) as Hh.
  rewrite (Permutation_length Hleaves), length_combine in Hh.
  exists root, (store_rows (paths root []) (repeat [] (Z.to_nat Vlad.MAX_CHAR))).
  split; [exact E|]. split.
  - apply Vlad_generateCodes_paths; [|exact Hin].
    cbn [length]. unfold Vlad.MAX_CHAR, Vlad.MAX_TREE_HT in *. lia.
  - intros c1 c2 H1 H2 Hne.
    assert (Hrows : forall c, In c data -> exists code, In (c, code) (paths root [])).
    { intros c Hc. apply (Permutation_in _ (Permutation_sym Hsym)) in Hc.
      rewrite <- (paths_symbols root []) in Hc. apply in_map_iff in Hc.
      destruct Hc as ([c' code] & <- & Hc). exists code. exact Hc. }
    assert (Hnd' : NoDup (map fst (paths root []))).
    { rewrite paths_symbols. eapply Permutation_NoDup; [symmetry; exact Hsym|exact Hnd]. }
    assert (Hin' : Forall (fun row => 0 <= fst row < Z.of_nat (length
                             (repeat (@nil char) (Z.to_nat Vlad.MAX_CHAR))))
                     (paths root [])).
    { apply Forall_forall. intros row Hrow.
      assert (Hf : In (fst row) (map fst (leaves root)))
        by (rewrite <- (paths_symbols root []); apply in_map; exact Hrow).
      apply in_map_iff in Hf. destruct Hf as (entry & <- & He).
      rewrite Forall_forall in Hin. apply Hin. exact He. }
    destruct (Hrows c1 H1) as [code1 Hc1]. destruct (Hrows c2 H2) as [code2 Hc2].
    rewrite (store_rows_code_of _ _ c1 code1 Hnd' Hin' Hc1).
    rewrite (store_rows_code_of _ _ c2 code2 Hnd' Hin' Hc2).
    destruct (ForallOrdPairs_In (paths_prefix_free root []) _ _ Hc1 Hc2)
      as [Heq|[[H _]|[_ H]]]; [congruence|exact H|exact H].
Qed.

(** ** The fuel of the loop of [printCodes] is enough *)

Lemma pending_last (stack : list MinHeapNode) :
  forall (visited : list Z) (n : MinHeapNode),
    pending (stack ++ [n]) visited
    = (pending stack visited + turns_of n (nth (length stack) visited 0%Z))%nat.
Proof.
  induction stack as [|m stack IH]; intros visited n.
  - cbn. destruct visited; cbn; lia.
  - cbn [app pending length]. rewrite IH. destruct visited as [|v visited]; cbn [tl hd nth].
    + destruct (length stack); cbn; lia.
    + lia.
Qed.

Lemma pending_upd (stack : list MinHeapNode) :
  forall (visited : list Z) (i : nat) (x : Z),
    (length stack <= i)%nat -> pending stack (upd i x visited) = pending stack visited.
Proof.
  induction stack as [|m stack IH]; intros visited i x H; [reflexivity|].
  cbn [length] in H. destruct i as [|i]; [lia|].
  destruct visited as [|v visited]; [reflexivity|].
  cbn [upd pending hd tl]. rewrite IH by lia. reflexivity.
Qed.

Lemma turns_of_bounds (n : MinHeapNode) (v : Z) :
  (1 <= turns_of n v <= 2 + 2 * (match right n with Some r => nodes_of r | None => 0 end))%nat.
Proof. unfold turns_of. destruct (right n); [destruct (v =? 0)|]; lia. Qed.

Section TraversalFuel.

Variable MAX_TREE_HT : Z.

Lemma push_left_pending (current : MinHeapNode) :
  forall (stack : list MinHeapNode) (arr : list Z) (visited : list Z),
    match push_left MAX_TREE_HT current stack arr with
    | Returns (stack', _) =>
        (pending stack' visited <= pending stack visited + 2 * nodes_of current)%nat
    | Undefined => True
    | OutOfFuel => False
    end.
Proof.
  induction current as [d f l Hl r Hr]. intros stack arr visited.
  cbn [push_left left].
  destruct (Z.of_nat (length stack) <? MAX_TREE_HT); [|exact I].
  pose proof (turns_of_bounds (Node d f l r) (nth (length stack) visited 0)) as Hb.
  cbn [right] in Hb. cbn [nodes_of left right].
  destruct l as [l|].
  - inversion Hl as [? Hl'|]; subst.
    specialize (Hl' (stack ++ [Node d f (Some l) r]) (arr ++ [0]) visited).
    destruct (push_left MAX_TREE_HT l _ _) as [[stack' arr']| |]; try exact Hl'.
    rewrite pending_last in Hl'. lia.
  - rewrite pending_last. lia.
Qed.

Lemma read_not_OutOfFuel {A : Type} (a : list A) (i : Z) : read a i <> OutOfFuel.
Proof.
  unfold read. destruct (i <? 0); [discriminate|].
  destruct (nth_error a (Z.to_nat i)); discriminate.
Qed.

Lemma write_not_OutOfFuel {A : Type} (a : list A) (i : Z) (x : A) :
  write a i x <> OutOfFuel.
Proof. unfold write. destruct (_ && _); discriminate. Qed.

(** The loop with more fuel than turns it can still take does not stop for
    lack of fuel. *)
Lemma traverse_fuel (fuel : nat) :
  forall (stack : list MinHeapNode) (arr visited : list Z)
         (current : option MinHeapNode) (codes : list cstring),
    (pending stack visited
     + 2 * (match current with Some c => nodes_of c | None => 0 end) < fuel)%nat ->
    traverse MAX_TREE_HT fuel stack arr visited current codes <> OutOfFuel.
Proof.
  induction fuel as [|fuel IH]; intros stack arr visited current codes Hm; [lia|].
  cbn [traverse].
  destruct ((0 <? length stack)%nat || _); [|discriminate].
  assert (Hpush : match (match current with
                         | Some c => push_left MAX_TREE_HT c stack arr
                         | None => Returns (stack, arr)
                         end) with
                  | Returns (stack', _) => (pending stack' visited < S fuel)%nat
                  | Undefined => True
                  | OutOfFuel => False
                  end).
  { destruct current as [c|]; [|lia].
    pose proof (push_left_pending c stack arr visited) as H.
    destruct (push_left MAX_TREE_HT c stack arr) as [[stack' arr']| |]; auto. lia. }
  destruct (match current with
            | Some c => push_left MAX_TREE_HT c stack arr
            | None => Returns (stack, arr)
            end) as [[stack1 arr1]| |]; [|discriminate|contradiction].
  cbn [bind].
  destruct (read stack1 (Z.of_nat (length stack1) - 1)) as [top| |] eqn:Etop;
    [|discriminate|exfalso; exact (read_not_OutOfFuel _ _ Etop)].
  cbn [bind].
  destruct (read visited (Z.of_nat (length stack1) - 1)) as [v| |] eqn:Ev;
    [|discriminate|exfalso; exact (read_not_OutOfFuel _ _ Ev)].
  cbn [bind].
  (* the stack ends with [top], whose cell of [visited] holds [v] *)
  assert (Hstack : exists s, stack1 = s ++ [top]
                             /\ nth (length s) visited 0 = v
                             /\ (length s < length visited)%nat).
  { destruct (exists_last (l := stack1)) as (s & t & ->).
    { intros ->. cbn in Etop. discriminate. }
    exists s. rewrite length_app in Etop, Ev. cbn [length] in Etop, Ev.
    replace (Z.of_nat (length s + 1) - 1) with (Z.of_nat (length s)) in Etop, Ev by lia.
    rewrite read_nth_error in Etop. rewrite read_nth_error in Ev.
    rewrite nth_error_app2, Nat.sub_diag in Etop by lia. cbn in Etop.
    injection Etop as ->. split; [reflexivity|].
    destruct (nth_error visited (length s)) eqn:E; [|discriminate].
    injection Ev as ->. split; [apply nth_error_nth; exact E|].
    apply nth_error_Some. congruence. }
  destruct Hstack as (s & -> & Hv & Hlen).
  rewrite pending_last, Hv in Hpush.
  rewrite removelast_last.
  assert (Hpop : forall arr' codes',
             traverse MAX_TREE_HT fuel s arr' visited None codes' <> OutOfFuel).
  { intros arr' codes'. apply IH. pose proof (turns_of_bounds top v). lia. }
  assert (Hwrite : forall arr',
             (codes0 <- (if isLeaf top then write codes (data top) (row_of arr')
                         else Returns codes) ;;
              traverse MAX_TREE_HT fuel s arr' visited None codes0) <> OutOfFuel).
  { intros arr'. destruct (isLeaf top); [|apply Hpop].
    destruct (write codes (data top) (row_of arr')) eqn:Ew; cbn [bind];
      [apply Hpop|discriminate|exfalso; exact (write_not_OutOfFuel _ _ _ Ew)]. }
  destruct (right top) as [r|] eqn:Er; [|apply Hwrite].
  destruct (v =? 0) eqn:Ev0; [|apply Hwrite].
  rewrite length_app. cbn [length].
  replace (Z.of_nat (length s + 1) - 1) with (Z.of_nat (length s)) by lia.
  rewrite write_in_bounds by lia. cbn [bind]. rewrite Nat2Z.id.
  destruct (write arr1 (Z.of_nat (length s)) 1) eqn:Ew; cbn [bind];
    [|discriminate|exfalso; exact (write_not_OutOfFuel _ _ _ Ew)].
  apply IH. rewrite pending_last, pending_upd by lia.
  rewrite nth_upd_eq by exact Hlen.
  unfold turns_of in Hpush |- *. rewrite Er in Hpush |- *. rewrite Ev0 in Hpush.
  cbn [Z.eqb]. lia.
Qed.

(** [printCodes] and [generateCodes] of [huffman_t2_clock.c] return or have
    undefined behaviour: the fuel of [traverse_from] never runs out. *)
Lemma traverse_from_fuel (root : MinHeapNode) (visited : list Z) (codes : list cstring) :
  traverse_from MAX_TREE_HT root visited codes <> OutOfFuel.
Proof. unfold traverse_from. apply traverse_fuel. cbn [pending]. lia. Qed.

End TraversalFuel.

(** ** Code extraction on a balanced tree: [printCodes] of [huffman.c] *)

(** C2 at the input "abcd" (four symbols of frequency 1). [huffman.c]
    builds the tree [((a b) (c d))]; [printCodes] gives [a], [b] and [c]
    their paths and never visits the leaf [d], because [visited[1]] was set
    under the left subtree and is not cleared: the row of [d] stays empty,
    it is a prefix of every other code, and the bit string printed for
    "abcd" has no bit for [d]. The recursive [generateCodes] of
    [huffman_vlad.c] visits the four leaves of its tree [((a d) (c b))].
    [generateCodes] of [huffman_t2_clock.c] is the loop of [printCodes]: on
    "abc" (with the end marker, four symbols of frequency 1) the tree is
    [((EOF c) (b a))] and the leaf [a] is never visited. *)
Theorem printCodes_leaves_a_code_empty :
  exists r n,
    Huffman.HuffmanCodes 0 (chars "abcd") 4 = Returns (r, n)
    /\ map (code_of (Huffman.codes r)) (chars "abcd")
       = [chars "00"; chars "01"; chars "10"; []]
    /\ prefix_free (Huffman.codes r) (chars "abcd") = false
    /\ Huffman.encoded r = chars "000110"
    /\ exists r' n',
         Vlad.HuffmanCodes 0 (chars "abcd" ++ [NUL]) 4 = Returns (r', n')
         /\ map (code_of (Vlad.codes r')) (chars "abcd")
            = [chars "00"; chars "11"; chars "10"; chars "01"]
         /\ prefix_free (Vlad.codes r') (chars "abcd") = true
         /\ exists g,
              T2Clock.HuffmanCodes T2Clock.initial (chars "abc") 3 = Returns ([36], g)
              /\ map (code_of (T2Clock.codes g)) (T2Clock.EOF_CHAR :: chars "abc")
                 = [chars "00"; []; chars "10"; chars "01"]
              /\ prefix_free (T2Clock.codes g) (T2Clock.EOF_CHAR :: chars "abc") = false.
Proof.
  eexists. eexists. split; [vm_compute; reflexivity|].
  repeat (split; [vm_compute; reflexivity|]).
  eexists. eexists. split; [vm_compute; reflexivity|].
  repeat (split; [vm_compute; reflexivity|]).
  eexists. split; [vm_compute; reflexivity|].
  split; vm_compute; reflexivity.
Qed.

(** ** Bit packing: [compressInput] of [huffman_vlad.c] *)

Lemma Vlad_compressInput_prefix (pre : list char) :
  forall (post : list char) (codes : list cstring) (compressed : cstring),
    Forall (fun c => c <> NUL) pre ->
    Vlad.compressInput (pre ++ NUL :: post) codes compressed
    = Vlad.compressInput (pre ++ [NUL]) codes compressed.
Proof.
  induction pre as [|c pre IH]; intros post codes compressed H; [reflexivity|].
  inversion H as [|? ? Hc Hpre]; subst. apply Z.eqb_neq in Hc.
  cbn [app Vlad.compressInput]. rewrite Hc.
  apply bind_ext. intros row. apply bind_ext. intros compressed'. apply IH. exact Hpre.
Qed.

Lemma Vlad_compressInput_rows (pre : list char) :
  forall (post : list char) (codes : list cstring) (compressed : cstring),
    Forall (fun c => c <> NUL) pre ->
    Forall (fun c => 0 <= c < Z.of_nat (length codes)) pre ->
    Z.of_nat (length compressed) + Z.of_nat (length (concat (map (code_of codes) pre))) + 1
      <= Vlad.MAX_TREE_HT * Vlad.MAX_CHAR ->
    Vlad.compressInput (pre ++ NUL :: post) codes compressed
    = Returns (compressed ++ concat (map (code_of codes) pre)).
Proof.
  induction pre as [|c pre IH]; intros post codes compressed Hnul Hin Hcap.
  - cbn. rewrite app_nil_r. reflexivity.
  - inversion Hnul as [|? ? Hc Hnul']; subst. inversion Hin as [|? ? Hc' Hin']; subst.
    apply Z.eqb_neq in Hc. cbn [app Vlad.compressInput]. rewrite Hc.
    rewrite read_code_of by assumption. cbn [bind].
    cbn [map concat] in Hcap |- *. rewrite length_app in Hcap.
    unfold strcat.
    replace (Z.of_nat (length compressed) + Z.of_nat (length (code_of codes c)) + 1
             <=? Vlad.MAX_TREE_HT * Vlad.MAX_CHAR) with true
      by (symmetry; apply Z.leb_le; lia).
    cbn [bind]. rewrite IH; try assumption.
    + rewrite app_assoc. reflexivity.
    + rewrite length_app. lia.
Qed.

Lemma Vlad_compressInput_returns (pre : list char) :
  forall (post : list char) (codes : list cstring) (compressed result : cstring),
    Forall (fun c => c <> NUL) pre ->
    Vlad.compressInput (pre ++ NUL :: post) codes compressed = Returns result ->
    result = compressed ++ concat (map (code_of codes) pre).
Proof.
  induction pre as [|c pre IH]; intros post codes compressed result Hnul H.
  - cbn in H. injection H as <-. cbn. rewrite app_nil_r. reflexivity.
  - inversion Hnul as [|? ? Hc Hnul']; subst. apply Z.eqb_neq in Hc.
    cbn [app Vlad.compressInput] in H. rewrite Hc in H.
    apply bind_returns_inv in H. destruct H as (row & Hrow & H).
    apply bind_returns_inv in H. destruct H as (compressed' & Hcat & H).
    apply (read_returns_inv _ _ _ []) in Hrow. fold (code_of codes c) in Hrow.
    unfold strcat in Hcat. destruct (_ <=? _) in Hcat; [|discriminate].
    injection Hcat as <-. rewrite (IH _ _ _ _ Hnul' H). subst row.
    cbn [map concat]. rewrite app_assoc. reflexivity.
Qed.

Lemma Vlad_compressInput_no_bits (codes : list cstring) (c : char) (rest : list char)
  (k : nat) :
  0 <= c < Z.of_nat (length codes) ->
  code_of codes c = [] ->
  Vlad.compressInput (repeat c k ++ NUL :: rest) codes [] = Returns [].
Proof.
  intros Hc Hrow. induction k as [|k IH].
  - reflexivity.
  - cbn [repeat app Vlad.compressInput].
    destruct (c =? NUL); [reflexivity|].
    rewrite read_code_of, Hrow by exact Hc. cbn [bind strcat length app]. exact IH.
Qed.

(** [compressInput] on an array without a [NUL] leaves the array. *)
Lemma Vlad_compressInput_no_NUL (input : list char) :
  ~ In NUL input ->
  forall (codes : list cstring) (compressed : cstring),
    Vlad.compressInput input codes compressed = Undefined.
Proof.
  induction input as [|c input IH]; intros Hnul codes compressed; [reflexivity|].
  cbn [Vlad.compressInput].
  replace (c =? NUL) with false
    by (symmetry; apply Z.eqb_neq; intros ->; apply Hnul; left; reflexivity).
  destruct (read codes c) as [row| |] eqn:E; cbn [bind];
    [|reflexivity|exfalso; exact (read_not_OutOfFuel _ _ E)].
  unfold strcat. destruct (_ <=? _); [|reflexivity]. cbn [bind].
  apply IH. intros H. apply Hnul. right. exact H.
Qed.

(** C10: [compressInput] of [huffman_vlad.c] has no length parameter and
    runs to the first [NUL] of the array. On an input whose first [NUL]
    comes after the symbols [pre], the result is the one for [pre] alone,
    whatever follows the [NUL]; and when the symbols of [pre] index the code
    table and the bit string fits [compressed], it is the rows of the
    symbols of [pre] appended in order. *)
Theorem compressInput_stops_at_first_NUL (pre post : list char) (codes : list cstring)
  (compressed : cstring) :
  Forall (fun c => c <> NUL) pre ->
  Vlad.compressInput (pre ++ NUL :: post) codes compressed
  = Vlad.compressInput (pre ++ [NUL]) codes compressed
  /\ (Forall (fun c => 0 <= c < Z.of_nat (length codes)) pre ->
      Z.of_nat (length compressed) + Z.of_nat (length (concat (map (code_of codes) pre))) + 1
        <= Vlad.MAX_TREE_HT * Vlad.MAX_CHAR ->
      Vlad.compressInput (pre ++ NUL :: post) codes compressed
      = Returns (compressed ++ concat (map (code_of codes) pre))).
Proof.
  intros Hnul. split.
  - apply Vlad_compressInput_prefix. exact Hnul.
  - intros Hin Hcap. apply Vlad_compressInput_rows; assumption.
Qed.

Lemma compressInput_stops_at_first_NUL_witness :
  Vlad.compressInput (chars "ab" ++ NUL :: chars "ba")
    (upd 97 (chars "0") (upd 98 (chars "11") (repeat [] 256))) []
  = Returns (chars "011").
Proof.
  assert (Hnul : Forall (fun c => c <> NUL) (chars "ab"))
    by (repeat constructor; discriminate).
  destruct (compressInput_stops_at_first_NUL (chars "ab") (chars "ba")
              (upd 97 (chars "0") (upd 98 (chars "11") (repeat [] 256))) [] Hnul)
    as [_ H].
  apply H.
  - repeat constructor; vm_compute; discriminate.
  - vm_compute. discriminate.
Defined.

(** ** Bit packing: [compressInput] of [huffman_t2_clock.c] *)

Lemma copy_row_spec (row : cstring) :
  forall (compressed : list char) (bitIndex : nat),
    (bitIndex + length row <= length compressed)%nat ->
    T2Clock.copy_row row compressed (Z.of_nat bitIndex)
    = Returns (firstn bitIndex compressed ++ row
               ++ skipn (bitIndex + length row) compressed,
               Z.of_nat (bitIndex + length row)).
Proof.
  induction row as [|c row IH]; intros compressed bitIndex H.
  - cbn [T2Clock.copy_row length app]. rewrite Nat.add_0_r, firstn_skipn. reflexivity.
  - cbn [T2Clock.copy_row length] in *.
    rewrite write_in_bounds by lia. cbn [bind]. rewrite Nat2Z.id.
    replace (Z.of_nat bitIndex + 1) with (Z.of_nat (S bitIndex)) by lia.
    rewrite IH by (rewrite upd_length; lia).
    rewrite upd_split by lia. f_equal. f_equal; [|lia].
    rewrite firstn_app, length_firstn.
    replace (Nat.min bitIndex (length compressed)) with bitIndex by lia.
    replace (S bitIndex - bitIndex)%nat with 1%nat by lia.
    rewrite firstn_all2 by (rewrite length_firstn; lia).
    cbn [firstn]. rewrite <- app_assoc. cbn [app]. f_equal. f_equal. f_equal.
    rewrite skipn_app, length_firstn.
    replace (Nat.min bitIndex (length compressed)) with bitIndex by lia.
    rewrite skipn_all2 by (rewrite length_firstn; lia).
    replace (S bitIndex + length row - bitIndex)%nat with (S (length row)) by lia.
    rewrite app_nil_l, skipn_cons, skipn_skipn.
    f_equal. lia.
Qed.

Lemma pack_rows (codes : list cstring) (symbols : list char) :
  forall (compressed : list char) (bitIndex : nat),
    Forall (fun c => 0 <= c < Z.of_nat (length codes)) symbols ->
    (bitIndex + length (concat (map (code_of codes) symbols)) <= length compressed)%nat ->
    fold_symbols
      (fun c '(compressed, bitIndex) =>
         row <- read codes c ;; T2Clock.copy_row row compressed bitIndex)
      symbols (compressed, Z.of_nat bitIndex)
    = Returns (firstn bitIndex compressed ++ concat (map (code_of codes) symbols)
               ++ skipn (bitIndex + length (concat (map (code_of codes) symbols))) compressed,
               Z.of_nat (bitIndex + length (concat (map (code_of codes) symbols)))).
Proof.
  induction symbols as [|c symbols IH]; intros compressed bitIndex Hin Hcap.
  - cbn. rewrite Nat.add_0_r, firstn_skipn. reflexivity.
  - inversion Hin as [|? ? Hc Hin']; subst.
    cbn [map concat fold_symbols] in *. rewrite length_app in Hcap.
    rewrite read_code_of by assumption. cbn [bind].
    rewrite copy_row_spec by lia. cbn [bind].
    set (row := code_of codes c) in *.
    set (bits := concat (map (code_of codes) symbols)) in *.
    rewrite IH; [|assumption|rewrite !length_app, length_firstn, length_skipn; lia].
    f_equal. rewrite length_app. f_equal; [|lia].
    rewrite firstn_app, length_firstn.
    replace (Nat.min bitIndex (length compressed)) with bitIndex by lia.
    rewrite (firstn_all2 (n := (bitIndex + length row)%nat))
      by (rewrite length_firstn; lia).
    replace (bitIndex + length row - bitIndex)%nat with (length row) by lia.
    rewrite firstn_app, firstn_all, Nat.sub_diag. cbn [firstn].
    rewrite app_nil_r, <- !app_assoc. f_equal. f_equal. f_equal.
    rewrite app_assoc, skipn_app.
    rewrite skipn_all2 by (rewrite length_app, length_firstn; lia).
    rewrite length_app, length_firstn. cbn [app].
    replace (Nat.min bitIndex (length compressed)) with bitIndex by lia.
    rewrite skipn_skipn. f_equal. lia.
Qed.




(** ** Bit packing: [convertToAscii] *)

Lemma binary_to_char_byte (b7 b6 b5 b4 b3 b2 b1 b0 : char) (rest : list char) :
  binary_to_char (b7 :: b6 :: b5 :: b4 :: b3 :: b2 :: b1 :: b0 :: rest)
  = Returns (byte_of b7 b6 b5 b4 b3 b2 b1 b0).
Proof.
  unfold binary_to_char, byte_of. simpl. f_equal. f_equal. ring.
Qed.

Lemma convert_loop_bytes (k : nat) :
  forall (fuel : nat) (pre rest : list char) (output : list Z),
    length rest = (8 * k)%nat ->
    (k <= fuel)%nat ->
    convert_loop fuel (pre ++ rest) (Z.of_nat (length pre + 8 * k))
      (Z.of_nat (length pre)) output
    = Returns (output ++ bytes_of rest).
Proof.
  induction k as [|k IH]; intros fuel pre rest output Hlen Hfuel.
  - destruct rest; [|discriminate].
    replace (length pre + 8 * 0)%nat with (length pre) by lia.
    destruct fuel; simpl; rewrite Z.ltb_irrefl, app_nil_r; reflexivity.
  - destruct fuel as [|fuel]; [lia|].
    do 8 (destruct rest as [|? rest]; [simpl in Hlen; lia|]).
    cbn [convert_loop].
    replace (Z.of_nat (length pre) <? Z.of_nat (length pre + 8 * S k)) with true
      by (symmetry; apply Z.ltb_lt; lia).
    rewrite Nat2Z.id, skipn_app, skipn_all, Nat.sub_diag. cbn [app skipn].
    rewrite binary_to_char_byte. cbn [bind bytes_of].
    match goal with
    | |- context [?a :: ?b :: ?c :: ?d :: ?e :: ?f :: ?g :: ?h :: rest] =>
        specialize (IH fuel (pre ++ [a; b; c; d; e; f; g; h]) rest
                      (output ++ [byte_of a b c d e f g h]))
    end.
    rewrite <- app_assoc in IH. cbn [app] in IH.
    rewrite length_app in IH. cbn [length] in IH.
    replace (length pre + 8 + 8 * k)%nat with (length pre + 8 * S k)%nat in IH by lia.
    replace (Z.of_nat (length pre + 8)) with (Z.of_nat (length pre) + 8) in IH by lia.
    rewrite IH; [|simpl in Hlen; lia|lia].
    rewrite <- app_assoc. reflexivity.
Qed.

Lemma padded_length_padding (n : Z) :
  0 <= n -> (n + 7) / 8 * 8 - n = padding_of n.
Proof.
  intros Hn. unfold padding_of.
  pose proof (Z.div_mod n 8 ltac:(lia)) as E.
  pose proof (Z.mod_pos_bound n 8 ltac:(lia)) as B.
  destruct (Z.eq_dec (n mod 8) 0) as [Hz|Hz].
  - rewrite Hz. change ((8 - 0) mod 8) with 0.
    replace (n + 7) with (7 + (n / 8) * 8) by lia.
    rewrite Z.div_add by lia. change (7 / 8) with 0. lia.
  - rewrite (Z.mod_small (8 - n mod 8)) by lia.
    replace (n + 7) with ((n mod 8 - 1) + (n / 8 + 1) * 8) by lia.
    rewrite Z.div_add by lia. rewrite (Z.div_small (n mod 8 - 1)) by lia. lia.
Qed.

Lemma padding_of_bounds (n : Z) :
  0 <= padding_of n < 8 /\ (n + padding_of n) mod 8 = 0.
Proof.
  unfold padding_of. split; [apply Z.mod_pos_bound; lia|].
  rewrite Zplus_mod_idemp_r. replace (n + (8 - n mod 8)) with (n - n mod 8 + 1 * 8) by lia.
  rewrite Z.mod_add by lia. rewrite Zminus_mod_idemp_r, Z.sub_diag. reflexivity.
Qed.

Lemma convertToAscii_with_bytes (cap : Z) (compressed : cstring) :
  Z.of_nat (length compressed) + padding_of (Z.of_nat (length compressed)) + 1 <= cap ->
  convertToAscii_with cap compressed
  = Returns (bytes_of (repeat chr0 (Z.to_nat (padding_of (Z.of_nat (length compressed))))
                       ++ compressed)).
Proof.
  intros Hcap. unfold convertToAscii_with.
  set (n := Z.of_nat (length compressed)) in *.
  assert (Hn : 0 <= n) by (unfold n; lia).
  pose proof (padded_length_padding n Hn) as Hpad.
  destruct (padding_of_bounds n) as [Hb Hm].
  replace ((n + 7) / 8 * 8) with (n + padding_of n) by lia.
  replace (n + padding_of n - n) with (padding_of n) by lia.
  replace (n + padding_of n + 1 <=? cap) with true by (symmetry; apply Z.leb_le; lia).
  set (padded := repeat chr0 (Z.to_nat (padding_of n)) ++ compressed).
  assert (Hlen : Z.of_nat (length padded) = n + padding_of n).
  { unfold padded. rewrite length_app, repeat_length, Nat2Z.inj_add, Z2Nat.id by lia.
    fold n. lia. }
  pose proof (Z.div_mod (n + padding_of n) 8 ltac:(lia)) as E. rewrite Hm in E.
  pose proof (Z.div_pos (n + padding_of n) 8 ltac:(lia) ltac:(lia)) as Hq.
  pose proof (convert_loop_bytes (Z.to_nat ((n + padding_of n) / 8))
                (Z.to_nat (n + padding_of n)) [] padded []) as H.
  cbn [app length Nat.add] in H.
  replace (Z.of_nat (8 * Z.to_nat ((n + padding_of n) / 8))) with (n + padding_of n) in H by lia.
  apply H; lia.
Qed.

(** [convertToAscii] of [huffman_vlad.c]: the arrays are made to measure,
    and the one of the output bytes needs a byte to hold. *)
Lemma Vlad_convertToAscii_bytes (compressed : cstring) :
  compressed <> [] ->
  Vlad.convertToAscii compressed
  = Returns (bytes_of (repeat chr0 (Z.to_nat (padding_of (Z.of_nat (length compressed))))
                       ++ compressed)).
Proof.
  intros Hne. unfold Vlad.convertToAscii.
  set (n := Z.of_nat (length compressed)).
  assert (Hn : 1 <= n) by (unfold n; destruct compressed; [contradiction|cbn; lia]).
  pose proof (padded_length_padding n ltac:(lia)) as Hpad.
  destruct (padding_of_bounds n) as [Hb Hm].
  assert (E : (n + 7) / 8 * 8 = n + padding_of n) by lia.
  rewrite E.
  pose proof (Z.div_mod (n + padding_of n) 8 ltac:(lia)) as D. rewrite Hm in D.
  replace (0 <? (n + padding_of n) / 8) with true by (symmetry; apply Z.ltb_lt; lia).
  apply convertToAscii_with_bytes. fold n. lia.
Qed.

Lemma Vlad_convertToAscii_empty : Vlad.convertToAscii [] = Undefined.
Proof. reflexivity. Qed.

(** The string an array of [huffman_t2_clock.c] holds. *)
Lemma strlen_string (s : cstring) (stale : list char) :
  Forall (fun c => c <> NUL) s ->
  T2Clock.strlen (s ++ NUL :: stale) = Returns (Z.of_nat (length s)).
Proof.
  induction 1 as [|c s Hc Hs IH]; [reflexivity|].
  cbn [app T2Clock.strlen length]. apply Z.eqb_neq in Hc. rewrite Hc, IH.
  cbn [bind]. f_equal. lia.
Qed.

Lemma string_in_string (s : cstring) (stale : list char) :
  Forall (fun c => c <> NUL) s ->
  T2Clock.string_in (s ++ NUL :: stale) = Returns s.
Proof.
  intros H. unfold T2Clock.string_in. rewrite strlen_string by assumption.
  cbn [bind]. rewrite Nat2Z.id, firstn_app, firstn_all, Nat.sub_diag.
  cbn [firstn]. rewrite app_nil_r. reflexivity.
Qed.




(** ** Whole runs of [huffman_vlad.c] *)

Lemma Vlad_buildHuffmanTree_one_symbol (nodeIndex : Z) (c : char) (n : Z) :
  0 <= n < UINT_MODULUS ->
  0 <= nodeIndex < Vlad.MAX_CHAR ->
  Vlad.buildHuffmanTree nodeIndex [c] [n] 1 = Returns (Node c n None None, nodeIndex + 1).
Proof.
  intros Hn Hidx.
  assert (Hpos : Forall (fun f => 0 <= f) [n]) by (constructor; [lia|constructor]).
  destruct (buildHuffmanTree_with_spec Vlad.MAX_CHAR Vlad.less
              (fun arr => (1 <? length arr)%nat) nodeIndex [c] [n]
              continue_size_gt_1 ltac:(cbn; lia) eq_refl Hpos ltac:(cbn; lia)
              ltac:(lia) ltac:(cbn; lia))
    as (root & E & Hw & Hl).
  apply Permutation_sym, Permutation_length_1_inv in Hl.
  rewrite (one_leaf_tree root (c, n) Hw Hl) in E.
  unfold Vlad.buildHuffmanTree. change (Z.of_nat (length [c])) with 1 in E.
  rewrite E. cbn [fst snd]. f_equal. f_equal. lia.
Qed.

Lemma counts_of_one_symbol (c : char) (n : Z) (rest : list char) :
  0 <= c < Vlad.MAX_CHAR ->
  1 <= n <= INT_MAX ->
  exists freq,
    for_range 0 n
      (fun i freq => c' <- read (repeat c (Z.to_nat n) ++ rest) i ;;
                     increment freq c')
      (repeat 0 (Z.to_nat Vlad.MAX_CHAR))
    = Returns freq
    /\ length freq = Z.to_nat Vlad.MAX_CHAR
    /\ positive_entries freq 0 = [(c, n)].
Proof.
  intros Hc Hn.
  rewrite (for_range_read (fun c freq => increment freq c)).
  2:{ rewrite length_app, repeat_length. lia. }
  rewrite firstn_app, repeat_length, Nat.sub_diag, firstn_O, app_nil_r.
  rewrite firstn_all2 by (rewrite repeat_length; lia).
  destruct (fold_increment_counts (repeat c (Z.to_nat n)) (repeat 0 (Z.to_nat Vlad.MAX_CHAR)))
    as (freq & E & L & N).
  - apply Forall_forall. intros x Hx. apply repeat_spec in Hx. subst x.
    rewrite repeat_length. unfold Vlad.MAX_CHAR in *. lia.
  - apply Forall_forall. intros x Hx. apply repeat_spec in Hx. subst x.
    rewrite repeat_length. lia.
  - exists freq. split; [exact E|]. rewrite repeat_length in L. split; [exact L|].
    rewrite (positive_entries_single freq 0 (Z.to_nat c) n).
    + do 2 f_equal. lia.
    + rewrite L. unfold Vlad.MAX_CHAR in *. lia.
    + lia.
    + intros k. rewrite N, nth_repeat. destruct (k =? Z.to_nat c)%nat eqn:Ek.
      * apply Nat.eqb_eq in Ek. subst k.
        rewrite count_occ_repeat_eq by lia. lia.
      * apply Nat.eqb_neq in Ek. rewrite count_occ_repeat_neq by lia. lia.
Qed.

(** C9 at the input "aaa", in an array that holds a [NUL] behind the three
    characters and in one that does not. [buildHuffmanTree] returns the one
    leaf as the root, [generateCodes] gives [a] the empty code and
    [compressInput] gives the empty bit string, as the claim says. Then
    [convertToAscii] declares [char output[padded_length / 8]] with a bound
    of 0, and the behaviour of [HuffmanCodes] is undefined. Without the
    [NUL], [compressInput] reads past the end of the array. *)
Theorem one_repeated_symbol_is_undefined :
  Vlad.buildHuffmanTree 0 (chars "a") [3] 1 = Returns (Node 97 3 None None, 1)
  /\ Vlad.generateCodes (Node 97 3 None None) [] (repeat [] (Z.to_nat Vlad.MAX_CHAR))
     = Returns (repeat [] (Z.to_nat Vlad.MAX_CHAR))
  /\ Vlad.compressInput (chars "aaa" ++ [NUL]) (repeat [] (Z.to_nat Vlad.MAX_CHAR)) []
     = Returns []
  /\ Vlad.convertToAscii [] = Undefined
  /\ Vlad.HuffmanCodes 0 (chars "aaa" ++ [NUL]) 3 = Undefined
  /\ Vlad.HuffmanCodes 0 (chars "aaa") 3 = Undefined.
Proof. repeat split. Qed.

(** C10 in a whole run: whenever [HuffmanCodes] of [huffman_vlad.c]
    returns on an array whose first [NUL] comes after the symbols [pre],
    the bit string is the codes of the symbols of [pre], in the code table
    built from the [size] symbols counted. *)
Lemma Vlad_HuffmanCodes_encodes_up_to_NUL (nodeIndex : Z) (pre post : list char)
  (size : Z) (r : Vlad.result) (nodeIndex' : Z) :
  Forall (fun c => c <> NUL) pre ->
  Vlad.HuffmanCodes nodeIndex (pre ++ NUL :: post) size = Returns (r, nodeIndex') ->
  Vlad.compressed r = concat (map (code_of (Vlad.codes r)) pre).
Proof.
  intros Hnul H. unfold Vlad.HuffmanCodes in H.
  apply bind_returns_inv in H. destruct H as (freq & _ & H).
  apply bind_returns_inv in H. destruct H as ([uniqueData uniqueFreq] & _ & H).
  apply bind_returns_inv in H. destruct H as ([root n] & _ & H).
  apply bind_returns_inv in H. destruct H as (codes & _ & H).
  apply bind_returns_inv in H. destruct H as (compressed & Hc & H).
  apply bind_returns_inv in H. destruct H as (output & _ & H).
  injection H as <- _. cbn [Vlad.compressed Vlad.codes].
  apply (Vlad_compressInput_returns pre post codes [] compressed Hnul Hc).
Qed.

(** ** State kept between calls: [HuffmanCodes] of [huffman_t2_clock.c] *)

(** C3 at the input "ab", encoded twice in one process. The first call
    writes the byte 14 (the bits 01110: "0" for [a], "11" for [b], "10" for
    the end marker). The second call starts from the static objects the
    first one left: [visited] keeps [generateCodes] from going right, the
    rows of [codes] and the tail of [compressed] are those of the first
    call, and the output is the byte 58 (the bits 0111010). *)
Theorem HuffmanCodes_second_call_differs :
  exists g1 g2,
    T2Clock.HuffmanCodes T2Clock.initial (chars "ab") 2 = Returns ([14], g1)
    /\ T2Clock.HuffmanCodes g1 (chars "ab") 2 = Returns ([58], g2)
    /\ T2Clock.string_in (T2Clock.compressed g1) = Returns (chars "01110")
    /\ T2Clock.string_in (T2Clock.compressed g2) = Returns (chars "0111010")
    /\ T2Clock.nodeIndex g1 = 5
    /\ T2Clock.nodeIndex g2 = 10
    /\ firstn 2 (T2Clock.visited g1) = [1; 1].
Proof.
  eexists. eexists. split; [vm_compute; reflexivity|].
  repeat (split; [vm_compute; reflexivity|]). vm_compute; reflexivity.
Qed.

(** ** The heap order by weight through [insertMinHeap] and the merging loop

    [insertMinHeap] compares weights only, in the three files, and
    [minHeapify] of [huffman.c] compares symbols as well: what the heap
    operations keep in all of them is the order by weight. *)

Section WeightOrder.

Variable MAX_CHAR : Z.
Variable less : MinHeapNode -> MinHeapNode -> bool.

(** The comparison of [minHeapify] never takes a heavier node for smaller. *)
Hypothesis less_lighter : forall a b, less a b = true -> freq a <= freq b.
Hypothesis less_not_heavier : forall a b, less a b = false -> freq b <= freq a.

Lemma smallest_of_lightest (arr : list MinHeapNode) (idx : nat) :
  (smallest_of less arr idx = idx
   /\ forall c, child_of idx c -> (c < length arr)%nat ->
                freq (nth idx arr unread) <= freq (nth c arr unread))
  \/ (child_of idx (smallest_of less arr idx)
      /\ (smallest_of less arr idx < length arr)%nat
      /\ freq (nth (smallest_of less arr idx) arr unread) <= freq (nth idx arr unread)
      /\ forall c, child_of idx c -> (c < length arr)%nat ->
                   freq (nth (smallest_of less arr idx) arr unread)
                   <= freq (nth c arr unread)).
Proof.
  unfold smallest_of, child_of.
  set (l := (2 * idx + 1)%nat). set (r := (2 * idx + 2)%nat).
  destruct (Nat.ltb_spec l (length arr)) as [El|El];
    destruct (Nat.ltb_spec r (length arr)) as [Er|Er]; cbn [andb];
    try (unfold l, r in *; lia).
  - destruct (less (nth l arr unread) (nth idx arr unread)) eqn:Hl;
      [destruct (less (nth r arr unread) (nth l arr unread)) eqn:Hr
      |destruct (less (nth r arr unread) (nth idx arr unread)) eqn:Hr];
      try apply less_lighter in Hl; try apply less_not_heavier in Hl;
      try apply less_lighter in Hr; try apply less_not_heavier in Hr.
    + right. repeat split; auto; [lia|]. intros c [->| ->] _; fold l r; lia.
    + right. repeat split; auto. intros c [->| ->] _; fold l r; lia.
    + right. repeat split; auto. intros c [->| ->] _; fold l r; lia.
    + left. split; [reflexivity|]. intros c [->| ->] _; fold l r; lia.
  - destruct (less (nth l arr unread) (nth idx arr unread)) eqn:Hl;
      try apply less_lighter in Hl; try apply less_not_heavier in Hl.
    + right. repeat split; auto.
      intros c [->| ->] Hc; fold l r in Hc |- *; lia.
    + left. split; [reflexivity|]. intros c [->| ->] Hc; fold l r in Hc |- *; lia.
  - left. split; [reflexivity|]. intros c [->| ->] Hc; fold l r in Hc; lia.
Qed.

(** A sift-down that has reached the cell [j]: the cells from [k] on are in
    order except [j], and the parent of [j] is not heavier than the
    children of [j]. *)
Lemma minHeapify_fuel_weight (fuel : nat) :
  forall (arr : list MinHeapNode) (k j : nat),
    (k <= j)%nat ->
    (length arr - j <= fuel)%nat ->
    (forall i c, (k <= i)%nat -> i <> j -> child_of i c -> (c < length arr)%nat ->
                 freq (nth i arr unread) <= freq (nth c arr unread)) ->
    (forall p c, (k <= p)%nat -> child_of p j -> child_of j c -> (c < length arr)%nat ->
                 freq (nth p arr unread) <= freq (nth c arr unread)) ->
    weight_ordered_from k (minHeapify_fuel less fuel arr j).
Proof.
  induction fuel as [|fuel IH]; intros arr k j Hkj Hfuel Hothers Hgrand.
  - cbn [minHeapify_fuel]. intros i c Hi Hc Hlen. destruct (Nat.eq_dec i j) as [->|Hne].
    + destruct Hc; lia.
    + apply Hothers; assumption.
  - rewrite minHeapify_fuel_step.
    destruct (smallest_of_lightest arr j) as [[Es Hord]|(Hchild & Hlen & Hless & Hmin)].
    + rewrite Es, Nat.eqb_refl. intros i c Hi Hc Hclen.
      destruct (Nat.eq_dec i j) as [->|Hne].
      * apply Hord; assumption.
      * apply Hothers; assumption.
    + set (s := smallest_of less arr j) in *.
      assert (Hsj : (j < s)%nat) by (destruct Hchild; lia).
      replace (s =? j)%nat with false by (symmetry; apply Nat.eqb_neq; lia).
      apply IH.
      * lia.
      * rewrite swapMinHeapNode_length. lia.
      * intros i c Hi Hne Hc Hclen. rewrite swapMinHeapNode_length in Hclen.
        destruct (Nat.eq_dec i j) as [->|Hij].
        -- rewrite nth_swap_right by lia.
           destruct (Nat.eq_dec c s) as [->|Hcs].
           ++ rewrite nth_swap_left by lia. exact Hless.
           ++ rewrite nth_swap_other by (destruct Hc; lia). apply Hmin; assumption.
        -- rewrite (nth_swap_other arr s j i) by lia.
           assert (Hcs : c <> s) by (destruct Hc, Hchild; lia).
           destruct (Nat.eq_dec c j) as [->|Hcj].
           ++ rewrite nth_swap_right by lia. apply (Hgrand i s); auto.
           ++ rewrite nth_swap_other by lia. apply (Hothers i c Hi Hij Hc Hclen).
      * intros p c Hp Hps Hsc Hclen. rewrite swapMinHeapNode_length in Hclen.
        assert (p = j) by (destruct Hps, Hchild; lia). subst p.
        rewrite nth_swap_right by lia.
        rewrite nth_swap_other by (destruct Hsc; lia).
        apply (Hothers s c ltac:(lia) ltac:(lia) Hsc Hclen).
Qed.

Lemma minHeapify_weight (arr : list MinHeapNode) (k : nat) :
  weight_ordered_from (S k) arr -> weight_ordered_from k (minHeapify less arr k).
Proof.
  intros H. apply minHeapify_fuel_weight.
  - lia.
  - lia.
  - intros i c Hi Hne. apply H. lia.
  - intros p c Hp Hpk. destruct Hpk; lia.
Qed.

Lemma buildMinHeap_loop_weight (count : nat) :
  forall arr, weight_ordered_from count arr ->
              weight_ordered (buildMinHeap_loop less count arr).
Proof.
  induction count as [|i IH]; intros arr H; [exact H|].
  cbn [buildMinHeap_loop]. apply IH. apply minHeapify_weight. exact H.
Qed.

Lemma buildMinHeap_weight (arr : list MinHeapNode) :
  Z.of_nat (length arr) <= INT_MAX ->
  weight_ordered (buildMinHeap less arr).
Proof.
  intros Hsize. unfold buildMinHeap. rewrite to_int_size by lia.
  apply buildMinHeap_loop_weight.
  intros i c Hi Hc Hlen. exfalso.
  destruct (Z.le_gt_cases 2 (Z.of_nat (length arr))) as [H2|H2].
  - rewrite Z.quot_div_nonneg in Hi by lia.
    pose proof (Z.div_mod (Z.of_nat (length arr) - 1 - 1) 2 ltac:(lia)).
    pose proof (Z.mod_pos_bound (Z.of_nat (length arr) - 1 - 1) 2 ltac:(lia)).
    destruct Hc; lia.
  - destruct Hc; lia.
Qed.

(** In a heap in order by weight the first cell is a lightest one. *)
Lemma weight_ordered_root (arr : list MinHeapNode) :
  weight_ordered arr ->
  forall i, (i < length arr)%nat -> freq (nth 0 arr unread) <= freq (nth i arr unread).
Proof.
  intros H i. induction i as [i IH] using lt_wf_ind. intros Hi.
  destruct i as [|i]; [lia|].
  set (p := (i / 2)%nat).
  assert (Hp : (p < S i)%nat) by (apply Nat.Div0.div_lt_upper_bound; lia).
  assert (Hc : child_of p (S i)).
  { unfold child_of, p. pose proof (Nat.div_mod_eq i 2) as E.
    pose proof (Nat.mod_upper_bound i 2 ltac:(lia)). lia. }
  pose proof (H p (S i) ltac:(lia) Hc Hi). pose proof (IH p Hp ltac:(lia)). lia.
Qed.

Lemma extractMin_weight (arr : list MinHeapNode) :
  arr <> [] ->
  weight_ordered arr ->
  exists m rest,
    extractMin less arr = Returns (m, rest)
    /\ Permutation (m :: rest) arr
    /\ (forall x, In x arr -> freq m <= freq x)
    /\ weight_ordered rest.
Proof.
  intros Hne Hord. destruct arr as [|temp tl]; [contradiction|].
  destruct (extractMin_Permutation less temp tl) as (rest & E & P).
  exists temp, rest. split; [exact E|]. split; [apply perm_skip; exact P|]. split.
  - intros x Hx. apply (In_nth _ _ unread) in Hx. destruct Hx as (i & Hi & <-).
    exact (weight_ordered_root _ Hord i Hi).
  - assert (Erest : rest = minHeapify less
                            (removelast (upd 0 (last (temp :: tl) unread) (temp :: tl))) 0).
    { unfold extractMin in E. inversion E. reflexivity. }
    rewrite Erest. clear Erest E.
    unfold minHeapify. apply minHeapify_fuel_weight;
      [lia|lia| |intros p c _ Hp; destruct Hp; lia].
    intros i c _ Hi Hc Hlen.
    rewrite removelast_firstn_len, upd_length in Hlen |- *.
    rewrite length_firstn, upd_length in Hlen.
    rewrite !nth_firstn.
    replace (c <? pred (length (temp :: tl)))%nat with true
      by (symmetry; apply Nat.ltb_lt; lia).
    replace (i <? pred (length (temp :: tl)))%nat with true
      by (symmetry; apply Nat.ltb_lt; destruct Hc; lia).
    rewrite !nth_upd_neq by (destruct Hc; lia).
    apply (Hord i c ltac:(lia) Hc). lia.
Qed.

(** The loop of [insertMinHeap] with the free cell at [i]: the other cells
    are in order, the children of [i] are heavier than the new node, and
    the parent of [i] is not heavier than the children of [i]. *)
Lemma insertMinHeap_loop_weight (minHeapNode : MinHeapNode) (fuel : nat) :
  forall (arr : list MinHeapNode) (i : nat),
    (i < fuel)%nat ->
    (i < length arr)%nat ->
    (forall p c, child_of p c -> (c < length arr)%nat -> p <> i -> c <> i ->
                 freq (nth p arr unread) <= freq (nth c arr unread)) ->
    (forall c, child_of i c -> (c < length arr)%nat ->
               freq minHeapNode <= freq (nth c arr unread)) ->
    (forall p c, child_of p i -> child_of i c -> (c < length arr)%nat ->
                 freq (nth p arr unread) <= freq (nth c arr unread)) ->
    let '(arr', i') := insertMinHeap_loop fuel arr i minHeapNode in
    weight_ordered (upd i' minHeapNode arr').
Proof.
  induction fuel as [|fuel IH]; intros arr i Hfuel Hi Hothers Hbelow Hgrand; [lia|].
  cbn [insertMinHeap_loop].
  set (p := ((i - 1) / 2)%nat).
  destruct (negb (i =? 0)%nat && (freq minHeapNode <? freq (nth p arr unread))) eqn:E.
  - apply andb_true_iff in E. destruct E as [E0 Elt].
    apply negb_true_iff, Nat.eqb_neq in E0. apply Z.ltb_lt in Elt.
    assert (Hpi : (p < i)%nat) by (apply Nat.Div0.div_lt_upper_bound; lia).
    assert (Hchild : child_of p i).
    { unfold child_of, p. pose proof (Nat.div_mod_eq (i - 1) 2).
      pose proof (Nat.mod_upper_bound (i - 1) 2 ltac:(lia)). lia. }
    apply IH.
    + lia.
    + rewrite upd_length. lia.
    + intros q c Hqc Hc Hq Hcp. rewrite upd_length in Hc.
      assert (Hqlt : (q < c)%nat) by (destruct Hqc; lia).
      destruct (Nat.eq_dec c i) as [->|Hci].
      { exfalso. destruct Hqc, Hchild; lia. }
      rewrite (nth_upd_neq i c) by lia.
      destruct (Nat.eq_dec q i) as [->|Hqi].
      * rewrite nth_upd_eq by lia. apply (Hgrand p c Hchild Hqc Hc).
      * rewrite nth_upd_neq by lia. apply Hothers; assumption.
    + intros c Hc Hclen. rewrite upd_length in Hclen.
      destruct (Nat.eq_dec c i) as [->|Hci].
      * rewrite nth_upd_eq by lia. lia.
      * rewrite nth_upd_neq by lia.
        pose proof (Hothers p c Hc Hclen ltac:(lia) Hci). lia.
    + intros g c Hg Hc Hclen. rewrite upd_length in Hclen.
      assert (Hgp : (g < p)%nat) by (destruct Hg; lia).
      rewrite (nth_upd_neq i g) by lia.
      pose proof (Hothers g p Hg ltac:(lia) ltac:(lia) ltac:(lia)) as Hgp'.
      destruct (Nat.eq_dec c i) as [->|Hci].
      * rewrite nth_upd_eq by lia. exact Hgp'.
      * rewrite nth_upd_neq by lia.
        pose proof (Hothers p c Hc Hclen ltac:(lia) Hci). lia.
  - intros q c _ Hqc Hc. rewrite upd_length in Hc.
    assert (Hqlt : (q < c)%nat) by (destruct Hqc; lia).
    destruct (Nat.eq_dec c i) as [->|Hci].
    + rewrite nth_upd_eq by lia. rewrite nth_upd_neq by lia.
      assert (q = p).
      { unfold p. destruct Hqc as [-> | ->].
        - replace (2 * q + 1 - 1)%nat with (q * 2)%nat by lia. symmetry. apply Nat.div_mul. lia.
        - replace (2 * q + 2 - 1)%nat with (1 + q * 2)%nat by lia.
          rewrite Nat.div_add by lia. reflexivity. }
      subst q. apply andb_false_iff in E. destruct E as [E|E].
      * apply negb_false_iff, Nat.eqb_eq in E. lia.
      * apply Z.ltb_ge in E. exact E.
    + rewrite (nth_upd_neq i c) by lia.
      destruct (Nat.eq_dec q i) as [->|Hqi].
      * rewrite nth_upd_eq by lia. apply Hbelow; assumption.
      * rewrite nth_upd_neq by lia. apply Hothers; assumption.
Qed.

Lemma insertMinHeap_weight (arr : list MinHeapNode) (minHeapNode : MinHeapNode) :
  Z.of_nat (length arr) < MAX_CHAR ->
  weight_ordered arr ->
  exists arr',
    insertMinHeap MAX_CHAR arr minHeapNode = Returns arr'
    /\ Permutation arr' (minHeapNode :: arr)
    /\ weight_ordered arr'.
Proof.
  intros Hcap Hord.
  destruct (insertMinHeap_Permutation MAX_CHAR arr minHeapNode Hcap) as (arr' & E & P).
  exists arr'. split; [exact E|]. split; [exact P|].
  unfold insertMinHeap in E.
  replace (Z.of_nat (length arr) <? MAX_CHAR) with true in E
    by (symmetry; apply Z.ltb_lt; exact Hcap).
  pose proof (insertMinHeap_loop_weight minHeapNode (length (arr ++ [unread]))
                (arr ++ [unread]) (length (arr ++ [unread]) - 1)) as H.
  destruct (insertMinHeap_loop _ _ _ _) as [a i]. injection E as <-.
  rewrite length_app in H. cbn [length] in H.
  apply H.
  - lia.
  - lia.
  - intros p c Hpc Hc Hp Hci.
    assert ((p < c)%nat) by (destruct Hpc; lia).
    rewrite !app_nth1 by lia. apply (Hord p c ltac:(lia) Hpc). lia.
  - intros c Hc Hclen. destruct Hc; lia.
  - intros p c _ Hc Hclen. destruct Hc; lia.
Qed.

(** One turn of the merging loop on a heap in order by weight: the two
    nodes it joins are a lightest node of the heap and a lightest node of
    the rest, and the heap it leaves is in order by weight. *)
Lemma merge_step_weight (arr : list MinHeapNode) (nodeIndex : Z) :
  (2 <= length arr)%nat ->
  Z.of_nat (length arr) <= MAX_CHAR ->
  0 <= nodeIndex < MAX_CHAR ->
  weight_ordered arr ->
  exists l r rest arr',
    merge_step MAX_CHAR less arr nodeIndex = Returns (arr', nodeIndex + 1)
    /\ Permutation arr (l :: r :: rest)
    /\ (forall x, In x arr -> freq l <= freq x)
    /\ (forall x, In x (r :: rest) -> freq r <= freq x)
    /\ Permutation arr' (parent_of l r :: rest)
    /\ weight_ordered arr'.
Proof.
  intros Hlen Hcap Hn Hord. unfold merge_step.
  destruct (extractMin_weight arr) as (l & h1 & E1 & P1 & M1 & O1);
    [intros ->; cbn in Hlen; lia|exact Hord|].
  rewrite E1. cbn [bind].
  pose proof (Permutation_length P1) as L1. cbn [length] in L1.
  destruct (extractMin_weight h1) as (r & h2 & E2 & P2 & M2 & O2);
    [intros ->; cbn in L1; lia|exact O1|].
  rewrite E2. cbn [bind].
  pose proof (Permutation_length P2) as L2. cbn [length] in L2.
  rewrite newNode_in_bounds by lia. unfold leaf_of. cbn [bind data freq fst snd].
  destruct (insertMinHeap_weight h2 (parent_of l r) ltac:(lia) O2) as (h3 & E3 & P3 & O3).
  unfold parent_of in E3. rewrite E3. cbn [bind].
  exists l, r, h2, h3. split; [reflexivity|]. split.
  { etransitivity; [symmetry; exact P1|]. apply perm_skip. symmetry. exact P2. }
  split; [exact M1|]. split; [|split; [exact P3|exact O3]].
  intros x Hx. apply M2. eapply Permutation_in; [exact P2|exact Hx].
Qed.

End WeightOrder.

(** ** [buildHuffmanTree] without room in [nodes] *)

Section ArenaFull.

Variable MAX_CHAR : Z.
Variable less : MinHeapNode -> MinHeapNode -> bool.
Variable continue : list MinHeapNode -> bool.
Hypothesis continue_spec :
  forall arr, (1 <= length arr)%nat -> continue arr = (1 <? length arr)%nat.

(** The loop of [createAndBuildMinHeap] with more entries left than free
    cells in [nodes]. *)
Lemma createAndBuildMinHeap_loop_full (ds : list char) :
  forall (fs : list Z) (bd : list char) (bf : list Z) (arr : list MinHeapNode)
         (nodeIndex : Z),
    ds <> [] ->
    length ds = length fs ->
    length bd = length bf ->
    0 <= nodeIndex ->
    MAX_CHAR < nodeIndex + Z.of_nat (length ds) ->
    for_loop (length ds) (Z.of_nat (length bd))
      (fun i '(arr, nodeIndex) =>
         d <- read (bd ++ ds) i ;;
         f <- read (bf ++ fs) i ;;
         '(node, nodeIndex) <- newNode MAX_CHAR nodeIndex d f ;;
         if i <? MAX_CHAR then Returns (arr ++ [node], nodeIndex) else Undefined)
      (arr, nodeIndex)
    = Undefined.
Proof.
  induction ds as [|d ds IH]; intros fs bd bf arr nodeIndex Hne Hlen Hb Hn Hfull;
    [contradiction|].
  destruct fs as [|f fs]; [discriminate|]. cbn [length] in *.
  cbn [for_loop].
  rewrite read_nth_error, nth_error_app2, Nat.sub_diag by lia. cbn [app nth_error bind].
  rewrite read_nth_error, nth_error_app2 by lia.
  replace (length bd - length bf)%nat with O by lia. cbn [app nth_error bind].
  destruct (Z.lt_ge_cases nodeIndex MAX_CHAR) as [Hroom|Hnone].
  - rewrite newNode_in_bounds by lia. cbn [bind].
    destruct (Z.of_nat (length bd) <? MAX_CHAR); [|reflexivity]. cbn [bind].
    specialize (IH fs (bd ++ [d]) (bf ++ [f]) (arr ++ [leaf_of (d, f)]) (nodeIndex + 1)).
    rewrite <- !app_assoc, !length_app in IH. cbn [app length] in IH.
    replace (Z.of_nat (length bd + 1)) with (Z.of_nat (length bd) + 1) in IH by lia.
    apply IH; try lia. destruct ds; [cbn [length] in Hfull; lia|discriminate].
  - unfold newNode.
    replace (nodeIndex <? MAX_CHAR) with false by (symmetry; apply Z.ltb_ge; lia).
    rewrite andb_false_r. reflexivity.
Qed.

(** One turn of the merging loop needs one free cell of [nodes]. *)
Lemma merge_step_room (arr : list MinHeapNode) (nodeIndex : Z) :
  (2 <= length arr)%nat ->
  Z.of_nat (length arr) <= MAX_CHAR ->
  0 <= nodeIndex < MAX_CHAR ->
  exists arr',
    merge_step MAX_CHAR less arr nodeIndex = Returns (arr', nodeIndex + 1)
    /\ S (length arr') = length arr.
Proof.
  intros Hlen Hcap Hn. unfold merge_step.
  destruct arr as [|l rest0]; [cbn in Hlen; lia|].
  destruct (extractMin_Permutation less l rest0) as (h1 & E1 & P1).
  rewrite E1. cbn [bind].
  pose proof (Permutation_length P1) as L1. cbn [length] in Hlen, Hcap.
  destruct h1 as [|r rest1]; [cbn in L1; lia|].
  destruct (extractMin_Permutation less r rest1) as (h2 & E2 & P2).
  rewrite E2. cbn [bind].
  pose proof (Permutation_length P2) as L2. cbn [length] in L1.
  rewrite newNode_in_bounds by lia. unfold leaf_of. cbn [bind data freq fst snd].
  destruct (insertMinHeap_Permutation MAX_CHAR h2 (parent_of l r) ltac:(lia))
    as (h3 & E3 & P3).
  unfold parent_of in E3. rewrite E3. cbn [bind].
  exists h3. split; [reflexivity|].
  rewrite (Permutation_length P3). cbn [length]. lia.
Qed.

Lemma merge_step_full (arr : list MinHeapNode) (nodeIndex : Z) :
  (2 <= length arr)%nat ->
  MAX_CHAR <= nodeIndex ->
  merge_step MAX_CHAR less arr nodeIndex = Undefined.
Proof.
  intros Hlen Hn. unfold merge_step.
  destruct arr as [|l rest0]; [cbn in Hlen; lia|].
  destruct (extractMin_Permutation less l rest0) as (h1 & E1 & P1).
  rewrite E1. cbn [bind].
  pose proof (Permutation_length P1) as L1. cbn [length] in Hlen.
  destruct h1 as [|r rest1]; [cbn in L1; lia|].
  destruct (extractMin_Permutation less r rest1) as (h2 & E2 & P2).
  rewrite E2. cbn [bind]. unfold newNode.
  replace (nodeIndex <? MAX_CHAR) with false by (symmetry; apply Z.ltb_ge; lia).
  rewrite andb_false_r. reflexivity.
Qed.

(** The merging loop with more turns left than free cells in [nodes]. *)
Lemma merge_loop_full (fuel : nat) :
  forall (arr : list MinHeapNode) (nodeIndex : Z),
    (1 <= length arr <= fuel)%nat ->
    Z.of_nat (length arr) <= MAX_CHAR ->
    0 <= nodeIndex <= MAX_CHAR ->
    MAX_CHAR < nodeIndex + Z.of_nat (length arr) - 1 ->
    merge_loop MAX_CHAR less continue fuel arr nodeIndex = Undefined.
Proof.
  induction fuel as [|fuel IH]; intros arr nodeIndex Hlen Hcap Hn Hfull; [lia|].
  cbn [merge_loop]. rewrite continue_spec by lia.
  replace (1 <? length arr)%nat with true by (symmetry; apply Nat.ltb_lt; lia).
  destruct (Z.lt_ge_cases nodeIndex MAX_CHAR) as [Hroom|Hnone].
  - destruct (merge_step_room arr nodeIndex ltac:(lia) Hcap ltac:(lia)) as (arr' & E & L).
    rewrite E. cbn [bind]. apply IH; lia.
  - rewrite merge_step_full by lia. reflexivity.
Qed.

(** [buildHuffmanTree] on a table of [n >= 1] entries without room for
    [2 n - 1] more nodes in [nodes]. *)
Lemma buildHuffmanTree_with_full (nodeIndex : Z) (data : list char) (freq : list Z) :
  (1 <= length data)%nat ->
  length freq = length data ->
  0 <= nodeIndex ->
  MAX_CHAR < nodeIndex + 2 * Z.of_nat (length data) - 1 ->
  buildHuffmanTree_with MAX_CHAR less continue nodeIndex data freq (Z.of_nat (length data))
  = Undefined.
Proof.
  intros Hn Hlen Hidx Hfull. unfold buildHuffmanTree_with.
  destruct (Z.le_gt_cases (nodeIndex + Z.of_nat (length data)) MAX_CHAR) as [Hroom|Hnone].
  - destruct (createAndBuildMinHeap_spec MAX_CHAR less nodeIndex data freq Hlen Hidx Hroom)
      as (arr & E & P).
    rewrite E. cbn [bind].
    assert (La : length arr = length data).
    { rewrite (Permutation_length P), length_map, length_combine. lia. }
    rewrite merge_loop_full by lia. reflexivity.
  - unfold createAndBuildMinHeap, for_range.
    replace (Z.of_nat (length data) <? 0) with false by (symmetry; apply Z.ltb_ge; lia).
    rewrite Z.sub_0_r, Nat2Z.id.
    pose proof (createAndBuildMinHeap_loop_full data freq [] [] [] nodeIndex) as H.
    cbn [app length] in H. change (Z.of_nat 0) with 0 in H.
    rewrite H; [reflexivity| |lia|reflexivity|lia|lia].
    intros ->. cbn in Hn. lia.
Qed.

End ArenaFull.

(** ** Frequency counting outside the table *)

(** Counting returns a table of the same size or is undefined. *)
Lemma count_loop_outcome (data : list char) (n : nat) :
  forall (i : Z) (freq : list Z),
    for_loop n i (fun i freq => c <- read data i ;; increment freq c) freq = Undefined
    \/ exists table,
         for_loop n i (fun i freq => c <- read data i ;; increment freq c) freq
         = Returns table
         /\ length table = length freq.
Proof.
  induction n as [|n IH]; intros i freq; [right; exists freq; split; reflexivity|].
  cbn [for_loop].
  destruct (read data i) as [c| |] eqn:Ec; cbn [bind];
    [|left; reflexivity|exfalso; exact (read_not_OutOfFuel _ _ Ec)].
  unfold increment.
  destruct (read freq c) as [v| |] eqn:Ev; cbn [bind];
    [|left; reflexivity|exfalso; exact (read_not_OutOfFuel _ _ Ev)].
  destruct (v <? INT_MAX); [|left; reflexivity].
  unfold write. destruct ((0 <=? c) && (c <? Z.of_nat (length freq))); [|left; reflexivity].
  cbn [bind]. destruct (IH (i + 1) (upd (Z.to_nat c) (v + 1) freq)) as [E|(table & E & L)].
  - left. exact E.
  - right. exists table. split; [exact E|]. rewrite L. apply upd_length.
Qed.

(** X1: counting the first [size] cells of [data] into [freq] has undefined
    behaviour as soon as one of these cells lies beyond the end of the
    array, or holds a character that is not an index of the table (a
    negative [char], or one not below the length of [freq]): the code
    indexes [freq] with the character unchecked. This holds of
    [calculateFrequency] of [huffman.c] and, for sizes up to [2^30], of
    [calculateFrequencyInChunks] of [huffman_t2_clock.c] with its chunks of
    1000 characters. *)
Theorem calculateFrequency_outside_the_table (data : list char) (freq : list Z)
  (size i : Z) :
  0 <= i < size ->
  Z.of_nat (length data) <= i
  \/ ~ (0 <= nth (Z.to_nat i) data 0 < Z.of_nat (length freq)) ->
  Huffman.calculateFrequency data freq size = Undefined
  /\ (size <= 1073741824 ->
      T2Clock.calculateFrequencyInChunks data freq size 1000 = Undefined).
Proof.
  intros Hi Hbad.
  assert (H : Huffman.calculateFrequency data freq size = Undefined).
  { unfold Huffman.calculateFrequency.
    rewrite (for_range_split _ 0 i size) by lia.
    unfold for_range at 1.
    destruct (count_loop_outcome data (Z.to_nat (i - 0)) 0 freq) as [E|(table & E & L)];
      rewrite E; [reflexivity|]. cbn [bind].
    unfold for_range. destruct (Z.to_nat (size - i)) as [|n] eqn:En; [lia|].
    cbn [for_loop]. unfold read at 1.
    replace (i <? 0) with false by (symmetry; apply Z.ltb_ge; lia).
    destruct (nth_error data (Z.to_nat i)) as [c|] eqn:Ec; [|reflexivity].
    cbn [bind]. assert (Hlen : (Z.to_nat i < length data)%nat)
      by (apply nth_error_Some; congruence).
    destruct Hbad as [Hbad|Hbad]; [lia|].
    erewrite nth_error_nth in Hbad by exact Ec.
    unfold increment, read.
    destruct (c <? 0) eqn:Eneg; [reflexivity|]. apply Z.ltb_ge in Eneg.
    destruct (nth_error table (Z.to_nat c)) eqn:Et; [|reflexivity].
    exfalso. apply Hbad.
    assert ((Z.to_nat c < length table)%nat) by (apply nth_error_Some; congruence).
    lia. }
  split; [exact H|]. intros Hsize. rewrite <- H.
  unfold T2Clock.calculateFrequencyInChunks, Huffman.calculateFrequency.
  apply chunks_loop_whole; unfold INT_MAX; lia.
Qed.

Lemma calculateFrequency_outside_the_table_witness :
  Huffman.calculateFrequency [97; -61; 98] (repeat 0 256) 3 = Undefined.
Proof.
  refine (proj1 (calculateFrequency_outside_the_table [97; -61; 98] (repeat 0 256) 3 1 _ _)).
  - lia.
  - right. intros [H _]. vm_compute in H. apply H. reflexivity.
Defined.

(** ** The table of symbols *)

Lemma positive_entries_bounds (freq : list Z) :
  forall (i c f : Z),
    In (c, f) (positive_entries freq i) <->
    (i <= c < i + Z.of_nat (length freq)
     /\ nth (Z.to_nat (c - i)) freq 0 = f /\ 0 < f).
Proof.
  induction freq as [|g freq IH]; intros i c f.
  - cbn. split; [contradiction|lia].
  - cbn [positive_entries length]. rewrite in_app_iff, IH.
    split.
    + intros [H|H].
      * destruct (0 <? g) eqn:E; [|contradiction]. apply Z.ltb_lt in E.
        destruct H as [H|[]]. injection H as <- <-.
        rewrite Z.sub_diag. cbn. lia.
      * destruct H as (Hc & Hn & Hf). split; [lia|]. split; [|exact Hf].
        replace (Z.to_nat (c - i)) with (S (Z.to_nat (c - (i + 1)))) by lia. exact Hn.
    + intros (Hc & Hn & Hf). destruct (Z.eq_dec c i) as [->|Hne].
      * left. rewrite Z.sub_diag in Hn. cbn in Hn. subst g.
        replace (0 <? f) with true by (symmetry; apply Z.ltb_lt; lia). left. reflexivity.
      * right. split; [lia|]. split; [|exact Hf].
        replace (Z.to_nat (c - i)) with (S (Z.to_nat (c - (i + 1)))) in Hn by lia.
        exact Hn.
Qed.

Lemma positive_entries_sorted (freq : list Z) :
  forall i, StronglySorted Z.lt (map fst (positive_entries freq i)).
Proof.
  induction freq as [|g freq IH]; intros i; [constructor|].
  cbn [positive_entries]. destruct (0 <? g); cbn [app map fst]; [|apply IH].
  constructor; [apply IH|].
  apply Forall_forall. intros c Hc. apply in_map_iff in Hc.
  destruct Hc as ([c' f] & <- & Hc). apply positive_entries_bounds in Hc. cbn. lia.
Qed.

(** X2: the scan of [HuffmanCodes] that fills [uniqueData] and
    [uniqueFreq] from the table of counts (the same loop in the three
    files) returns the symbols whose count is positive, in increasing order
    and each once, every one with its count. *)
Theorem collectUnique_sorted_positive (freq : list Z) :
  exists uniqueData uniqueFreq,
    collectUnique (Z.of_nat (length freq)) freq = Returns (uniqueData, uniqueFreq)
    /\ length uniqueFreq = length uniqueData
    /\ StronglySorted Z.lt uniqueData
    /\ forall c f, In (c, f) (combine uniqueData uniqueFreq) <->
                   (0 <= c < Z.of_nat (length freq)
                    /\ nth (Z.to_nat c) freq 0 = f /\ 0 < f).
Proof.
  exists (map fst (positive_entries freq 0)), (map snd (positive_entries freq 0)).
  split; [apply collectUnique_spec|]. split; [rewrite !length_map; reflexivity|].
  split; [apply positive_entries_sorted|].
  intros c f.
  assert (E : combine (map fst (positive_entries freq 0)) (map snd (positive_entries freq 0))
              = positive_entries freq 0).
  { induction (positive_entries freq 0) as [|[a b] l IH]; [reflexivity|].
    cbn. rewrite IH. reflexivity. }
  rewrite E, positive_entries_bounds. rewrite Z.sub_0_r. cbn [Z.add]. reflexivity.
Qed.

(** ** The heap of the three files *)

Lemma variants_lighter (MAX_CHAR : Z) (less : MinHeapNode -> MinHeapNode -> bool) :
  In (MAX_CHAR, less) variants ->
  (forall a b, less a b = true -> freq a <= freq b)
  /\ (forall a b, less a b = false -> freq b <= freq a)
  /\ MAX_CHAR <= 256.
Proof.
  intros [H|[H|[H|[]]]]; injection H as <- <-;
    (split; [|split; [|vm_compute; discriminate]]); intros a b;
    unfold Vlad.less, Huffman.less, T2Clock.less; intros E.
  - apply Z.ltb_lt in E. lia.
  - apply Z.ltb_ge in E. lia.
  - apply orb_true_iff in E. destruct E as [E|E]; [apply Z.ltb_lt in E; lia|].
    apply andb_true_iff in E. destruct E as [E _]. apply Z.eqb_eq in E. lia.
  - apply orb_false_iff in E. destruct E as [E _]. apply Z.ltb_ge in E. lia.
  - apply Z.ltb_lt in E. lia.
  - apply Z.ltb_ge in E. lia.
Qed.

(** X3: [createAndBuildMinHeap], in each of the three files, on a table of
    [size] entries: when [nodes] has [size] free cells it returns a heap
    that holds one new leaf for every entry of the table and is in heap
    order by weight, and it has taken [size] cells of [nodes]; when the
    table is not empty and [nodes] has fewer free cells, [newNode] writes
    past the end of [nodes] and the behaviour is undefined. *)
Theorem createAndBuildMinHeap_heap (MAX_CHAR : Z)
  (less : MinHeapNode -> MinHeapNode -> bool) (nodeIndex : Z) (data : list char)
  (freq : list Z) :
  In (MAX_CHAR, less) variants ->
  length freq = length data ->
  0 <= nodeIndex ->
  (nodeIndex + Z.of_nat (length data) <= MAX_CHAR ->
   exists arr,
     createAndBuildMinHeap MAX_CHAR less nodeIndex data freq (Z.of_nat (length data))
     = Returns (arr, nodeIndex + Z.of_nat (length data))
     /\ Permutation arr (map leaf_of (combine data freq))
     /\ weight_ordered arr)
  /\ (data <> [] ->
      MAX_CHAR < nodeIndex + Z.of_nat (length data) ->
      createAndBuildMinHeap MAX_CHAR less nodeIndex data freq (Z.of_nat (length data))
      = Undefined).
Proof.
  intros Hv Hlen Hn. destruct (variants_lighter _ _ Hv) as (Hl & Hnh & Hmax). split.
  - intros Hroom.
    destruct (createAndBuildMinHeap_spec MAX_CHAR less nodeIndex data freq Hlen Hn Hroom)
      as (arr & E & P).
    exists arr. split; [exact E|]. split; [exact P|].
    unfold createAndBuildMinHeap in E.
    destruct (Z.of_nat (length data) <? 0); [discriminate|].
    apply bind_returns_inv in E. destruct E as ([arr0 n0] & E0 & E).
    injection E as <- _.
    apply (buildMinHeap_weight less Hl Hnh).
    assert (L : length (buildMinHeap less arr0) = length data).
    { rewrite (Permutation_length P), length_map, length_combine. lia. }
    rewrite (Permutation_length (buildMinHeap_Permutation less arr0)) in L.
    unfold INT_MAX. lia.
  - intros Hne Hfull. unfold createAndBuildMinHeap, for_range.
    replace (Z.of_nat (length data) <? 0) with false by (symmetry; apply Z.ltb_ge; lia).
    rewrite Z.sub_0_r, Nat2Z.id.
    pose proof (createAndBuildMinHeap_loop_full MAX_CHAR data freq [] [] [] nodeIndex) as H.
    cbn [app length] in H. change (Z.of_nat 0) with 0 in H.
    rewrite H; [reflexivity|exact Hne|lia|reflexivity|lia|lia].
Qed.

Lemma createAndBuildMinHeap_heap_witness :
  exists arr,
    createAndBuildMinHeap T2Clock.MAX_CHAR T2Clock.less 0 (chars "abcdr") [5; 2; 1; 1; 2] 5
    = Returns (arr, 5)
    /\ Permutation arr (map leaf_of (combine (chars "abcdr") [5; 2; 1; 1; 2]))
    /\ weight_ordered arr.
Proof.
  refine (proj1 (createAndBuildMinHeap_heap T2Clock.MAX_CHAR T2Clock.less 0
                   (chars "abcdr") [5; 2; 1; 1; 2] _ _ _) _).
  - right. right. left. reflexivity.
  - reflexivity.
  - lia.
  - vm_compute. discriminate.
Defined.

(** X4: [insertMinHeap] (the same function in the three files, [MAX_CHAR]
    being the capacity of [array]). On a heap in heap order by weight with
    a free cell in [array] it returns the heap with the node added, again
    in heap order by weight. On a heap that fills [array] it writes past
    the end of [array]: the behaviour is undefined. *)
Theorem insertMinHeap_keeps_the_weight_order (MAX_CHAR : Z) (arr : list MinHeapNode)
  (minHeapNode : MinHeapNode) :
  (Z.of_nat (length arr) < MAX_CHAR ->
   weight_ordered arr ->
   exists arr',
     insertMinHeap MAX_CHAR arr minHeapNode = Returns arr'
     /\ Permutation arr' (minHeapNode :: arr)
     /\ weight_ordered arr')
  /\ (MAX_CHAR <= Z.of_nat (length arr) ->
      insertMinHeap MAX_CHAR arr minHeapNode = Undefined).
Proof.
  split; [apply insertMinHeap_weight|].
  intros H. unfold insertMinHeap.
  replace (Z.of_nat (length arr) <? MAX_CHAR) with false
    by (symmetry; apply Z.ltb_ge; exact H).
  reflexivity.
Qed.

Lemma insertMinHeap_keeps_the_weight_order_witness :
  exists arr',
    Huffman.insertMinHeap [Node 98 2 None None; Node 97 5 None None]
      (Node 99 1 None None)
    = Returns arr'
    /\ Permutation arr' [Node 99 1 None None; Node 98 2 None None; Node 97 5 None None]
    /\ weight_ordered arr'.
Proof.
  apply (proj1 (insertMinHeap_keeps_the_weight_order Huffman.MAX_CHAR
                  [Node 98 2 None None; Node 97 5 None None] (Node 99 1 None None))).
  - vm_compute. reflexivity.
  - intros i c _ Hc Hlen. cbn [length] in Hlen.
    destruct Hc; subst c; destruct i as [|i]; cbn; lia.
Defined.

(** X5: a turn of the merging loop of [buildHuffmanTree], in each of the
    three files, on a heap of two nodes or more in heap order by weight,
    with a free cell in [nodes]: the two nodes it takes out are a lightest
    node of the heap and a lightest node of the rest, their parent goes
    back into the heap, and the heap is again in heap order by weight. The
    greedy choice of Huffman's algorithm holds at every turn, in [huffman.c]
    although [insertMinHeap] ignores the order of symbols there. *)
Theorem merge_step_joins_two_lightest (MAX_CHAR : Z)
  (less : MinHeapNode -> MinHeapNode -> bool) (arr : list MinHeapNode) (nodeIndex : Z) :
  In (MAX_CHAR, less) variants ->
  (2 <= length arr)%nat ->
  Z.of_nat (length arr) <= MAX_CHAR ->
  0 <= nodeIndex < MAX_CHAR ->
  weight_ordered arr ->
  exists l r rest arr',
    merge_step MAX_CHAR less arr nodeIndex = Returns (arr', nodeIndex + 1)
    /\ Permutation arr (l :: r :: rest)
    /\ (forall x, In x arr -> freq l <= freq x)
    /\ (forall x, In x (r :: rest) -> freq r <= freq x)
    /\ Permutation arr' (parent_of l r :: rest)
    /\ weight_ordered arr'.
Proof.
  intros Hv. destruct (variants_lighter _ _ Hv) as (Hl & Hnh & _).
  apply merge_step_weight; assumption.
Qed.

Lemma merge_step_joins_two_lightest_witness :
  exists l r rest arr',
    merge_step Huffman.MAX_CHAR Huffman.less
      [Node 99 1 None None; Node 98 2 None None; Node 97 5 None None] 3
    = Returns (arr', 3 + 1)
    /\ Permutation [Node 99 1 None None; Node 98 2 None None; Node 97 5 None None]
         (l :: r :: rest)
    /\ (forall x, In x [Node 99 1 None None; Node 98 2 None None; Node 97 5 None None] ->
                  freq l <= freq x)
    /\ (forall x, In x (r :: rest) -> freq r <= freq x)
    /\ Permutation arr' (parent_of l r :: rest)
    /\ weight_ordered arr'.
Proof.
  apply (merge_step_joins_two_lightest Huffman.MAX_CHAR Huffman.less).
  - right. left. reflexivity.
  - cbn. lia.
  - vm_compute. discriminate.
  - vm_compute. split; [discriminate|reflexivity].
  - intros i c _ Hc Hlen. cbn [length] in Hlen.
    destruct Hc; subst c; destruct i as [|i]; cbn; lia.
Defined.

(** X6: [buildHuffmanTree] on a table of [n >= 1] entries has undefined
    behaviour when [nodes] has fewer than [2 n - 1] free cells: [newNode]
    hands out [&nodes[nodeIndex++]] unchecked. In [huffman.c] and
    [huffman_vlad.c] a first call with more than 128 symbols, in
    [huffman_t2_clock.c] with more than 64, is undefined. With enough
    cells the call returns. *)
Theorem buildHuffmanTree_without_room (nodeIndex : Z) (data : list char) (freq : list Z) :
  (1 <= length data)%nat ->
  length freq = length data ->
  0 <= nodeIndex ->
  (Vlad.MAX_CHAR < nodeIndex + 2 * Z.of_nat (length data) - 1 ->
   Vlad.buildHuffmanTree nodeIndex data freq (Z.of_nat (length data)) = Undefined
   /\ Huffman.buildHuffmanTree nodeIndex data freq (Z.of_nat (length data)) = Undefined)
  /\ (T2Clock.MAX_CHAR < nodeIndex + 2 * Z.of_nat (length data) - 1 ->
      T2Clock.buildHuffmanTree nodeIndex data freq (Z.of_nat (length data)) = Undefined).
Proof.
  intros Hn Hlen Hidx. split; [intros Hfull; split|intros Hfull].
  - apply (buildHuffmanTree_with_full Vlad.MAX_CHAR Vlad.less _ continue_size_gt_1);
      assumption.
  - apply (buildHuffmanTree_with_full Huffman.MAX_CHAR Huffman.less _
             continue_not_isSizeOne); assumption.
  - apply (buildHuffmanTree_with_full T2Clock.MAX_CHAR T2Clock.less _ continue_size_gt_1);
      assumption.
Qed.

Lemma buildHuffmanTree_without_room_witness :
  T2Clock.buildHuffmanTree 126 (chars "ab") [1; 1] 2 = Undefined.
Proof.
  refine (proj2 (buildHuffmanTree_without_room 126 (chars "ab") [1; 1] _ _ _) _).
  - cbn. lia.
  - reflexivity.
  - lia.
  - vm_compute. reflexivity.
Defined.

(** ** The codes of [huffman_vlad.c] can be decoded *)

Lemma is_prefix_of_app_eq (p : cstring) :
  forall (q a b : cstring),
    p ++ a = q ++ b -> is_prefix p q = true \/ is_prefix q p = true.
Proof.
  induction p as [|x p IH]; intros q a b H; [left; reflexivity|].
  destruct q as [|y q]; [right; reflexivity|].
  cbn [app] in H. injection H as -> H. cbn [is_prefix]. rewrite Z.eqb_refl.
  cbn [andb]. exact (IH q a b H).
Qed.

(** With codes that are not empty and none a prefix of another, two
    sequences of symbols with the same bit string are the same sequence. *)
Lemma prefix_code_injective (codes : list cstring) (symbols : list char) :
  (forall c, In c symbols -> code_of codes c <> []) ->
  (forall c1 c2, In c1 symbols -> In c2 symbols -> c1 <> c2 ->
                 is_prefix (code_of codes c1) (code_of codes c2) = false) ->
  forall s1 s2,
    Forall (fun c => In c symbols) s1 ->
    Forall (fun c => In c symbols) s2 ->
    concat (map (code_of codes) s1) = concat (map (code_of codes) s2) ->
    s1 = s2.
Proof.
  intros Hne Hpf. induction s1 as [|c1 s1 IH]; intros s2 H1 H2 E.
  - destruct s2 as [|c2 s2]; [reflexivity|]. exfalso.
    inversion H2 as [|? ? Hc2 _]; subst. cbn [map concat] in E.
    symmetry in E. apply app_eq_nil in E. destruct E as [E _]. exact (Hne c2 Hc2 E).
  - inversion H1 as [|? ? Hc1 H1']; subst.
    destruct s2 as [|c2 s2].
    + exfalso. cbn [map concat] in E. apply app_eq_nil in E. destruct E as [E _].
      exact (Hne c1 Hc1 E).
    + inversion H2 as [|? ? Hc2 H2']; subst. cbn [map concat] in E.
      destruct (Z.eq_dec c1 c2) as [->|Hdiff].
      * apply app_inv_head in E. f_equal. apply IH; assumption.
      * exfalso. destruct (is_prefix_of_app_eq _ _ _ _ E) as [P|P].
        -- rewrite (Hpf c1 c2 Hc1 Hc2 Hdiff) in P. discriminate.
        -- rewrite (Hpf c2 c1 Hc2 Hc1 (not_eq_sym Hdiff)) in P. discriminate.
Qed.

(** Below a node that has a child every path has a step. *)
Lemma paths_not_empty (root : MinHeapNode) (code : cstring) :
  isLeaf root = false ->
  Forall (fun row => exists b s, snd row = code ++ b :: s) (paths root code).
Proof.
  destruct root as [d f l r]. unfold isLeaf. cbn [paths left right].
  assert (Hstep : forall (t : MinHeapNode) (b : char),
             Forall (fun row => exists b s, snd row = code ++ b :: s)
               (paths t (code ++ [b]))).
  { intros t b. eapply Forall_impl; [|apply paths_extend]. cbn. intros row [s Hs].
    exists b, s. rewrite Hs, <- app_assoc. reflexivity. }
  destruct l as [l|]; destruct r as [r|]; intros H; try discriminate.
  - apply Forall_app. split; apply Hstep.
  - rewrite app_nil_r. apply Hstep.
  - apply Hstep.
Qed.

(** No path is longer than the tree is high. *)
Lemma paths_length (root : MinHeapNode) :
  forall code,
    Forall (fun row => (length (snd row) <= length code + height root)%nat)
      (paths root code).
Proof.
  induction root as [d f l Hl r Hr]. intros code.
  cbn [paths height left right].
  assert (Hstep : forall (t : MinHeapNode) (b : char) (h : nat),
             (forall code, Forall (fun row => (length (snd row) <= length code + height t)%nat)
                             (paths t code)) ->
             (height t <= h)%nat ->
             Forall (fun row => (length (snd row) <= length code + S h)%nat)
               (paths t (code ++ [b]))).
  { intros t b h H Hh. eapply Forall_impl; [|apply H]. cbn. intros row Hrow.
    rewrite length_app in Hrow. cbn [length] in Hrow. lia. }
  destruct l as [l|]; destruct r as [r|];
    try (inversion Hl as [? Hl'|]; subst); try (inversion Hr as [? Hr'|]; subst).
  - apply Forall_app. split; apply Hstep; auto; lia.
  - rewrite app_nil_r. apply Hstep; auto; lia.
  - apply Hstep; auto; lia.
  - constructor; [cbn; lia|constructor].
Qed.

(** The code table of [huffman_vlad.c] for a table of distinct symbols:
    the row of every symbol is the path to its leaf. *)
Lemma Vlad_codes_are_paths (nodeIndex : Z) (data : list char) (freq : list Z) :
  (1 <= length data)%nat ->
  length freq = length data ->
  NoDup data ->
  Forall (fun c => 0 <= c < Vlad.MAX_CHAR) data ->
  Forall (fun f => 0 <= f) freq ->
  weight (combine data freq) < UINT_MODULUS ->
  0 <= nodeIndex ->
  nodeIndex + 2 * Z.of_nat (length data) - 1 <= Vlad.MAX_CHAR ->
  exists root codes,
    Vlad.buildHuffmanTree nodeIndex data freq (Z.of_nat (length data))
    = Returns (root, nodeIndex + 2 * Z.of_nat (length data) - 1)
    /\ weights_add_up root
    /\ Permutation (leaves root) (combine data freq)
    /\ Vlad.generateCodes root [] (repeat [] (Z.to_nat Vlad.MAX_CHAR)) = Returns codes
    /\ length codes = Z.to_nat Vlad.MAX_CHAR
    /\ forall c, In c data ->
                 exists code, In (c, code) (paths root []) /\ code_of codes c = code.
Proof.
  intros Hn Hlen Hnd Hrange Hpos Hw Hidx Hcap.
  destruct (buildHuffmanTree_with_spec Vlad.MAX_CHAR Vlad.less _ nodeIndex data freq
              continue_size_gt_1 Hn Hlen Hpos Hw Hidx Hcap) as (root & E & Hadd & Hleaves).
  assert (Hsym : Permutation (map fst (leaves root)) data).
  { rewrite (Permutation_map fst Hleaves).
    rewrite map_fst_combine_same_length by exact Hlen. reflexivity. }
  assert (Hin : Forall (fun entry => 0 <= fst entry < Z.of_nat (length
                          (repeat (@nil char) (Z.to_nat Vlad.MAX_CHAR)))) (leaves root)).
  { rewrite repeat_length. apply Forall_forall. intros entry He.
    rewrite Forall_forall in Hrange.
    assert (In (fst entry) data)
      by (eapply Permutation_in; [exact Hsym|apply in_map; exact He]).
    specialize (Hrange _ H). unfold Vlad.MAX_CHAR in *. lia. }
  pose proof (height_lt_leaves root Hadd) as Hh.
  rewrite (Permutation_length Hleaves), length_combine in Hh.
  exists root, (store_rows (paths root []) (repeat [] (Z.to_nat Vlad.MAX_CHAR))).
  split; [exact E|]. split; [exact Hadd|]. split; [exact Hleaves|]. split.
  { apply Vlad_generateCodes_paths; [|exact Hin].
    cbn [length]. unfold Vlad.MAX_CHAR, Vlad.MAX_TREE_HT in *. lia. }
  split; [rewrite store_rows_length, repeat_length; reflexivity|].
  intros c Hc.
  assert (Hnd' : NoDup (map fst (paths root []))).
  { rewrite paths_symbols. eapply Permutation_NoDup; [symmetry; exact Hsym|exact Hnd]. }
  assert (Hin' : Forall (fun row => 0 <= fst row < Z.of_nat (length
                           (repeat (@nil char) (Z.to_nat Vlad.MAX_CHAR))))
                   (paths root [])).
  { apply Forall_forall. intros row Hrow.
    assert (Hf : In (fst row) (map fst (leaves root)))
      by (rewrite <- (paths_symbols root []); apply in_map; exact Hrow).
    apply in_map_iff in Hf. destruct Hf as (entry & <- & He).
    rewrite Forall_forall in Hin. apply Hin. exact He. }
  apply (Permutation_in _ (Permutation_sym Hsym)) in Hc.
  rewrite <- (paths_symbols root []) in Hc. apply in_map_iff in Hc.
  destruct Hc as ([c' code] & <- & Hc). exists code. split; [exact Hc|].
  apply store_rows_code_of; assumption.
Qed.

(** X7: the codes of [huffman_vlad.c]. For a table of two or more distinct
    symbols (counts that are not negative and add up to an [unsigned], room
    in [nodes]), [buildHuffmanTree] and the recursive [generateCodes] give
    every symbol of the table a code that is not empty and at most
    [n - 1] characters long, no code is a prefix of the code of another
    symbol, and two sequences of symbols of the table that are encoded into
    the same bit string are the same sequence: the encoding loses nothing. *)
Theorem Vlad_codes_decodable (nodeIndex : Z) (data : list char) (freq : list Z) :
  (2 <= length data)%nat ->
  length freq = length data ->
  NoDup data ->
  Forall (fun c => 0 <= c < Vlad.MAX_CHAR) data ->
  Forall (fun f => 0 <= f) freq ->
  weight (combine data freq) < UINT_MODULUS ->
  0 <= nodeIndex ->
  nodeIndex + 2 * Z.of_nat (length data) - 1 <= Vlad.MAX_CHAR ->
  exists root codes,
    Vlad.buildHuffmanTree nodeIndex data freq (Z.of_nat (length data))
    = Returns (root, nodeIndex + 2 * Z.of_nat (length data) - 1)
    /\ Vlad.generateCodes root [] (repeat [] (Z.to_nat Vlad.MAX_CHAR)) = Returns codes
    /\ (forall c, In c data ->
                  (1 <= length (code_of codes c) <= length data - 1)%nat)
    /\ (forall c1 c2, In c1 data -> In c2 data -> c1 <> c2 ->
                      is_prefix (code_of codes c1) (code_of codes c2) = false)
    /\ (forall s1 s2,
          Forall (fun c => In c data) s1 ->
          Forall (fun c => In c data) s2 ->
          concat (map (code_of codes) s1) = concat (map (code_of codes) s2) ->
          s1 = s2).
Proof.
  intros Hn Hlen Hnd Hrange Hpos Hw Hidx Hcap.
  destruct (Vlad_codes_are_paths nodeIndex data freq ltac:(lia) Hlen Hnd Hrange Hpos Hw
              Hidx Hcap) as (root & codes & E & Hadd & Hleaves & G & L & Hrows).
  exists root, codes. split; [exact E|]. split; [exact G|].
  assert (Hinner : isLeaf root = false).
  { pose proof (Permutation_length Hleaves) as HL. rewrite length_combine in HL.
    destruct root as [d f [l|] [r|]]; try reflexivity. cbn in HL. lia. }
  assert (Hlenc : forall c, In c data ->
                            (1 <= length (code_of codes c) <= length data - 1)%nat).
  { intros c Hc. destruct (Hrows c Hc) as (code & Hin & ->).
    pose proof (paths_not_empty root [] Hinner) as H1.
    pose proof (paths_length root []) as H2.
    rewrite Forall_forall in H1, H2.
    destruct (H1 _ Hin) as (b & s & Hs). specialize (H2 _ Hin).
    cbn [snd app length] in Hs, H2. subst code. cbn [length] in *.
    pose proof (height_lt_leaves root Hadd) as Hh.
    rewrite (Permutation_length Hleaves), length_combine in Hh. lia. }
  assert (Hpf : forall c1 c2, In c1 data -> In c2 data -> c1 <> c2 ->
                              is_prefix (code_of codes c1) (code_of codes c2) = false).
  { intros c1 c2 H1 H2 Hne.
    destruct (Hrows c1 H1) as (code1 & Hc1 & ->).
    destruct (Hrows c2 H2) as (code2 & Hc2 & ->).
    destruct (ForallOrdPairs_In (paths_prefix_free root []) _ _ Hc1 Hc2)
      as [Heq|[[H _]|[_ H]]]; [congruence|exact H|exact H]. }
  split; [exact Hlenc|]. split; [exact Hpf|].
  apply prefix_code_injective; [|exact Hpf].
  intros c Hc E0. specialize (Hlenc c Hc). rewrite E0 in Hlenc. cbn in Hlenc. lia.
Qed.

Lemma Vlad_codes_decodable_witness :
  exists root codes,
    Vlad.buildHuffmanTree 0 (chars "abcdr") [5; 2; 1; 1; 2] 5 = Returns (root, 9)
    /\ Vlad.generateCodes root [] (repeat [] 256) = Returns codes
    /\ (forall c, In c (chars "abcdr") -> (1 <= length (code_of codes c) <= 4)%nat)
    /\ (forall c1 c2, In c1 (chars "abcdr") -> In c2 (chars "abcdr") -> c1 <> c2 ->
                      is_prefix (code_of codes c1) (code_of codes c2) = false)
    /\ (forall s1 s2,
          Forall (fun c => In c (chars "abcdr")) s1 ->
          Forall (fun c => In c (chars "abcdr")) s2 ->
          concat (map (code_of codes) s1) = concat (map (code_of codes) s2) ->
          s1 = s2).
Proof.
  apply (Vlad_codes_decodable 0 (chars "abcdr") [5; 2; 1; 1; 2]).
  - cbn. lia.
  - reflexivity.
  - repeat constructor; cbn; intuition discriminate.
  - repeat constructor; vm_compute; discriminate.
  - repeat constructor; discriminate.
  - vm_compute. reflexivity.
  - lia.
  - vm_compute. discriminate.
Defined.

(** ** [HuffmanCodes] of [huffman_vlad.c] on an array without a [NUL] *)

Lemma bind_undefined {A B : Type} (m : outcome A) (k : A -> outcome B) :
  m <> OutOfFuel ->
  (forall a, m = Returns a -> k a = Undefined) ->
  bind m k = Undefined.
Proof.
  intros Hm Hk. destruct m as [a| |]; cbn [bind]; [apply Hk|reflexivity|contradiction].
  reflexivity.
Qed.

Lemma for_loop_not_OutOfFuel {St : Type} (body : Z -> St -> outcome St) (n : nat) :
  (forall i s, body i s <> OutOfFuel) ->
  forall i s, for_loop n i body s <> OutOfFuel.
Proof.
  intros Hbody. induction n as [|n IH]; intros i s; [discriminate|].
  cbn [for_loop]. destruct (body i s) as [s'| |] eqn:E; cbn [bind];
    [apply IH|discriminate|exfalso; exact (Hbody i s E)].
Qed.

Lemma increment_not_OutOfFuel (freq : list Z) (c : char) : increment freq c <> OutOfFuel.
Proof.
  unfold increment. destruct (read freq c) as [v| |] eqn:E; cbn [bind];
    [|discriminate|exfalso; exact (read_not_OutOfFuel _ _ E)].
  destruct (v <? INT_MAX); [apply write_not_OutOfFuel|discriminate].
Qed.

Lemma count_not_OutOfFuel (data : list char) (i : Z) (freq : list Z) :
  (c <- read data i ;; increment freq c) <> OutOfFuel.
Proof.
  destruct (read data i) as [c| |] eqn:E; cbn [bind];
    [apply increment_not_OutOfFuel|discriminate|exfalso; exact (read_not_OutOfFuel _ _ E)].
Qed.

Lemma collectUnique_not_OutOfFuel (MAX_CHAR : Z) (freq : list Z) :
  collectUnique MAX_CHAR freq <> OutOfFuel.
Proof.
  unfold collectUnique, for_range. apply for_loop_not_OutOfFuel.
  intros i [uniqueData uniqueFreq].
  destruct (read freq i) as [f| |] eqn:E; cbn [bind];
    [|discriminate|exfalso; exact (read_not_OutOfFuel _ _ E)].
  destruct (0 <? f); discriminate.
Qed.

Section NeverOutOfFuel.

Variable MAX_CHAR : Z.
Variable less : MinHeapNode -> MinHeapNode -> bool.

Lemma newNode_not_OutOfFuel (nodeIndex : Z) (d : char) (f : Z) :
  newNode MAX_CHAR nodeIndex d f <> OutOfFuel.
Proof. unfold newNode. destruct (_ && _); discriminate. Qed.

Lemma createAndBuildMinHeap_not_OutOfFuel (nodeIndex : Z) (data : list char)
  (freq : list Z) (size : Z) :
  createAndBuildMinHeap MAX_CHAR less nodeIndex data freq size <> OutOfFuel.
Proof.
  unfold createAndBuildMinHeap. destruct (size <? 0); [discriminate|].
  destruct (for_range 0 size _ _) as [[arr n]| |] eqn:E; cbn [bind]; try discriminate.
  exfalso. revert E. unfold for_range. apply for_loop_not_OutOfFuel. intros i [arr n].
  destruct (read data i) as [d| |] eqn:Ed; cbn [bind];
    [|discriminate|exfalso; exact (read_not_OutOfFuel _ _ Ed)].
  destruct (read freq i) as [f| |] eqn:Ef; cbn [bind];
    [|discriminate|exfalso; exact (read_not_OutOfFuel _ _ Ef)].
  destruct (newNode MAX_CHAR n d f) as [[node n']| |] eqn:En; cbn [bind];
    [|discriminate|exfalso; exact (newNode_not_OutOfFuel _ _ _ En)].
  destruct (i <? MAX_CHAR); discriminate.
Qed.

(** A turn of the merging loop on two nodes or more returns a heap with
    one node less, or is undefined. *)
Lemma merge_step_outcome (arr : list MinHeapNode) (nodeIndex : Z) :
  (2 <= length arr)%nat ->
  merge_step MAX_CHAR less arr nodeIndex = Undefined
  \/ exists arr' nodeIndex',
       merge_step MAX_CHAR less arr nodeIndex = Returns (arr', nodeIndex')
       /\ S (length arr') = length arr.
Proof.
  intros Hlen. unfold merge_step.
  destruct arr as [|l rest0]; [cbn in Hlen; lia|].
  destruct (extractMin_Permutation less l rest0) as (h1 & E1 & P1).
  rewrite E1. cbn [bind].
  pose proof (Permutation_length P1) as L1. cbn [length] in Hlen.
  destruct h1 as [|r rest1]; [cbn in L1; lia|].
  destruct (extractMin_Permutation less r rest1) as (h2 & E2 & P2).
  rewrite E2. cbn [bind].
  pose proof (Permutation_length P2) as L2. cbn [length] in L1.
  unfold newNode. destruct (_ && _); [|left; reflexivity]. cbn [bind data freq].
  destruct (Z.lt_ge_cases (Z.of_nat (length h2)) MAX_CHAR) as [Hroom|Hfull].
  - destruct (insertMinHeap_Permutation MAX_CHAR h2
                (Node dollar (to_unsigned (freq l + freq r)) (Some l) (Some r)) Hroom)
      as (h3 & E3 & P3).
    rewrite E3. cbn [bind]. right. eexists. eexists. split; [reflexivity|].
    rewrite (Permutation_length P3). cbn [length]. lia.
  - left. unfold insertMinHeap.
    replace (Z.of_nat (length h2) <? MAX_CHAR) with false
      by (symmetry; apply Z.ltb_ge; lia).
    reflexivity.
Qed.

Lemma merge_loop_not_OutOfFuel (fuel : nat) :
  forall (arr : list MinHeapNode) (nodeIndex : Z),
    (length arr <= fuel)%nat ->
    merge_loop MAX_CHAR less (fun arr => (1 <? length arr)%nat) fuel arr nodeIndex
    <> OutOfFuel.
Proof.
  induction fuel as [|fuel IH]; intros arr nodeIndex Hlen.
  - destruct arr; [discriminate|cbn in Hlen; lia].
  - cbn [merge_loop]. destruct (1 <? length arr)%nat eqn:E; [|discriminate].
    apply Nat.ltb_lt in E.
    destruct (merge_step_outcome arr nodeIndex ltac:(lia)) as [H|(arr' & n' & H & L)];
      rewrite H; cbn [bind]; [discriminate|].
    apply IH. lia.
Qed.

Lemma buildHuffmanTree_not_OutOfFuel (nodeIndex : Z) (data : list char) (freq : list Z)
  (size : Z) :
  buildHuffmanTree_with MAX_CHAR less (fun arr => (1 <? length arr)%nat)
    nodeIndex data freq size <> OutOfFuel.
Proof.
  unfold buildHuffmanTree_with.
  destruct (createAndBuildMinHeap MAX_CHAR less nodeIndex data freq size)
    as [[arr n]| |] eqn:E; cbn [bind];
    [|discriminate|exfalso; exact (createAndBuildMinHeap_not_OutOfFuel _ _ _ _ E)].
  destruct (merge_loop _ _ _ _ _ _) as [[arr' n']| |] eqn:E2; cbn [bind];
    [|discriminate|exfalso; revert E2; apply merge_loop_not_OutOfFuel; lia].
  destruct (extractMin less arr') as [[root rest]| |] eqn:E3; cbn [bind]; try discriminate.
  destruct arr'; discriminate.
Qed.

End NeverOutOfFuel.

Lemma Vlad_generateCodes_not_OutOfFuel (root : MinHeapNode) :
  forall (code : cstring) (codes : list cstring),
    Vlad.generateCodes root code codes <> OutOfFuel.
Proof.
  induction root as [d f l Hl r Hr]. intros code codes.
  cbn [Vlad.generateCodes left right data].
  assert (H1 : (match l with
                | Some l0 =>
                    if Z.of_nat (length code) <? Vlad.MAX_TREE_HT
                    then Vlad.generateCodes l0 (code ++ [chr0]) codes else Undefined
                | None => Returns codes
                end) <> OutOfFuel).
  { destruct l as [l|]; [|discriminate]. inversion Hl as [? Hl'|]; subst.
    destruct (_ <? _); [apply Hl'|discriminate]. }
  destruct (match l with Some _ => _ | None => _ end) as [codes1| |];
    cbn [bind]; [|discriminate|contradiction].
  assert (H2 : (match r with
                | Some r0 =>
                    if Z.of_nat (length code) <? Vlad.MAX_TREE_HT
                    then Vlad.generateCodes r0 (code ++ [chr1]) codes1 else Undefined
                | None => Returns codes1
                end) <> OutOfFuel).
  { destruct r as [r|]; [|discriminate]. inversion Hr as [? Hr'|]; subst.
    destruct (_ <? _); [apply Hr'|discriminate]. }
  destruct (match r with Some _ => _ | None => _ end) as [codes2| |];
    cbn [bind]; [|discriminate|contradiction].
  destruct l; destruct r; try discriminate.
  destruct (_ <? _); [apply write_not_OutOfFuel|discriminate].
Qed.

(** X8: [HuffmanCodes] of [huffman_vlad.c] takes the array and its size,
    but [compressInput] is not given the size and stops at a [NUL] only: on
    an array that holds no [NUL] it reads past the end of the array, and
    the behaviour of [HuffmanCodes] is undefined whatever the size. The
    array of [main], 8000 letters, is such an array. *)
Theorem Vlad_HuffmanCodes_needs_a_NUL (nodeIndex : Z) (data : list char) (size : Z) :
  existsb (fun c => c =? NUL) data = false ->
  Vlad.HuffmanCodes nodeIndex data size = Undefined.
Proof.
  intros Hnone.
  assert (Hnul : ~ In NUL data).
  { intros Hin. assert (H : existsb (fun c => c =? NUL) data = true).
    { apply existsb_exists. exists NUL. split; [exact Hin|reflexivity]. }
    congruence. }
  unfold Vlad.HuffmanCodes.
  apply bind_undefined.
  { unfold for_range. apply for_loop_not_OutOfFuel. intros i s. apply count_not_OutOfFuel. }
  intros freq _. apply bind_undefined; [apply collectUnique_not_OutOfFuel|].
  intros [uniqueData uniqueFreq] _. apply bind_undefined.
  { apply buildHuffmanTree_not_OutOfFuel. }
  intros [root n] _. apply bind_undefined; [apply Vlad_generateCodes_not_OutOfFuel|].
  intros codes _. rewrite Vlad_compressInput_no_NUL by exact Hnul. reflexivity.
Qed.

Lemma Vlad_HuffmanCodes_needs_a_NUL_witness : Vlad.main = Undefined.
Proof.
  apply (Vlad_HuffmanCodes_needs_a_NUL 0 Vlad.arr 8000).
  vm_compute. reflexivity.
Defined.

(** ** Bit packing does not record the padding *)

Lemma padding_of_succ (n : Z) :
  0 <= n -> n mod 8 <> 0 -> padding_of (n + 1) = padding_of n - 1.
Proof.
  intros Hn Hm. unfold padding_of. Z.div_mod_to_equations. lia.
Qed.

(** X9: [convertToAscii] pads in front and writes no count of the padding:
    a bit string whose length is not a multiple of 8 and the same string
    with one more ['0'] in front give the same bytes, in [huffman_vlad.c]
    and in [huffman_t2_clock.c]. The bytes alone do not tell where the
    bits of the first code begin. *)
Theorem convertToAscii_forgets_leading_zeros (compressed : cstring) (stale : list char) :
  Z.of_nat (length compressed) mod 8 <> 0 ->
  Vlad.convertToAscii (chr0 :: compressed) = Vlad.convertToAscii compressed
  /\ (Forall (fun c => c <> NUL) compressed ->
      Z.of_nat (length compressed) + 9 <= T2Clock.MAX_TREE_HT * T2Clock.MAX_CHAR ->
      T2Clock.convertToAscii (chr0 :: compressed ++ NUL :: stale)
      = T2Clock.convertToAscii (compressed ++ NUL :: stale)).
Proof.
  intros Hm.
  pose proof (padding_of_bounds (Z.of_nat (length compressed))) as [Hb _].
  pose proof (padding_of_bounds (Z.of_nat (length (chr0 :: compressed)))) as [Hb1 _].
  pose proof (padding_of_succ (Z.of_nat (length compressed)) ltac:(lia) Hm) as Hs.
  assert (Hlen : Z.of_nat (length (chr0 :: compressed))
                 = Z.of_nat (length compressed) + 1) by (cbn [length]; lia).
  assert (Hpad : repeat chr0 (Z.to_nat (padding_of (Z.of_nat (length (chr0 :: compressed)))))
                 ++ chr0 :: compressed
                 = repeat chr0 (Z.to_nat (padding_of (Z.of_nat (length compressed))))
                   ++ compressed).
  { pose proof (padding_of_bounds (Z.of_nat (length compressed) + 1)) as [Hb' _].
    rewrite Hlen, Hs.
    replace (Z.to_nat (padding_of (Z.of_nat (length compressed))))
      with (S (Z.to_nat (padding_of (Z.of_nat (length compressed)) - 1))) by lia.
    cbn [repeat]. rewrite repeat_cons, <- app_assoc. reflexivity. }
  split.
  - rewrite (Vlad_convertToAscii_bytes (chr0 :: compressed)) by discriminate.
    rewrite (Vlad_convertToAscii_bytes compressed)
      by (intros ->; apply Hm; reflexivity).
    rewrite Hpad. reflexivity.
  - intros Hnul Hcap. unfold T2Clock.convertToAscii.
    rewrite (string_in_string compressed stale Hnul).
    change (chr0 :: compressed ++ NUL :: stale) with ((chr0 :: compressed) ++ NUL :: stale).
    rewrite (string_in_string (chr0 :: compressed) stale)
      by (constructor; [discriminate|exact Hnul]).
    cbn [bind]. rewrite !convertToAscii_with_bytes by lia. rewrite Hpad. reflexivity.
Qed.

Lemma convertToAscii_forgets_leading_zeros_witness :
  Vlad.convertToAscii (chars "01110") = Vlad.convertToAscii (chars "1110").
Proof.
  refine (proj1 (convertToAscii_forgets_leading_zeros (chars "1110") [] _)).
  vm_compute. discriminate.
Defined.

(** ** A whole run of [HuffmanCodes] of [huffman_vlad.c] *)

Lemma total_upd (a : list Z) :
  forall (i : nat) (x : Z),
    (i < length a)%nat -> total (upd i x a) = total a - nth i a 0 + x.
Proof.
  induction a as [|y a IH]; intros i x H; [cbn in H; lia|].
  destruct i as [|i]; cbn [upd total fold_right nth].
  - lia.
  - fold (total (upd i x a)). fold (total a). rewrite IH by (cbn in H; lia). lia.
Qed.

Lemma total_repeat_0 (n : nat) : total (repeat 0 n) = 0.
Proof. induction n as [|n IH]; [reflexivity|]. cbn [repeat total fold_right]. exact IH. Qed.

(** Counting adds one to the sum of the table for every symbol counted. *)
Lemma fold_increment_total (symbols : list char) :
  forall (freq table : list Z),
    fold_symbols (fun c freq => increment freq c) symbols freq = Returns table ->
    total table = total freq + Z.of_nat (length symbols).
Proof.
  induction symbols as [|c symbols IH]; intros freq table H.
  - cbn in H. injection H as <-. cbn. lia.
  - cbn [fold_symbols] in H. apply bind_returns_inv in H. destruct H as (freq' & E & H).
    rewrite (IH _ _ H). cbn [length].
    unfold increment in E. apply bind_returns_inv in E. destruct E as (v & Ev & E).
    destruct (v <? INT_MAX); [|discriminate].
    unfold write in E. destruct ((0 <=? c) && (c <? Z.of_nat (length freq))) eqn:Ec;
      [|discriminate].
    injection E as <-. apply andb_true_iff in Ec. destruct Ec as [E0 E1].
    apply Z.leb_le in E0. apply Z.ltb_lt in E1.
    apply (read_returns_inv _ _ _ 0) in Ev.
    rewrite total_upd by lia. lia.
Qed.

Lemma weight_positive_entries (freq : list Z) :
  forall i, Forall (fun f => 0 <= f) freq -> weight (positive_entries freq i) = total freq.
Proof.
  induction freq as [|f freq IH]; intros i H; [reflexivity|].
  inversion H as [|? ? Hf H']; subst.
  cbn [positive_entries total fold_right]. fold (total freq).
  rewrite weight_app, IH by exact H'.
  destruct (0 <? f) eqn:E; cbn; [lia|]. apply Z.ltb_ge in E. lia.
Qed.

Lemma StronglySorted_lt_NoDup (l : list Z) : StronglySorted Z.lt l -> NoDup l.
Proof.
  induction 1 as [|x l Hs IH Hx]; constructor; [|exact IH].
  intros Hin. rewrite Forall_forall in Hx. specialize (Hx x Hin). lia.
Qed.

Lemma combine_fst_snd {A B : Type} (l : list (A * B)) :
  combine (map fst l) (map snd l) = l.
Proof. induction l as [|[a b] l IH]; [reflexivity|]. cbn. rewrite IH. reflexivity. Qed.

(** The table [HuffmanCodes] builds from the counts of the symbols [pre]. *)
Lemma table_of_counts (pre : list char) (table : list Z) :
  Forall (fun c => 0 <= c < Z.of_nat (length table)) pre ->
  (forall i, nth i table 0 = Z.of_nat (count_occ Z.eq_dec pre (Z.of_nat i))) ->
  let entries := positive_entries table 0 in
  NoDup (map fst entries)
  /\ Forall (fun c => 0 <= c < Z.of_nat (length table)) (map fst entries)
  /\ Forall (fun f => 0 <= f) (map snd entries)
  /\ (forall c, In c pre <-> In c (map fst entries))
  /\ length entries = length (nodup Z.eq_dec pre).
Proof.
  intros Hin Hcount entries.
  assert (Hiff : forall c, In c pre <-> In c (map fst entries)).
  { intros c. split.
    - intros Hc. rewrite Forall_forall in Hin. specialize (Hin c Hc).
      apply in_map_iff. exists (c, nth (Z.to_nat c) table 0). split; [reflexivity|].
      apply positive_entries_bounds. rewrite Z.sub_0_r. split; [lia|]. split; [reflexivity|].
      rewrite Hcount, Z2Nat.id by lia.
      apply (count_occ_In Z.eq_dec) in Hc. lia.
    - intros Hc. apply in_map_iff in Hc. destruct Hc as ([c' f] & <- & Hc).
      apply positive_entries_bounds in Hc. rewrite Z.sub_0_r in Hc.
      destruct Hc as (Hr & Hn & Hf). cbn [fst].
      rewrite Hcount, Z2Nat.id in Hn by lia.
      apply (count_occ_In Z.eq_dec). lia. }
  assert (Hnd : NoDup (map fst entries))
    by (apply StronglySorted_lt_NoDup, positive_entries_sorted).
  split; [exact Hnd|]. split; [|split; [|split; [exact Hiff|]]].
  - apply Forall_forall. intros c Hc. apply in_map_iff in Hc.
    destruct Hc as ([c' f] & <- & Hc). apply positive_entries_bounds in Hc. cbn. lia.
  - apply Forall_forall. intros f Hf. apply in_map_iff in Hf.
    destruct Hf as ([c f'] & <- & Hf). apply positive_entries_bounds in Hf. cbn. lia.
  - rewrite <- (length_map fst). apply Permutation_length.
    apply NoDup_Permutation; [exact Hnd|apply NoDup_nodup|].
    intros c. rewrite nodup_In. symmetry. apply Hiff.
Qed.

(** The bits of a sequence of symbols whose codes have [h] characters at
    most. *)
Lemma concat_codes_length (codes : list cstring) (h : nat) (symbols : list char) :
  Forall (fun c => (length (code_of codes c) <= h)%nat) symbols ->
  (length (concat (map (code_of codes) symbols)) <= length symbols * h)%nat.
Proof.
  induction 1 as [|c symbols Hc Hs IH]; [cbn; lia|].
  cbn [map concat length]. rewrite length_app. lia.
Qed.

(** X10: a whole run of [HuffmanCodes] of [huffman_vlad.c] on an array
    that holds the symbols [pre] and then a [NUL], with [size] the number
    of these symbols. The symbols are characters from 1 to 255, there are
    [INT_MAX] at most, [n >= 2] of them are distinct, [nodes] has
    [2 n - 1] free cells, and [compressed] has room for [size * (n - 1)]
    bits. Then the call returns and has taken [2 n - 1] cells of [nodes];
    the bit string is the codes of the symbols of [pre] in order and is not
    empty; the bytes written are the bit string with ['0'] characters in
    front up to a multiple of 8, cut into bytes; no code is a prefix of the
    code of another symbol of [pre]; and the bit string determines the
    sequence of symbols. (With one distinct symbol the bit string is empty
    and [convertToAscii] has undefined behaviour.) *)
Theorem Vlad_HuffmanCodes_whole_run (nodeIndex : Z) (pre post : list char) :
  (2 <= length (nodup Z.eq_dec pre))%nat ->
  Forall (fun c => 0 < c < Vlad.MAX_CHAR) pre ->
  Z.of_nat (length pre) <= INT_MAX ->
  0 <= nodeIndex ->
  nodeIndex + 2 * Z.of_nat (length (nodup Z.eq_dec pre)) - 1 <= Vlad.MAX_CHAR ->
  Z.of_nat (length pre) * (Z.of_nat (length (nodup Z.eq_dec pre)) - 1)
  < Vlad.MAX_TREE_HT * Vlad.MAX_CHAR ->
  exists r,
    Vlad.HuffmanCodes nodeIndex (pre ++ NUL :: post) (Z.of_nat (length pre))
    = Returns (r, nodeIndex + 2 * Z.of_nat (length (nodup Z.eq_dec pre)) - 1)
    /\ Vlad.compressed r = concat (map (code_of (Vlad.codes r)) pre)
    /\ Vlad.compressed r <> []
    /\ Vlad.output r
       = bytes_of (repeat chr0
                     (Z.to_nat (padding_of (Z.of_nat (length (Vlad.compressed r)))))
                   ++ Vlad.compressed r)
    /\ (forall c1 c2, In c1 pre -> In c2 pre -> c1 <> c2 ->
                      is_prefix (code_of (Vlad.codes r) c1) (code_of (Vlad.codes r) c2)
                      = false)
    /\ (forall s1 s2,
          Forall (fun c => In c pre) s1 ->
          Forall (fun c => In c pre) s2 ->
          concat (map (code_of (Vlad.codes r)) s1)
          = concat (map (code_of (Vlad.codes r)) s2) ->
          s1 = s2).
Proof.
  intros Hn2 Hsym Hsize Hidx Hroom Hbits.
  assert (Hne : pre <> []) by (intros ->; cbn in Hn2; lia).
  unfold Vlad.HuffmanCodes.
  (* the counts *)
  rewrite (for_range_read (fun c freq => increment freq c))
    by (rewrite length_app; cbn [length]; lia).
  rewrite Nat2Z.id, firstn_app, firstn_all, Nat.sub_diag, firstn_O, app_nil_r.
  destruct (fold_increment_counts pre (repeat 0 (Z.to_nat Vlad.MAX_CHAR)))
    as (table & Ecount & Ltable & Ncount).
  { rewrite repeat_length. eapply Forall_impl; [|exact Hsym].
    cbn. unfold Vlad.MAX_CHAR. lia. }
  { apply Forall_forall. intros v Hv. apply repeat_spec in Hv. lia. }
  rewrite Ecount. cbn [bind]. rewrite repeat_length in Ltable.
  assert (Ncount' : forall i, nth i table 0 = Z.of_nat (count_occ Z.eq_dec pre (Z.of_nat i))).
  { intros i. rewrite Ncount, nth_repeat. lia. }
  pose proof (fold_increment_total _ _ _ Ecount) as Htotal.
  rewrite total_repeat_0 in Htotal.
  (* the table of symbols *)
  replace (collectUnique Vlad.MAX_CHAR table)
    with (collectUnique (Z.of_nat (length table)) table)
    by (rewrite Ltable; reflexivity).
  rewrite collectUnique_spec. cbn [bind].
  destruct (table_of_counts pre table) as (Hnd & Hrange & Hpos & Hiff & Hn); [|exact Ncount'|].
  { rewrite Ltable. eapply Forall_impl; [|exact Hsym]. cbn. unfold Vlad.MAX_CHAR. lia. }
  set (entries := positive_entries table 0) in *.
  set (n := length (nodup Z.eq_dec pre)) in *.
  rewrite length_map, Hn.
  assert (Hn1 : (1 <= n)%nat).
  { unfold n. destruct pre as [|c pre']; [contradiction|].
    assert (Hc : In c (nodup Z.eq_dec (c :: pre'))) by (apply nodup_In; left; reflexivity).
    destruct (nodup Z.eq_dec (c :: pre')); [contradiction|cbn; lia]. }
  (* the tree and the codes *)
  destruct (Vlad_codes_are_paths nodeIndex (map fst entries) (map snd entries))
    as (root & codes & E & Hadd & Hleaves & G & Lcodes & Hrows).
  { rewrite length_map. lia. }
  { rewrite !length_map. reflexivity. }
  { exact Hnd. }
  { rewrite Ltable in Hrange. eapply Forall_impl; [|exact Hrange]. cbn.
    unfold Vlad.MAX_CHAR. lia. }
  { exact Hpos. }
  { rewrite combine_fst_snd. unfold entries. rewrite weight_positive_entries.
    - unfold UINT_MODULUS, INT_MAX in *. lia.
    - apply Forall_forall. intros f Hf. apply (In_nth _ _ 0) in Hf.
      destruct Hf as (i & _ & <-). rewrite Ncount'. lia. }
  { exact Hidx. }
  { rewrite length_map, Hn. exact Hroom. }
  rewrite length_map, Hn in E. rewrite E. cbn [bind]. rewrite G. cbn [bind].
  (* the length of the codes *)
  assert (Hlenc : forall c, In c pre -> (length (code_of codes c) <= n - 1)%nat).
  { intros c Hc. apply Hiff in Hc. destruct (Hrows c Hc) as (code & Hin & ->).
    pose proof (paths_length root []) as H2. rewrite Forall_forall in H2.
    specialize (H2 _ Hin). cbn [snd length] in H2.
    pose proof (height_lt_leaves root Hadd) as Hh.
    rewrite (Permutation_length Hleaves), length_combine, !length_map, Hn in Hh. lia. }
  assert (Hpf : forall c1 c2, In c1 pre -> In c2 pre -> c1 <> c2 ->
                              is_prefix (code_of codes c1) (code_of codes c2) = false).
  { intros c1 c2 H1 H2 Hdiff. apply Hiff in H1. apply Hiff in H2.
    destruct (Hrows c1 H1) as (code1 & Hc1 & ->).
    destruct (Hrows c2 H2) as (code2 & Hc2 & ->).
    destruct (ForallOrdPairs_In (paths_prefix_free root []) _ _ Hc1 Hc2)
      as [Heq|[[H _]|[_ H]]]; [congruence|exact H|exact H]. }
  (* the bit string *)
  rewrite Vlad_compressInput_rows.
  2:{ eapply Forall_impl; [|exact Hsym]. cbn. unfold NUL. lia. }
  2:{ rewrite Lcodes. eapply Forall_impl; [|exact Hsym]. cbn. unfold Vlad.MAX_CHAR. lia. }
  2:{ pose proof (concat_codes_length codes (n - 1) pre) as Hb.
      rewrite Forall_forall in Hb. specialize (Hb Hlenc). cbn [length].
      assert (Z.of_nat (length (concat (map (code_of codes) pre)))
              <= Z.of_nat (length pre) * (Z.of_nat n - 1)) by nia.
      lia. }
  cbn [bind app].
  assert (Hcode : forall c, In c pre -> code_of codes c <> []).
  { intros c Hc E0. apply Hiff in Hc. destruct (Hrows c Hc) as (code & Hin & Ecode).
    assert (Hinner : isLeaf root = false).
    { pose proof (Permutation_length Hleaves) as HL.
      rewrite length_combine, !length_map, Hn in HL. fold n in Hn2.
      destruct root as [d f [l|] [r|]]; try reflexivity. cbn in HL. lia. }
    pose proof (paths_not_empty root [] Hinner) as H1. rewrite Forall_forall in H1.
    destruct (H1 _ Hin) as (b & s & Hs). cbn [snd app] in Hs. congruence. }
  assert (Hbit : concat (map (code_of codes) pre) <> []).
  { destruct pre as [|c pre']; [contradiction|]. cbn [map concat].
    intros E0. apply app_eq_nil in E0. destruct E0 as [E0 _].
    exact (Hcode c (or_introl eq_refl) E0). }
  rewrite Vlad_convertToAscii_bytes by exact Hbit. cbn [bind].
  eexists. split; [reflexivity|]. cbn [Vlad.compressed Vlad.codes Vlad.output].
  split; [reflexivity|]. split; [exact Hbit|]. split; [reflexivity|].
  split; [exact Hpf|].
  apply prefix_code_injective; [exact Hcode|exact Hpf].
Qed.

Lemma Vlad_HuffmanCodes_whole_run_witness :
  exists r,
    Vlad.HuffmanCodes 0 (chars "abracadabra" ++ NUL :: chars "xyz") 11 = Returns (r, 9)
    /\ Vlad.compressed r = concat (map (code_of (Vlad.codes r)) (chars "abracadabra")).
Proof.
  destruct (Vlad_HuffmanCodes_whole_run 0 (chars "abracadabra") (chars "xyz"))
    as (r & E & C & _).
  - vm_compute. lia.
  - repeat constructor; vm_compute; reflexivity.
  - vm_compute. discriminate.
  - lia.
  - vm_compute. discriminate.
  - vm_compute. reflexivity.
  - exists r. split; [exact E|exact C].
Defined.

(** ** What the loop of [printCodes] writes *)

Lemma walk_app (bits : list Z) :
  forall (root n : MinHeapNode) (more : list Z),
    walk root bits = Some n -> walk root (bits ++ more) = walk n more.
Proof.
  induction bits as [|b bits IH]; intros root n more H.
  - cbn in H. injection H as <-. reflexivity.
  - cbn [walk app] in *.
    destruct (if b =? 0 then left root else if b =? 1 then right root else None)
      as [child|]; [|discriminate].
    apply IH. exact H.
Qed.

Lemma walk_height (bits : list Z) :
  forall root n, walk root bits = Some n -> (length bits + height n <= height root)%nat.
Proof.
  induction bits as [|b bits IH]; intros root n H.
  - cbn in H. injection H as <-. cbn. lia.
  - cbn [walk length] in *. destruct root as [d f l r]. cbn [left right] in H.
    destruct (b =? 0).
    + destruct l as [l|]; [|discriminate]. specialize (IH l n H).
      cbn [height left right]. destruct r; lia.
    + destruct (b =? 1); [|discriminate].
      destruct r as [r|]; [|discriminate]. specialize (IH r n H).
      cbn [height left right]. destruct l; lia.
Qed.

(** The bits that lead to a leaf are the row [paths] has for it. *)
Lemma walk_paths (bits : list Z) :
  forall (root n : MinHeapNode) (code : cstring),
    walk root bits = Some n ->
    isLeaf n = true ->
    In (data n, code ++ row_of bits) (paths root code).
Proof.
  induction bits as [|b bits IH]; intros root n code H Hleaf.
  - cbn in H. injection H as <-. destruct root as [d f [l|] [r|]]; try discriminate.
    cbn. rewrite app_nil_r. left. reflexivity.
  - cbn [walk] in H. destruct root as [d f l r]. cbn [left right] in H.
    cbn [paths left right row_of map].
    destruct (b =? 0) eqn:E0.
    + apply Z.eqb_eq in E0. subst b.
      destruct l as [l|]; [|discriminate].
      specialize (IH l n (code ++ [chr0]) H Hleaf). rewrite <- app_assoc in IH.
      apply in_or_app. left. exact IH.
    + destruct (b =? 1) eqn:E1; [|discriminate]. apply Z.eqb_eq in E1. subst b.
      destruct r as [r|]; [|discriminate].
      specialize (IH r n (code ++ [chr1]) H Hleaf). rewrite <- app_assoc in IH.
      destruct l; apply in_or_app; right; exact IH.
Qed.

Lemma unset_upd (h : nat) :
  forall (visited : list Z) (k : nat),
    (k < h)%nat -> (k < length visited)%nat -> nth k visited 0 = 0 ->
    S (unset h (upd k 1 visited)) = unset h visited.
Proof.
  induction h as [|h IH]; intros visited k Hk Hlen Hv; [lia|].
  destruct visited as [|v visited]; [cbn in Hlen; lia|].
  destruct k as [|k]; cbn [upd unset nth length] in Hlen, Hv |- *.
  - subst v. cbn. reflexivity.
  - rewrite <- (IH visited k); [lia|lia|lia|exact Hv].
Qed.

Lemma unset_le (h : nat) : forall visited, (unset h visited <= h)%nat.
Proof.
  induction h as [|h IH]; intros [|v visited]; cbn [unset]; try lia.
  specialize (IH visited). destruct (v =? 0); lia.
Qed.

Lemma filter_isLeaf_last (s : list MinHeapNode) (top : MinHeapNode) :
  length (filter isLeaf (s ++ [top]))
  = (length (filter isLeaf s) + (if isLeaf top then 1 else 0))%nat.
Proof.
  rewrite filter_app, length_app. cbn [filter]. destruct (isLeaf top); reflexivity.
Qed.

Lemma on_path_last (root : MinHeapNode) (s : list MinHeapNode) (top : MinHeapNode)
  (arr : list Z) :
  on_path root (s ++ [top]) arr ->
  exists a b, arr = a ++ [b] /\ length a = length s
              /\ walk root a = Some top /\ on_path root s a.
Proof.
  intros [Hlen Hwalk]. rewrite length_app in Hlen, Hwalk. cbn [length] in Hlen, Hwalk.
  destruct (exists_last (l := arr)) as (a & b & ->).
  { intros ->. cbn in Hlen. lia. }
  rewrite length_app in Hlen. cbn [length] in Hlen.
  exists a, b. split; [reflexivity|]. split; [lia|]. split.
  - specialize (Hwalk (length s) ltac:(lia)).
    rewrite firstn_app in Hwalk. replace (length s - length a)%nat with O in Hwalk by lia.
    rewrite firstn_O, app_nil_r, firstn_all2 in Hwalk by lia.
    rewrite app_nth2, Nat.sub_diag in Hwalk by lia. exact Hwalk.
  - split; [lia|]. intros i Hi. specialize (Hwalk i ltac:(lia)).
    rewrite firstn_app in Hwalk. replace (i - length a)%nat with O in Hwalk by lia.
    rewrite firstn_O, app_nil_r in Hwalk. rewrite app_nth1 in Hwalk by lia. exact Hwalk.
Qed.

Lemma on_path_push (root : MinHeapNode) (stack : list MinHeapNode) (arr : list Z)
  (current : MinHeapNode) (b : Z) :
  on_path root stack arr ->
  walk root arr = Some current ->
  on_path root (stack ++ [current]) (arr ++ [b]).
Proof.
  intros [Hlen Hwalk] Hc. split; [rewrite !length_app; cbn [length]; lia|].
  intros i Hi. rewrite length_app in Hi. cbn [length] in Hi.
  rewrite firstn_app.
  destruct (Nat.eq_dec i (length stack)) as [->|Hne].
  - rewrite <- Hlen, firstn_all, Nat.sub_diag, firstn_O, app_nil_r.
    rewrite app_nth2, Hlen, Nat.sub_diag by lia. exact Hc.
  - replace (i - length arr)%nat with O by lia. rewrite firstn_O, app_nil_r.
    rewrite app_nth1 by lia. apply Hwalk. lia.
Qed.

Section TraversalRows.

Variable MAX_TREE_HT : Z.
Variable root : MinHeapNode.

Hypothesis root_height : Z.of_nat (height root) < MAX_TREE_HT.

(** The inner loop pushes the nodes of a left spine: one leaf at most. *)
Lemma push_left_path (current : MinHeapNode) :
  forall (stack : list MinHeapNode) (arr : list Z),
    on_path root stack arr ->
    walk root arr = Some current ->
    exists stack' arr',
      push_left MAX_TREE_HT current stack arr = Returns (stack', arr')
      /\ on_path root stack' arr'
      /\ stack' <> []
      /\ (length (filter isLeaf stack') <= length (filter isLeaf stack) + 1)%nat.
Proof.
  induction current as [d f l Hl r Hr]. intros stack arr Hpath Hc.
  cbn [push_left left].
  pose proof (walk_height _ _ _ Hc) as Hh. destruct Hpath as [Hlen Hwalk].
  replace (Z.of_nat (length stack) <? MAX_TREE_HT) with true
    by (symmetry; apply Z.ltb_lt; lia).
  pose proof (on_path_push root stack arr (Node d f l r) 0 (conj Hlen Hwalk) Hc) as Hpush.
  destruct l as [l|].
  - inversion Hl as [? Hl'|]; subst.
    destruct (Hl' (stack ++ [Node d f (Some l) r]) (arr ++ [0]) Hpush)
      as (stack' & arr' & E & Hp & Hne & Hcount).
    { rewrite (walk_app arr root (Node d f (Some l) r) [0] Hc). reflexivity. }
    exists stack', arr'. split; [exact E|]. split; [exact Hp|]. split; [exact Hne|].
    rewrite filter_isLeaf_last in Hcount. cbn [isLeaf left right] in Hcount. lia.
  - exists (stack ++ [Node d f None r]), (arr ++ [0]).
    split; [reflexivity|]. split; [exact Hpush|]. split.
    + intros E. apply app_eq_nil in E. destruct E as [_ E]. discriminate.
    + rewrite filter_isLeaf_last. destruct (isLeaf (Node d f None r)); lia.
Qed.

Variable size : nat.

Hypothesis leaves_in_table :
  Forall (fun entry => 0 <= fst entry < Z.of_nat size) (leaves root).

(** The loop from a state on a path of the tree: it does not leave its
    arrays, and the rows it writes are rows of [paths], one for every leaf
    on the stack and every cell of [visited] it can still set, at most. *)
Lemma traverse_rows (fuel : nat) :
  forall (stack : list MinHeapNode) (arr visited : list Z)
         (current : option MinHeapNode) (codes : list cstring),
    on_path root stack arr ->
    match current with Some c => walk root arr = Some c | None => True end ->
    Z.of_nat (length visited) = MAX_TREE_HT ->
    length codes = size ->
    match traverse MAX_TREE_HT fuel stack arr visited current codes with
    | Returns (codes', visited') =>
        exists rows,
          codes' = store_rows rows codes
          /\ Forall (fun row => In row (paths root [])) rows
          /\ (length rows
              <= length (filter isLeaf stack)
                 + (match current with Some _ => 1 | None => 0 end)
                 + unset (height root) visited)%nat
          /\ length visited' = length visited
          /\ (forall k, nth k visited 0 <> 0 -> nth k visited' 0 <> 0)
    | Undefined => False
    | OutOfFuel => True
    end.
Proof.
  induction fuel as [|fuel IH]; intros stack arr visited current codes Hpath Hcur Hvis Hcodes.
  - cbn [traverse]. destruct (_ || _); [exact I|].
    exists []. repeat split; [constructor|cbn; lia|auto].
  - cbn [traverse].
    destruct ((0 <? length stack)%nat || _) eqn:Econd.
    2:{ exists []. repeat split; [constructor|cbn; lia|auto]. }
    assert (Hpush : exists stack1 arr1,
               (match current with
                | Some c => push_left MAX_TREE_HT c stack arr
                | None => Returns (stack, arr)
                end) = Returns (stack1, arr1)
               /\ on_path root stack1 arr1
               /\ stack1 <> []
               /\ (length (filter isLeaf stack1)
                   <= length (filter isLeaf stack)
                      + (match current with Some _ => 1 | None => 0 end))%nat).
    { destruct current as [c|].
      - apply push_left_path; assumption.
      - exists stack, arr. split; [reflexivity|]. split; [exact Hpath|]. split; [|lia].
        intros ->. cbn in Econd. discriminate. }
    destruct Hpush as (stack1 & arr1 & -> & Hpath1 & Hne1 & Hcount1). cbn [bind].
    destruct (exists_last Hne1) as (s & top & ->).
    destruct (on_path_last root s top arr1 Hpath1) as (a & b & -> & La & Wtop & Hpaths).
    pose proof (walk_height _ _ _ Wtop) as Hh.
    rewrite length_app. cbn [length].
    replace (Z.of_nat (length s + 1) - 1) with (Z.of_nat (length s)) by lia.
    rewrite read_nth_error, nth_error_app2, Nat.sub_diag by lia. cbn [nth_error bind].
    rewrite (read_in_bounds visited _ 0) by lia. cbn [bind]. rewrite Nat2Z.id.
    rewrite !removelast_last.
    rewrite filter_isLeaf_last in Hcount1.
    assert (Hpop :
              match (codes0 <- (if isLeaf top then write codes (data top) (row_of a)
                                else Returns codes) ;;
                     traverse MAX_TREE_HT fuel s a visited None codes0) with
              | Returns (codes', visited') =>
                  exists rows,
                    codes' = store_rows rows codes
                    /\ Forall (fun row => In row (paths root [])) rows
                    /\ (length rows
                        <= length (filter isLeaf stack)
                           + (match current with Some _ => 1 | None => 0 end)
                           + unset (height root) visited)%nat
                    /\ length visited' = length visited
                    /\ (forall k, nth k visited 0 <> 0 -> nth k visited' 0 <> 0)
              | Undefined => False
              | OutOfFuel => True
              end).
    { destruct (isLeaf top) eqn:Eleaf.
      - pose proof (walk_paths a root top [] Wtop Eleaf) as Hrow. cbn [app] in Hrow.
        assert (Hsym : 0 <= data top < Z.of_nat size).
        { assert (Hin : In (data top) (map fst (leaves root))).
          { rewrite <- (paths_symbols root []).
            apply (in_map fst) in Hrow. exact Hrow. }
          apply in_map_iff in Hin. destruct Hin as (entry & <- & Hin).
          rewrite Forall_forall in leaves_in_table. apply leaves_in_table. exact Hin. }
        rewrite write_in_bounds by lia. cbn [bind].
        specialize (IH s a visited None (upd (Z.to_nat (data top)) (row_of a) codes)
                      Hpaths I Hvis ltac:(rewrite upd_length; exact Hcodes)).
        destruct (traverse MAX_TREE_HT fuel s a visited None _) as [[codes' visited']| |];
          [|exact IH|exact I].
        destruct IH as (rows & -> & Hrows & Hlen & Hv).
        exists ((data top, row_of a) :: rows). split; [reflexivity|].
        split; [constructor; assumption|]. split; [cbn [length]; lia|exact Hv].
      - cbn [bind].
        specialize (IH s a visited None codes Hpaths I Hvis Hcodes).
        destruct (traverse MAX_TREE_HT fuel s a visited None codes)
          as [[codes' visited']| |]; [|exact IH|exact I].
        destruct IH as (rows & -> & Hrows & Hlen & Hv).
        exists rows. split; [reflexivity|]. split; [exact Hrows|].
        split; [lia|exact Hv]. }
    destruct (right top) as [r|] eqn:Er; [|exact Hpop].
    destruct (nth (length s) visited 0 =? 0) eqn:Ev0; [|exact Hpop].
    apply Z.eqb_eq in Ev0.
    assert (Hdeep : (length s < height root)%nat).
    { destruct top as [d f l r']. cbn [right] in Er. subst r'.
      cbn [height left right] in Hh. destruct l; lia. }
    rewrite write_in_bounds by lia. cbn [bind].
    rewrite write_in_bounds by (rewrite length_app; cbn [length]; lia). cbn [bind].
    rewrite !Nat2Z.id.
    assert (Earr : upd (length s) 1 (a ++ [b]) = a ++ [1]).
    { rewrite <- La. clear. induction a as [|x a IH]; [reflexivity|].
      cbn [length upd app]. rewrite IH. reflexivity. }
    rewrite Earr.
    specialize (IH (s ++ [top]) (a ++ [1]) (upd (length s) 1 visited) (Some r) codes).
    destruct (traverse MAX_TREE_HT fuel (s ++ [top]) (a ++ [1]) _ (Some r) codes)
      as [[codes' visited']| |]; [| |exact I].
    + destruct IH as (rows & -> & Hrows & Hlen & Hv).
      * destruct Hpath1 as [L1 W1]. split; [rewrite !length_app in *; cbn [length] in *; lia|].
        intros i Hi. specialize (W1 i Hi). rewrite length_app in Hi. cbn [length] in Hi.
        rewrite firstn_app in W1 |- *.
        replace (i - length a)%nat with O in W1 |- * by lia.
        rewrite firstn_O, app_nil_r in W1 |- *. exact W1.
      * rewrite (walk_app a root top [1] Wtop). cbn [walk]. rewrite Er. reflexivity.
      * rewrite upd_length. exact Hvis.
      * exact Hcodes.
      * exists rows. split; [reflexivity|]. split; [exact Hrows|].
        destruct Hv as [Hv Hset]. rewrite upd_length in Hv.
        split; [|split; [exact Hv|]].
        -- pose proof (unset_upd (height root) visited (length s) Hdeep ltac:(lia) Ev0).
           rewrite filter_isLeaf_last in Hlen. lia.
        -- intros k Hk. apply Hset. destruct (Nat.eq_dec k (length s)) as [->|Hks].
           ++ rewrite nth_upd_eq by lia. discriminate.
           ++ rewrite nth_upd_neq by lia. exact Hk.
    + apply IH.
      * destruct Hpath1 as [L1 W1]. split; [rewrite !length_app in *; cbn [length] in *; lia|].
        intros i Hi. specialize (W1 i Hi). rewrite length_app in Hi. cbn [length] in Hi.
        rewrite firstn_app in W1 |- *.
        replace (i - length a)%nat with O in W1 |- * by lia.
        rewrite firstn_O, app_nil_r in W1 |- *. exact W1.
      * rewrite (walk_app a root top [1] Wtop). cbn [walk]. rewrite Er. reflexivity.
      * rewrite upd_length. exact Hvis.
      * exact Hcodes.
Qed.

End TraversalRows.

Lemma missing_of_shorter (l l' : list Z) :
  NoDup l -> (length l' < length l)%nat -> exists x, In x l /\ ~ In x l'.
Proof.
  intros Hnd Hlen.
  destruct (Forall_Exists_dec (fun x => In x l') (fun x => in_dec Z.eq_dec x l') l)
    as [Hall|Hex].
  - exfalso. rewrite Forall_forall in Hall.
    pose proof (NoDup_incl_length Hnd Hall). lia.
  - apply Exists_exists in Hex. exact Hex.
Qed.

(** The rows the loop wrote leave out a symbol of a tree that has more
    leaves than rows were written. *)
Lemma rows_leave_a_symbol_out (root : MinHeapNode) (rows : list (char * cstring))
  (codes : list cstring) :
  Forall (fun entry => 0 <= fst entry) (leaves root) ->
  Forall (fun row => In row (paths root [])) rows ->
  NoDup (map fst (leaves root)) ->
  (length rows < length (leaves root))%nat ->
  exists c, In c (map fst (leaves root))
            /\ code_of (store_rows rows codes) c = code_of codes c.
Proof.
  intros Hpos Hrows Hnd Hlen.
  assert (Hsym : forall row, In row rows -> In (fst row) (map fst (leaves root))).
  { intros row Hrow. rewrite Forall_forall in Hrows.
    rewrite <- (paths_symbols root []). apply in_map. apply Hrows. exact Hrow. }
  assert (Hnonneg : forall c, In c (map fst (leaves root)) -> 0 <= c).
  { intros c Hc. apply in_map_iff in Hc. destruct Hc as (entry & <- & He).
    rewrite Forall_forall in Hpos. apply Hpos. exact He. }
  destruct (missing_of_shorter (map fst (leaves root)) (map fst rows) Hnd) as (c & Hc & Hout).
  { rewrite !length_map. exact Hlen. }
  exists c. split; [exact Hc|]. apply store_rows_other; [apply Hnonneg; exact Hc| |exact Hout].
  apply Forall_forall. intros row Hrow. apply Hnonneg, Hsym. exact Hrow.
Qed.

(** X11: [printCodes] of [huffman.c] on a tree less than [MAX_TREE_HT]
    high whose leaves hold symbols of the table. The call returns. Every
    row it writes is the path to a leaf, in the row of the symbol of that
    leaf. It writes [height + 1] rows at most, because a cell of [visited]
    is set when the loop goes right from a node of that depth and is never
    cleared: from every depth the loop goes right once. A tree of distinct
    symbols with more than [height + 1] leaves keeps a symbol whose row is
    left as it was, empty in [HuffmanCodes]. *)
Theorem printCodes_writes_few_rows (root : MinHeapNode) (codes : list cstring) :
  Z.of_nat (height root) < Huffman.MAX_TREE_HT ->
  Forall (fun entry => 0 <= fst entry < Z.of_nat (length codes)) (leaves root) ->
  exists codes' rows,
    Huffman.printCodes root codes = Returns codes'
    /\ codes' = store_rows rows codes
    /\ (forall row, In row rows -> In row (paths root []))
    /\ (length rows <= height root + 1)%nat
    /\ (NoDup (map fst (leaves root)) ->
        (height root + 1 < length (leaves root))%nat ->
        exists c, In c (map fst (leaves root)) /\ code_of codes' c = code_of codes c).
Proof.
  intros Hh Hin. unfold Huffman.printCodes.
  pose proof (traverse_from_fuel Huffman.MAX_TREE_HT root
                (repeat 0 (Z.to_nat Huffman.MAX_TREE_HT)) codes) as Hfuel.
  pose proof (traverse_rows Huffman.MAX_TREE_HT root Hh (length codes) Hin
                (2 * nodes_of root + 1) [] [] (repeat 0 (Z.to_nat Huffman.MAX_TREE_HT))
                (Some root) codes) as H.
  unfold traverse_from in *.
  destruct (traverse _ _ _ _ _ _ _) as [[codes' visited']| |]; [| |contradiction].
  - destruct H as (rows & -> & Hrows & Hlen & _).
    + split; [reflexivity|]. intros i Hi. cbn in Hi. lia.
    + reflexivity.
    + rewrite repeat_length. reflexivity.
    + reflexivity.
    + cbn [bind]. exists (store_rows rows codes), rows.
      split; [reflexivity|]. split; [reflexivity|].
      split; [apply Forall_forall; exact Hrows|].
      cbn [filter length] in Hlen.
      pose proof (unset_le (height root) (repeat 0 (Z.to_nat Huffman.MAX_TREE_HT))).
      split; [lia|]. intros Hnd Hmore.
      apply rows_leave_a_symbol_out; [|exact Hrows|exact Hnd|lia].
      eapply Forall_impl; [|exact Hin]. cbn. lia.
  - exfalso. apply H.
    + split; [reflexivity|]. intros i Hi. cbn in Hi. lia.
    + reflexivity.
    + rewrite repeat_length. reflexivity.
    + reflexivity.
Qed.

Lemma printCodes_writes_few_rows_witness :
  exists codes' rows,
    Huffman.printCodes
      (Node 36 4 (Some (Node 36 2 (Some (Node 97 1 None None)) (Some (Node 98 1 None None))))
                 (Some (Node 36 2 (Some (Node 99 1 None None)) (Some (Node 100 1 None None)))))
      (repeat [] 256)
    = Returns codes'
    /\ codes' = store_rows rows (repeat [] 256)
    /\ (length rows <= 3)%nat.
Proof.
  destruct (printCodes_writes_few_rows
              (Node 36 4
                 (Some (Node 36 2 (Some (Node 97 1 None None)) (Some (Node 98 1 None None))))
                 (Some (Node 36 2 (Some (Node 99 1 None None)) (Some (Node 100 1 None None)))))
              (repeat [] 256))
    as (codes' & rows & E & S & _ & L & _).
  - vm_compute. reflexivity.
  - repeat constructor; vm_compute; try discriminate; reflexivity.
  - exists codes', rows. split; [exact E|]. split; [exact S|exact L].
Defined.

(** X12: [generateCodes] of [huffman_t2_clock.c] is the same loop on the
    static array [visited], which no call clears. On a tree less than
    [MAX_TREE_HT] high whose leaves hold symbols of the table the call
    returns, every row it writes is the path to a leaf, and it writes one
    row more, at most, than there are cells of [visited] below the height
    of the tree that earlier calls have not set. The cells that were set
    are still set when the call returns. *)
Theorem generateCodes_rows_and_visited (root : MinHeapNode) (codes : list cstring)
  (visited : list Z) :
  Z.of_nat (height root) < T2Clock.MAX_TREE_HT ->
  Forall (fun entry => 0 <= fst entry < Z.of_nat (length codes)) (leaves root) ->
  Z.of_nat (length visited) = T2Clock.MAX_TREE_HT ->
  exists codes' visited' rows,
    T2Clock.generateCodes root codes visited = Returns (codes', visited')
    /\ codes' = store_rows rows codes
    /\ (forall row, In row rows -> In row (paths root []))
    /\ (length rows <= unset (height root) visited + 1)%nat
    /\ length visited' = length visited
    /\ (forall k, nth k visited 0 <> 0 -> nth k visited' 0 <> 0).
Proof.
  intros Hh Hin Hvis. unfold T2Clock.generateCodes.
  pose proof (traverse_from_fuel T2Clock.MAX_TREE_HT root visited codes) as Hfuel.
  pose proof (traverse_rows T2Clock.MAX_TREE_HT root Hh (length codes) Hin
                (2 * nodes_of root + 1) [] [] visited (Some root) codes) as H.
  unfold traverse_from in *.
  destruct (traverse _ _ _ _ _ _ _) as [[codes' visited']| |]; [| |contradiction].
  - destruct H as (rows & -> & Hrows & Hlen & Hv).
    + split; [reflexivity|]. intros i Hi. cbn in Hi. lia.
    + reflexivity.
    + exact Hvis.
    + reflexivity.
    + exists (store_rows rows codes), visited', rows.
      split; [reflexivity|]. split; [reflexivity|].
      split; [apply Forall_forall; exact Hrows|].
      cbn [filter length] in Hlen. split; [lia|exact Hv].
  - exfalso. apply H.
    + split; [reflexivity|]. intros i Hi. cbn in Hi. lia.
    + reflexivity.
    + exact Hvis.
    + reflexivity.
Qed.

Lemma generateCodes_rows_and_visited_witness :
  exists codes' visited' rows,
    T2Clock.generateCodes
      (Node 36 2 (Some (Node 97 1 None None)) (Some (Node 98 1 None None)))
      (repeat [] 128) (1 :: repeat 0 99)
    = Returns (codes', visited')
    /\ codes' = store_rows rows (repeat [] 128)
    /\ (length rows <= 1)%nat.
Proof.
  destruct (generateCodes_rows_and_visited
              (Node 36 2 (Some (Node 97 1 None None)) (Some (Node 98 1 None None)))
              (repeat [] 128) (1 :: repeat 0 99))
    as (codes' & visited' & rows & E & S & _ & L & _).
  - vm_compute. reflexivity.
  - repeat constructor; vm_compute; try discriminate; reflexivity.
  - vm_compute. reflexivity.
  - exists codes', visited', rows. split; [exact E|]. split; [exact S|exact L].
Defined.

(** ** [minHeapify] in the three files *)

Lemma variants_strict_order (MAX_CHAR : Z) (less : MinHeapNode -> MinHeapNode -> bool) :
  In (MAX_CHAR, less) variants ->
  (forall a, less a a = false)
  /\ (forall a b c, less a b = true -> less b c = true -> less a c = true)
  /\ (forall a b c, less a b = false -> less b c = false -> less a c = false).
Proof.
  intros [H|[H|[H|[]]]]; injection H as <- <-.
  - split; [exact Vlad_less_irrefl|]. split; [exact Vlad_less_trans|exact Vlad_less_neg_trans].
  - split; [exact Huffman_less_irrefl|].
    split; [exact Huffman_less_trans|exact Huffman_less_neg_trans].
  - split; [exact Vlad_less_irrefl|]. split; [exact Vlad_less_trans|exact Vlad_less_neg_trans].
Qed.

(** X13: [minHeapify(minHeap, k)], in each of the three files, keeps the
    nodes of the heap and puts the cell [k] in order when the cells after
    it are: in the order of its own comparison (by weight, in [huffman.c]
    by weight and then by symbol) and in the order by weight alone. *)
Theorem minHeapify_restores_the_order (MAX_CHAR : Z)
  (less : MinHeapNode -> MinHeapNode -> bool) (arr : list MinHeapNode) (k : nat) :
  In (MAX_CHAR, less) variants ->
  Permutation (minHeapify less arr k) arr
  /\ (heap_ordered_from less (S k) arr -> heap_ordered_from less k (minHeapify less arr k))
  /\ (weight_ordered_from (S k) arr -> weight_ordered_from k (minHeapify less arr k)).
Proof.
  intros Hv. destruct (variants_strict_order _ _ Hv) as (H1 & H2 & H3).
  destruct (variants_lighter _ _ Hv) as (H4 & H5 & _).
  split; [apply minHeapify_Permutation|]. split.
  - apply minHeapify_ordered; assumption.
  - apply minHeapify_weight; assumption.
Qed.

Lemma minHeapify_restores_the_order_witness :
  Permutation
    (Huffman.minHeapify [Node 97 5 None None; Node 99 1 None None; Node 98 1 None None] 0)
    [Node 97 5 None None; Node 99 1 None None; Node 98 1 None None].
Proof.
  refine (proj1 (minHeapify_restores_the_order Huffman.MAX_CHAR Huffman.less
                   [Node 97 5 None None; Node 99 1 None None; Node 98 1 None None] 0 _)).
  right. left. reflexivity.
Defined.

(** ** [compressInput] of [huffman_t2_clock.c] without room in [compressed] *)

Lemma copy_row_overflow (row : cstring) :
  forall (compressed : list char) (bitIndex : nat),
    (bitIndex <= length compressed)%nat ->
    (length compressed < bitIndex + length row)%nat ->
    T2Clock.copy_row row compressed (Z.of_nat bitIndex) = Undefined.
Proof.
  induction row as [|c row IH]; intros compressed bitIndex Hle Hlt;
    [cbn [length] in Hlt; lia|].
  cbn [T2Clock.copy_row length] in *.
  destruct (Nat.eq_dec bitIndex (length compressed)) as [->|Hne].
  - unfold write. rewrite Z.ltb_irrefl, andb_false_r. reflexivity.
  - rewrite write_in_bounds by lia. cbn [bind].
    replace (Z.of_nat bitIndex + 1) with (Z.of_nat (S bitIndex)) by lia.
    apply IH; rewrite upd_length; lia.
Qed.

Lemma pack_rows_overflow (codes : list cstring) (symbols : list char) :
  forall (compressed : list char) (bitIndex : nat),
    Forall (fun c => 0 <= c < Z.of_nat (length codes)) symbols ->
    (bitIndex <= length compressed)%nat ->
    (length compressed < bitIndex + length (concat (map (code_of codes) symbols)))%nat ->
    fold_symbols
      (fun c '(compressed, bitIndex) =>
         row <- read codes c ;; T2Clock.copy_row row compressed bitIndex)
      symbols (compressed, Z.of_nat bitIndex)
    = Undefined.
Proof.
  induction symbols as [|c symbols IH]; intros compressed bitIndex Hin Hle Hlt;
    [cbn in Hlt; lia|].
  inversion Hin as [|? ? Hc Hin']; subst.
  cbn [map concat fold_symbols] in *. rewrite length_app in Hlt.
  rewrite read_code_of by assumption. cbn [bind].
  destruct (Nat.le_gt_cases (bitIndex + length (code_of codes c)) (length compressed))
    as [Hfit|Hover].
  - rewrite copy_row_spec by lia. cbn [bind].
    apply IH; [assumption| |];
      rewrite !length_app, length_firstn, length_skipn; lia.
  - rewrite copy_row_overflow by lia. reflexivity.
Qed.

(** X14: [compressInput] of [huffman_t2_clock.c] does not check the size of
    [compressed]: when the rows of the [size] input symbols have more
    characters together than the array has cells, it writes past the end
    of the array and the behaviour is undefined. *)
Theorem compressInput_overflows (input : list char) (size : Z) (codes : list cstring)
  (compressed : list char) :
  0 <= size <= Z.of_nat (length input) ->
  Forall (fun c => 0 <= c < Z.of_nat (length codes)) (firstn (Z.to_nat size) input) ->
  (length compressed
   < length (concat (map (code_of codes) (firstn (Z.to_nat size) input))))%nat ->
  T2Clock.compressInput input size codes compressed = Undefined.
Proof.
  intros Hsize Hin Hover. unfold T2Clock.compressInput, for_range.
  rewrite (for_loop_ext _
             (fun i s => c <- read input i ;;
                         (fun c '(compressed, bitIndex) =>
                            row <- read codes c ;;
                            T2Clock.copy_row row compressed bitIndex) c s))
    by (intros i [? ?]; reflexivity).
  fold (for_range 0 size
          (fun i s => c <- read input i ;;
                      (fun c '(compressed, bitIndex) =>
                         row <- read codes c ;;
                         T2Clock.copy_row row compressed bitIndex) c s)
          (compressed, 0)).
  rewrite for_range_read by exact Hsize.
  rewrite (pack_rows_overflow codes _ compressed 0) by (assumption || (cbn [Nat.add]; lia)).
  reflexivity.
Qed.

Lemma compressInput_overflows_witness :
  T2Clock.compressInput (chars "abab") 4
    (upd 97 (chars "0") (upd 98 (chars "11") (repeat [] 128))) (repeat NUL 5)
  = Undefined.
Proof.
  apply (compressInput_overflows (chars "abab") 4
           (upd 97 (chars "0") (upd 98 (chars "11") (repeat [] 128))) (repeat NUL 5)).
  - vm_compute. split; discriminate.
  - repeat constructor; vm_compute; discriminate.
  - vm_compute. lia.
Defined.

(** ** Whole runs of [HuffmanCodes] of [huffman.c] and [huffman_t2_clock.c] *)

(** The loop of [printCodes] from the root of a tree less than
    [MAX_TREE_HT] high whose leaves hold symbols of the table. *)
Lemma traverse_from_rows (MAX_TREE_HT : Z) (root : MinHeapNode) (visited : list Z)
  (codes : list cstring) :
  Z.of_nat (height root) < MAX_TREE_HT ->
  Forall (fun entry => 0 <= fst entry < Z.of_nat (length codes)) (leaves root) ->
  Z.of_nat (length visited) = MAX_TREE_HT ->
  exists rows visited',
    traverse_from MAX_TREE_HT root visited codes
    = Returns (store_rows rows codes, visited')
    /\ Forall (fun row => In row (paths root [])) rows
    /\ (length rows <= unset (height root) visited + 1)%nat
    /\ length visited' = length visited
    /\ (forall k, nth k visited 0 <> 0 -> nth k visited' 0 <> 0).
Proof.
  intros Hh Hin Hvis.
  pose proof (traverse_from_fuel MAX_TREE_HT root visited codes) as Hfuel.
  pose proof (traverse_rows MAX_TREE_HT root Hh (length codes) Hin
                (2 * nodes_of root + 1) [] [] visited (Some root) codes) as H.
  unfold traverse_from in *.
  assert (Hstart : on_path root [] []).
  { split; [reflexivity|]. intros i Hi. cbn in Hi. lia. }
  specialize (H Hstart eq_refl Hvis eq_refl).
  destruct (traverse _ _ _ _ _ _ _) as [[codes' visited']| |];
    [|contradiction|contradiction].
  destruct H as (rows & -> & Hrows & Hlen & Hv).
  exists rows, visited'. split; [reflexivity|]. split; [exact Hrows|].
  cbn [filter length] in Hlen. split; [lia|exact Hv].
Qed.

Lemma upd_outside {A : Type} (a : list A) :
  forall (i : nat) (x : A), (length a <= i)%nat -> upd i x a = a.
Proof.
  induction a as [|y a IH]; intros i x H; [destruct i; reflexivity|].
  destruct i as [|i]; [cbn in H; lia|]. cbn [upd]. rewrite IH by (cbn in H; lia).
  reflexivity.
Qed.

(** The row of a symbol after rows were stored is the row it had, or one
    of the rows stored for it. *)
Lemma store_rows_code_cases (rows : list (char * cstring)) :
  forall (codes : list cstring) (c : char),
    0 <= c ->
    Forall (fun row => 0 <= fst row) rows ->
    code_of (store_rows rows codes) c = code_of codes c
    \/ In (c, code_of (store_rows rows codes) c) rows.
Proof.
  induction rows as [|[c' code'] rows IH]; intros codes c Hc Hpos; [left; reflexivity|].
  inversion Hpos as [|? ? Hc' Hpos']; subst. cbn [fst] in Hc'.
  change (store_rows ((c', code') :: rows) codes)
    with (store_rows rows (upd (Z.to_nat c') code' codes)).
  destruct (IH (upd (Z.to_nat c') code' codes) c Hc Hpos') as [E|Hin];
    [|right; right; exact Hin].
  rewrite E. unfold code_of.
  destruct (Nat.eq_dec (Z.to_nat c') (Z.to_nat c)) as [Heq|Hne].
  - assert (c' = c) by lia. subst c'.
    destruct (Nat.lt_ge_cases (Z.to_nat c) (length codes)) as [Hlt|Hge].
    + right. left. rewrite nth_upd_eq by exact Hlt. reflexivity.
    + left. rewrite upd_outside by exact Hge. reflexivity.
  - left. apply nth_upd_neq. exact Hne.
Qed.

(** The rows of a tree are made of the characters ['0'] and ['1']. *)
Lemma paths_chars (root : MinHeapNode) :
  forall code,
    Forall (fun ch => ch <> NUL) code ->
    Forall (fun row => Forall (fun ch => ch <> NUL) (snd row)) (paths root code).
Proof.
  induction root as [d f l Hl r Hr]. intros code Hcode.
  cbn [paths left right].
  assert (H0 : Forall (fun ch => ch <> NUL) (code ++ [chr0]))
    by (apply Forall_app; split; [exact Hcode|repeat constructor; discriminate]).
  assert (H1 : Forall (fun ch => ch <> NUL) (code ++ [chr1]))
    by (apply Forall_app; split; [exact Hcode|repeat constructor; discriminate]).
  destruct l as [l|]; destruct r as [r|];
    try (inversion Hl as [? Hl'|]; subst); try (inversion Hr as [? Hr'|]; subst).
  - apply Forall_app. split; [apply Hl'|apply Hr']; assumption.
  - rewrite app_nil_r. apply Hl'. exact H0.
  - apply Hr'. exact H1.
  - constructor; [exact Hcode|constructor].
Qed.

(** The code table the loop of [printCodes] makes of an empty table: the
    row of a symbol is empty or the path to the leaf of the symbol. *)
Lemma rows_of_empty_table (root : MinHeapNode) (rows : list (char * cstring)) (n : nat)
  (c : char) :
  Forall (fun entry => 0 <= fst entry) (leaves root) ->
  Forall (fun row => In row (paths root [])) rows ->
  0 <= c ->
  code_of (store_rows rows (repeat [] n)) c = []
  \/ In (c, code_of (store_rows rows (repeat [] n)) c) (paths root []).
Proof.
  intros Hpos Hrows Hc.
  destruct (store_rows_code_cases rows (repeat [] n) c Hc) as [E|Hin].
  - apply Forall_forall. intros row Hrow. rewrite Forall_forall in Hrows, Hpos.
    assert (Hin : In (fst row) (map fst (leaves root))).
    { rewrite <- (paths_symbols root []). apply in_map. apply Hrows. exact Hrow. }
    apply in_map_iff in Hin. destruct Hin as (entry & <- & He). apply Hpos. exact He.
  - left. rewrite E. unfold code_of. apply nth_repeat.
  - right. rewrite Forall_forall in Hrows. apply Hrows. exact Hin.
Qed.

Lemma append_rows (codes : list cstring) (symbols : list char) :
  forall encoded : cstring,
    Forall (fun c => 0 <= c < Z.of_nat (length codes)) symbols ->
    fold_symbols (fun c encoded => row <- read codes c ;; Returns (encoded ++ row))
      symbols encoded
    = Returns (encoded ++ concat (map (code_of codes) symbols)).
Proof.
  induction symbols as [|c symbols IH]; intros encoded Hin.
  - cbn. rewrite app_nil_r. reflexivity.
  - inversion Hin as [|? ? Hc Hin']; subst. cbn [fold_symbols map concat].
    rewrite read_code_of by exact Hc. cbn [bind]. rewrite IH by exact Hin'.
    rewrite app_assoc. reflexivity.
Qed.

(** X15: a whole run of [HuffmanCodes] of [huffman.c] on the first [size]
    characters [pre] of an array. The characters are indices of the table
    (0 to 255), there is one at least and [INT_MAX] at most, [n] of them
    are distinct with [n <= MAX_TREE_HT], and [nodes] has [2 n - 1] free
    cells. Then the call returns and has taken [2 n - 1] cells of [nodes];
    the line it prints last is the rows of [codes] of the characters of
    [pre] in order; a row has [n - 1] characters at most; and two distinct
    symbols whose rows are not empty have rows that are not prefixes of
    each other. The row of a symbol may be empty (C2). *)
Theorem Huffman_HuffmanCodes_prints (nodeIndex : Z) (pre post : list char) :
  pre <> [] ->
  Forall (fun c => 0 <= c < Huffman.MAX_CHAR) pre ->
  Z.of_nat (length pre) <= INT_MAX ->
  0 <= nodeIndex ->
  nodeIndex + 2 * Z.of_nat (length (nodup Z.eq_dec pre)) - 1 <= Huffman.MAX_CHAR ->
  Z.of_nat (length (nodup Z.eq_dec pre)) <= Huffman.MAX_TREE_HT ->
  exists r,
    Huffman.HuffmanCodes nodeIndex (pre ++ post) (Z.of_nat (length pre))
    = Returns (r, nodeIndex + 2 * Z.of_nat (length (nodup Z.eq_dec pre)) - 1)
    /\ Huffman.encoded r = concat (map (code_of (Huffman.codes r)) pre)
    /\ (forall c, In c pre ->
                  (length (code_of (Huffman.codes r) c)
                   <= length (nodup Z.eq_dec pre) - 1)%nat)
    /\ (forall c1 c2, In c1 pre -> In c2 pre -> c1 <> c2 ->
                      code_of (Huffman.codes r) c1 <> [] ->
                      code_of (Huffman.codes r) c2 <> [] ->
                      is_prefix (code_of (Huffman.codes r) c1)
                        (code_of (Huffman.codes r) c2) = false).
Proof.
  intros Hne Hsym Hsize Hidx Hroom Hht.
  unfold Huffman.HuffmanCodes, Huffman.calculateFrequency.
  rewrite (for_range_read (fun c freq => increment freq c))
    by (rewrite length_app; lia).
  rewrite Nat2Z.id, firstn_app, firstn_all, Nat.sub_diag, firstn_O, app_nil_r.
  destruct (fold_increment_counts pre (repeat 0 (Z.to_nat Huffman.MAX_CHAR)))
    as (table & Ecount & Ltable & Ncount).
  { rewrite repeat_length. eapply Forall_impl; [|exact Hsym].
    cbn. unfold Huffman.MAX_CHAR. lia. }
  { apply Forall_forall. intros v Hv. apply repeat_spec in Hv. lia. }
  rewrite Ecount. cbn [bind]. rewrite repeat_length in Ltable.
  assert (Ncount' : forall i, nth i table 0 = Z.of_nat (count_occ Z.eq_dec pre (Z.of_nat i))).
  { intros i. rewrite Ncount, nth_repeat. lia. }
  pose proof (fold_increment_total _ _ _ Ecount) as Htotal.
  rewrite total_repeat_0 in Htotal.
  replace (collectUnique Huffman.MAX_CHAR table)
    with (collectUnique (Z.of_nat (length table)) table)
    by (rewrite Ltable; reflexivity).
  rewrite collectUnique_spec. cbn [bind].
  destruct (table_of_counts pre table) as (Hnd & Hrange & Hpos & Hiff & Hn); [|exact Ncount'|].
  { rewrite Ltable. eapply Forall_impl; [|exact Hsym]. cbn. unfold Huffman.MAX_CHAR. lia. }
  set (entries := positive_entries table 0) in *.
  set (n := length (nodup Z.eq_dec pre)) in *.
  rewrite length_map, Hn.
  assert (Hn1 : (1 <= n)%nat).
  { unfold n. destruct pre as [|c pre']; [contradiction|].
    assert (Hc : In c (nodup Z.eq_dec (c :: pre'))) by (apply nodup_In; left; reflexivity).
    destruct (nodup Z.eq_dec (c :: pre')); [contradiction|cbn; lia]. }
  destruct (buildHuffmanTree_with_spec Huffman.MAX_CHAR Huffman.less _ nodeIndex
              (map fst entries) (map snd entries) continue_not_isSizeOne)
    as (root & E & Hadd & Hleaves).
  { rewrite length_map. lia. }
  { rewrite !length_map. reflexivity. }
  { exact Hpos. }
  { rewrite combine_fst_snd. unfold entries. rewrite weight_positive_entries.
    - unfold UINT_MODULUS, INT_MAX in *. lia.
    - apply Forall_forall. intros f Hf. apply (In_nth _ _ 0) in Hf.
      destruct Hf as (i & _ & <-). rewrite Ncount'. lia. }
  { exact Hidx. }
  { rewrite length_map, Hn. exact Hroom. }
  rewrite length_map, Hn in E. unfold Huffman.buildHuffmanTree. rewrite E. cbn [bind].
  rewrite combine_fst_snd in Hleaves.
  pose proof (height_lt_leaves root Hadd) as Hh.
  rewrite (Permutation_length Hleaves), Hn in Hh.
  assert (Hin : Forall (fun entry => 0 <= fst entry < Z.of_nat (length
                          (repeat (@nil char) (Z.to_nat Huffman.MAX_CHAR)))) (leaves root)).
  { rewrite repeat_length. apply Forall_forall. intros entry He.
    assert (Hf : In (fst entry) (map fst entries)).
    { apply in_map. eapply Permutation_in; [exact Hleaves|exact He]. }
    rewrite Forall_forall in Hrange. specialize (Hrange _ Hf). rewrite Ltable in Hrange.
    exact Hrange. }
  destruct (traverse_from_rows Huffman.MAX_TREE_HT root
              (repeat 0 (Z.to_nat Huffman.MAX_TREE_HT))
              (repeat [] (Z.to_nat Huffman.MAX_CHAR)))
    as (rows & visited' & Etrav & Hrows & _ & _ & _).
  { lia. }
  { exact Hin. }
  { rewrite repeat_length. reflexivity. }
  unfold Huffman.printCodes. rewrite Etrav. cbn [bind].
  set (codes := store_rows rows (repeat [] (Z.to_nat Huffman.MAX_CHAR))).
  assert (Lcodes : length codes = Z.to_nat Huffman.MAX_CHAR)
    by (unfold codes; rewrite store_rows_length, repeat_length; reflexivity).
  (* the printed line *)
  rewrite (for_range_read (fun c encoded => row <- read codes c ;; Returns (encoded ++ row)))
    by (rewrite length_app; lia).
  rewrite Nat2Z.id, firstn_app, firstn_all, Nat.sub_diag, firstn_O, app_nil_r.
  rewrite append_rows
    by (rewrite Lcodes; eapply Forall_impl; [|exact Hsym]; cbn;
        unfold Huffman.MAX_CHAR; lia).
  cbn [bind app]. eexists. split; [reflexivity|].
  cbn [Huffman.encoded Huffman.codes]. split; [reflexivity|].
  assert (Hcases : forall c, In c pre ->
                     code_of codes c = [] \/ In (c, code_of codes c) (paths root [])).
  { intros c Hc. apply rows_of_empty_table; [|exact Hrows|].
    - eapply Forall_impl; [|exact Hin]. cbn. lia.
    - rewrite Forall_forall in Hsym. specialize (Hsym c Hc). lia. }
  split.
  - intros c Hc. destruct (Hcases c Hc) as [E0|Hp]; [rewrite E0; cbn; lia|].
    pose proof (paths_length root []) as H2. rewrite Forall_forall in H2.
    specialize (H2 _ Hp). cbn [snd length] in H2. lia.
  - intros c1 c2 H1 H2 Hdiff Hne1 Hne2.
    destruct (Hcases c1 H1) as [E1|Hp1]; [contradiction|].
    destruct (Hcases c2 H2) as [E2|Hp2]; [contradiction|].
    destruct (ForallOrdPairs_In (paths_prefix_free root []) _ _ Hp1 Hp2)
      as [Heq|[[H _]|[_ H]]]; [congruence|exact H|exact H].
Qed.

Lemma Huffman_HuffmanCodes_prints_witness :
  exists r,
    Huffman.HuffmanCodes 0 (chars "abracadabra") 11 = Returns (r, 9)
    /\ Huffman.encoded r = concat (map (code_of (Huffman.codes r)) (chars "abracadabra")).
Proof.
  destruct (Huffman_HuffmanCodes_prints 0 (chars "abracadabra") [])
    as (r & E & C & _).
  - discriminate.
  - repeat constructor; vm_compute; try discriminate; reflexivity.
  - vm_compute. discriminate.
  - lia.
  - vm_compute. discriminate.
  - vm_compute. discriminate.
  - exists r. split; [exact E|exact C].
Defined.

Lemma skipn_repeat {A : Type} (x : A) (n : nat) :
  forall m, skipn m (repeat x n) = repeat x (n - m).
Proof.
  induction n as [|n IH]; intros [|m]; try reflexivity. cbn [repeat skipn Nat.sub]. apply IH.
Qed.

Lemma T2_compressInput_rows (input : list char) (size : Z) (codes : list cstring)
  (compressed : list char) :
  0 <= size <= Z.of_nat (length input) ->
  Forall (fun c => 0 <= c < Z.of_nat (length codes)) (firstn (Z.to_nat size) input) ->
  (length (concat (map (code_of codes) (firstn (Z.to_nat size) input)))
   <= length compressed)%nat ->
  T2Clock.compressInput input size codes compressed
  = Returns (concat (map (code_of codes) (firstn (Z.to_nat size) input))
             ++ skipn (length (concat (map (code_of codes) (firstn (Z.to_nat size) input))))
                  compressed).
Proof.
  intros Hsize Hin Hcap. unfold T2Clock.compressInput, for_range.
  rewrite (for_loop_ext _
             (fun i s => c <- read input i ;;
                         (fun c '(compressed, bitIndex) =>
                            row <- read codes c ;;
                            T2Clock.copy_row row compressed bitIndex) c s))
    by (intros i [? ?]; reflexivity).
  fold (for_range 0 size
          (fun i s => c <- read input i ;;
                      (fun c '(compressed, bitIndex) =>
                         row <- read codes c ;;
                         T2Clock.copy_row row compressed bitIndex) c s)
          (compressed, 0)).
  rewrite for_range_read by exact Hsize.
  rewrite (pack_rows codes _ compressed 0) by (assumption || (cbn [Nat.add]; lia)).
  reflexivity.
Qed.

(** The loop that appends the row of the end marker: every character goes
    where [strlen] finds the end of the string. *)
Lemma append_eof_spec (row : cstring) :
  forall (s : cstring) (m : nat),
    Forall (fun c => c <> NUL) s ->
    Forall (fun c => c <> NUL) row ->
    (length row < m)%nat ->
    T2Clock.append_eof row (s ++ repeat NUL m)
    = Returns (s ++ row ++ repeat NUL (m - length row)).
Proof.
  induction row as [|c row IH]; intros s m Hs Hrow Hm.
  - cbn [T2Clock.append_eof length app]. rewrite Nat.sub_0_r. reflexivity.
  - cbn [T2Clock.append_eof length] in *.
    destruct m as [|m]; [lia|]. cbn [repeat].
    rewrite strlen_string by exact Hs. cbn [bind].
    rewrite write_in_bounds by (rewrite length_app; cbn [length]; lia). cbn [bind].
    rewrite Nat2Z.id.
    assert (E : upd (length s) c (s ++ NUL :: repeat NUL m) = (s ++ [c]) ++ repeat NUL m).
    { clear. induction s as [|x s IHs]; [reflexivity|].
      cbn [length upd app]. rewrite IHs. reflexivity. }
    rewrite E. inversion Hrow as [|? ? Hc Hrow']; subst.
    rewrite IH; [|apply Forall_app; split; [exact Hs|repeat constructor; exact Hc]
                 |exact Hrow'|lia].
    rewrite <- app_assoc. cbn [app Nat.sub]. reflexivity.
Qed.

(** X16: a first call of [HuffmanCodes] of [huffman_t2_clock.c] on the
    first [size] characters [pre] of an array. The characters are from 1
    to 127; with the end marker there are [n] distinct symbols, [nodes]
    has room for [2 n - 1] nodes, and [compressed] has room for
    [(size + 1) * (n - 1)] bits and the padding. Then the call returns and
    has taken [2 n - 1] cells of [nodes]; the string it leaves in
    [compressed] is the rows of [codes] of the characters of [pre] in
    order, followed by the row of the end marker; and the bytes written are
    this string with ['0'] characters in front up to a multiple of 8, cut
    into bytes. The row of a symbol may be empty (C2). *)
Theorem T2Clock_HuffmanCodes_first_call (pre post : list char) :
  Forall (fun c => 0 < c < T2Clock.MAX_CHAR) pre ->
  2 * Z.of_nat (length (nodup Z.eq_dec (T2Clock.EOF_CHAR :: pre))) - 1 <= T2Clock.MAX_CHAR ->
  (Z.of_nat (length pre) + 1)
  * (Z.of_nat (length (nodup Z.eq_dec (T2Clock.EOF_CHAR :: pre))) - 1) + 8
  <= T2Clock.MAX_TREE_HT * T2Clock.MAX_CHAR ->
  exists output g bits,
    T2Clock.HuffmanCodes T2Clock.initial (pre ++ post) (Z.of_nat (length pre))
    = Returns (output, g)
    /\ T2Clock.nodeIndex g
       = 2 * Z.of_nat (length (nodup Z.eq_dec (T2Clock.EOF_CHAR :: pre))) - 1
    /\ bits = concat (map (code_of (T2Clock.codes g)) pre)
              ++ code_of (T2Clock.codes g) T2Clock.EOF_CHAR
    /\ T2Clock.string_in (T2Clock.compressed g) = Returns bits
    /\ output
       = bytes_of (repeat chr0 (Z.to_nat (padding_of (Z.of_nat (length bits)))) ++ bits).
Proof.
  intros Hsym Hroom Hbits.
  set (n := length (nodup Z.eq_dec (T2Clock.EOF_CHAR :: pre))) in *.
  assert (Hnot0 : ~ In T2Clock.EOF_CHAR pre).
  { intros H0. rewrite Forall_forall in Hsym. specialize (Hsym _ H0).
    unfold T2Clock.EOF_CHAR in Hsym. lia. }
  assert (Hn1 : (1 <= n)%nat).
  { unfold n.
    assert (Hc : In T2Clock.EOF_CHAR (nodup Z.eq_dec (T2Clock.EOF_CHAR :: pre)))
      by (apply nodup_In; left; reflexivity).
    destruct (nodup Z.eq_dec (T2Clock.EOF_CHAR :: pre)); [contradiction|cbn; lia]. }
  assert (Hn2 : pre <> [] -> (2 <= n)%nat).
  { intros Hne. unfold n. destruct pre as [|c pre']; [contradiction|].
    assert (Hnd := NoDup_nodup Z.eq_dec (T2Clock.EOF_CHAR :: c :: pre')).
    assert (H0 : In T2Clock.EOF_CHAR (nodup Z.eq_dec (T2Clock.EOF_CHAR :: c :: pre')))
      by (apply nodup_In; left; reflexivity).
    assert (H1 : In c (nodup Z.eq_dec (T2Clock.EOF_CHAR :: c :: pre')))
      by (apply nodup_In; right; left; reflexivity).
    assert (Hdiff : T2Clock.EOF_CHAR <> c)
      by (intros <-; apply Hnot0; left; reflexivity).
    destruct (nodup Z.eq_dec (T2Clock.EOF_CHAR :: c :: pre')) as [|x [|y l]];
      [contradiction| |cbn; lia].
    destruct H0 as [H0|[]]. destruct H1 as [H1|[]]. congruence. }
  assert (Hsize : Z.of_nat (length pre) < T2Clock.MAX_TREE_HT * T2Clock.MAX_CHAR).
  { destruct pre as [|c pre']; [vm_compute; reflexivity|].
    specialize (Hn2 ltac:(discriminate)). nia. }
  unfold T2Clock.HuffmanCodes, T2Clock.calculateFrequencyInChunks.
  (* the counts *)
  rewrite (chunks_loop_whole (pre ++ post) (Z.of_nat (length pre)) 1000);
    [|unfold INT_MAX; lia
     |unfold T2Clock.MAX_TREE_HT, T2Clock.MAX_CHAR in Hsize; lia|left; reflexivity|lia].
  rewrite (for_range_read (fun c freq => increment freq c))
    by (rewrite length_app; lia).
  rewrite Nat2Z.id, firstn_app, firstn_all, Nat.sub_diag, firstn_O, app_nil_r.
  destruct (fold_increment_counts pre (repeat 0 (Z.to_nat T2Clock.MAX_CHAR)))
    as (table & Ecount & Ltable & Ncount).
  { rewrite repeat_length. eapply Forall_impl; [|exact Hsym].
    cbn. unfold T2Clock.MAX_CHAR. lia. }
  { apply Forall_forall. intros v Hv. apply repeat_spec in Hv.
    unfold T2Clock.MAX_TREE_HT, T2Clock.MAX_CHAR, INT_MAX in *. lia. }
  rewrite Ecount. cbn [bind]. rewrite repeat_length in Ltable.
  pose proof (fold_increment_total _ _ _ Ecount) as Htotal.
  rewrite total_repeat_0 in Htotal.
  (* the end marker *)
  rewrite write_in_bounds by (rewrite Ltable; vm_compute; split; [discriminate|reflexivity]).
  cbn [bind]. change (Z.to_nat T2Clock.EOF_CHAR) with O.
  set (table' := upd 0 1 table).
  assert (Ltable' : length table' = Z.to_nat T2Clock.MAX_CHAR)
    by (unfold table'; rewrite upd_length; exact Ltable).
  assert (Ncount' : forall i, nth i table' 0
                              = Z.of_nat (count_occ Z.eq_dec (T2Clock.EOF_CHAR :: pre)
                                            (Z.of_nat i))).
  { intros i. unfold table'. destruct i as [|i].
    - rewrite nth_upd_eq by (rewrite Ltable; vm_compute; lia).
      cbn [count_occ]. change (Z.of_nat 0) with T2Clock.EOF_CHAR.
      destruct (Z.eq_dec T2Clock.EOF_CHAR T2Clock.EOF_CHAR); [|contradiction].
      rewrite (proj1 (count_occ_not_In Z.eq_dec pre T2Clock.EOF_CHAR) Hnot0). reflexivity.
    - rewrite nth_upd_neq by lia. rewrite Ncount, nth_repeat. cbn [count_occ].
      destruct (Z.eq_dec T2Clock.EOF_CHAR (Z.of_nat (S i))) as [E|_];
        [unfold T2Clock.EOF_CHAR in E; lia|]. lia. }
  assert (Htotal' : total table' = Z.of_nat (length pre) + 1).
  { unfold table'. rewrite total_upd by (rewrite Ltable; vm_compute; lia).
    rewrite Ncount, nth_repeat.
    change (Z.of_nat 0) with T2Clock.EOF_CHAR.
    rewrite (proj1 (count_occ_not_In Z.eq_dec pre T2Clock.EOF_CHAR) Hnot0). lia. }
  (* the table of symbols *)
  replace (collectUnique T2Clock.MAX_CHAR table')
    with (collectUnique (Z.of_nat (length table')) table')
    by (rewrite Ltable'; reflexivity).
  rewrite collectUnique_spec. cbn [bind].
  destruct (table_of_counts (T2Clock.EOF_CHAR :: pre) table')
    as (Hnd & Hrange & Hpos & Hiff & Hn); [|exact Ncount'|].
  { rewrite Ltable'. constructor; [vm_compute; split; [discriminate|reflexivity]|].
    eapply Forall_impl; [|exact Hsym]. cbn. unfold T2Clock.MAX_CHAR. lia. }
  set (entries := positive_entries table' 0) in *. fold n in Hn.
  rewrite length_map, Hn.
  (* the tree *)
  destruct (buildHuffmanTree_with_spec T2Clock.MAX_CHAR T2Clock.less _ 0
              (map fst entries) (map snd entries) continue_size_gt_1)
    as (root & E & Hadd & Hleaves).
  { rewrite length_map. lia. }
  { rewrite !length_map. reflexivity. }
  { exact Hpos. }
  { rewrite combine_fst_snd. unfold entries. rewrite weight_positive_entries.
    - unfold UINT_MODULUS, T2Clock.MAX_TREE_HT, T2Clock.MAX_CHAR in *. lia.
    - apply Forall_forall. intros f Hf. apply (In_nth _ _ 0) in Hf.
      destruct Hf as (i & _ & <-). rewrite Ncount'. lia. }
  { lia. }
  { rewrite length_map, Hn. lia. }
  rewrite length_map, Hn in E. cbn [T2Clock.nodeIndex T2Clock.initial].
  unfold T2Clock.buildHuffmanTree. rewrite E. cbn [bind].
  rewrite combine_fst_snd in Hleaves.
  pose proof (height_lt_leaves root Hadd) as Hh.
  rewrite (Permutation_length Hleaves), Hn in Hh.
  (* the codes *)
  assert (Hin : Forall (fun entry => 0 <= fst entry < Z.of_nat (length
                          (repeat (@nil char) (Z.to_nat T2Clock.MAX_CHAR)))) (leaves root)).
  { rewrite repeat_length. apply Forall_forall. intros entry He.
    assert (Hf : In (fst entry) (map fst entries)).
    { apply in_map. eapply Permutation_in; [exact Hleaves|exact He]. }
    rewrite Forall_forall in Hrange. specialize (Hrange _ Hf). rewrite Ltable' in Hrange.
    exact Hrange. }
  destruct (traverse_from_rows T2Clock.MAX_TREE_HT root
              (repeat 0 (Z.to_nat T2Clock.MAX_TREE_HT))
              (repeat [] (Z.to_nat T2Clock.MAX_CHAR)))
    as (rows & visited' & Etrav & Hrows & _ & _ & _).
  { unfold T2Clock.MAX_TREE_HT, T2Clock.MAX_CHAR in *. lia. }
  { exact Hin. }
  { rewrite repeat_length. reflexivity. }
  unfold T2Clock.generateCodes. cbn [T2Clock.codes T2Clock.visited T2Clock.initial].
  rewrite Etrav. cbn [bind].
  set (codes := store_rows rows (repeat [] (Z.to_nat T2Clock.MAX_CHAR))).
  assert (Lcodes : length codes = Z.to_nat T2Clock.MAX_CHAR)
    by (unfold codes; rewrite store_rows_length, repeat_length; reflexivity).
  assert (Hcases : forall c, 0 <= c ->
                     code_of codes c = [] \/ In (c, code_of codes c) (paths root [])).
  { intros c Hc. apply rows_of_empty_table; [|exact Hrows|exact Hc].
    eapply Forall_impl; [|exact Hin]. cbn. lia. }
  assert (Hcode : forall c, 0 <= c ->
                    (length (code_of codes c) <= n - 1)%nat
                    /\ Forall (fun ch => ch <> NUL) (code_of codes c)).
  { intros c Hc. destruct (Hcases c Hc) as [E0|Hp].
    - rewrite E0. split; [cbn; lia|constructor].
    - pose proof (paths_length root []) as H2. rewrite Forall_forall in H2.
      specialize (H2 _ Hp). cbn [snd length] in H2.
      pose proof (paths_chars root [] ltac:(constructor)) as H3.
      rewrite Forall_forall in H3. specialize (H3 _ Hp). cbn [snd] in H3.
      split; [lia|exact H3]. }
  (* the bit string *)
  set (body := concat (map (code_of codes) pre)).
  assert (Hbody : (length body <= length pre * (n - 1))%nat
                  /\ Forall (fun ch => ch <> NUL) body).
  { unfold body. split.
    - apply concat_codes_length. apply Forall_forall. intros c Hc.
      rewrite Forall_forall in Hsym. specialize (Hsym c Hc). apply Hcode. lia.
    - apply Forall_concat. apply Forall_forall. intros row Hrow. apply in_map_iff in Hrow.
      destruct Hrow as (c & <- & Hc). rewrite Forall_forall in Hsym.
      specialize (Hsym c Hc). apply Hcode. lia. }
  destruct Hbody as [Lbody Nbody].
  destruct (Hcode T2Clock.EOF_CHAR ltac:(unfold T2Clock.EOF_CHAR; lia)) as [Leof Neof].
  set (eof := code_of codes T2Clock.EOF_CHAR) in *.
  assert (Hfit : Z.of_nat (length body) + Z.of_nat (length eof) + 8
                 <= T2Clock.MAX_TREE_HT * T2Clock.MAX_CHAR) by nia.
  rewrite T2_compressInput_rows.
  2:{ rewrite length_app. lia. }
  2:{ rewrite Nat2Z.id, firstn_app, firstn_all, Nat.sub_diag, firstn_O, app_nil_r, Lcodes.
      eapply Forall_impl; [|exact Hsym]. cbn. unfold T2Clock.MAX_CHAR. lia. }
  2:{ rewrite Nat2Z.id, firstn_app, firstn_all, Nat.sub_diag, firstn_O, app_nil_r.
      cbn [T2Clock.compressed T2Clock.initial]. rewrite repeat_length. fold body. lia. }
  rewrite Nat2Z.id, firstn_app, firstn_all, Nat.sub_diag, firstn_O, app_nil_r.
  fold body. cbn [bind T2Clock.compressed T2Clock.initial].
  rewrite skipn_repeat.
  rewrite read_code_of
    by (rewrite Lcodes; vm_compute; split; [discriminate|reflexivity]).
  fold eof. cbn [bind].
  rewrite append_eof_spec; [|exact Nbody|exact Neof|lia]. cbn [bind].
  (* the bytes *)
  unfold T2Clock.convertToAscii.
  assert (Erest : exists k, (Z.to_nat (T2Clock.MAX_TREE_HT * T2Clock.MAX_CHAR)
                             - length body - length eof)%nat = S k).
  { exists (Z.to_nat (T2Clock.MAX_TREE_HT * T2Clock.MAX_CHAR)
            - length body - length eof - 1)%nat. lia. }
  destruct Erest as [k Ek]. rewrite Ek. cbn [repeat].
  rewrite app_assoc, string_in_string
    by (apply Forall_app; split; assumption).
  cbn [bind].
  pose proof (padding_of_bounds (Z.of_nat (length (body ++ eof)))) as [Hb _].
  rewrite convertToAscii_with_bytes by (rewrite length_app in *; lia). cbn [bind].
  eexists. eexists. exists (body ++ eof). split; [reflexivity|].
  cbn [T2Clock.nodeIndex T2Clock.codes T2Clock.compressed].
  split; [lia|]. split; [reflexivity|]. split; [|reflexivity].
  rewrite <- app_assoc.
  change (body ++ eof ++ NUL :: repeat NUL k) with (body ++ eof ++ NUL :: repeat NUL k).
  rewrite app_assoc. apply string_in_string. apply Forall_app. split; assumption.
Qed.

Lemma T2Clock_HuffmanCodes_first_call_witness :
  exists output g bits,
    T2Clock.HuffmanCodes T2Clock.initial (chars "abracadabra") 11 = Returns (output, g)
    /\ T2Clock.nodeIndex g = 11
    /\ bits = concat (map (code_of (T2Clock.codes g)) (chars "abracadabra"))
              ++ code_of (T2Clock.codes g) T2Clock.EOF_CHAR
    /\ T2Clock.string_in (T2Clock.compressed g) = Returns bits
    /\ output
       = bytes_of (repeat chr0 (Z.to_nat (padding_of (Z.of_nat (length bits)))) ++ bits).
Proof.
  apply (T2Clock_HuffmanCodes_first_call (chars "abracadabra") []).
  - repeat constructor; vm_compute; reflexivity.
  - vm_compute. discriminate.
  - vm_compute. discriminate.
Defined.

(** ** The tables printed *)

(** The characters of a list in the order of their first occurrence. *)
Lemma first_occurrences_last (p : list char) (c : char) :
  rev (nodup Z.eq_dec (rev (p ++ [c])))
  = if in_dec Z.eq_dec c p then rev (nodup Z.eq_dec (rev p))
    else rev (nodup Z.eq_dec (rev p)) ++ [c].
Proof.
  rewrite rev_app_distr. cbn [rev app nodup].
  destruct (in_dec Z.eq_dec c (rev p)) as [Hin|Hout];
    destruct (in_dec Z.eq_dec c p) as [Hin'|Hout']; try reflexivity.
  - exfalso. apply Hout'. apply in_rev. exact Hin.
  - exfalso. apply Hout. apply in_rev in Hin'. exact Hin'.
Qed.

Lemma print_table_loop (codes : list cstring) (freq : list Z) (symbols : list char) :
  forall (p : list char) (printed : list Z),
    Forall (fun c => 0 <= c < Z.of_nat (length printed)) symbols ->
    length codes = length printed ->
    length freq = length printed ->
    (forall c, 0 <= c < Z.of_nat (length printed) ->
               (nth (Z.to_nat c) printed 0 = 0 <-> ~ In c p)) ->
    exists printed',
      fold_symbols
        (fun c '(printed, lines) =>
           p <- read printed c ;;
           if p =? 0 then
             row <- read codes c ;;
             f <- read freq c ;;
             printed <- write printed c 1 ;;
             Returns (printed, lines ++ [(c, row, f)])
           else Returns (printed, lines))
        symbols
        (printed, map (fun c => (c, code_of codes c, nth (Z.to_nat c) freq 0))
                    (rev (nodup Z.eq_dec (rev p))))
      = Returns (printed',
                 map (fun c => (c, code_of codes c, nth (Z.to_nat c) freq 0))
                   (rev (nodup Z.eq_dec (rev (p ++ symbols))))).
Proof.
  induction symbols as [|c symbols IH]; intros p printed Hin Lcodes Lfreq Hprinted.
  - exists printed. cbn [fold_symbols]. rewrite app_nil_r. reflexivity.
  - inversion Hin as [|? ? Hc Hin']; subst. cbn [fold_symbols].
    rewrite (read_in_bounds printed c 0) by exact Hc. cbn [bind].
    replace (p ++ c :: symbols) with ((p ++ [c]) ++ symbols)
      by (rewrite <- app_assoc; reflexivity).
    pose proof (first_occurrences_last p c) as Efirst.
    destruct (nth (Z.to_nat c) printed 0 =? 0) eqn:E0.
    + apply Z.eqb_eq in E0. pose proof (proj1 (Hprinted c Hc) E0) as Hout.
      destruct (in_dec Z.eq_dec c p) as [Hin0|_]; [contradiction|].
      rewrite read_code_of by (rewrite Lcodes; exact Hc). cbn [bind].
      rewrite (read_in_bounds freq c 0) by (rewrite Lfreq; exact Hc). cbn [bind].
      rewrite write_in_bounds by exact Hc. cbn [bind].
      destruct (IH (p ++ [c]) (upd (Z.to_nat c) 1 printed)) as (printed' & E).
      * rewrite upd_length. exact Hin'.
      * rewrite upd_length. exact Lcodes.
      * rewrite upd_length. exact Lfreq.
      * intros d Hd. rewrite upd_length in Hd. rewrite in_app_iff. cbn [In].
        destruct (Z.eq_dec d c) as [->|Hne].
        -- rewrite nth_upd_eq by lia. split; [discriminate|]. intros H. exfalso. apply H.
           right. left. reflexivity.
        -- rewrite nth_upd_neq by lia. rewrite (Hprinted d Hd). intuition congruence.
      * exists printed'. rewrite Efirst, map_app in E. cbn [map] in E. exact E.
    + apply Z.eqb_neq in E0.
      destruct (in_dec Z.eq_dec c p) as [Hin0|Hout].
      2:{ exfalso. apply E0. apply (Hprinted c Hc). exact Hout. }
      destruct (IH (p ++ [c]) printed) as (printed' & E); try assumption.
      * intros d Hd. rewrite in_app_iff. cbn [In]. rewrite (Hprinted d Hd).
        split; [|tauto]. intros H [H1|[H1|[]]]; [tauto|]. subst d. tauto.
      * exists printed'. rewrite Efirst in E. exact E.
Qed.

Lemma for_range_ext {St : Type} (body body' : Z -> St -> outcome St) (lo hi : Z) (s : St) :
  (forall i s, body i s = body' i s) ->
  for_range lo hi body s = for_range lo hi body' s.
Proof. intros H. unfold for_range. apply for_loop_ext. exact H. Qed.

(** X17: [printHuffmanCodesAndFrequencies] of [huffman.c], on [size]
    characters [pre] that are indices of the tables (0 to 255): it prints
    one line for every distinct character, in the order in which the
    characters first occur in the input, with the row of [codes] and the
    cell of [freq] of the character. *)
Theorem printHuffmanCodesAndFrequencies_lines (pre post : list char)
  (codes : list cstring) (freq : list Z) :
  Forall (fun c => 0 <= c < Huffman.MAX_CHAR) pre ->
  length codes = Z.to_nat Huffman.MAX_CHAR ->
  length freq = Z.to_nat Huffman.MAX_CHAR ->
  Huffman.printHuffmanCodesAndFrequencies (pre ++ post) codes freq (Z.of_nat (length pre))
  = Returns (map (fun c => (c, code_of codes c, nth (Z.to_nat c) freq 0))
               (rev (nodup Z.eq_dec (rev pre)))).
Proof.
  intros Hin Lcodes Lfreq. unfold Huffman.printHuffmanCodesAndFrequencies.
  rewrite (for_range_ext _
             (fun i s => c <- read (pre ++ post) i ;;
                         (fun c '(printed, lines) =>
                            p <- read printed c ;;
                            if p =? 0 then
                              row <- read codes c ;;
                              f <- read freq c ;;
                              printed <- write printed c 1 ;;
                              Returns (printed, lines ++ [(c, row, f)])
                            else Returns (printed, lines)) c s))
    by (intros i [? ?]; reflexivity).
  rewrite for_range_read by (rewrite length_app; lia).
  rewrite Nat2Z.id, firstn_app, firstn_all, Nat.sub_diag, firstn_O, app_nil_r.
  destruct (print_table_loop codes freq pre [] (repeat 0 (Z.to_nat Huffman.MAX_CHAR)))
    as (printed' & E).
  - rewrite repeat_length. eapply Forall_impl; [|exact Hin]. cbn.
    unfold Huffman.MAX_CHAR. lia.
  - rewrite repeat_length. exact Lcodes.
  - rewrite repeat_length. exact Lfreq.
  - intros c Hc. rewrite nth_repeat. cbn [In]. tauto.
  - change (rev (nodup Z.eq_dec (rev []))) with (@nil char) in E.
    change ([] ++ pre) with pre in E. cbn [map] in E.
    match goal with
    | |- bind ?m _ = _ =>
        replace m
          with (Returns (printed',
                         map (fun c => (c, code_of codes c, nth (Z.to_nat c) freq 0))
                           (rev (nodup Z.eq_dec (rev pre)))))
          by (symmetry; exact E)
    end.
    reflexivity.
Qed.

Lemma printHuffmanCodesAndFrequencies_lines_witness :
  Huffman.printHuffmanCodesAndFrequencies (chars "abab")
    (upd 97 (chars "0") (upd 98 (chars "1") (repeat [] 256)))
    (upd 97 2 (upd 98 2 (repeat 0 256))) 4
  = Returns [(97, chars "0", 2); (98, chars "1", 2)].
Proof.
  apply (printHuffmanCodesAndFrequencies_lines (chars "abab") []
           (upd 97 (chars "0") (upd 98 (chars "1") (repeat [] 256)))
           (upd 97 2 (upd 98 2 (repeat 0 256)))).
  - repeat constructor; vm_compute; try discriminate; reflexivity.
  - reflexivity.
  - reflexivity.
Defined.

Lemma printHuffmanCodes_loop (l : list cstring) :
  forall (before after : list cstring) (lines : list (Z * cstring)),
    for_loop (length l) (Z.of_nat (length before))
      (fun i lines =>
         row <- read (before ++ l ++ after) i ;;
         match row with
         | [] => Returns lines
         | _ :: _ => Returns (lines ++ [(i, row)])
         end)
      lines
    = Returns (lines ++ filled_rows l (Z.of_nat (length before))).
Proof.
  induction l as [|row l IH]; intros before after lines.
  - cbn. rewrite app_nil_r. reflexivity.
  - cbn [length for_loop filled_rows].
    rewrite read_nth_error, nth_error_app2, Nat.sub_diag by lia. cbn [app nth_error bind].
    specialize (IH (before ++ [row]) after).
    rewrite <- app_assoc, length_app in IH. cbn [app length] in IH.
    replace (Z.of_nat (length before + 1)) with (Z.of_nat (length before) + 1) in IH by lia.
    destruct row as [|ch row]; cbn [bind]; rewrite IH; cbn [app];
      rewrite <- ?app_assoc; reflexivity.
Qed.

Lemma filled_rows_bounds (codes : list cstring) :
  forall (i c : Z) (row : cstring),
    In (c, row) (filled_rows codes i) <->
    (i <= c < i + Z.of_nat (length codes)
     /\ nth (Z.to_nat (c - i)) codes [] = row /\ row <> []).
Proof.
  induction codes as [|r codes IH]; intros i c row.
  - cbn. split; [contradiction|lia].
  - cbn [filled_rows length]. rewrite in_app_iff, IH.
    split.
    + intros [H|H].
      * destruct r as [|ch r]; [contradiction|].
        destruct H as [H|[]]. injection H as <- <-.
        rewrite Z.sub_diag. cbn. split; [lia|]. split; [reflexivity|discriminate].
      * destruct H as (Hc & Hn & Hf). split; [lia|]. split; [|exact Hf].
        replace (Z.to_nat (c - i)) with (S (Z.to_nat (c - (i + 1)))) by lia. exact Hn.
    + intros (Hc & Hn & Hf). destruct (Z.eq_dec c i) as [->|Hne].
      * left. rewrite Z.sub_diag in Hn. cbn in Hn. subst r.
        destruct row; [contradiction|]. left. reflexivity.
      * right. split; [lia|]. split; [|exact Hf].
        replace (Z.to_nat (c - i)) with (S (Z.to_nat (c - (i + 1)))) in Hn by lia.
        exact Hn.
Qed.

Lemma filled_rows_sorted (codes : list cstring) :
  forall i, StronglySorted Z.lt (map fst (filled_rows codes i)).
Proof.
  induction codes as [|r codes IH]; intros i; [constructor|].
  cbn [filled_rows]. destruct r as [|ch r]; cbn [app map fst]; [apply IH|].
  constructor; [apply IH|].
  apply Forall_forall. intros c Hc. apply in_map_iff in Hc.
  destruct Hc as ([c' f] & <- & Hc). apply filled_rows_bounds in Hc. cbn. lia.
Qed.

(** X18: [printHuffmanCodes] of [huffman_t2_clock.c] prints a line for
    exactly the symbols whose row of [codes] is not empty, in increasing
    order of the symbol and each once, with that row: a symbol that
    [generateCodes] left without a code is not listed, and a symbol whose
    row an earlier call wrote is. *)
Theorem printHuffmanCodes_lines (codes : list cstring) :
  length codes = Z.to_nat T2Clock.MAX_CHAR ->
  exists lines,
    T2Clock.printHuffmanCodes codes = Returns lines
    /\ StronglySorted Z.lt (map fst lines)
    /\ forall c row, In (c, row) lines <->
                     (0 <= c < T2Clock.MAX_CHAR /\ code_of codes c = row /\ row <> []).
Proof.
  intros L. exists (filled_rows codes 0). split; [|split].
  - unfold T2Clock.printHuffmanCodes, for_range.
    replace (Z.to_nat (T2Clock.MAX_CHAR - 0)) with (length codes) by (rewrite L; reflexivity).
    pose proof (printHuffmanCodes_loop codes [] [] []) as H.
    cbn [app length] in H. rewrite app_nil_r in H. exact H.
  - apply filled_rows_sorted.
  - intros c row. rewrite filled_rows_bounds, Z.sub_0_r, L. unfold code_of.
    cbn [Z.add]. rewrite Z2Nat.id by (vm_compute; discriminate). reflexivity.
Qed.

Lemma printHuffmanCodes_lines_witness :
  exists lines,
    T2Clock.printHuffmanCodes (upd 97 (chars "0") (upd 98 (chars "11") (repeat [] 128)))
    = Returns lines
    /\ StronglySorted Z.lt (map fst lines)
    /\ forall c row,
         In (c, row) lines <->
         (0 <= c < T2Clock.MAX_CHAR
          /\ code_of (upd 97 (chars "0") (upd 98 (chars "11") (repeat [] 128))) c = row
          /\ row <> []).
Proof.
  apply (printHuffmanCodes_lines (upd 97 (chars "0") (upd 98 (chars "11") (repeat [] 128)))).
  reflexivity.
Defined.

(** ** The array [nodes] over several calls *)

(** The table of counts of the first characters of an array. *)
Lemma counted_table (MAX_CHAR : Z) (pre post : list char) :
  Forall (fun c => 0 <= c < MAX_CHAR) pre ->
  Z.of_nat (length pre) <= INT_MAX ->
  exists table,
    for_range 0 (Z.of_nat (length pre))
      (fun i freq => c <- read (pre ++ post) i ;; increment freq c)
      (repeat 0 (Z.to_nat MAX_CHAR))
    = Returns table
    /\ length table = Z.to_nat MAX_CHAR
    /\ (forall i, nth i table 0 = Z.of_nat (count_occ Z.eq_dec pre (Z.of_nat i)))
    /\ total table = Z.of_nat (length pre).
Proof.
  intros Hsym Hsize.
  rewrite (for_range_read (fun c freq => increment freq c))
    by (rewrite length_app; lia).
  rewrite Nat2Z.id, firstn_app, firstn_all, Nat.sub_diag, firstn_O, app_nil_r.
  destruct (fold_increment_counts pre (repeat 0 (Z.to_nat MAX_CHAR)))
    as (table & Ecount & Ltable & Ncount).
  { rewrite repeat_length. eapply Forall_impl; [|exact Hsym]. cbn. lia. }
  { apply Forall_forall. intros v Hv. apply repeat_spec in Hv. lia. }
  exists table. split; [exact Ecount|]. rewrite repeat_length in Ltable.
  split; [exact Ltable|]. split.
  - intros i. rewrite Ncount, nth_repeat. lia.
  - rewrite (fold_increment_total _ _ _ Ecount), total_repeat_0. lia.
Qed.

Lemma nodup_nonempty (pre : list char) : pre <> [] -> (1 <= length (nodup Z.eq_dec pre))%nat.
Proof.
  intros Hne. destruct pre as [|c pre']; [contradiction|].
  assert (Hc : In c (nodup Z.eq_dec (c :: pre'))) by (apply nodup_In; left; reflexivity).
  destruct (nodup Z.eq_dec (c :: pre')); [contradiction|cbn; lia].
Qed.

(** X19: no call of [HuffmanCodes] gives the cells of [nodes] back: in the
    three files [nodeIndex] is a static object that only grows, by
    [2 n - 1] in a call on [n] distinct symbols. A call that finds fewer
    than [2 n - 1] free cells has undefined behaviour, whatever the input
    is otherwise: for the characters [pre] (from 1 to 127, one at least
    and [2^30] at most) with [n] distinct ones in [huffman_vlad.c] and
    [huffman.c], and with the end marker as one more symbol in
    [huffman_t2_clock.c]. *)
Theorem HuffmanCodes_nodes_run_out (pre post : list char) (nodeIndex : Z)
  (g : T2Clock.globals) :
  pre <> [] ->
  Forall (fun c => 0 < c < T2Clock.MAX_CHAR) pre ->
  Z.of_nat (length pre) <= 1073741824 ->
  (0 <= nodeIndex ->
   Vlad.MAX_CHAR < nodeIndex + 2 * Z.of_nat (length (nodup Z.eq_dec pre)) - 1 ->
   Vlad.HuffmanCodes nodeIndex (pre ++ post) (Z.of_nat (length pre)) = Undefined
   /\ Huffman.HuffmanCodes nodeIndex (pre ++ post) (Z.of_nat (length pre)) = Undefined)
  /\ (0 <= T2Clock.nodeIndex g ->
      T2Clock.MAX_CHAR
      < T2Clock.nodeIndex g
        + 2 * Z.of_nat (length (nodup Z.eq_dec (T2Clock.EOF_CHAR :: pre))) - 1 ->
      T2Clock.HuffmanCodes g (pre ++ post) (Z.of_nat (length pre)) = Undefined).
Proof.
  intros Hne Hsym Hsize.
  assert (Hsym256 : Forall (fun c => 0 <= c < 256) pre).
  { eapply Forall_impl; [|exact Hsym]. cbn. unfold T2Clock.MAX_CHAR. lia. }
  assert (Hsym128 : Forall (fun c => 0 <= c < 128) pre).
  { eapply Forall_impl; [|exact Hsym]. cbn. unfold T2Clock.MAX_CHAR. lia. }
  assert (Hint : Z.of_nat (length pre) <= INT_MAX) by (unfold INT_MAX; lia).
  split.
  - intros Hidx Hfull.
    destruct (counted_table 256 pre post Hsym256 Hint) as (table & Ecount & Ltable & Ncount & _).
    destruct (table_of_counts pre table) as (_ & _ & _ & _ & Hn); [|exact Ncount|].
    { rewrite Ltable. exact Hsym256. }
    pose proof (nodup_nonempty pre Hne) as Hn1.
    assert (Etable : collectUnique 256 table
                     = Returns (map fst (positive_entries table 0),
                                map snd (positive_entries table 0))).
    { replace 256 with (Z.of_nat (length table)) by (rewrite Ltable; reflexivity).
      apply collectUnique_spec. }
    split.
    + unfold Vlad.HuffmanCodes. change Vlad.MAX_CHAR with 256 in *.
      rewrite Ecount. cbn [bind]. rewrite Etable. cbn [bind].
      unfold Vlad.buildHuffmanTree.
      rewrite (buildHuffmanTree_with_full Vlad.MAX_CHAR Vlad.less _ continue_size_gt_1);
        [reflexivity| | | |]; rewrite ?length_map, ?Hn; try lia.
      change Vlad.MAX_CHAR with 256. lia.
    + unfold Huffman.HuffmanCodes, Huffman.calculateFrequency.
      change Huffman.MAX_CHAR with 256 in *. change Vlad.MAX_CHAR with 256 in *.
      rewrite Ecount. cbn [bind]. rewrite Etable. cbn [bind].
      unfold Huffman.buildHuffmanTree.
      rewrite (buildHuffmanTree_with_full Huffman.MAX_CHAR Huffman.less _
                 continue_not_isSizeOne);
        [reflexivity| | | |]; rewrite ?length_map, ?Hn; try lia.
      change Huffman.MAX_CHAR with 256. lia.
  - intros Hidx Hfull.
    assert (Hnot0 : ~ In T2Clock.EOF_CHAR pre).
    { intros H0. rewrite Forall_forall in Hsym. specialize (Hsym _ H0).
      unfold T2Clock.EOF_CHAR in Hsym. lia. }
    destruct (counted_table 128 pre post Hsym128 Hint) as (table & Ecount & Ltable & Ncount & _).
    unfold T2Clock.HuffmanCodes, T2Clock.calculateFrequencyInChunks.
    rewrite (chunks_loop_whole (pre ++ post) (Z.of_nat (length pre)) 1000);
      [|unfold INT_MAX; lia|lia|left; reflexivity|lia].
    change T2Clock.MAX_CHAR with 128 in *.
    rewrite Ecount. cbn [bind].
    rewrite write_in_bounds by (rewrite Ltable; vm_compute; split; [discriminate|reflexivity]).
    cbn [bind]. change (Z.to_nat T2Clock.EOF_CHAR) with O.
    set (table' := upd 0 1 table).
    assert (Ltable' : length table' = Z.to_nat 128)
      by (unfold table'; rewrite upd_length; exact Ltable).
    assert (Ncount' : forall i, nth i table' 0
                                = Z.of_nat (count_occ Z.eq_dec (T2Clock.EOF_CHAR :: pre)
                                              (Z.of_nat i))).
    { intros i. unfold table'. destruct i as [|i].
      - rewrite nth_upd_eq by (rewrite Ltable; vm_compute; lia).
        cbn [count_occ]. change (Z.of_nat 0) with T2Clock.EOF_CHAR.
        destruct (Z.eq_dec T2Clock.EOF_CHAR T2Clock.EOF_CHAR); [|contradiction].
        rewrite (proj1 (count_occ_not_In Z.eq_dec pre T2Clock.EOF_CHAR) Hnot0). reflexivity.
      - rewrite nth_upd_neq by lia. rewrite Ncount. cbn [count_occ].
        destruct (Z.eq_dec T2Clock.EOF_CHAR (Z.of_nat (S i))) as [E|_];
          [unfold T2Clock.EOF_CHAR in E; lia|]. reflexivity. }
    destruct (table_of_counts (T2Clock.EOF_CHAR :: pre) table')
      as (_ & _ & _ & _ & Hn); [|exact Ncount'|].
    { rewrite Ltable'. constructor; [vm_compute; split; [discriminate|reflexivity]|].
      exact Hsym128. }
    pose proof (nodup_nonempty (T2Clock.EOF_CHAR :: pre) ltac:(discriminate)) as Hn1.
    replace (collectUnique 128 table')
      with (collectUnique (Z.of_nat (length table')) table')
      by (rewrite Ltable'; reflexivity).
    rewrite collectUnique_spec. cbn [bind].
    unfold T2Clock.buildHuffmanTree.
    rewrite (buildHuffmanTree_with_full T2Clock.MAX_CHAR T2Clock.less _ continue_size_gt_1);
      [reflexivity| | | |]; rewrite ?length_map, ?Hn; try lia.
    change T2Clock.MAX_CHAR with 128. lia.
Qed.

Lemma HuffmanCodes_nodes_run_out_witness :
  T2Clock.HuffmanCodes
    {| T2Clock.nodeIndex := 125;
       T2Clock.codes := T2Clock.codes T2Clock.initial;
       T2Clock.compressed := T2Clock.compressed T2Clock.initial;
       T2Clock.visited := T2Clock.visited T2Clock.initial |}
    (chars "ab") 2
  = Undefined.
Proof.
  refine (proj2 (HuffmanCodes_nodes_run_out (chars "ab") [] 0
                   {| T2Clock.nodeIndex := 125;
                      T2Clock.codes := T2Clock.codes T2Clock.initial;
                      T2Clock.compressed := T2Clock.compressed T2Clock.initial;
                      T2Clock.visited := T2Clock.visited T2Clock.initial |} _ _ _) _ _).
  - discriminate.
  - repeat constructor; vm_compute; reflexivity.
  - vm_compute. discriminate.
  - vm_compute. discriminate.
  - vm_compute. reflexivity.
Defined.

(** ** [HuffmanCodes] on no input *)

(** The first call of a sequence, when it is closed, is evaluated. *)
Ltac evaluate_first_call :=
  match goal with
  | |- exists g, bind ?m _ = _ /\ _ =>
      let r := eval vm_compute in m in
      change m with r; cbn [bind]
  end.

(** X20: [HuffmanCodes] with a [size] that is not positive, whatever the
    array and the state of [nodes]. In [huffman.c] and [huffman_vlad.c] no
    symbol is counted, the table of symbols is empty and [buildHuffmanTree]
    takes a node out of an empty heap: the behaviour is undefined. In
    [huffman_t2_clock.c] the end marker is always in the table: a first
    call returns, has taken one cell of [nodes], and writes no byte. *)
Theorem HuffmanCodes_no_input (nodeIndex : Z) (data : list char) (size : Z) :
  size <= 0 ->
  Vlad.HuffmanCodes nodeIndex data size = Undefined
  /\ Huffman.HuffmanCodes nodeIndex data size = Undefined
  /\ exists g,
       T2Clock.HuffmanCodes T2Clock.initial data size = Returns ([], g)
       /\ T2Clock.nodeIndex g = 1
       /\ T2Clock.compressed g = T2Clock.compressed T2Clock.initial.
Proof.
  intros Hsize.
  assert (Hcount : forall freq,
             for_range 0 size (fun i freq => c <- read data i ;; increment freq c) freq
             = Returns freq).
  { intros freq. apply for_range_empty. lia. }
  split; [|split].
  - unfold Vlad.HuffmanCodes. rewrite Hcount. reflexivity.
  - unfold Huffman.HuffmanCodes, Huffman.calculateFrequency. rewrite Hcount. reflexivity.
  - unfold T2Clock.HuffmanCodes, T2Clock.calculateFrequencyInChunks.
    rewrite chunks_loop_done by lia. cbn [bind].
    assert (Hpack : forall codes compressed,
               T2Clock.compressInput data size codes compressed = Returns compressed).
    { intros codes compressed. unfold T2Clock.compressInput.
      rewrite for_range_empty by lia. reflexivity. }
    do 3 evaluate_first_call.
    evaluate_first_call. rewrite Hpack. cbn [bind].
    eexists. split; [vm_compute; reflexivity|]. split; reflexivity.
Qed.

Lemma HuffmanCodes_no_input_witness :
  Vlad.HuffmanCodes 0 (chars "abc" ++ [NUL]) 0 = Undefined.
Proof.
  refine (proj1 (HuffmanCodes_no_input 0 (chars "abc" ++ [NUL]) 0 _)). lia.
Defined.

(** ** The tree of [buildHuffmanTree] has the least cost *)

Lemma cost_app (a b : list (Z * nat)) : cost (a ++ b) = cost a + cost b.
Proof. unfold cost. induction a as [|x a IH]; cbn [app fold_right]; [reflexivity|]. rewrite IH. lia. Qed.

Lemma cost_Permutation (a b : list (Z * nat)) : Permutation a b -> cost a = cost b.
Proof. induction 1; cbn; unfold cost in *; lia. Qed.

Lemma kraft_single (l : list nat) : kraft l -> length l = 1%nat -> l = [O].
Proof.
  induction 1 as [|d l H IH|l l' P H IH]; intros L.
  - reflexivity.
  - cbn in L. lia.
  - rewrite <- (Permutation_length P) in L. specialize (IH L). subst l.
    apply Permutation_length_1_inv in P. exact P.
Qed.

(** Two deepest leaves can be taken for the two leaves of a split. *)
Lemma kraft_deepest (l : list nat) :
  kraft l ->
  (2 <= length l)%nat ->
  exists d rest,
    Permutation l (S d :: S d :: rest)
    /\ kraft (d :: rest)
    /\ Forall (fun e => (e <= S d)%nat) l.
Proof.
  induction 1 as [|d l H IH|l l' P H IH]; intros L.
  - cbn in L. lia.
  - destruct (Forall_Exists_dec (fun e => (e <= S d)%nat)
                (fun e => le_dec e (S d)) l) as [Hall|Hex].
    + exists d, l. split; [reflexivity|]. split; [exact H|].
      constructor; [lia|]. constructor; [lia|exact Hall].
    + apply Exists_exists in Hex. destruct Hex as (e & He & Hgt).
      destruct IH as (m & rest & P & K & B).
      { destruct l; [contradiction|cbn; lia]. }
      assert (Hm : (S d < S m)%nat).
      { rewrite Forall_forall in B. specialize (B e (or_intror He)). lia. }
      assert (Hd : In d rest).
      { assert (Hin : In d (S m :: S m :: rest))
          by (eapply Permutation_in; [exact P|left; reflexivity]).
        destruct Hin as [E|[E|Hin]]; [lia|lia|exact Hin]. }
      apply in_split in Hd. destruct Hd as (r1 & r2 & ->).
      assert (Pl : Permutation l (S m :: S m :: r1 ++ r2)).
      { apply (Permutation_cons_inv (a := d)).
        etransitivity; [exact P|].
        etransitivity; [|apply perm_swap]. apply perm_skip.
        etransitivity; [|apply perm_swap]. apply perm_skip.
        symmetry. apply Permutation_middle. }
      exists m, (S d :: S d :: r1 ++ r2). split; [|split].
      * etransitivity; [apply perm_skip, perm_skip; exact Pl|].
        etransitivity; [apply perm_skip, perm_swap|].
        etransitivity; [apply perm_swap|]. apply perm_skip.
        etransitivity; [apply perm_skip, perm_swap|].
        apply perm_swap.
      * apply (kraft_perm (S d :: S d :: m :: r1 ++ r2)).
        { etransitivity; [apply perm_skip, perm_swap|]. apply perm_swap. }
        apply kraft_split. apply (kraft_perm (m :: r1 ++ d :: r2)); [|exact K].
        etransitivity; [apply perm_skip; symmetry; apply Permutation_middle|].
        apply perm_swap.
      * constructor; [lia|]. constructor; [lia|].
        rewrite Forall_forall in B |- *. intros x Hx. apply B. right. exact Hx.
  - destruct IH as (d & rest & P' & K & B).
    { rewrite (Permutation_length P). exact L. }
    exists d, rest. split; [etransitivity; [symmetry; exact P|exact P']|].
    split; [exact K|]. eapply Permutation_Forall; eassumption.
Qed.

(** The leaf weights can be listed in the order of a permutation of the
    depths. *)
Lemma leaves_by_depth (leaves : list (Z * nat)) (d : nat) (rest : list nat) :
  Permutation (map snd leaves) (d :: rest) ->
  exists x others,
    Permutation leaves ((x, d) :: others) /\ map snd others = rest.
Proof.
  intros P. symmetry in P. apply Permutation_map_inv in P.
  destruct P as (l3 & E & P). destruct l3 as [|[x d'] others]; [discriminate|].
  cbn in E. injection E as -> ->. exists x, others. split; [exact P|reflexivity].
Qed.

Lemma leaves_by_weight (leaves : list (Z * nat)) (a : Z) (rest : list Z) :
  Permutation (map fst leaves) (a :: rest) ->
  exists e others,
    Permutation leaves ((a, e) :: others) /\ map fst others = rest.
Proof.
  intros P. symmetry in P. apply Permutation_map_inv in P.
  destruct P as (l3 & E & P). destruct l3 as [|[a' e] others]; [discriminate|].
  cbn in E. injection E as -> ->. exists e, others. split; [exact P|reflexivity].
Qed.

(** A lightest weight can be put on a deepest leaf at no cost. *)
Lemma lightest_goes_deepest (x a : Z) (d : nat) (others : list (Z * nat)) (rest : list Z) :
  Permutation (x :: map fst others) (a :: rest) ->
  Forall (fun w => a <= w) rest ->
  Forall (fun leaf => (snd leaf <= d)%nat) others ->
  exists others',
    Permutation (map fst others') rest
    /\ Permutation (map snd others') (map snd others)
    /\ cost ((a, d) :: others') <= cost ((x, d) :: others).
Proof.
  intros P Hmin Hdeep. destruct (Z.eq_dec x a) as [->|Hne].
  - exists others. split; [apply (Permutation_cons_inv P)|]. split; [reflexivity|lia].
  - assert (Hin : In a (map fst others)).
    { assert (H : In a (x :: map fst others))
        by (eapply Permutation_in; [symmetry; exact P|left; reflexivity]).
      destruct H as [H|H]; [congruence|exact H]. }
    apply in_map_iff in Hin. destruct Hin as ([a' e] & Ea & Hin). cbn in Ea. subst a'.
    apply in_split in Hin. destruct Hin as (o1 & o2 & ->).
    exists ((x, e) :: o1 ++ o2).
    assert (Hx : a <= x).
    { assert (H : In x (a :: rest))
        by (eapply Permutation_in; [exact P|left; reflexivity]).
      destruct H as [H|H]; [lia|]. rewrite Forall_forall in Hmin. apply Hmin. exact H. }
    assert (He : (e <= d)%nat).
    { rewrite Forall_forall in Hdeep. apply (Hdeep (a, e)).
      apply in_or_app. right. left. reflexivity. }
    split; [|split].
    + cbn [map fst]. apply (Permutation_cons_inv (a := a)).
      etransitivity; [|exact P]. rewrite !map_app. cbn [map fst].
      etransitivity; [apply perm_swap|]. apply perm_skip.
      apply Permutation_middle.
    + cbn [map snd]. rewrite !map_app. cbn [map snd]. apply Permutation_middle.
    + rewrite (cost_Permutation ((x, d) :: o1 ++ (a, e) :: o2)
                 ((x, d) :: (a, e) :: o1 ++ o2))
        by (apply perm_skip; symmetry; apply Permutation_middle).
      cbn [cost fold_right fst snd]. fold (cost (o1 ++ o2)). nia.
Qed.

(** The exchange step: leaves whose depths are those of a tree, with [a]
    and [b] the two lightest weights, cost [a + b] more, at least, than
    some such leaves where one leaf of weight [a + b] stands for the two. *)
Lemma exchange (leaves : list (Z * nat)) (a b : Z) (rest : list Z) :
  kraft (map snd leaves) ->
  Permutation (map fst leaves) (a :: b :: rest) ->
  Forall (fun w => a <= w) (b :: rest) ->
  Forall (fun w => b <= w) rest ->
  exists leaves',
    kraft (map snd leaves')
    /\ Permutation (map fst leaves') (a + b :: rest)
    /\ cost leaves' + a + b <= cost leaves.
Proof.
  intros K P Ha Hb.
  destruct (kraft_deepest _ K) as (d & ds & Pd & Kd & Bd).
  { rewrite length_map, <- (length_map fst), (Permutation_length P). cbn. lia. }
  (* a deepest leaf takes the weight [a] *)
  destruct (leaves_by_depth leaves (S d) (S d :: ds) Pd) as (x & o1 & P1 & D1).
  assert (Bo1 : Forall (fun leaf => (snd leaf <= S d)%nat) o1).
  { apply Forall_forall. intros leaf Hleaf. rewrite Forall_forall in Bd. apply Bd.
    apply in_map. eapply Permutation_in; [symmetry; exact P1|right; exact Hleaf]. }
  destruct (lightest_goes_deepest x a (S d) o1 (b :: rest)) as (o2 & W2 & D2 & C2);
    [|exact Ha|exact Bo1|].
  { etransitivity; [|exact P]. change (x :: map fst o1) with (map fst ((x, S d) :: o1)).
    apply Permutation_map. symmetry. exact P1. }
  (* a second deepest leaf takes the weight [b] *)
  rewrite D1 in D2.
  destruct (leaves_by_depth o2 (S d) ds D2) as (y & o3 & P3 & D3).
  assert (Bo3 : Forall (fun leaf => (snd leaf <= S d)%nat) o3).
  { apply Forall_forall. intros leaf Hleaf.
    assert (Hin : In (snd leaf) (map snd o1)).
    { rewrite D1. eapply Permutation_in; [exact D2|].
      apply in_map. eapply Permutation_in; [symmetry; exact P3|right; exact Hleaf]. }
    apply in_map_iff in Hin. destruct Hin as (leaf' & E & Hin). rewrite <- E.
    rewrite Forall_forall in Bo1. apply Bo1. exact Hin. }
  destruct (lightest_goes_deepest y b (S d) o3 rest) as (o4 & W4 & D4 & C4);
    [|exact Hb|exact Bo3|].
  { etransitivity; [|exact W2]. change (y :: map fst o3) with (map fst ((y, S d) :: o3)).
    apply Permutation_map. symmetry. exact P3. }
  exists ((a + b, d) :: o4). split; [|split].
  - cbn [map snd]. apply (kraft_perm (d :: ds)); [|exact Kd].
    apply perm_skip. rewrite <- D3. symmetry. exact D4.
  - cbn [map fst]. apply perm_skip. exact W4.
  - rewrite (cost_Permutation _ _ P1).
    assert (E2 : cost ((a, S d) :: o2) = a * Z.of_nat (S d) + cost o2) by reflexivity.
    assert (E2' : cost o2 = cost ((y, S d) :: o3)) by (apply cost_Permutation; exact P3).
    assert (E4 : cost ((b, S d) :: o4) = b * Z.of_nat (S d) + cost o4) by reflexivity.
    assert (E5 : cost ((a + b, d) :: o4) = (a + b) * Z.of_nat d + cost o4) by reflexivity.
    nia.
Qed.

Lemma depths_weights (root : MinHeapNode) :
  forall d, map fst (depths root d) = map snd (leaves root).
Proof.
  induction root as [c f l Hl r Hr]; intros d.
  cbn [depths leaves left right]. destruct l as [l|]; destruct r as [r|].
  - inversion Hl as [? Hl'|]; inversion Hr as [? Hr'|]; subst.
    rewrite !map_app, Hl', Hr'. reflexivity.
  - inversion Hl as [? Hl'|]; subst. rewrite !app_nil_r. apply Hl'.
  - inversion Hr as [? Hr'|]; subst. cbn [app]. apply Hr'.
  - reflexivity.
Qed.

(** A tree one level down costs its weight more. *)
Lemma depths_deeper (root : MinHeapNode) :
  forall d, cost (depths root (S d)) = cost (depths root d) + weight (leaves root).
Proof.
  induction root as [c f l Hl r Hr]; intros d.
  cbn [depths leaves left right]. destruct l as [l|]; destruct r as [r|].
  - inversion Hl as [? Hl'|]; inversion Hr as [? Hr'|]; subst.
    rewrite !cost_app, weight_app, (Hl' (S d)), (Hr' (S d)). lia.
  - inversion Hl as [? Hl'|]; subst. rewrite !app_nil_r. apply Hl'.
  - inversion Hr as [? Hr'|]; subst. cbn [app]. apply Hr'.
  - cbn. lia.
Qed.

Lemma weights_add_up_full (root : MinHeapNode) : weights_add_up root -> full root.
Proof.
  induction root as [c f l Hl r Hr].
  cbn [weights_add_up full left right]. destruct l as [l|]; destruct r as [r|]; auto.
  inversion Hl as [? Hl'|]; inversion Hr as [? Hr'|]; subst.
  intros (_ & H1 & H2). split; auto.
Qed.

(** The depths of the leaves of a tree that stands for a leaf. *)
Lemma kraft_subtree (root : MinHeapNode) :
  full root ->
  forall d rest, kraft (d :: rest) -> kraft (map snd (depths root d) ++ rest).
Proof.
  induction root as [c f l Hl r Hr].
  cbn [full depths left right]. destruct l as [l|]; destruct r as [r|];
    try contradiction.
  - inversion Hl as [? Hl'|]; inversion Hr as [? Hr'|]; subst.
    intros [Fl Fr] d rest K. rewrite map_app, <- app_assoc.
    apply (kraft_perm (map snd (depths r (S d)) ++ map snd (depths l (S d)) ++ rest)).
    { rewrite !app_assoc. apply Permutation_app_tail, Permutation_app_comm. }
    apply (Hr' Fr).
    apply (kraft_perm (map snd (depths l (S d)) ++ S d :: rest));
      [symmetry; apply Permutation_middle|].
    apply (Hl' Fl). apply kraft_split. exact K.
  - intros _ d rest K. exact K.
Qed.

Lemma kraft_depths (root : MinHeapNode) : full root -> kraft (map snd (depths root 0)).
Proof.
  intros F. rewrite <- (app_nil_r (map snd (depths root 0))).
  apply kraft_subtree; [exact F|apply kraft_leaf].
Qed.

Lemma forest_cost_Permutation (a b : list MinHeapNode) :
  Permutation a b -> forest_cost a = forest_cost b.
Proof. induction 1; cbn; unfold forest_cost in *; lia. Qed.

Lemma weight_map_snd (a b : list (char * Z)) :
  Permutation (map snd a) (map snd b) -> weight a = weight b.
Proof.
  assert (E : forall l, weight l = fold_right Z.add 0 (map snd l)).
  { induction l as [|x l IH]; cbn; [reflexivity|]. unfold weight in IH. rewrite IH.
    reflexivity. }
  intros P. rewrite !E. induction P; cbn; lia.
Qed.

(** A tree with nodes of one child costs no less than the tree without
    them. *)
Lemma full_of_any (other : MinHeapNode) :
  Forall (fun entry => 0 <= snd entry) (leaves other) ->
  exists other',
    full other'
    /\ leaves other' = leaves other
    /\ forall d, cost (depths other' d) <= cost (depths other d).
Proof.
  induction other as [c f l Hl r Hr].
  cbn [leaves depths left right]. destruct l as [l|]; destruct r as [r|].
  - inversion Hl as [? Hl'|]; inversion Hr as [? Hr'|]; subst.
    intros H. apply Forall_app in H. destruct H as [H1 H2].
    destruct (Hl' H1) as (l' & Fl & El & Cl). destruct (Hr' H2) as (r' & Fr & Er & Cr).
    exists (Node c f (Some l') (Some r')). cbn [full leaves depths left right].
    split; [split; assumption|]. split; [congruence|].
    intros d. rewrite !cost_app. specialize (Cl (S d)). specialize (Cr (S d)). lia.
  - inversion Hl as [? Hl'|]; subst. rewrite !app_nil_r. intros H.
    destruct (Hl' H) as (l' & Fl & El & Cl). exists l'.
    split; [exact Fl|]. split; [exact El|]. intros d.
    rewrite app_nil_r, depths_deeper. pose proof (weight_nonneg _ H). specialize (Cl d). lia.
  - inversion Hr as [? Hr'|]; subst. cbn [app]. intros H.
    destruct (Hr' H) as (r' & Fr & Er & Cr). exists r'.
    split; [exact Fr|]. split; [exact Er|]. intros d.
    rewrite depths_deeper. pose proof (weight_nonneg _ H). specialize (Cr d). lia.
  - intros _. exists (Node c f None None). cbn [full leaves depths left right].
    split; [exact I|]. split; [reflexivity|]. intros d. lia.
Qed.

Section LightestFirst.

Variable MAX_CHAR : Z.
Variable less : MinHeapNode -> MinHeapNode -> bool.
Hypothesis MAX_CHAR_int : MAX_CHAR <= INT_MAX.
Hypothesis less_lighter : forall a b, less a b = true -> freq a <= freq b.
Hypothesis less_not_heavier : forall a b, less a b = false -> freq b <= freq a.

Variable continue : list MinHeapNode -> bool.
Hypothesis continue_spec :
  forall arr, (1 <= length arr)%nat -> continue arr = (1 <? length arr)%nat.

(** What holds of the heap at every turn of the merging loop, given that
    the loop joins a lightest node and a lightest node of the rest. *)
Variable keeps : list MinHeapNode -> Prop.
Hypothesis keeps_step :
  forall arr l r rest arr',
    keeps arr ->
    Permutation arr (l :: r :: rest) ->
    (forall x, In x arr -> freq l <= freq x) ->
    (forall x, In x (r :: rest) -> freq r <= freq x) ->
    Permutation arr' (parent_of l r :: rest) ->
    keeps arr'.

Lemma merge_loop_lightest (fuel : nat) :
  forall (arr : list MinHeapNode) (nodeIndex : Z),
    keeps arr ->
    weight_ordered arr ->
    (1 <= length arr <= S fuel)%nat ->
    Z.of_nat (length arr) <= MAX_CHAR ->
    0 <= nodeIndex ->
    nodeIndex + Z.of_nat (length arr) - 1 <= MAX_CHAR ->
    exists root,
      merge_loop MAX_CHAR less continue fuel arr nodeIndex
      = Returns ([root], nodeIndex + Z.of_nat (length arr) - 1)
      /\ keeps [root].
Proof.
  induction fuel as [|fuel IH]; intros arr nodeIndex Hok Hord Hlen Hsize Hn Hcap.
  - destruct arr as [|root [|? ?]]; cbn [length] in Hlen; try lia.
    exists root. cbn [merge_loop]. rewrite continue_spec by (cbn; lia). cbn.
    split; [f_equal; f_equal; lia|exact Hok].
  - cbn [merge_loop]. rewrite continue_spec by lia.
    destruct (1 <? length arr)%nat eqn:E.
    + apply Nat.ltb_lt in E.
      destruct (merge_step_weight MAX_CHAR less less_lighter less_not_heavier
                  arr nodeIndex ltac:(lia) Hsize ltac:(lia) Hord)
        as (l & r & rest & arr' & E1 & P1 & M1 & M2 & P2 & Hord').
      rewrite E1. cbn [bind].
      pose proof (Permutation_length P1) as L1.
      pose proof (Permutation_length P2) as L2. cbn [length] in L1, L2.
      destruct (IH arr' (nodeIndex + 1) (keeps_step _ _ _ _ _ Hok P1 M1 M2 P2) Hord'
                  ltac:(lia) ltac:(lia) ltac:(lia) ltac:(lia)) as (root & E2 & Hroot).
      exists root. rewrite E2. split; [f_equal; f_equal; lia|exact Hroot].
    + apply Nat.ltb_ge in E.
      destruct arr as [|root [|? ?]]; cbn [length] in Hlen, E; try lia.
      exists root. split; [cbn; f_equal; f_equal; lia|exact Hok].
Qed.

Lemma createAndBuildMinHeap_weight (nodeIndex : Z) (data : list char) (freq : list Z) :
  length freq = length data ->
  0 <= nodeIndex ->
  nodeIndex + Z.of_nat (length data) <= MAX_CHAR ->
  exists arr,
    createAndBuildMinHeap MAX_CHAR less nodeIndex data freq (Z.of_nat (length data))
    = Returns (arr, nodeIndex + Z.of_nat (length data))
    /\ Permutation arr (map leaf_of (combine data freq))
    /\ weight_ordered arr.
Proof.
  intros Hlen Hn Hroom.
  destruct (createAndBuildMinHeap_spec MAX_CHAR less nodeIndex data freq Hlen Hn Hroom)
    as (arr & E & P).
  exists arr. split; [exact E|]. split; [exact P|].
  unfold createAndBuildMinHeap in E.
  destruct (Z.of_nat (length data) <? 0); [discriminate|].
  apply bind_returns_inv in E. destruct E as ([arr0 n0] & E0 & E).
  injection E as <- _.
  apply (buildMinHeap_weight less less_lighter less_not_heavier).
  assert (L : length (buildMinHeap less arr0) = length data).
  { rewrite (Permutation_length P), length_map, length_combine. lia. }
  rewrite (Permutation_length (buildMinHeap_Permutation less arr0)) in L. lia.
Qed.

Lemma buildHuffmanTree_with_lightest (nodeIndex : Z) (data : list char) (freq : list Z) :
  (forall arr, Permutation arr (map leaf_of (combine data freq)) -> keeps arr) ->
  (1 <= length data)%nat ->
  length freq = length data ->
  0 <= nodeIndex ->
  nodeIndex + 2 * Z.of_nat (length data) - 1 <= MAX_CHAR ->
  exists root,
    buildHuffmanTree_with MAX_CHAR less continue nodeIndex data freq
      (Z.of_nat (length data))
    = Returns (root, nodeIndex + 2 * Z.of_nat (length data) - 1)
    /\ keeps [root].
Proof.
  intros Hinit Hn Hlen Hidx Hcap. unfold buildHuffmanTree_with.
  destruct (createAndBuildMinHeap_weight nodeIndex data freq Hlen Hidx ltac:(lia))
    as (arr & E & P & Hord).
  rewrite E. cbn [bind].
  assert (La : length arr = length data).
  { rewrite (Permutation_length P), length_map, length_combine. lia. }
  destruct (merge_loop_lightest (S (length arr)) arr (nodeIndex + Z.of_nat (length data))
              (Hinit arr P) Hord ltac:(lia) ltac:(lia) ltac:(lia) ltac:(lia))
    as (root & E2 & Hroot).
  rewrite E2. cbn [bind].
  destruct (extractMin_Permutation less root []) as (rest & E3 & _).
  rewrite E3. cbn [bind]. exists root. split; [f_equal; f_equal; lia|exact Hroot].
Qed.

End LightestFirst.

Section LeastCost.

Variable table : list (char * Z).
Hypothesis table_nonneg : Forall (fun entry => 0 <= snd entry) table.
Hypothesis table_weight : weight table < UINT_MODULUS.

(** The heap of leaves costs no more than any tree over the table. *)
Lemma no_worse_than_leaves (other : MinHeapNode) (arr : list MinHeapNode) :
  full other ->
  Permutation (map snd (leaves other)) (map snd table) ->
  Permutation arr (map leaf_of table) ->
  no_worse_than other arr.
Proof.
  intros F Pw P. exists (depths other 0). split; [apply kraft_depths; exact F|]. split.
  - rewrite depths_weights. etransitivity; [exact Pw|].
    etransitivity; [|apply Permutation_map; symmetry; exact P].
    rewrite map_map.
    pose proof (weight_bounds_entries table UINT_MODULUS table_nonneg table_weight) as Hb.
    clear - Hb. induction Hb as [|[c w] entries Hx Hr IH]; [reflexivity|].
    cbn [map leaf_of freq fst snd] in *. rewrite to_unsigned_small by lia.
    apply perm_skip. exact IH.
  - rewrite (forest_cost_Permutation _ _ P).
    assert (E : forall entries, forest_cost (map leaf_of entries) = 0).
    { induction entries as [|x entries IH]; [reflexivity|].
      cbn. unfold forest_cost in IH. rewrite IH. lia. }
    rewrite E. lia.
Qed.

(** Joining a lightest tree and a lightest tree of the rest keeps the heap
    no worse than any tree. *)
Lemma no_worse_than_step (other : MinHeapNode) (arr : list MinHeapNode)
  (l r : MinHeapNode) (rest arr' : list MinHeapNode) :
  forest_ok table arr ->
  no_worse_than other arr ->
  Permutation arr (l :: r :: rest) ->
  (forall x, In x arr -> freq l <= freq x) ->
  (forall x, In x (r :: rest) -> freq r <= freq x) ->
  Permutation arr' (parent_of l r :: rest) ->
  no_worse_than other arr'.
Proof.
  intros Hok (above & K & Pw & C) P1 M1 M2 P2.
  pose proof (forest_ok_Permutation table _ _ P1 Hok) as Hok'.
  pose proof (forest_ok_weights table table_nonneg table_weight _ _ _ Hok') as Hw.
  destruct Hok' as [HF _]. inversion HF as [|? ? [_ Wl] HF']; subst.
  inversion HF' as [|? ? [_ Wr] _]; subst.
  destruct (exchange above (freq l) (freq r) (map freq rest)) as (above' & K' & Pw' & C').
  - exact K.
  - etransitivity; [exact Pw|]. apply (Permutation_map freq) in P1. exact P1.
  - apply Forall_forall. intros w Hin.
    change (freq r :: map freq rest) with (map freq (r :: rest)) in Hin.
    apply in_map_iff in Hin. destruct Hin as (x & <- & Hin). apply M1.
    eapply Permutation_in; [symmetry; exact P1|right; exact Hin].
  - apply Forall_forall. intros w Hin. apply in_map_iff in Hin.
    destruct Hin as (x & <- & Hin). apply M2. right. exact Hin.
  - exists above'. split; [exact K'|]. split.
    + etransitivity; [exact Pw'|]. etransitivity; [|apply Permutation_map; symmetry; exact P2].
      cbn [map parent_of freq]. rewrite to_unsigned_small by exact Hw. reflexivity.
    + rewrite (forest_cost_Permutation _ _ P2).
      rewrite (forest_cost_Permutation _ _ P1) in C.
      unfold forest_cost in C |- *. cbn [fold_right] in C |- *.
      unfold parent_of at 1. cbn [depths left right].
      rewrite cost_app, !depths_deeper. lia.
Qed.

End LeastCost.

(** [buildHuffmanTree] on a table of [n >= 1] entries whose counts are not
    negative and add up to an [unsigned], with room for [2 n - 1] more
    nodes in [nodes]: no tree over the weights of the table costs less
    than the tree returned. *)
Lemma buildHuffmanTree_with_least (MAX_CHAR : Z) (less : MinHeapNode -> MinHeapNode -> bool)
  (continue : list MinHeapNode -> bool) (nodeIndex : Z) (data : list char) (freq : list Z) :
  In (MAX_CHAR, less) variants ->
  (forall arr, (1 <= length arr)%nat -> continue arr = (1 <? length arr)%nat) ->
  (1 <= length data)%nat ->
  length freq = length data ->
  Forall (fun f => 0 <= f) freq ->
  weight (combine data freq) < UINT_MODULUS ->
  0 <= nodeIndex ->
  nodeIndex + 2 * Z.of_nat (length data) - 1 <= MAX_CHAR ->
  exists root,
    buildHuffmanTree_with MAX_CHAR less continue nodeIndex data freq
      (Z.of_nat (length data))
    = Returns (root, nodeIndex + 2 * Z.of_nat (length data) - 1)
    /\ Permutation (leaves root) (combine data freq)
    /\ forall other,
         Permutation (map snd (leaves other)) freq ->
         cost (depths root 0) <= cost (depths other 0).
Proof.
  intros Hv Hcont Hn Hlen Hpos Hw Hidx Hcap.
  destruct (variants_lighter _ _ Hv) as (Hl & Hnh & Hmax).
  assert (Hnn : Forall (fun entry => 0 <= snd entry) (combine data freq)).
  { apply Forall_forall. intros [d f] Hin. apply in_combine_r in Hin.
    rewrite Forall_forall in Hpos. apply Hpos. exact Hin. }
  assert (Hfreq : map snd (combine data freq) = freq).
  { clear - Hlen. revert freq Hlen. induction data as [|d data IH]; intros [|f freq] H;
      try discriminate; [reflexivity|]. cbn. f_equal. apply IH. cbn in H. lia. }
  set (table := combine data freq) in *.
  destruct (buildHuffmanTree_with_lightest MAX_CHAR less ltac:(unfold INT_MAX; lia)
              Hl Hnh continue Hcont
              (fun arr => forest_ok table arr
                          /\ forall other, full other ->
                                           Permutation (map snd (leaves other)) freq ->
                                           no_worse_than other arr))
    with (nodeIndex := nodeIndex) (data := data) (freq := freq)
    as (root & E & [_ HL] & Hroot); try assumption.
  - intros arr l r rest arr' [Hok Hbest] P1 M1 M2 P2. split.
    + exact (forest_ok_step table Hnn Hw arr l r rest arr' Hok P1 P2).
    + intros other F Pw.
      exact (no_worse_than_step table Hnn Hw other arr l r rest arr' Hok
               (Hbest other F Pw) P1 M1 M2 P2).
  - intros arr P. split.
    + eapply forest_ok_Permutation; [symmetry; exact P|].
      apply forest_ok_leaves; assumption.
    + intros other F Pw. apply (no_worse_than_leaves table Hnn Hw); try assumption.
      rewrite Hfreq. exact Pw.
  - exists root. split; [exact E|]. split.
    { cbn [flat_map] in HL. rewrite app_nil_r in HL. exact HL. }
    intros other Pw.
    destruct (full_of_any other) as (other' & F & EL & Hcost).
    { apply Forall_forall. intros entry Hin. rewrite Forall_forall in Hpos. apply Hpos.
      eapply Permutation_in; [exact Pw|]. apply in_map. exact Hin. }
    rewrite <- EL in Pw. specialize (Hcost O).
    destruct (Hroot other' F Pw) as (above & K & Pa & C).
    assert (La : length (map snd above) = 1%nat).
    { rewrite length_map, <- (length_map fst), (Permutation_length Pa). reflexivity. }
    pose proof (kraft_single _ K La) as Ea.
    destruct above as [|[w d] [|? ?]]; try discriminate. cbn in Ea. injection Ea as ->.
    unfold forest_cost in C. cbn in C. cbn. lia.
Qed.

(** X21: [buildHuffmanTree], in each of the three files, returns a tree of
    least cost. For a frequency table of [n >= 1] entries (counts that are
    not negative and add up to an [unsigned]) and with room for [2 n - 1]
    more nodes in [nodes], the leaves of the tree returned are the entries
    of the table, and the sum over the leaves of weight times depth, which
    is the number of bits the codes read off the tree give the input, is no
    greater than that of any tree whose leaves have the weights of the
    table. The ties the three files break differently, and the order of
    symbols that [insertMinHeap] ignores, cost nothing. *)
Theorem buildHuffmanTree_least_cost (nodeIndex : Z) (data : list char) (freq : list Z) :
  (1 <= length data)%nat ->
  length freq = length data ->
  Forall (fun f => 0 <= f) freq ->
  weight (combine data freq) < UINT_MODULUS ->
  0 <= nodeIndex ->
  (nodeIndex + 2 * Z.of_nat (length data) - 1 <= Vlad.MAX_CHAR ->
   exists root,
     Vlad.buildHuffmanTree nodeIndex data freq (Z.of_nat (length data))
     = Returns (root, nodeIndex + 2 * Z.of_nat (length data) - 1)
     /\ Permutation (leaves root) (combine data freq)
     /\ forall other,
          Permutation (map snd (leaves other)) freq ->
          cost (depths root 0) <= cost (depths other 0))
  /\ (nodeIndex + 2 * Z.of_nat (length data) - 1 <= T2Clock.MAX_CHAR ->
      exists root,
        T2Clock.buildHuffmanTree nodeIndex data freq (Z.of_nat (length data))
        = Returns (root, nodeIndex + 2 * Z.of_nat (length data) - 1)
        /\ Permutation (leaves root) (combine data freq)
        /\ forall other,
             Permutation (map snd (leaves other)) freq ->
             cost (depths root 0) <= cost (depths other 0))
  /\ (nodeIndex + 2 * Z.of_nat (length data) - 1 <= Huffman.MAX_CHAR ->
      exists root,
        Huffman.buildHuffmanTree nodeIndex data freq (Z.of_nat (length data))
        = Returns (root, nodeIndex + 2 * Z.of_nat (length data) - 1)
        /\ Permutation (leaves root) (combine data freq)
        /\ forall other,
             Permutation (map snd (leaves other)) freq ->
             cost (depths root 0) <= cost (depths other 0)).
Proof.
  intros Hn Hlen Hpos Hw Hidx. split; [|split]; intros Hcap.
  - apply (buildHuffmanTree_with_least Vlad.MAX_CHAR Vlad.less); try assumption.
    + left. reflexivity.
    + exact continue_size_gt_1.
  - apply (buildHuffmanTree_with_least T2Clock.MAX_CHAR T2Clock.less); try assumption.
    + right. right. left. reflexivity.
    + exact continue_size_gt_1.
  - apply (buildHuffmanTree_with_least Huffman.MAX_CHAR Huffman.less); try assumption.
    + right. left. reflexivity.
    + exact continue_not_isSizeOne.
Qed.

Lemma buildHuffmanTree_least_cost_witness :
  exists root,
    Huffman.buildHuffmanTree 0 (chars "abcdr") [5; 2; 1; 1; 2] 5 = Returns (root, 9)
    /\ Permutation (leaves root) (combine (chars "abcdr") [5; 2; 1; 1; 2])
    /\ forall other,
         Permutation (map snd (leaves other)) [5; 2; 1; 1; 2] ->
         cost (depths root 0) <= cost (depths other 0).
Proof.
  refine (proj2 (proj2 (buildHuffmanTree_least_cost 0 (chars "abcdr") [5; 2; 1; 1; 2]
                          _ _ _ _ _)) _).
  - vm_compute. lia.
  - reflexivity.
  - repeat constructor; lia.
  - vm_compute. reflexivity.
  - lia.
  - vm_compute. discriminate.
Defined.

(** ** The bit string of [huffman_vlad.c] is as short as can be *)

Lemma bits_app (len : char -> nat) (a b : list (char * Z)) :
  bits len (a ++ b) = bits len a + bits len b.
Proof.
  unfold bits. induction a as [|x a IH]; cbn [app fold_right]; [reflexivity|].
  rewrite IH. lia.
Qed.

Lemma bits_Permutation (len : char -> nat) (a b : list (char * Z)) :
  Permutation a b -> bits len a = bits len b.
Proof. induction 1; cbn; unfold bits in *; lia. Qed.

(** The cost of a tree is the number of bits its paths give an input in
    which the symbols have the weights of the leaves. *)
Lemma cost_by_paths (len : char -> nat) (root : MinHeapNode) :
  forall code,
    (forall c p, In (c, p) (paths root code) -> len c = length p) ->
    bits len (leaves root) = cost (depths root (length code)).
Proof.
  induction root as [c f l Hl r Hr]; intros code Hlen.
  cbn [paths leaves depths left right] in *. destruct l as [l|]; destruct r as [r|].
  - inversion Hl as [? Hl'|]; inversion Hr as [? Hr'|]; subst.
    rewrite bits_app, cost_app.
    rewrite (Hl' (code ++ [chr0])), (Hr' (code ++ [chr1])).
    + rewrite !length_app. cbn [length]. rewrite Nat.add_1_r. reflexivity.
    + intros c' p Hin. apply Hlen. apply in_or_app. right. exact Hin.
    + intros c' p Hin. apply Hlen. apply in_or_app. left. exact Hin.
  - inversion Hl as [? Hl'|]; subst. rewrite !app_nil_r in *.
    rewrite (Hl' (code ++ [chr0])) by exact Hlen.
    rewrite length_app. cbn [length]. rewrite Nat.add_1_r. reflexivity.
  - inversion Hr as [? Hr'|]; subst. cbn [app] in *.
    rewrite (Hr' (code ++ [chr1])) by exact Hlen.
    rewrite length_app. cbn [length]. rewrite Nat.add_1_r. reflexivity.
  - cbn. rewrite (Hlen c code) by (left; reflexivity). lia.
Qed.

(** A sum over the symbols of an input, taken symbol by symbol. *)
Lemma sum_by_counts (len : char -> nat) (symbols : list char) :
  NoDup symbols ->
  forall input,
    (forall c, In c input -> In c symbols) ->
    Z.of_nat (list_sum (map len input))
    = fold_right (fun s acc => Z.of_nat (count_occ Z.eq_dec input s) * Z.of_nat (len s) + acc)
        0 symbols.
Proof.
  intros Hnd.
  assert (Hstep : forall c input,
             fold_right (fun s acc => Z.of_nat (count_occ Z.eq_dec (c :: input) s)
                                      * Z.of_nat (len s) + acc) 0 symbols
             = fold_right (fun s acc => Z.of_nat (count_occ Z.eq_dec input s)
                                        * Z.of_nat (len s) + acc) 0 symbols
               + (if in_dec Z.eq_dec c symbols then Z.of_nat (len c) else 0)).
  { intros c input. induction Hnd as [|s symbols Hs Hnd IH]; [reflexivity|].
    cbn [fold_right]. rewrite IH. cbn [count_occ].
    destruct (Z.eq_dec c s) as [->|Hne].
    - destruct (in_dec Z.eq_dec s symbols) as [Hin|_]; [contradiction|].
      destruct (in_dec Z.eq_dec s (s :: symbols)) as [_|Hout];
        [lia|exfalso; apply Hout; left; reflexivity].
    - destruct (in_dec Z.eq_dec c symbols) as [Hin|Hout];
        destruct (in_dec Z.eq_dec c (s :: symbols)) as [Hin'|Hout']; try lia.
      + exfalso. apply Hout'. right. exact Hin.
      + exfalso. destruct Hin' as [E|Hin']; [congruence|contradiction]. }
  induction input as [|c input IH]; intros Hall.
  - cbn. clear. induction symbols as [|s symbols IH]; [reflexivity|].
    cbn [fold_right]. rewrite <- IH. reflexivity.
  - cbn [map list_sum]. rewrite Hstep.
    destruct (in_dec Z.eq_dec c symbols) as [_|Hout];
      [|exfalso; apply Hout, Hall; left; reflexivity].
    rewrite <- IH by (intros c' Hc'; apply Hall; right; exact Hc').
    change (list_sum (len c :: map len input))
      with (len c + list_sum (map len input))%nat. lia.
Qed.

Lemma bits_of_counts (len : char -> nat) (input : list char) (entries : list (char * Z)) :
  Forall (fun entry => snd entry = Z.of_nat (count_occ Z.eq_dec input (fst entry))) entries ->
  bits len entries
  = fold_right (fun s acc => Z.of_nat (count_occ Z.eq_dec input s) * Z.of_nat (len s) + acc)
      0 (map fst entries).
Proof.
  induction 1 as [|[s f] entries Hx Hr IH]; [reflexivity|].
  cbn [map fold_right fst]. rewrite <- IH. cbn in Hx. cbn. unfold bits. lia.
Qed.

Lemma NoDup_fst_unique {A B : Type} (l : list (A * B)) (a : A) (b b' : B) :
  NoDup (map fst l) -> In (a, b) l -> In (a, b') l -> b = b'.
Proof.
  induction l as [|[x y] l IH]; [contradiction|].
  cbn [map fst]. intros Hnd H1 H2. inversion Hnd as [|? ? Hx Hnd']; subst.
  destruct H1 as [H1|H1]; destruct H2 as [H2|H2].
  - congruence.
  - injection H1 as -> _. exfalso. apply Hx. apply in_map_iff. exists (a, b'). auto.
  - injection H2 as -> _. exfalso. apply Hx. apply in_map_iff. exists (a, b). auto.
  - apply IH; assumption.
Qed.

(** X22: the bit string of a whole run of [HuffmanCodes] of
    [huffman_vlad.c] is as short as a code tree can make it. On an array
    that holds the symbols [pre] and then a [NUL], under the conditions of
    the whole run (characters from 1 to 255, [INT_MAX] at most, [n >= 2]
    distinct symbols, [2 n - 1] free cells of [nodes], room for
    [size * (n - 1)] bits), the call returns, and the number of bits in
    [compressed] is no greater than the cost, the sum of count times
    depth, of any tree that has a leaf for each distinct symbol of [pre]
    weighted by the number of times the symbol occurs. *)
Theorem Vlad_HuffmanCodes_shortest (nodeIndex : Z) (pre post : list char) :
  (2 <= length (nodup Z.eq_dec pre))%nat ->
  Forall (fun c => 0 < c < Vlad.MAX_CHAR) pre ->
  Z.of_nat (length pre) <= INT_MAX ->
  0 <= nodeIndex ->
  nodeIndex + 2 * Z.of_nat (length (nodup Z.eq_dec pre)) - 1 <= Vlad.MAX_CHAR ->
  Z.of_nat (length pre) * (Z.of_nat (length (nodup Z.eq_dec pre)) - 1)
  < Vlad.MAX_TREE_HT * Vlad.MAX_CHAR ->
  exists r,
    Vlad.HuffmanCodes nodeIndex (pre ++ NUL :: post) (Z.of_nat (length pre))
    = Returns (r, nodeIndex + 2 * Z.of_nat (length (nodup Z.eq_dec pre)) - 1)
    /\ forall other,
         Permutation (map snd (leaves other))
           (map (fun c => Z.of_nat (count_occ Z.eq_dec pre c)) (nodup Z.eq_dec pre)) ->
         Z.of_nat (length (Vlad.compressed r)) <= cost (depths other 0).
Proof.
  intros Hn2 Hsym Hsize Hidx Hroom Hbits.
  assert (Hne : pre <> []) by (intros ->; cbn in Hn2; lia).
  unfold Vlad.HuffmanCodes.
  (* the counts *)
  rewrite (for_range_read (fun c freq => increment freq c))
    by (rewrite length_app; cbn [length]; lia).
  rewrite Nat2Z.id, firstn_app, firstn_all, Nat.sub_diag, firstn_O, app_nil_r.
  destruct (fold_increment_counts pre (repeat 0 (Z.to_nat Vlad.MAX_CHAR)))
    as (table & Ecount & Ltable & Ncount).
  { rewrite repeat_length. eapply Forall_impl; [|exact Hsym].
    cbn. unfold Vlad.MAX_CHAR. lia. }
  { apply Forall_forall. intros v Hv. apply repeat_spec in Hv. lia. }
  rewrite Ecount. cbn [bind]. rewrite repeat_length in Ltable.
  assert (Ncount' : forall i, nth i table 0 = Z.of_nat (count_occ Z.eq_dec pre (Z.of_nat i))).
  { intros i. rewrite Ncount, nth_repeat. lia. }
  pose proof (fold_increment_total _ _ _ Ecount) as Htotal.
  rewrite total_repeat_0 in Htotal.
  (* the table of symbols *)
  replace (collectUnique Vlad.MAX_CHAR table)
    with (collectUnique (Z.of_nat (length table)) table)
    by (rewrite Ltable; reflexivity).
  rewrite collectUnique_spec. cbn [bind].
  destruct (table_of_counts pre table) as (Hnd & Hrange & Hpos & Hiff & Hn); [|exact Ncount'|].
  { rewrite Ltable. eapply Forall_impl; [|exact Hsym]. cbn. unfold Vlad.MAX_CHAR. lia. }
  set (entries := positive_entries table 0) in *.
  set (n := length (nodup Z.eq_dec pre)) in *.
  rewrite length_map, Hn.
  assert (Hn1 : (1 <= n)%nat).
  { unfold n. destruct pre as [|c pre']; [contradiction|].
    assert (Hc : In c (nodup Z.eq_dec (c :: pre'))) by (apply nodup_In; left; reflexivity).
    destruct (nodup Z.eq_dec (c :: pre')); [contradiction|cbn; lia]. }
  (* the tree and the codes *)
  destruct (Vlad_codes_are_paths nodeIndex (map fst entries) (map snd entries))
    as (root & codes & E & Hadd & Hleaves & G & Lcodes & Hrows).
  { rewrite length_map. lia. }
  { rewrite !length_map. reflexivity. }
  { exact Hnd. }
  { rewrite Ltable in Hrange. eapply Forall_impl; [|exact Hrange]. cbn.
    unfold Vlad.MAX_CHAR. lia. }
  { exact Hpos. }
  { rewrite combine_fst_snd. unfold entries. rewrite weight_positive_entries.
    - unfold UINT_MODULUS, INT_MAX in *. lia.
    - apply Forall_forall. intros f Hf. apply (In_nth _ _ 0) in Hf.
      destruct Hf as (i & _ & <-). rewrite Ncount'. lia. }
  { exact Hidx. }
  { rewrite length_map, Hn. exact Hroom. }
  rewrite length_map, Hn in E. rewrite E. cbn [bind]. rewrite G. cbn [bind].
  (* the length of the codes *)
  assert (Hlenc : forall c, In c pre -> (length (code_of codes c) <= n - 1)%nat).
  { intros c Hc. apply Hiff in Hc. destruct (Hrows c Hc) as (code & Hin & ->).
    pose proof (paths_length root []) as H2. rewrite Forall_forall in H2.
    specialize (H2 _ Hin). cbn [snd length] in H2.
    pose proof (height_lt_leaves root Hadd) as Hh.
    rewrite (Permutation_length Hleaves), length_combine, !length_map, Hn in Hh. lia. }
  (* the bit string *)
  rewrite Vlad_compressInput_rows.
  2:{ eapply Forall_impl; [|exact Hsym]. cbn. unfold NUL. lia. }
  2:{ rewrite Lcodes. eapply Forall_impl; [|exact Hsym]. cbn. unfold Vlad.MAX_CHAR. lia. }
  2:{ pose proof (concat_codes_length codes (n - 1) pre) as Hb.
      rewrite Forall_forall in Hb. specialize (Hb Hlenc). cbn [length].
      assert (Z.of_nat (length (concat (map (code_of codes) pre)))
              <= Z.of_nat (length pre) * (Z.of_nat n - 1)) by nia.
      lia. }
  cbn [bind app].
  assert (Hinner : isLeaf root = false).
  { pose proof (Permutation_length Hleaves) as HL.
    rewrite length_combine, !length_map, Hn in HL. fold n in Hn2.
    destruct root as [d f [l|] [r|]]; try reflexivity. cbn in HL. lia. }
  assert (Hbit : concat (map (code_of codes) pre) <> []).
  { destruct pre as [|c pre']; [contradiction|]. cbn [map concat].
    intros E0. apply app_eq_nil in E0. destruct E0 as [E0 _].
    assert (Hc : In c (map fst entries)) by (apply Hiff; left; reflexivity).
    destruct (Hrows c Hc) as (code & Hin & Ecode).
    pose proof (paths_not_empty root [] Hinner) as H1. rewrite Forall_forall in H1.
    destruct (H1 _ Hin) as (b & s & Hs). cbn [snd app] in Hs. congruence. }
  rewrite Vlad_convertToAscii_bytes by exact Hbit. cbn [bind].
  eexists. split; [reflexivity|]. cbn [Vlad.compressed].
  intros other Pw.
  (* the counts of the table *)
  assert (Hcounts : Forall (fun entry => snd entry
                                         = Z.of_nat (count_occ Z.eq_dec pre (fst entry)))
                      entries).
  { apply Forall_forall. intros [c f] Hin. apply positive_entries_bounds in Hin.
    destruct Hin as (Hc & <- & _). cbn [fst snd]. rewrite Ncount', Z.sub_0_r.
    rewrite Z2Nat.id by lia. reflexivity. }
  assert (Psym : Permutation (map fst entries) (nodup Z.eq_dec pre)).
  { apply NoDup_Permutation; [exact Hnd|apply NoDup_nodup|].
    intros c. rewrite nodup_In. symmetry. apply Hiff. }
  assert (Pw' : Permutation (map snd (leaves other)) (map snd entries)).
  { etransitivity; [exact Pw|].
    etransitivity;
      [apply Permutation_map; symmetry; exact Psym|].
    rewrite map_map. clear - Hcounts.
    induction Hcounts as [|entry entries Hx Hr IH]; [reflexivity|].
    rewrite !map_cons. etransitivity; [apply perm_skip; exact IH|].
    apply Permutation_refl'. f_equal. symmetry. exact Hx. }
  (* the tree costs the least *)
  destruct (buildHuffmanTree_with_least Vlad.MAX_CHAR Vlad.less
              (fun arr => (1 <? length arr)%nat) nodeIndex
              (map fst entries) (map snd entries))
    as (root' & E' & _ & Hleast).
  { left. reflexivity. }
  { exact continue_size_gt_1. }
  { rewrite length_map. lia. }
  { rewrite !length_map. reflexivity. }
  { exact Hpos. }
  { rewrite combine_fst_snd. unfold entries. rewrite weight_positive_entries.
    - unfold UINT_MODULUS, INT_MAX in *. lia.
    - apply Forall_forall. intros f Hf. apply (In_nth _ _ 0) in Hf.
      destruct Hf as (i & _ & <-). rewrite Ncount'. lia. }
  { exact Hidx. }
  { rewrite length_map, Hn. exact Hroom. }
  rewrite length_map, Hn in E'. unfold Vlad.buildHuffmanTree in E. rewrite E in E'.
  injection E' as <-.
  specialize (Hleast other Pw').
  (* the bits are the cost of the tree *)
  rewrite length_concat, map_map.
  rewrite (sum_by_counts (fun c => length (code_of codes c)) (map fst entries) Hnd pre)
    by (intros c Hc; apply Hiff; exact Hc).
  rewrite <- (bits_of_counts _ pre entries Hcounts).
  rewrite combine_fst_snd in Hleaves.
  rewrite <- (bits_Permutation _ _ _ Hleaves).
  rewrite (cost_by_paths _ root []); [exact Hleast|].
  intros c p Hin.
  assert (Hc : In c (map fst entries)).
  { eapply Permutation_in; [apply Permutation_map; exact Hleaves|].
    rewrite <- (paths_symbols root []). apply in_map_iff. exists (c, p). auto. }
  destruct (Hrows c Hc) as (code & Hin' & ->).
  f_equal. apply (NoDup_fst_unique (paths root []) c); [|exact Hin'|exact Hin].
  rewrite paths_symbols. eapply Permutation_NoDup;
    [apply Permutation_map; symmetry; exact Hleaves|exact Hnd].
Qed.

Lemma Vlad_HuffmanCodes_shortest_witness :
  exists r,
    Vlad.HuffmanCodes 0 (chars "abracadabra" ++ NUL :: chars "xyz") 11 = Returns (r, 9)
    /\ forall other,
         Permutation (map snd (leaves other)) [1; 1; 2; 2; 5] ->
         Z.of_nat (length (Vlad.compressed r)) <= cost (depths other 0).
Proof.
  refine (Vlad_HuffmanCodes_shortest 0 (chars "abracadabra") (chars "xyz") _ _ _ _ _ _).
  - vm_compute. lia.
  - repeat constructor; vm_compute; reflexivity.
  - vm_compute. discriminate.
  - lia.
  - vm_compute. discriminate.
  - vm_compute. reflexivity.
Defined.

(** ** The bytes of [convertToAscii] keep the bits *)





(** ** One repeated symbol in [huffman_vlad.c] *)

(** With a code table of empty rows the packer adds no bit. *)
Lemma Vlad_compressInput_no_codes (k : nat) (input : list char) :
  forall bits : cstring,
    Vlad.compressInput input (repeat [] k) bits = Returns bits
    \/ Vlad.compressInput input (repeat [] k) bits = Undefined.
Proof.
  induction input as [|c input IH]; intros bits; [right; reflexivity|].
  cbn [Vlad.compressInput]. destruct (c =? NUL); [left; reflexivity|].
  destruct (read _ c) as [row| |] eqn:E; cbn [bind];
    [|right; reflexivity|exfalso; exact (read_not_OutOfFuel _ _ E)].
  apply (read_returns_inv _ _ _ []) in E. rewrite nth_repeat in E. subst row.
  unfold strcat. destruct (_ <=? _); [|right; reflexivity]. cbn [bind].
  rewrite app_nil_r. apply IH.
Qed.

(** X24: an input of [n >= 1] copies of one symbol [c] in
    [huffman_vlad.c], whatever the array holds behind them.
    [buildHuffmanTree] returns the one leaf as the root and [generateCodes]
    gives [c] the empty code; the run of [HuffmanCodes] never completes
    with defined behaviour: either [compressInput] leaves the array or
    reads a character that is no index of the code table, or the bit
    string is empty and [convertToAscii] declares its array [output] with
    a bound of 0. *)
Theorem Vlad_HuffmanCodes_one_symbol (nodeIndex : Z) (c : char) (n : Z)
  (rest : list char) :
  0 <= c < Vlad.MAX_CHAR ->
  1 <= n <= INT_MAX ->
  0 <= nodeIndex < Vlad.MAX_CHAR ->
  Vlad.buildHuffmanTree nodeIndex [c] [n] 1 = Returns (Node c n None None, nodeIndex + 1)
  /\ (exists codes,
        Vlad.generateCodes (Node c n None None) [] (repeat [] (Z.to_nat Vlad.MAX_CHAR))
        = Returns codes
        /\ code_of codes c = [])
  /\ Vlad.HuffmanCodes nodeIndex (repeat c (Z.to_nat n) ++ rest) n = Undefined.
Proof.
  intros Hc Hn Hidx.
  assert (Hn' : 0 <= n < UINT_MODULUS) by (unfold INT_MAX, UINT_MODULUS in *; lia).
  assert (Hgen : Vlad.generateCodes (Node c n None None) []
                   (repeat [] (Z.to_nat Vlad.MAX_CHAR))
                 = Returns (repeat [] (Z.to_nat Vlad.MAX_CHAR))).
  { cbn [Vlad.generateCodes left right data bind length].
    change (Z.of_nat 0 <? Vlad.MAX_TREE_HT) with true. cbv iota.
    rewrite write_in_bounds by (rewrite repeat_length; unfold Vlad.MAX_CHAR in *; lia).
    f_equal. apply (upd_same _ _ []). apply nth_repeat. }
  split; [apply Vlad_buildHuffmanTree_one_symbol; assumption|]. split.
  - eexists. split; [exact Hgen|]. unfold code_of. apply nth_repeat.
  - unfold Vlad.HuffmanCodes.
    destruct (counts_of_one_symbol c n rest Hc Hn) as (freq & E & L & P).
    rewrite E. cbn [bind].
    replace Vlad.MAX_CHAR with (Z.of_nat (length freq)) at 1
      by (rewrite L; reflexivity).
    rewrite collectUnique_spec, P. cbn [bind map fst snd length].
    change (Z.of_nat 1) with 1.
    rewrite Vlad_buildHuffmanTree_one_symbol by assumption. cbn [bind].
    rewrite Hgen. cbn [bind].
    destruct (Vlad_compressInput_no_codes (Z.to_nat Vlad.MAX_CHAR)
                (repeat c (Z.to_nat n) ++ rest) []) as [R|R]; rewrite R; reflexivity.
Qed.

Lemma Vlad_HuffmanCodes_one_symbol_witness :
  Vlad.HuffmanCodes 0 (chars "aaa" ++ NUL :: chars "b") 3 = Undefined.
Proof.
  refine (proj2 (proj2 (Vlad_HuffmanCodes_one_symbol 0 97 3 (NUL :: chars "b") _ _ _)));
    cbv [Vlad.MAX_CHAR INT_MAX]; lia.
Defined.
